(** * Memory layer: fingerprinting, similarity and retrieval

    A shallow embedding of [libs/memory-layer] (error-hash.ts, similarity.ts,
    the error / solution / embedding services and memory-service.ts) and the
    properties of its matching and retrieval engine.

    Conventions.
    - A JS string is a list of code units; the code units are the 8-bit ones
      (Latin-1), held in [ascii].
    - [Array.prototype.sort] is stable; it is written as a stable insertion
      sort driven by the sign of the comparator.
    - A thrown exception is the [Throw] result of the operation. *)

From Stdlib Require Import List Arith Bool Ascii String ZArith QArith Lia Lqa.
From Stdlib Require Import Floats Sorted.
Import ListNotations.
Close Scope Q_scope.

Set Implicit Arguments.

(* ================================================================= *)
(** ** Code units and the string primitives of the runtime *)

Module Js.

Definition str := list ascii.

Definition code (c : ascii) : nat := nat_of_ascii c.

Definition in_range (lo hi : nat) (c : ascii) : bool :=
  (lo <=? code c) && (code c <=? hi).

Definition is_digit (c : ascii) : bool := in_range 48 57 c.
Definition is_upper (c : ascii) : bool := in_range 65 90 c.
Definition is_lower (c : ascii) : bool := in_range 97 122 c.
Definition is_letter (c : ascii) : bool := is_upper c || is_lower c.

(** [\w] *)
Definition is_word (c : ascii) : bool :=
  is_letter c || is_digit c || (code c =? 95).

(** [\s], which is also what [String.prototype.trim] strips: TAB, LF, VT, FF,
    CR, space and the no-break space. *)
Definition is_space (c : ascii) : bool :=
  in_range 9 13 c || (code c =? 32) || (code c =? 160).

(** Line terminators, which [.] does not match. *)
Definition is_newline (c : ascii) : bool := (code c =? 10) || (code c =? 13).

(** [toLowerCase] on one code unit: A-Z, and the Latin-1 capitals 0xC0-0xDE
    other than the multiplication sign 0xD7. *)
Definition lower_char (c : ascii) : ascii :=
  if is_upper c || (in_range 192 222 c && negb (code c =? 215))
  then ascii_of_nat (code c + 32) else c.

Definition toLowerCase (s : str) : str := map lower_char s.

Fixpoint trimStart (s : str) : str :=
  match s with
  | c :: s' => if is_space c then trimStart s' else s
  | [] => []
  end.

Definition trimEnd (s : str) : str := rev (trimStart (rev s)).

Definition trim (s : str) : str := trimEnd (trimStart s).

Definition of_string (s : string) : str := list_ascii_of_string s.
Definition to_string (s : str) : string := string_of_list_ascii s.

Definition eqb (a b : str) : bool := String.eqb (to_string a) (to_string b).

End Js.

(* ================================================================= *)
(** ** Regular expressions: the subset of the JS engine the patterns use *)

Module Regex.
Import Js.

(** Patterns without captures.  [Chr p] is a character class, [Star] the greedy
    star, [Bound] is [\b], [Eos] is [$] (no [m] flag), [Look] is [(?=...)]. *)
Inductive re : Type :=
| Eps
| Chr (p : ascii -> bool)
| Seq (r1 r2 : re)
| Alt (r1 r2 : re)
| Star (r : re)
| Bound
| Eos
| Look (r : re).

(** A position in the subject: the code unit before it and the remainder. *)
Definition pos : Type := (option ascii * str)%type.

Definition word_before (p : option ascii) : bool :=
  match p with Some c => is_word c | None => false end.

Definition word_after (s : str) : bool :=
  match s with c :: _ => is_word c | [] => false end.

(** Backtracking matcher in continuation-passing style: alternatives are tried
    left to right and the star prefers one more iteration, as the JS engine
    does.  An iteration of the star that consumes nothing is rejected. *)
Fixpoint run (r : re) (p : option ascii) (s : str)
         (k : option ascii -> str -> option pos) {struct r} : option pos :=
  match r with
  | Eps => k p s
  | Chr f =>
      match s with
      | c :: s' => if f c then k (Some c) s' else None
      | [] => None
      end
  | Seq r1 r2 => run r1 p s (fun p' s' => run r2 p' s' k)
  | Alt r1 r2 =>
      match run r1 p s k with
      | Some e => Some e
      | None => run r2 p s k
      end
  | Star r1 =>
      (fix star (fuel : nat) (p : option ascii) (s : str) {struct fuel} : option pos :=
         match fuel with
         | O => k p s
         | S fuel' =>
             match run r1 p s (fun p' s' =>
                     if List.length s' <? List.length s then star fuel' p' s' else None) with
             | Some e => Some e
             | None => k p s
             end
         end) (List.length s) p s
  | Bound => if xorb (word_before p) (word_after s) then k p s else None
  | Eos => match s with [] => k p s | _ :: _ => None end
  | Look r1 =>
      match run r1 p s (fun p' s' => Some (p', s')) with
      | Some _ => k p s
      | None => None
      end
  end.

(** The match that starts at a position, if any: where it ends. *)
Definition match_at (r : re) (p : option ascii) (s : str) : option pos :=
  run r p s (fun p' s' => Some (p', s')).

(** [RegExp.prototype.test] for a pattern without the [g] flag. *)
Fixpoint search (r : re) (p : option ascii) (s : str) : bool :=
  match match_at r p s with
  | Some _ => true
  | None =>
      match s with
      | c :: s' => search r (Some c) s'
      | [] => false
      end
  end.

Definition test (r : re) (s : str) : bool := search r None s.

(** [String.prototype.replace] with a [g] pattern and a replacement string that
    has no [$] in it.  After an empty match the scan moves one code unit on. *)
Fixpoint replace_from (fuel : nat) (r : re) (rep : str)
         (p : option ascii) (s : str) : str :=
  match fuel with
  | O => s
  | S fuel' =>
      match match_at r p s with
      | Some (p', s') =>
          if List.length s' <? List.length s
          then rep ++ replace_from fuel' r rep p' s'
          else match s with
               | c :: t => rep ++ c :: replace_from fuel' r rep (Some c) t
               | [] => rep
               end
      | None =>
          match s with
          | c :: t => c :: replace_from fuel' r rep (Some c) t
          | [] => []
          end
      end
  end.

Definition replace_all (r : re) (rep : str) (s : str) : str :=
  replace_from (S (List.length s)) r rep None s.

(** *** Pattern syntax *)

Definition chr (c : ascii) : re := Chr (Ascii.eqb c).

(** A literal character under the [i] flag. *)
Definition chr_i (c : ascii) : re :=
  Chr (fun x => Ascii.eqb (lower_char x) (lower_char c)).

Fixpoint lit_of (mk : ascii -> re) (s : str) : re :=
  match s with
  | [] => Eps
  | [c] => mk c
  | c :: s' => Seq (mk c) (lit_of mk s')
  end.

Definition lit (s : string) : re := lit_of chr (of_string s).
Definition lit_i (s : string) : re := lit_of chr_i (of_string s).

Definition Plus (r : re) : re := Seq r (Star r).
Definition Opt (r : re) : re := Alt r Eps.

(** [r{n}] *)
Fixpoint Times (n : nat) (r : re) : re :=
  match n with
  | O => Eps
  | S O => r
  | S n' => Seq r (Times n' r)
  end.

(** [r{0,n}], greedy *)
Fixpoint UpTo (n : nat) (r : re) : re :=
  match n with
  | O => Eps
  | S n' => Opt (Seq r (UpTo n' r))
  end.

(** [r{n,m}] and [r{n,}] *)
Definition Between (n m : nat) (r : re) : re := Seq (Times n r) (UpTo (m - n) r).
Definition AtLeast (n : nat) (r : re) : re := Seq (Times n r) (Star r).

Fixpoint seqs (rs : list re) : re :=
  match rs with
  | [] => Eps
  | [r] => r
  | r :: rs' => Seq r (seqs rs')
  end.

Fixpoint alts (rs : list re) : re :=
  match rs with
  | [] => Chr (fun _ => false)
  | [r] => r
  | r :: rs' => Alt r (alts rs')
  end.

Definition digit : re := Chr is_digit.
Definition wordc : re := Chr is_word.
Definition space : re := Chr is_space.
Definition any : re := Chr (fun c => negb (is_newline c)).

End Regex.

(* ================================================================= *)
(** ** The digest of [crypto.createHash('sha256')] *)

Module Sha256.
Import Js.
Local Open Scope Z_scope.

Definition w32 (x : Z) : Z := x mod 4294967296.
Definition rotr (n x : Z) : Z := Z.lor (Z.shiftr x n) (w32 (Z.shiftl x (32 - n))).
Definition add32 (x y : Z) : Z := w32 (x + y).
Definition not32 (x : Z) : Z := 4294967295 - x.

Definition Ch (x y z : Z) : Z := Z.lxor (Z.land x y) (Z.land (not32 x) z).
Definition Maj (x y z : Z) : Z :=
  Z.lxor (Z.lxor (Z.land x y) (Z.land x z)) (Z.land y z).
Definition Sigma0 (x : Z) : Z := Z.lxor (Z.lxor (rotr 2 x) (rotr 13 x)) (rotr 22 x).
Definition Sigma1 (x : Z) : Z := Z.lxor (Z.lxor (rotr 6 x) (rotr 11 x)) (rotr 25 x).
Definition sigma0 (x : Z) : Z := Z.lxor (Z.lxor (rotr 7 x) (rotr 18 x)) (Z.shiftr x 3).
Definition sigma1 (x : Z) : Z := Z.lxor (Z.lxor (rotr 17 x) (rotr 19 x)) (Z.shiftr x 10).

(** The round constants are the first 32 bits of the fractional parts of the
    cube roots of the first 64 primes, the initial state the same of the
    square roots of the first 8. *)
Definition is_prime (n : nat) : bool :=
  (2 <=? n)%nat && forallb (fun d => negb (Nat.modulo n d =? 0)%nat) (seq 2 (n - 2)).

Definition primes (count : nat) : list Z :=
  map Z.of_nat (firstn count (filter is_prime (seq 2 310))).

(** The integer [k]-th root of [x], by bisection between [lo] and [hi]. *)
Fixpoint root (k : Z) (fuel : nat) (lo hi x : Z) : Z :=
  match fuel with
  | O => lo
  | S fuel' =>
      let mid := (lo + hi) / 2 in
      if mid ^ k <=? x then root k fuel' mid hi x else root k fuel' lo mid x
  end.

Definition frac_root (k : Z) (p : Z) : Z :=
  w32 (root k 40 0 (2 ^ 36) (p * 2 ^ (32 * k))).

Definition K : list Z := Eval vm_compute in map (frac_root 3) (primes 64).

Definition H0 : list Z := Eval vm_compute in map (frac_root 2) (primes 8).

(** UTF-8 of a code unit below 256. *)
Definition utf8 (c : ascii) : list Z :=
  let n := Z.of_nat (code c) in
  if n <? 128 then [n] else [Z.lor 192 (Z.shiftr n 6); Z.lor 128 (Z.land n 63)].

Definition be_bytes (count : nat) (x : Z) : list Z :=
  map (fun i => Z.land (Z.shiftr x (8 * Z.of_nat (count - 1 - i))) 255) (seq 0 count).

Definition pad (msg : list Z) : list Z :=
  let l := Z.of_nat (List.length msg) in
  let zeros := Z.to_nat ((55 - l) mod 64) in
  msg ++ [128] ++ repeat 0 zeros ++ be_bytes 8 (8 * l).

Fixpoint words (fuel : nat) (bs : list Z) : list Z :=
  match fuel, bs with
  | S fuel', a :: b :: c :: d :: rest =>
      (((a * 256 + b) * 256 + c) * 256 + d) :: words fuel' rest
  | _, _ => []
  end.

(** The message schedule, most recent word first. *)
Fixpoint schedule (n : nat) (w : list Z) : list Z :=
  match n with
  | O => w
  | S n' =>
      let x := add32 (add32 (sigma1 (nth 1 w 0)) (nth 6 w 0))
                     (add32 (sigma0 (nth 14 w 0)) (nth 15 w 0)) in
      schedule n' (x :: w)
  end.

Definition round (st : list Z) (kw : Z * Z) : list Z :=
  match st with
  | [a; b; c; d; e; f; g; h] =>
      let t1 := add32 (add32 (add32 h (Sigma1 e)) (add32 (Ch e f g) (fst kw))) (snd kw) in
      let t2 := add32 (Sigma0 a) (Maj a b c) in
      [add32 t1 t2; a; b; c; add32 d t1; e; f; g]
  | _ => st
  end.

Definition compress (h : list Z) (block : list Z) : list Z :=
  let w := rev (schedule 48 (rev block)) in
  let st := fold_left round (combine K w) h in
  map (fun xy => add32 (fst xy) (snd xy)) (combine h st).

Fixpoint blocks (fuel : nat) (ws : list Z) (h : list Z) : list Z :=
  match fuel, ws with
  | S fuel', _ :: _ => blocks fuel' (skipn 16 ws) (compress h (firstn 16 ws))
  | _, _ => h
  end.

Definition hex_digit (n : Z) : ascii :=
  ascii_of_nat (Z.to_nat (if n <? 10 then 48 + n else 87 + n)).

Definition hex_byte (b : Z) : str := [hex_digit (Z.shiftr b 4); hex_digit (Z.land b 15)].

(** [createHash('sha256').update(s).digest('hex')] *)
Definition digest_hex (s : str) : str :=
  let bytes := pad (flat_map utf8 s) in
  let ws := words (List.length bytes) bytes in
  let h := blocks (List.length ws) ws H0 in
  flat_map hex_byte (flat_map (be_bytes 4) h).

End Sha256.

(* ================================================================= *)
(** ** utils/error-hash.ts *)

Module ErrorHash.
Import Js Regex.

Definition dquote : ascii := ascii_of_nat 34.
Definition squote : ascii := ascii_of_nat 39.
Definition backslash : ascii := ascii_of_nat 92.

Definition hex_lower : re := Chr (fun c => is_digit c || in_range 97 102 c).
Definition hex_any : re :=
  Chr (fun c => is_digit c || in_range 97 102 c || in_range 65 70 c).

(** [[\w.-]] and [[\w\\.-]] *)
Definition path_char : re :=
  Chr (fun c => is_word c || (code c =? 46) || (code c =? 45)).
Definition win_path_char : re :=
  Chr (fun c => is_word c || (code c =? 92) || (code c =? 46) || (code c =? 45)).

(** [/(?:\/[\w.-]+)+(?:\/[\w.-]+)*\.\w+/g] *)
Definition pat_posix_path : re :=
  seqs [ Plus (Seq (lit "/") (Plus path_char));
         Star (Seq (lit "/") (Plus path_char));
         lit "."; Plus wordc ].

(** [/(?:[A-Z]:\\[\w\\.-]+)+/gi] *)
Definition pat_windows_path : re :=
  Plus (seqs [ Chr is_letter; lit ":"; chr backslash; Plus win_path_char ]).

(** [/(?:line|ln|L)\s*:?\s*\d+/gi] *)
Definition pat_line : re :=
  seqs [ alts [lit_i "line"; lit_i "ln"; lit_i "L"];
         Star space; Opt (lit ":"); Star space; Plus digit ].

(** [/:\d+:\d+/g] *)
Definition pat_line_col : re :=
  seqs [ lit ":"; Plus digit; lit ":"; Plus digit ].

(** [/0x[0-9a-fA-F]+/g] *)
Definition pat_addr : re := seqs [ lit "0x"; Plus hex_any ].

(** [/[0-9a-f]{8}-[0-9a-f]{4}-[0-9a-f]{4}-[0-9a-f]{4}-[0-9a-f]{12}/gi] *)
Definition pat_uuid : re :=
  seqs [ Times 8 hex_any; lit "-"; Times 4 hex_any; lit "-"; Times 4 hex_any;
         lit "-"; Times 4 hex_any; lit "-"; Times 12 hex_any ].

(** [/\d{4}-\d{2}-\d{2}[T ]\d{2}:\d{2}:\d{2}(?:\.\d+)?(?:Z|[+-]\d{2}:?\d{2})?/g] *)
Definition pat_timestamp : re :=
  seqs [ Times 4 digit; lit "-"; Times 2 digit; lit "-"; Times 2 digit;
         Chr (fun c => (code c =? 84) || (code c =? 32));
         Times 2 digit; lit ":"; Times 2 digit; lit ":"; Times 2 digit;
         Opt (Seq (lit ".") (Plus digit));
         Opt (Alt (lit "Z")
                  (seqs [ Chr (fun c => (code c =? 43) || (code c =? 45));
                          Times 2 digit; Opt (lit ":"); Times 2 digit ])) ].

(** [/\b\d{5,}\b/g] *)
Definition pat_id : re := seqs [ Bound; AtLeast 5 digit; Bound ].

(** [/\b\d{1,3}\.\d{1,3}\.\d{1,3}\.\d{1,3}\b/g] *)
Definition pat_ip : re :=
  seqs [ Bound; Between 1 3 digit; lit "."; Between 1 3 digit; lit ".";
         Between 1 3 digit; lit "."; Between 1 3 digit; Bound ].

(** [/:(\d{2,5})(?=\s|$|\/)/g] *)
Definition pat_port : re :=
  seqs [ lit ":"; Between 2 5 digit; Look (alts [space; Eos; lit "/"]) ].

(** The two long-literal patterns: a quote, 50 or more code units other than
    that quote, the quote again; once for the double and once for the single
    quote. *)
Definition pat_long_dq : re :=
  seqs [ chr dquote; AtLeast 50 (Chr (fun c => negb (Ascii.eqb c dquote))); chr dquote ].
Definition pat_long_sq : re :=
  seqs [ chr squote; AtLeast 50 (Chr (fun c => negb (Ascii.eqb c squote))); chr squote ].

(** [/\s+/g] *)
Definition pat_spaces : re := Plus space.

Definition NORMALIZATION_PATTERNS : list (re * str) :=
  [ (pat_posix_path, of_string "<FILE_PATH>");
    (pat_windows_path, of_string "<FILE_PATH>");
    (pat_line, of_string "line <LINE>");
    (pat_line_col, of_string ":<LINE>:<COL>");
    (pat_addr, of_string "<ADDR>");
    (pat_uuid, of_string "<UUID>");
    (pat_timestamp, of_string "<TIMESTAMP>");
    (pat_id, of_string "<ID>");
    (pat_ip, of_string "<IP>");
    (pat_port, of_string ":<PORT>");
    (pat_long_dq, dquote :: of_string "<LONG_STRING>" ++ [dquote]);
    (pat_long_sq, squote :: of_string "<LONG_STRING>" ++ [squote]);
    (pat_spaces, of_string " ") ].

Definition apply_patterns (ps : list (re * str)) (s : str) : str :=
  fold_left (fun acc pr => replace_all (fst pr) (snd pr) acc) ps s.

Definition normalizeErrorMessage (message : str) : str :=
  let normalized := trim message in
  let normalized := apply_patterns NORMALIZATION_PATTERNS normalized in
  let normalized := toLowerCase normalized in
  trim normalized.

(** [crypto.createHash('sha256').update(`${errorType}:${normalized}`).digest('hex')] *)
Definition generateErrorHash (message errorType : str) : str :=
  let normalized := normalizeErrorMessage message in
  let content := errorType ++ of_string ":" ++ normalized in
  Sha256.digest_hex content.

(** [\bw\b] under the [i] flag *)
Definition word (w : string) : re := seqs [Bound; lit_i w; Bound].

Definition errorTypePatterns : list (re * str) :=
  map (fun pr => (fst pr, of_string (snd pr)))
  [ (lit_i "TypeError", "TypeError");
    (lit_i "ReferenceError", "ReferenceError");
    (lit_i "SyntaxError", "SyntaxError");
    (lit_i "RangeError", "RangeError");
    (lit_i "URIError", "URIError");
    (lit_i "EvalError", "EvalError");
    (lit_i "ENOENT", "FileNotFound");
    (lit_i "EACCES", "PermissionDenied");
    (lit_i "ECONNREFUSED", "ConnectionRefused");
    (lit_i "ETIMEDOUT", "Timeout");
    (lit_i "ENOTFOUND", "NotFound");
    (lit_i "AssertionError", "AssertionError");
    (lit_i "ValidationError", "ValidationError");
    (lit_i "AuthenticationError", "AuthenticationError");
    (lit_i "AuthorizationError", "AuthorizationError");
    (lit_i "NetworkError", "NetworkError");
    (lit_i "DatabaseError", "DatabaseError");
    (lit_i "ParseError", "ParseError");
    (word "ESLint", "LintError");
    (seqs [Bound; lit_i "TypeScript"; Bound; Star any; lit_i "error"], "TypeScriptError");
    (lit_i "compilation failed", "CompilationError");
    (lit_i "test failed", "TestFailure");
    (lit_i "assertion failed", "AssertionError") ]%string.

Fixpoint first_match (ps : list (re * str)) (message : str) : option str :=
  match ps with
  | (pattern, type) :: ps' =>
      if test pattern message then Some type else first_match ps' message
  | [] => None
  end.

Definition extractErrorType (message : str) (defaultType : str) : str :=
  match first_match errorTypePatterns message with
  | Some type => type
  | None => defaultType
  end.

Definition unknown : str := of_string "unknown".

Inductive ErrorSeverity : Type := low | medium | high | critical.

Definition any_i (ws : list string) : re := alts (map lit_i ws).

Definition suggestSeverity (message : str) : ErrorSeverity :=
  let lowerMessage := toLowerCase message in
  if test (any_i ["security"; "vulnerability"; "injection"; "xss"; "csrf";
                  "breach"; "leak"; "expose"]%string) lowerMessage
     || test (any_i ["data loss"; "corruption"; "critical"; "fatal";
                     "unrecoverable"]%string) lowerMessage
  then critical
  else if test (any_i ["crash"; "panic"; "segfault"; "out of memory"; "heap";
                       "stack overflow"]%string) lowerMessage
          || test (any_i ["authentication"; "authorization"; "permission denied";
                          "access denied"]%string) lowerMessage
          || test (any_i ["database"; "connection failed";
                          "service unavailable"]%string) lowerMessage
  then high
  else if test (any_i ["error"; "exception"; "failed"; "failure"; "invalid";
                       "unexpected"]%string) lowerMessage
          || test (any_i ["timeout"; "retry"; "not found"; "missing"]%string) lowerMessage
  then medium
  else low.

(** [Set.prototype.add] on a set kept in insertion order. *)
Definition set_add (x : str) (s : list str) : list str :=
  if existsb (Js.eqb x) s then s else s ++ [x].

Definition techPatterns : list (re * str) :=
  map (fun pr => (fst pr, of_string (snd pr)))
  [ (word "react", "react"); (word "vue", "vue"); (word "angular", "angular");
    (seqs [Bound; lit_i "node"; Opt (lit_i "js"); Bound], "nodejs");
    (word "typescript", "typescript"); (word "javascript", "javascript");
    (word "python", "python"); (word "rust", "rust");
    (seqs [Bound; lit_i "go"; Opt (lit_i "lang"); Bound], "golang");
    (word "webpack", "webpack"); (word "vite", "vite"); (word "est", "esbuild");
    (word "npm", "npm"); (word "yarn", "yarn"); (word "pnpm", "pnpm");
    (word "git", "git"); (word "docker", "docker");
    (Alt (word "kubernetes") (word "k8s"), "kubernetes");
    (word "aws", "aws");
    (seqs [Bound; lit_i "postgres"; Opt (lit_i "ql"); Bound], "postgresql");
    (word "mysql", "mysql"); (word "mongodb", "mongodb"); (word "redis", "redis");
    (word "sqlite", "sqlite"); (word "http", "http"); (word "api", "api");
    (word "rest", "rest"); (word "graphql", "graphql");
    (word "websocket", "websocket") ]%string.

Definition domainPatterns : list (re * str) :=
  map (fun pr => (fst pr, of_string (snd pr)))
  [ (seqs [Bound; lit_i "auth"; Opt (Alt (lit_i "entication") (lit_i "orization")); Bound],
     "authentication");
    (word "validation", "validation");
    (Alt (word "parsing") (word "parse"), "parsing");
    (word "network", "network");
    (Alt (word "file") (word "filesystem"), "filesystem");
    (Alt (word "database") (word "db"), "database");
    (Alt (word "cache") (word "caching"), "caching");
    (Alt (word "async") (word "promise"), "async");
    (Alt (word "type") (word "typing"), "types");
    (alts [word "import"; word "export"; word "module"], "modules");
    (Alt (word "build") (word "compile"), "build");
    (Alt (word "test") (word "testing"), "testing");
    (Alt (word "deploy") (word "deployment"), "deployment") ]%string.

Definition add_matching (ps : list (re * str)) (message : str) (tags : list str) : list str :=
  fold_left (fun acc pr => if test (fst pr) message then set_add (snd pr) acc else acc) ps tags.

Definition extractTags (message errorType : str) : list str :=
  let tags := set_add (toLowerCase errorType) [] in
  let tags := add_matching techPatterns message tags in
  add_matching domainPatterns message tags.

End ErrorHash.

(* ================================================================= *)
(** ** Results of operations that may throw *)

Inductive exn : Type :=
| VectorLengthMismatch (a b : nat)
| OutOfRange (offset : nat)
| ErrorNotFound (id : nat)
| SolutionNotFound (id : nat)
| SqliteConstraint.

Inductive result (A : Type) : Type :=
| Ok (a : A)
| Throw (e : exn).

Arguments Ok {A} a.
Arguments Throw {A} e.

Definition bind {A B : Type} (r : result A) (f : A -> result B) : result B :=
  match r with
  | Ok a => f a
  | Throw e => Throw e
  end.

Notation "x <- r ;; k" := (bind r (fun x => k))
  (at level 61, r at next level, right associativity).

Definition is_ok {A : Type} (r : result A) : bool :=
  match r with Ok _ => true | Throw _ => false end.

(* ================================================================= *)
(** ** IEEE-754 binary32, as [Buffer.writeFloatLE] / [readFloatLE] store it *)

Module Float32.
Local Open Scope Z_scope.

(** Round a binary64 value to binary32 (nearest, ties to even). *)
Definition round32 (x : spec_float) : spec_float :=
  match x with
  | S754_finite s m e => binary_round 24 128 s m e
  | _ => x
  end.

Definition sign_bit (s : bool) : Z := if s then 2147483648 else 0.

(** The 32-bit encoding of a binary32 value. *)
Definition encode (x : spec_float) : Z :=
  match x with
  | S754_zero s => sign_bit s
  | S754_infinity s => sign_bit s + 2139095040
  | S754_nan => 2143289344
  | S754_finite s m e =>
      if 8388608 <=? Zpos m
      then sign_bit s + (e + 150) * 8388608 + (Zpos m - 8388608)
      else sign_bit s + Zpos m
  end.

Definition decode (bits : Z) : spec_float :=
  let s := Z.testbit bits 31 in
  let e := Z.land (Z.shiftr bits 23) 255 in
  let m := Z.land bits 8388607 in
  if e =? 0 then
    match m with
    | Zpos p => S754_finite s p (-149)
    | _ => S754_zero s
    end
  else if e =? 255 then
    (if m =? 0 then S754_infinity s else S754_nan)
  else
    match m + 8388608 with
    | Zpos p => S754_finite s p (e - 150)
    | _ => S754_nan
    end.

(** The word a double is stored as, and the double a stored word reads as. *)
Definition bits_of_float (x : float) : Z := encode (round32 (Prim2SF x)) mod 4294967296.
Definition float_of_bits (bits : Z) : float := SF2Prim (decode bits).

(** [Math.fround]: a double rounded to single precision. *)
Definition fround (x : float) : float := SF2Prim (round32 (Prim2SF x)).

End Float32.

(* ================================================================= *)
(** ** Rounding to single precision, as IEEE 754 states it *)

Module Single.
Local Open Scope Z_scope.

(** The integer nearest to [num / 2 ^ n], the even one of two at the same
    distance. *)
Definition nearest_even (num n : Z) : Z :=
  let q := num / 2 ^ n in
  let r := num mod 2 ^ n in
  if 2 * r <? 2 ^ n then q
  else if 2 ^ n <? 2 * r then q + 1
  else if Z.even q then q else q + 1.

(** The mantissa and the exponent [binary_round] arrives at, before it tells
    zero and overflow apart. *)
Definition rounded (prec emax : Z) (m : positive) (e : Z) : Z * Z :=
  let e1 := fexp prec emax (Zpos (digits2_pos m) + e) in
  let q := if e1 <=? e then Zpos m * 2 ^ (e - e1) else nearest_even (Zpos m) (e1 - e) in
  if q =? 2 ^ prec then (2 ^ (prec - 1), e1 + 1) else (q, e1).

Definition classed (prec emax : Z) (s : bool) (qe : Z * Z) : spec_float :=
  match fst qe with
  | Z0 => S754_zero s
  | Zpos p => if snd qe <=? emax - prec then S754_finite s p (snd qe) else S754_infinity s
  | Zneg _ => S754_nan
  end.

(** The size of a number in units of [2 ^ -1074], the least positive double,
    and the number itself in these units. *)
Definition size (x : spec_float) : Z :=
  match x with
  | S754_finite _ m e => Zpos m * 2 ^ (e + 1074)
  | _ => 0
  end.

Definition negative (x : spec_float) : bool :=
  match x with
  | S754_zero s | S754_infinity s | S754_finite s _ _ => s
  | S754_nan => false
  end.

Definition units (x : spec_float) : Z := if negative x then - size x else size x.

Definition is_number (x : spec_float) : bool :=
  match x with
  | S754_zero _ | S754_finite _ _ _ => true
  | _ => false
  end.

(** The values of the binary32 format. *)
Definition single (x : spec_float) : bool := SpecFloat.valid_binary 24 128 x.

Definition even_mantissa (x : spec_float) : bool :=
  match x with
  | S754_finite _ m _ => Z.even (Zpos m)
  | _ => true
  end.

(** Half-way from the largest single, [(2 ^ 24 - 1) * 2 ^ 104], to [2 ^ 128]. *)
Definition overflow : Z := (2 ^ 25 - 1) * 2 ^ (103 + 1074).

(** [r] is the single IEEE 754 rounds [x] to, to nearest and ties to even: a
    number of the format no other is nearer to [x], the one with the even
    mantissa of two at the same distance, and infinity from [overflow] on. *)
Definition nearest_single (x r : spec_float) : Prop :=
  single r = true /\
  match x with
  | S754_finite s _ _ =>
      if overflow <=? size x then r = S754_infinity s
      else
        is_number r = true /\ negative r = s /\
        forall y, single y = true -> is_number y = true ->
          Z.abs (units r - units x) <= Z.abs (units y - units x)
          /\ (Z.abs (units r - units x) = Z.abs (units y - units x) ->
              units y <> units r -> even_mantissa r = true)
  | _ => r = x
  end.

(** Two numbers that are equal, whatever the mantissa and the exponent they
    are written with. *)
Definition same_number (a b : spec_float) : Prop :=
  match a, b with
  | S754_finite s m e, S754_finite s' m' e' =>
      s = s' /\ Zpos m * 2 ^ (e + 1074) = Zpos m' * 2 ^ (e' + 1074)
  | _, _ => a = b
  end.

(** The double [y] is the double [x] rounded to single precision. *)
Definition rounds_to (x y : float) : Prop :=
  exists r, nearest_single (Prim2SF x) r /\ same_number (Prim2SF y) r.

End Single.

(* ================================================================= *)
(** ** utils/similarity.ts *)

Module Similarity.
Import Js.

(** *** Vectors of numbers *)

Section Cosine.
Local Open Scope float_scope.

(** The three accumulators of the loop after the iterations [idxs]. *)
Definition cosine_loop (a b : list float) (idxs : list nat) : float * float * float :=
  fold_left
    (fun '(dotProduct, normA, normB) i =>
       let ai := nth i a nan in
       let bi := nth i b nan in
       (dotProduct + ai * bi, normA + ai * ai, normB + bi * bi))
    idxs (0, 0, 0).

Definition cosineSimilarity (a b : list float) : result float :=
  if negb (List.length a =? List.length b)%nat
  then Throw (VectorLengthMismatch (List.length a) (List.length b))
  else if (List.length a =? 0)%nat then Ok 0
  else
    let '(dotProduct, normA, normB) := cosine_loop a b (seq 0 (List.length a)) in
    let magnitude := sqrt normA * sqrt normB in
    if magnitude =? 0 then Ok 0 else Ok (dotProduct / magnitude).

End Cosine.

(** *** Buffers of packed single-precision numbers *)

Definition Buffer : Type := list Z.

(** [Buffer.allocUnsafe]: [size] bytes of whatever the heap holds. *)
Definition allocUnsafe (heap : nat -> Z) (size : nat) : Buffer := map heap (seq 0 size).

Definition le_bytes (w : Z) : list Z :=
  [ (w mod 256)%Z; ((w / 256) mod 256)%Z; ((w / 65536) mod 256)%Z; ((w / 16777216) mod 256)%Z ].

Definition le_word (bs : list Z) : Z :=
  (nth 0 bs 0 + 256 * nth 1 bs 0 + 65536 * nth 2 bs 0 + 16777216 * nth 3 bs 0)%Z.

Definition writeFloatLE (buffer : Buffer) (value : float) (offset : nat) : result Buffer :=
  if offset + 4 <=? List.length buffer
  then Ok (firstn offset buffer ++ le_bytes (Float32.bits_of_float value)
             ++ skipn (offset + 4) buffer)
  else Throw (OutOfRange offset).

Definition readFloatLE (buffer : Buffer) (offset : nat) : result float :=
  if offset + 4 <=? List.length buffer
  then Ok (Float32.float_of_bits (le_word (firstn 4 (skipn offset buffer))))
  else Throw (OutOfRange offset).

(** [for (let i = 0; i < buffer.length; i += 4)]: the values [i] takes. *)
Definition offsets (len : nat) : list nat := map (fun k => 4 * k) (seq 0 ((len + 3) / 4)).

Definition bufferToFloatArray (buffer : Buffer) : result (list float) :=
  fold_left
    (fun acc i => floats <- acc ;; x <- readFloatLE buffer i ;; Ok (floats ++ [x]))
    (offsets (List.length buffer)) (Ok []).

Definition floatArrayToBuffer (heap : nat -> Z) (arr : list float) : result Buffer :=
  fold_left
    (fun acc i => buffer <- acc ;; writeFloatLE buffer (nth i arr PrimFloat.nan) (i * 4))
    (seq 0 (List.length arr)) (Ok (allocUnsafe heap (List.length arr * 4))).

(** *** Sets of strings *)

Fixpoint dedup (l : list str) : list str :=
  match l with
  | [] => []
  | x :: l' => let d := dedup l' in if existsb (Js.eqb x) d then d else x :: d
  end.

(** [new Set(xs)], as the list of its members. *)
Definition mkSet (xs : list str) : list str := rev (dedup (rev xs)).

Definition has (s : list str) (x : str) : bool := existsb (Js.eqb x) s.

Definition ratio (n m : nat) : Q := (inject_Z (Z.of_nat n) / inject_Z (Z.of_nat m))%Q.

Definition jaccardSimilarity (a b : list str) : Q :=
  let setA := mkSet (map toLowerCase a) in
  let setB := mkSet (map toLowerCase b) in
  if (List.length setA =? 0) && (List.length setB =? 0) then 1%Q
  else
    let intersection := mkSet (filter (has setB) setA) in
    let union := mkSet (setA ++ setB) in
    ratio (List.length intersection) (List.length union).

(** *** Edit distance *)

(** [matrix[i][j]] and [matrix[i][j] = v] on rows that are written left to
    right, one cell past the end at most. *)
Definition cell (matrix : list (list nat)) (i j : nat) : nat := nth j (nth i matrix []) 0.

Definition set_at {A : Type} (l : list A) (i : nat) (v : A) : list A :=
  firstn i l ++ v :: skipn (S i) l.

Definition set_cell (matrix : list (list nat)) (i j v : nat) : list (list nat) :=
  set_at matrix i (set_at (nth i matrix []) j v).

Definition charAt (s : str) (i : nat) : option ascii := nth_error s i.

Definition same_char (x y : option ascii) : bool :=
  match x, y with
  | Some c, Some d => Ascii.eqb c d
  | None, None => true
  | _, _ => false
  end.

Definition lev_cell (a b : str) (matrix : list (list nat)) (i j : nat) : list (list nat) :=
  if same_char (charAt b (i - 1)) (charAt a (j - 1))
  then set_cell matrix i j (cell matrix (i - 1) (j - 1))
  else set_cell matrix i j
         (Nat.min (cell matrix (i - 1) (j - 1) + 1)
            (Nat.min (cell matrix i (j - 1) + 1) (cell matrix (i - 1) j + 1))).

Definition lev_row (a b : str) (matrix : list (list nat)) (i : nat) : list (list nat) :=
  fold_left (fun m j => lev_cell a b m i j) (seq 1 (List.length a)) matrix.

Definition lev_init (a b : str) : list (list nat) :=
  let matrix := map (fun i => [i]) (seq 0 (S (List.length b))) in
  fold_left (fun m j => set_cell m 0 j j) (seq 0 (S (List.length a))) matrix.

Definition levenshteinDistance (a b : str) : nat :=
  if List.length a =? 0 then List.length b
  else if List.length b =? 0 then List.length a
  else
    let matrix := lev_init a b in
    let matrix := fold_left (lev_row a b) (seq 1 (List.length b)) matrix in
    cell matrix (List.length b) (List.length a).

Definition levenshteinSimilarity (a b : str) : Q :=
  let maxLength := Nat.max (List.length a) (List.length b) in
  if maxLength =? 0 then 1%Q
  else (1 - ratio (levenshteinDistance a b) maxLength)%Q.

(** *** Tokens *)

(** [s.split(/\s+/)]: the pieces between the runs of white space; [gap] holds
    inside a run. *)
Fixpoint split_from (gap : bool) (cur : str) (s : str) : list str :=
  match s with
  | [] => [rev cur]
  | c :: s' =>
      if is_space c
      then if gap then split_from true cur s' else rev cur :: split_from true [] s'
      else split_from false (c :: cur) s'
  end.

Definition split_spaces (s : str) : list str := split_from false [] s.

Definition nonempty (s : str) : bool := negb (List.length s =? 0).

Definition tokenSimilarity (a b : str) : Q :=
  let tokensA := filter nonempty (split_spaces (toLowerCase a)) in
  let tokensB := filter nonempty (split_spaces (toLowerCase b)) in
  jaccardSimilarity tokensA tokensB.

Record Weights : Type := { token : option Q; levenshtein : option Q }.

Definition default {A : Type} (o : option A) (d : A) : A :=
  match o with Some x => x | None => d end.

Definition combinedSimilarity (a b : str) (weights : Weights) : Q :=
  let token := default (token weights) (6 # 10)%Q in
  let levenshtein := default (levenshtein weights) (4 # 10)%Q in
  let tokenSim := tokenSimilarity a b in
  let levenshteinSim := levenshteinSimilarity a b in
  (token * tokenSim + levenshtein * levenshteinSim)%Q.

Definition no_weights : Weights := {| token := None; levenshtein := None |}.

End Similarity.

(* ================================================================= *)
(** ** The bytes of packed numbers *)

Module Packing.

(** The four bytes a number is stored as. *)
Definition enc (x : float) : list Z := Similarity.le_bytes (Float32.bits_of_float x).

End Packing.

(* ================================================================= *)
(** ** types.ts and database/schema.ts *)

Module Types.
Import Js.
Export ErrorHash (ErrorSeverity, low, medium, high, critical).

Inductive SolutionSource : Type := auto_mode | agent | manual.

Inductive TagCategory : Type :=
  cat_error_type | cat_technology | cat_framework | cat_domain | cat_custom.

Record ErrorInput : Type := {
  in_message : str;
  in_errorType : str;
  in_severity : option ErrorSeverity;
  in_stackTrace : option str;
  in_filePath : option str;
  in_projectName : option str;
  in_tags : option (list str)
}.

(** A row of [errors].  Time stamps are the readings of [datetime('now')]. *)
Record ErrorRow : Type := {
  id : nat;
  hash : str;
  message : str;
  normalized_message : str;
  error_type : str;
  severity : ErrorSeverity;
  stack_trace : option str;
  file_path : option str;
  project_name : option str;
  occurrence_count : nat;
  first_seen_at : nat;
  last_seen_at : nat
}.

Record ErrorWithTags : Type := { error : ErrorRow; tags : list str }.

Record SolutionInput : Type := {
  si_errorId : nat;
  si_content : str;
  si_codeSnippet : option str;
  si_source : SolutionSource;
  si_projectName : option str
}.

(** A row of [solutions]; [success_rate] is the stored generated column. *)
Record SolutionRow : Type := {
  sol_id : nat;
  sol_error_id : nat;
  content : str;
  code_snippet : option str;
  success_count : nat;
  failure_count : nat;
  success_rate : Q;
  source : SolutionSource;
  sol_project_name : option str;
  created_at : nat
}.

Record TagRow : Type := { tag_id : nat; name : str; category : option TagCategory }.

Record EmbeddingRow : Type := {
  emb_id : nat;
  emb_error_id : nat;
  embedding : Similarity.Buffer;
  model : str;
  dimensions : nat
}.

Record SearchOptions : Type := {
  limit : option Z;
  minSimilarity : option Q;
  opt_tags : option (list str);
  projectName : option str;
  errorType : option str;
  opt_severity : option ErrorSeverity;
  includeEmbeddings : option bool
}.

Definition no_options : SearchOptions :=
  {| limit := None; minSimilarity := None; opt_tags := None; projectName := None;
     errorType := None; opt_severity := None; includeEmbeddings := None |}.

Inductive MatchType : Type := exact | by_hash | semantic | by_tag.

Record ErrorSearchResult : Type := {
  res_error : ErrorWithTags;
  res_solutions : list SolutionRow;
  similarity : option Q;
  matchType : MatchType
}.

(** The tables, each [AUTOINCREMENT] key with the last value it handed out.
    A row of [error_tags] has a rowid of its own, which [error_tag_rowids]
    holds with the key of the row.  [lastInsertRowid] is the rowid of the last
    row the connection inserted. *)
Record Db : Type := {
  errors : list ErrorRow;
  errors_seq : nat;
  solutions : list SolutionRow;
  solutions_seq : nat;
  tag_rows : list TagRow;
  tags_seq : nat;
  error_tags : list (nat * nat);
  error_tag_rowids : list (nat * nat * nat);
  embeddings : list EmbeddingRow;
  embeddings_seq : nat;
  lastInsertRowid : nat
}.

Definition empty_db : Db :=
  {| errors := []; errors_seq := 0; solutions := []; solutions_seq := 0;
     tag_rows := []; tags_seq := 0; error_tags := []; error_tag_rowids := [];
     embeddings := []; embeddings_seq := 0; lastInsertRowid := 0 |}.

(** [CASE WHEN (success_count + failure_count) = 0 THEN 0.0
     ELSE CAST(success_count AS REAL) / CAST((success_count + failure_count) AS REAL) END] *)
Definition generated_success_rate (success failure : nat) : Q :=
  if success + failure =? 0 then 0%Q
  else (inject_Z (Z.of_nat success) / inject_Z (Z.of_nat (success + failure)))%Q.

(** What the engine stores when a row of [solutions] is written. *)
Definition stored (r : SolutionRow) : SolutionRow :=
  {| sol_id := sol_id r; sol_error_id := sol_error_id r; content := content r;
     code_snippet := code_snippet r; success_count := success_count r;
     failure_count := failure_count r;
     success_rate := generated_success_rate (success_count r) (failure_count r);
     source := source r; sol_project_name := sol_project_name r;
     created_at := created_at r |}.

(** [x || d] on a string and [x || null] on an optional one. *)
Definition str_or (x d : str) : str := if List.length x =? 0 then d else x.

Definition or_null (x : option str) : option str :=
  match x with
  | Some s => if List.length s =? 0 then None else Some s
  | None => None
  end.

Definition truthy (x : option str) : bool :=
  match or_null x with Some _ => true | None => false end.

(** [limit || d]: [undefined] and [0] give [d]. *)
Definition Z_or (x : option Z) (d : Z) : Z :=
  match x with
  | Some 0%Z | None => d
  | Some n => n
  end.

(** [a < b] on numbers. *)
Definition Qltb (a b : Q) : bool := negb (Qle_bool b a).

Definition Q_or (x : option Q) (d : Q) : Q :=
  match x with
  | Some q => if Qeq_bool q 0 then d else q
  | None => d
  end.

End Types.

(* ================================================================= *)
(** ** Sorting, as [Array.prototype.sort] and [ORDER BY] do it *)

Module Sorting.

Section Stable.
Context {A : Type}.
(** [after x y]: the comparator is positive on [(x, y)], so [x] goes behind [y]. *)
Variable after : A -> A -> bool.

Fixpoint insert (x : A) (l : list A) : list A :=
  match l with
  | [] => [x]
  | y :: l' => if after x y then y :: insert x l' else x :: l
  end.

Definition sort (l : list A) : list A := fold_right insert [] l.

End Stable.

(** [l.slice(0, n)]: a negative [n] counts from the end. *)
Definition slice {A : Type} (n : Z) (l : list A) : list A :=
  if (n <? 0)%Z then firstn (List.length l - Z.to_nat (- n)) l
  else firstn (Z.to_nat n) l.

(** [LIMIT n]: a negative [n] is no limit. *)
Definition sql_limit {A : Type} (n : Z) (l : list A) : list A :=
  if (n <? 0)%Z then l else firstn (Z.to_nat n) l.

End Sorting.

(* ================================================================= *)
(** ** The SQL statements the services run *)

Module Sql.
Import Js Types.

Definition with_errors (db : Db) (rows : list ErrorRow) (seq rowid : nat) : Db :=
  {| errors := rows; errors_seq := seq; solutions := solutions db;
     solutions_seq := solutions_seq db; tag_rows := tag_rows db; tags_seq := tags_seq db;
     error_tags := error_tags db; error_tag_rowids := error_tag_rowids db;
     embeddings := embeddings db;
     embeddings_seq := embeddings_seq db; lastInsertRowid := rowid |}.

Definition with_solutions (db : Db) (rows : list SolutionRow) (seq rowid : nat) : Db :=
  {| errors := errors db; errors_seq := errors_seq db; solutions := rows;
     solutions_seq := seq; tag_rows := tag_rows db; tags_seq := tags_seq db;
     error_tags := error_tags db; error_tag_rowids := error_tag_rowids db;
     embeddings := embeddings db;
     embeddings_seq := embeddings_seq db; lastInsertRowid := rowid |}.

Definition with_tags (db : Db) (rows : list TagRow) (seq rowid : nat) : Db :=
  {| errors := errors db; errors_seq := errors_seq db; solutions := solutions db;
     solutions_seq := solutions_seq db; tag_rows := rows; tags_seq := seq;
     error_tags := error_tags db; error_tag_rowids := error_tag_rowids db;
     embeddings := embeddings db;
     embeddings_seq := embeddings_seq db; lastInsertRowid := rowid |}.

Definition with_links (db : Db) (links : list (nat * nat)) (rowids : list (nat * nat * nat))
           (rowid : nat) : Db :=
  {| errors := errors db; errors_seq := errors_seq db; solutions := solutions db;
     solutions_seq := solutions_seq db; tag_rows := tag_rows db; tags_seq := tags_seq db;
     error_tags := links; error_tag_rowids := rowids; embeddings := embeddings db;
     embeddings_seq := embeddings_seq db; lastInsertRowid := rowid |}.

Definition link_eqb (a b : nat * nat) : bool := (fst a =? fst b) && (snd a =? snd b).

(** The rowids of the rows of [error_tags] that [links] keeps. *)
Definition rowids_of (db : Db) (links : list (nat * nat)) : list (nat * nat * nat) :=
  filter (fun r => existsb (link_eqb (fst r)) links) (error_tag_rowids db).

(** [error_tags] after a [DELETE] that leaves the rows [links]. *)
Definition with_error_tags (db : Db) (links : list (nat * nat)) : Db :=
  with_links db links (rowids_of db links) (lastInsertRowid db).

(** The rowid of a new row of [error_tags], a table without [AUTOINCREMENT]:
    one more than the largest in use. *)
Definition next_link_rowid (db : Db) : nat :=
  S (fold_right Nat.max 0 (map snd (error_tag_rowids db))).

Definition add_link (db : Db) (e t : nat) : Db :=
  let rowid := next_link_rowid db in
  with_links db (error_tags db ++ [(e, t)]) (error_tag_rowids db ++ [((e, t), rowid)]) rowid.

Definition with_embeddings (db : Db) (rows : list EmbeddingRow) (seq rowid : nat) : Db :=
  {| errors := errors db; errors_seq := errors_seq db; solutions := solutions db;
     solutions_seq := solutions_seq db; tag_rows := tag_rows db; tags_seq := tags_seq db;
     error_tags := error_tags db; error_tag_rowids := error_tag_rowids db;
     embeddings := rows;
     embeddings_seq := seq; lastInsertRowid := rowid |}.

(** [SELECT ... FROM errors WHERE hash = ?] / [WHERE id = ?], first row. *)
Definition error_by_hash (db : Db) (h : str) : option ErrorRow :=
  find (fun r => Js.eqb (hash r) h) (errors db).

Definition error_by_id (db : Db) (i : nat) : option ErrorRow :=
  find (fun r => id r =? i) (errors db).

(** [INSERT INTO errors (...)]: [hash] is [UNIQUE], the key is [AUTOINCREMENT],
    the count defaults to 1 and both time stamps to [datetime('now')]. *)
Definition insert_error (now : nat) (h msg norm type : str) (sev : ErrorSeverity)
           (stack file project : option str) (db : Db) : result (nat * Db) :=
  match error_by_hash db h with
  | Some _ => Throw SqliteConstraint
  | None =>
      let rowid := S (errors_seq db) in
      let row := {| id := rowid; hash := h; message := msg; normalized_message := norm;
                    error_type := type; severity := sev; stack_trace := stack;
                    file_path := file; project_name := project; occurrence_count := 1;
                    first_seen_at := now; last_seen_at := now |} in
      Ok (rowid, with_errors db (errors db ++ [row]) rowid rowid)
  end.

(** [UPDATE errors SET occurrence_count = occurrence_count + 1,
     last_seen_at = datetime('now') WHERE id = ?] *)
Definition seen_again (now : nat) (r : ErrorRow) : ErrorRow :=
  {| id := id r; hash := hash r; message := message r;
     normalized_message := normalized_message r; error_type := error_type r;
     severity := severity r; stack_trace := stack_trace r; file_path := file_path r;
     project_name := project_name r; occurrence_count := occurrence_count r + 1;
     first_seen_at := first_seen_at r; last_seen_at := now |}.

Definition update_error_seen (now : nat) (i : nat) (db : Db) : Db :=
  with_errors db (map (fun r => if id r =? i then seen_again now r else r) (errors db))
              (errors_seq db) (lastInsertRowid db).

(** [SELECT * FROM tags WHERE name = ?] *)
Definition tag_by_name (db : Db) (n : str) : option TagRow :=
  find (fun t => Js.eqb (name t) n) (tag_rows db).

(** [INSERT INTO tags (name, category)]: [name] is [UNIQUE]. *)
Definition insert_tag (n : str) (c : option TagCategory) (db : Db) : result (nat * Db) :=
  match tag_by_name db n with
  | Some _ => Throw SqliteConstraint
  | None =>
      let rowid := S (tags_seq db) in
      Ok (rowid, with_tags db (tag_rows db ++ [{| tag_id := rowid; name := n; category := c |}])
                   rowid rowid)
  end.

Definition has_link (db : Db) (e t : nat) : bool :=
  existsb (fun l => (fst l =? e) && (snd l =? t)) (error_tags db).

(** [INSERT OR IGNORE INTO error_tags (error_id, tag_id)]: the pair is the
    primary key; both columns are foreign keys.  A row that is ignored leaves
    the connection as it is. *)
Definition insert_link (e t : nat) (db : Db) : result Db :=
  if has_link db e t then Ok db
  else match error_by_id db e, find (fun r => tag_id r =? t) (tag_rows db) with
       | Some _, Some _ => Ok (add_link db e t)
       | _, _ => Throw SqliteConstraint
       end.

Fixpoint str_ltb (a b : str) : bool :=
  match a, b with
  | _, [] => false
  | [], _ :: _ => true
  | c :: a', d :: b' =>
      (code c <? code d) || ((code c =? code d) && str_ltb a' b')
  end.

(** [SELECT t.* FROM tags t INNER JOIN error_tags et ON t.id = et.tag_id
     WHERE et.error_id = ? ORDER BY t.name ASC] *)
Definition tags_of_error (db : Db) (e : nat) : list TagRow :=
  Sorting.sort (fun x y => str_ltb (name y) (name x))
    (filter (fun t => has_link db e (tag_id t)) (tag_rows db)).

(** [INSERT INTO solutions (error_id, content, code_snippet, source, project_name)] *)
Definition insert_solution (now : nat) (e : nat) (c : str) (snippet : option str)
           (src : SolutionSource) (project : option str) (db : Db) : result (nat * Db) :=
  match error_by_id db e with
  | None => Throw SqliteConstraint
  | Some _ =>
      let rowid := S (solutions_seq db) in
      let row := stored {| sol_id := rowid; sol_error_id := e; content := c;
                           code_snippet := snippet; success_count := 0; failure_count := 0;
                           success_rate := 0%Q; source := src; sol_project_name := project;
                           created_at := now |} in
      Ok (rowid, with_solutions db (solutions db ++ [row]) rowid rowid)
  end.

Definition bump (success : bool) (r : SolutionRow) : SolutionRow :=
  stored {| sol_id := sol_id r; sol_error_id := sol_error_id r; content := content r;
            code_snippet := code_snippet r;
            success_count := if success then success_count r + 1 else success_count r;
            failure_count := if success then failure_count r else failure_count r + 1;
            success_rate := success_rate r;
            source := source r; sol_project_name := sol_project_name r;
            created_at := created_at r |}.

(** [UPDATE solutions SET <column> = <column> + 1 WHERE id = ?], with the
    number of rows changed. *)
Definition update_solution_count (success : bool) (i : nat) (db : Db) : nat * Db :=
  (List.length (filter (fun r => sol_id r =? i) (solutions db)),
   with_solutions db (map (fun r => if sol_id r =? i then bump success r else r) (solutions db))
                  (solutions_seq db) (lastInsertRowid db)).

(** [SELECT * FROM solutions WHERE error_id = ?
     ORDER BY success_rate DESC, success_count DESC] *)
Definition solution_after (x y : SolutionRow) : bool :=
  match (success_rate x ?= success_rate y)%Q with
  | Lt => true
  | Eq => success_count x <? success_count y
  | Gt => false
  end.

Definition solutions_of_error (db : Db) (e : nat) : list SolutionRow :=
  Sorting.sort solution_after (filter (fun r => sol_error_id r =? e) (solutions db)).

(** [INSERT INTO embeddings (...) ON CONFLICT(error_id) DO UPDATE SET ...].
    The statement draws a key before it meets the conflict: on the update
    path the key is spent, no row is inserted and the rowid of the last
    insert stays. *)
Definition upsert_embedding (e : nat) (buf : Similarity.Buffer) (m : str) (dims : nat)
           (db : Db) : result Db :=
  match error_by_id db e with
  | None => Throw SqliteConstraint
  | Some _ =>
      if existsb (fun r => emb_error_id r =? e) (embeddings db)
      then Ok (with_embeddings db
                 (map (fun r => if emb_error_id r =? e
                                then {| emb_id := emb_id r; emb_error_id := e; embedding := buf;
                                        model := m; dimensions := dims |}
                                else r) (embeddings db))
                 (S (embeddings_seq db)) (lastInsertRowid db))
      else
        let rowid := S (embeddings_seq db) in
        Ok (with_embeddings db
              (embeddings db ++ [{| emb_id := rowid; emb_error_id := e; embedding := buf;
                                    model := m; dimensions := dims |}])
              rowid rowid)
  end.

End Sql.

(* ================================================================= *)
(** ** services/tag-service.ts *)

Module TagService.
Import Js Types Sql.

Definition getTagByName (db : Db) (name : str) : option TagRow :=
  let normalizedName := trim (toLowerCase name) in
  tag_by_name db normalizedName.

Definition createTag (name : str) (category : option TagCategory) (db : Db)
  : result (TagRow * Db) :=
  let normalizedName := trim (toLowerCase name) in
  r <- insert_tag normalizedName category db ;;
  Ok ({| tag_id := fst r; name := normalizedName; category := category |}, snd r).

Fixpoint getOrCreateTags (names : list str) (category : option TagCategory) (db : Db)
  : result (list TagRow * Db) :=
  match names with
  | [] => Ok ([], db)
  | name :: names' =>
      let normalizedName := trim (toLowerCase name) in
      if List.length normalizedName =? 0 then getOrCreateTags names' category db
      else
        r <- match getTagByName db normalizedName with
             | Some tag => Ok (tag, db)
             | None => createTag normalizedName category db
             end ;;
        rest <- getOrCreateTags names' category (snd r) ;;
        Ok (fst r :: fst rest, snd rest)
  end.

Definition getTagsByErrorId (db : Db) (errorId : nat) : list TagRow :=
  tags_of_error db errorId.

Fixpoint addTagsToError (errorId : nat) (tagIds : list nat) (db : Db) : result Db :=
  match tagIds with
  | [] => Ok db
  | tagId :: tagIds' =>
      db' <- insert_link errorId tagId db ;;
      addTagsToError errorId tagIds' db'
  end.

End TagService.

(* ================================================================= *)
(** ** services/error-service.ts *)

Module ErrorService.
Import Js Types Sql ErrorHash.

Definition with_tags_of (db : Db) (row : ErrorRow) : ErrorWithTags :=
  {| error := row; tags := map name (TagService.getTagsByErrorId db (id row)) |}.

Definition recordError (now : nat) (input : ErrorInput) (db : Db) : result (nat * Db) :=
  let errorType := str_or (in_errorType input) (extractErrorType (in_message input) unknown) in
  let severity := match in_severity input with
                  | Some s => s
                  | None => suggestSeverity (in_message input)
                  end in
  let normalizedMessage := normalizeErrorMessage (in_message input) in
  let hash := generateErrorHash (in_message input) errorType in
  match error_by_hash db hash with
  | Some existing =>
      Ok (id existing, update_error_seen now (id existing) db)
  | None =>
      r <- insert_error now hash (in_message input) normalizedMessage errorType severity
             (or_null (in_stackTrace input)) (or_null (in_filePath input))
             (or_null (in_projectName input)) db ;;
      let errorId := fst r in
      let autoTags := extractTags (in_message input) errorType in
      let allTags := Similarity.mkSet (Similarity.default (in_tags input) [] ++ autoTags) in
      if 0 <? List.length allTags then
        tr <- TagService.getOrCreateTags allTags None (snd r) ;;
        db' <- TagService.addTagsToError errorId (map tag_id (fst tr)) (snd tr) ;;
        Ok (errorId, db')
      else Ok (errorId, snd r)
  end.

(** The fingerprint [recordError] stores an input under, and the one
    [findErrorByMessage] looks a query up by. *)
Definition fingerprint (input : ErrorInput) : str :=
  generateErrorHash (in_message input)
    (str_or (in_errorType input) (extractErrorType (in_message input) unknown)).

Definition query_fingerprint (message : str) : str :=
  generateErrorHash message (extractErrorType message unknown).

(** How often the store has seen a fingerprint: the count of its row, 0 when
    it holds none. *)
Definition sightings (db : Db) (h : str) : nat :=
  match error_by_hash db h with
  | Some r => occurrence_count r
  | None => 0
  end.

Definition getErrorById (db : Db) (i : nat) : option ErrorWithTags :=
  option_map (with_tags_of db) (error_by_id db i).

Definition getErrorByHash (db : Db) (h : str) : option ErrorWithTags :=
  option_map (with_tags_of db) (error_by_hash db h).

Definition findErrorByMessage (db : Db) (message : str) (errorType : option str)
  : option ErrorWithTags :=
  let type := match or_null errorType with
              | Some t => t
              | None => extractErrorType message unknown
              end in
  let hash := generateErrorHash message type in
  getErrorByHash db hash.

Definition opt_eqb (filter : option str) (value : option str) : bool :=
  match or_null filter with
  | None => true
  | Some f => match value with Some v => Js.eqb v f | None => false end
  end.

Definition sev_eqb (a b : ErrorSeverity) : bool :=
  match a, b with
  | low, low | medium, medium | high, high | critical, critical => true
  | _, _ => false
  end.

Definition sev_filter (filter : option ErrorSeverity) (value : ErrorSeverity) : bool :=
  match filter with None => true | Some f => sev_eqb value f end.

(** The [WHERE] clause the three optional filters build. *)
Definition matches (options : SearchOptions) (r : ErrorRow) : bool :=
  opt_eqb (projectName options) (project_name r)
  && opt_eqb (errorType options) (Some (error_type r))
  && sev_filter (opt_severity options) (severity r).

(** [ORDER BY last_seen_at DESC LIMIT ?]; rows seen at the same time stay in
    table order. *)
Definition most_recent (n : Z) (rows : list ErrorRow) : list ErrorRow :=
  Sorting.sql_limit n (Sorting.sort (fun x y => last_seen_at x <? last_seen_at y) rows).

(** SQL's [LOWER], which folds A-Z only. *)
Definition sql_lower (s : str) : str :=
  map (fun c => if is_upper c then ascii_of_nat (code c + 32) else c) s.

(** [INNER JOIN error_tags ... INNER JOIN tags ... WHERE LOWER(t.name) IN (...)] *)
Definition tagged (db : Db) (wanted : list str) (r : ErrorRow) : bool :=
  existsb (fun t => has_link db (id r) (tag_id t)
                    && existsb (Js.eqb (sql_lower (name t))) (map toLowerCase wanted))
          (tag_rows db).

Definition searchErrors (db : Db) (options : SearchOptions) : list ErrorWithTags :=
  let limit := Similarity.default (limit options) 20%Z in
  let rows := errors db in
  let rows := match opt_tags options with
              | Some (t :: ts) => filter (tagged db (t :: ts)) rows
              | _ => rows
              end in
  map (with_tags_of db) (most_recent limit (filter (matches options) rows)).

(** What a lexical search did: the rows it compared the query with. *)
Record Scan : Type := {
  found : list (ErrorWithTags * Q);
  compared : list nat
}.

Definition by_similarity (x y : ErrorWithTags * Q) : bool :=
  Qltb 0 (snd y - snd x).

Definition findSimilarErrors (db : Db) (message : str) (options : SearchOptions) : Scan :=
  let limit := Similarity.default (limit options) 10%Z in
  let minSimilarity := Similarity.default (minSimilarity options) (3 # 10)%Q in
  match findErrorByMessage db message None with
  | Some exactMatch => {| found := [(exactMatch, 1%Q)]; compared := [] |}
  | None =>
      let rows := most_recent (limit * 5)%Z (filter (matches options) (errors db)) in
      let normalizedSearch := normalizeErrorMessage message in
      let scored :=
        map (fun row =>
               (row, Similarity.combinedSimilarity normalizedSearch (normalized_message row)
                       Similarity.no_weights)) rows in
      let results :=
        map (fun rs => (with_tags_of db (fst rs), snd rs))
            (filter (fun rs => Qle_bool minSimilarity (snd rs)) scored) in
      {| found := Sorting.slice limit (Sorting.sort by_similarity results);
         compared := map id rows |}
  end.

End ErrorService.

(* ================================================================= *)
(** ** services/solution-service.ts *)

Module SolutionService.
Import Js Types Sql.

Definition recordSolution (now : nat) (input : SolutionInput) (db : Db) : result (nat * Db) :=
  match error_by_id db (si_errorId input) with
  | None => Throw (ErrorNotFound (si_errorId input))
  | Some _ =>
      insert_solution now (si_errorId input) (si_content input)
        (or_null (si_codeSnippet input)) (si_source input)
        (or_null (si_projectName input)) db
  end.

Definition recordSolutionOutcome (solutionId : nat) (success : bool) (db : Db) : result Db :=
  let '(changes, db') := update_solution_count success solutionId db in
  if changes =? 0 then Throw (SolutionNotFound solutionId) else Ok db'.

Definition getSolutionById (db : Db) (i : nat) : option SolutionRow :=
  find (fun r => sol_id r =? i) (solutions db).

Definition getSolutionsForError (db : Db) (errorId : nat) : list SolutionRow :=
  solutions_of_error db errorId.

End SolutionService.

(* ================================================================= *)
(** ** services/embedding-service.ts *)

Module EmbeddingService.
Import Js Types Sql Similarity.
Local Open Scope float_scope.

Definition storeEmbedding (heap : nat -> Z) (errorId : nat) (embedding : list float)
           (model : str) (db : Db) : result (nat * Db) :=
  match error_by_id db errorId with
  | None => Throw (ErrorNotFound errorId)
  | Some _ =>
      embeddingBuffer <- floatArrayToBuffer heap embedding ;;
      db' <- upsert_embedding errorId embeddingBuffer model (List.length embedding) db ;;
      Ok (lastInsertRowid db', db')
  end.

(** The default similarity floor, the double nearest to 0.7. *)
Definition floor_default : float := 0x1.6666666666666p-1.

(** One turn of the loop over the rows of [embeddings]. *)
Definition compare_row (targetEmbedding : list float) (minSimilarity : float)
           (results : list (nat * float)) (row : EmbeddingRow) : result (list (nat * float)) :=
  embedding <- bufferToFloatArray (embedding row) ;;
  if negb (List.length embedding =? List.length targetEmbedding)%nat then Ok results
  else
    similarity <- cosineSimilarity targetEmbedding embedding ;;
    if minSimilarity <=? similarity
    then Ok (results ++ [(emb_error_id row, similarity)])
    else Ok results.

Definition by_score (x y : nat * float) : bool := 0 <? snd y - snd x.

Definition fetch (db : Db) (sorted : list (nat * float)) : list (ErrorWithTags * float) :=
  flat_map (fun r => match ErrorService.getErrorById db (fst r) with
                     | Some error => [(error, snd r)]
                     | None => []
                     end) sorted.

Definition findSimilarByEmbedding (db : Db) (targetEmbedding : list float)
           (limit : option Z) (minSimilarity : option float)
  : result (list (ErrorWithTags * float)) :=
  let limit := default limit 10%Z in
  let minSimilarity := default minSimilarity floor_default in
  results <- fold_left (fun acc row => rs <- acc ;; compare_row targetEmbedding minSimilarity rs row)
                       (embeddings db) (Ok []) ;;
  let sorted := Sorting.slice limit (Sorting.sort by_score results) in
  Ok (fetch db sorted).

End EmbeddingService.

(* ================================================================= *)
(** ** utils/context-builder.ts (the keyword extraction) *)

Module ContextBuilder.
Import Js Types Regex.

Record TaskContext : Type := {
  featureTitle : option str;
  featureDescription : option str;
  errorMessage : option str;
  filePath : option str;
  ctx_projectName : option str;
  ctx_tags : option (list str)
}.

Definition stopWords : list str :=
  map of_string
  [ "a"; "an"; "the"; "and"; "or"; "but"; "in"; "on"; "at"; "to"; "for"; "of"; "with";
    "by"; "is"; "it"; "this"; "that"; "be"; "as"; "are"; "was"; "were"; "been"; "being";
    "have"; "has"; "had"; "do"; "does"; "did"; "will"; "would"; "could"; "should";
    "may"; "might"; "must"; "shall"; "can"; "need" ]%string.

Fixpoint join (sep : str) (parts : list str) : str :=
  match parts with
  | [] => []
  | [x] => x
  | x :: parts' => x ++ sep ++ join sep parts'
  end.

Definition present (x : option str) : list str :=
  match or_null x with Some s => [s] | None => [] end.

(** [/[^a-z0-9\s-]/g] *)
Definition pat_other : re :=
  Chr (fun c => negb (is_lower c || is_digit c || is_space c || (code c =? 45))).

Definition extractContextKeywords (context : TaskContext) : list str :=
  let text := join (of_string " ")
                (present (featureTitle context) ++ present (featureDescription context)
                 ++ present (errorMessage context) ++ present (filePath context)) in
  let words :=
    filter (fun word => (2 <? List.length word) && negb (Similarity.has stopWords word))
      (Similarity.split_spaces (replace_all pat_other (of_string " ") (toLowerCase text))) in
  Similarity.mkSet words.

End ContextBuilder.

(* ================================================================= *)
(** ** services/memory-service.ts *)

Module MemoryService.
Import Js Types Sql.

(** The semantic strategy as [findSimilar] sees it: the provider's
    [generate(text)] followed by [findSimilarByEmbedding(embedding, {limit,
    minSimilarity})], with its scores read as rationals.  [Throw] is a failure
    of either. *)
Definition SemanticSearch : Type :=
  Db -> str -> Z -> Q -> result (list (ErrorWithTags * Q)).

Record Config : Type := {
  enableEmbeddings : bool;
  embeddingGenerator : option SemanticSearch
}.

Definition seen (results : list ErrorSearchResult) (i : nat) : bool :=
  existsb (fun r => id (error (res_error r)) =? i) results.

(** The object pushed for a found pair. *)
Definition entry (db : Db) (kind : Q -> MatchType) (result : ErrorWithTags * Q)
  : ErrorSearchResult :=
  {| res_error := fst result;
     res_solutions := SolutionService.getSolutionsForError db (id (error (fst result)));
     similarity := Some (snd result);
     matchType := kind (snd result) |}.

(** The loop [for (const result of found) if (!seenIds.has(...)) { ...push }]. *)
Definition push_unseen (db : Db) (kind : Q -> MatchType)
           (results : list ErrorSearchResult) (found : list (ErrorWithTags * Q))
  : list ErrorSearchResult :=
  fold_left
    (fun results result =>
       if seen results (id (error (fst result))) then results
       else results ++ [entry db kind result])
    found results.

(** The two kinds of match. *)
Definition semantic_kind (s : Q) : MatchType := semantic.
Definition text_kind (s : Q) : MatchType := if Qeq_bool s 1 then exact else by_hash.

Definition with_limit (options : SearchOptions) (n : Z) : SearchOptions :=
  {| limit := Some n; minSimilarity := minSimilarity options; opt_tags := opt_tags options;
     projectName := projectName options; errorType := errorType options;
     opt_severity := opt_severity options; includeEmbeddings := includeEmbeddings options |}.

(** [similarity || 0] *)
Definition score_of (r : ErrorSearchResult) : Q := Similarity.default (similarity r) 0%Q.

Definition by_similarity (a b : ErrorSearchResult) : bool :=
  Qltb 0 (score_of b - score_of a).

Definition semantic_enabled (config : Config) (options : SearchOptions)
  : option SemanticSearch :=
  if enableEmbeddings config then
    match includeEmbeddings options with
    | Some false => None
    | _ => embeddingGenerator config
    end
  else None.

(** The combined list before it is sorted and cut. *)
Definition merged (config : Config) (db : Db) (errorMessage : str) (options : SearchOptions)
  : list ErrorSearchResult :=
  let results :=
    match semantic_enabled config options with
    | Some search =>
        match search db errorMessage (Z_or (limit options) 5)
                (Q_or (minSimilarity options) (7 # 10)%Q) with
        | Ok semanticResults => push_unseen db semantic_kind [] semanticResults
        | Throw _ => []
        end
    | None => []
    end in
  let textResults :=
    ErrorService.found
      (ErrorService.findSimilarErrors db errorMessage
         (with_limit options (Z_or (limit options) 10 - Z.of_nat (List.length results)))) in
  push_unseen db text_kind results textResults.

Definition findSimilar (config : Config) (db : Db) (errorMessage : str)
           (options : SearchOptions) : list ErrorSearchResult :=
  let results := merged config db errorMessage options in
  let results := Sorting.sort by_similarity results in
  Sorting.slice (Z_or (limit options) 10) results.

Definition findByTags (db : Db) (tags : list str) : list ErrorSearchResult :=
  map (fun error =>
         {| res_error := error;
            res_solutions := SolutionService.getSolutionsForError db (id (Types.error error));
            similarity := None; matchType := by_tag |})
      (ErrorService.searchErrors db
         {| limit := None; minSimilarity := None; opt_tags := Some tags; projectName := None;
            errorType := None; opt_severity := None; includeEmbeddings := None |}).

(** [solutions.reduce((best, s) => s.successRate > best.successRate ? s : best)] *)
Definition better (best s : SolutionRow) : SolutionRow :=
  if Qltb (success_rate best) (success_rate s) then s else best.

Definition calculateResultScore (result : ErrorSearchResult) : Q :=
  let score := 0%Q in
  let score := (score + score_of result * 40)%Q in
  match res_solutions result with
  | [] => score
  | first :: rest =>
      let score := (score + 20)%Q in
      let bestSolution := fold_left better rest first in
      let score := (score + success_rate bestSolution * 30)%Q in
      let totalAttempts := success_count bestSolution + failure_count bestSolution in
      (score + inject_Z (Z.of_nat (Nat.min (totalAttempts * 2) 10)))%Q
  end.

Definition by_score (a b : ErrorSearchResult) : bool :=
  Qltb 0 (calculateResultScore b - calculateResultScore a).

(** The loops [for (const result of found) if unseen, push result]. *)
Definition add_unseen (results found : list ErrorSearchResult) : list ErrorSearchResult :=
  fold_left (fun results result =>
               if seen results (id (error (res_error result))) then results
               else results ++ [result])
            found results.

(** [MemoryContext] without its formatted prompt. *)
Record MemoryContext : Type := {
  relevantErrors : list ErrorSearchResult;
  totalMatches : nat
}.

Definition buildMemoryContext (results : list ErrorSearchResult) : MemoryContext :=
  {| relevantErrors := results; totalMatches := List.length results |}.

Definition getRelevantMemories (config : Config) (db : Db)
           (context : ContextBuilder.TaskContext) : MemoryContext :=
  let results := [] in
  let results :=
    match or_null (ContextBuilder.errorMessage context) with
    | Some errorMessage =>
        add_unseen results
          (findSimilar config db errorMessage
             {| limit := Some 5%Z; minSimilarity := Some (5 # 10)%Q; opt_tags := None;
                projectName := None; errorType := None; opt_severity := None;
                includeEmbeddings := None |})
    | None => results
    end in
  let results :=
    match ContextBuilder.ctx_tags context with
    | Some (t :: ts) => add_unseen results (Sorting.slice 3 (findByTags db (t :: ts)))
    | _ => results
    end in
  let keywords := ContextBuilder.extractContextKeywords context in
  let results :=
    if 0 <? List.length keywords then
      let keywordTags := Sorting.slice 5 keywords in
      add_unseen results (Sorting.slice 3 (findByTags db keywordTags))
    else results in
  let results := Sorting.sort by_score results in
  let topResults := Sorting.slice 5 results in
  buildMemoryContext topResults.

End MemoryService.

(* ================================================================= *)
(** ** Histories: the database after a sequence of service calls *)

Module History.
Import Js Types Sql.

Inductive Op : Type :=
| RecordError (now : nat) (input : ErrorInput)
| RecordSolution (now : nat) (input : SolutionInput)
| RecordOutcome (solutionId : nat) (success : bool)
| StoreEmbedding (heap : nat -> Z) (errorId : nat) (embedding : list float) (model : str).

(** A call that throws leaves the tables as they were: each of the four
    throws before its first write. *)
Definition step (db : Db) (op : Op) : Db :=
  match op with
  | RecordError now input =>
      match ErrorService.recordError now input db with Ok r => snd r | Throw _ => db end
  | RecordSolution now input =>
      match SolutionService.recordSolution now input db with Ok r => snd r | Throw _ => db end
  | RecordOutcome solutionId success =>
      match SolutionService.recordSolutionOutcome solutionId success db with
      | Ok db' => db'
      | Throw _ => db
      end
  | StoreEmbedding heap errorId embedding model =>
      match EmbeddingService.storeEmbedding heap errorId embedding model db with
      | Ok r => snd r
      | Throw _ => db
      end
  end.

Definition run (ops : list Op) (db : Db) : Db := fold_left step ops db.

(** What the schema and the services keep true of the tables. *)
Record wf (db : Db) : Prop := {
  wf_error_ids : Forall (fun r => id r <= errors_seq db) (errors db);
  wf_error_ids_nodup : NoDup (map id (errors db));
  wf_hashes : NoDup (map hash (errors db));
  wf_solution_ids : Forall (fun r => sol_id r <= solutions_seq db) (solutions db);
  wf_solution_ids_nodup : NoDup (map sol_id (solutions db));
  wf_rates : Forall (fun r => success_rate r
                              = generated_success_rate (success_count r) (failure_count r))
                    (solutions db);
  wf_embedding_keys : NoDup (map emb_error_id (embeddings db));
  wf_embedding_buffers :
    Forall (fun r => exists v, embedding r = flat_map Packing.enc v
                               /\ dimensions r = List.length v)
           (embeddings db)
}.

(** What a statement on the tag tables leaves alone. *)
Record frame (db db' : Db) : Prop := {
  fr_errors : errors db' = errors db;
  fr_errors_seq : errors_seq db' = errors_seq db;
  fr_solutions : solutions db' = solutions db;
  fr_solutions_seq : solutions_seq db' = solutions_seq db;
  fr_embeddings : embeddings db' = embeddings db;
  fr_embeddings_seq : embeddings_seq db' = embeddings_seq db
}.

(** A stored row whose vector has as many components as the query. *)
Definition comparable (target : list float) (row : EmbeddingRow) : Prop :=
  exists v, embedding row = flat_map Packing.enc v
            /\ List.length v = List.length target.

Definition has_tag (db : Db) (t : nat) : Prop :=
  exists row, In row (tag_rows db) /\ tag_id row = t.

(** The rows the two inserts append. *)
Definition new_error (now : nat) (input : ErrorInput) (db : Db) : ErrorRow :=
  {| id := S (errors_seq db);
     hash := ErrorService.fingerprint input;
     message := in_message input;
     normalized_message := ErrorHash.normalizeErrorMessage (in_message input);
     error_type := str_or (in_errorType input)
                     (ErrorHash.extractErrorType (in_message input) ErrorHash.unknown);
     severity := match in_severity input with
                 | Some s => s
                 | None => ErrorHash.suggestSeverity (in_message input)
                 end;
     stack_trace := or_null (in_stackTrace input);
     file_path := or_null (in_filePath input);
     project_name := or_null (in_projectName input);
     occurrence_count := 1; first_seen_at := now; last_seen_at := now |}.

Definition new_solution (now : nat) (input : SolutionInput) (db : Db) : SolutionRow :=
  stored {| sol_id := S (solutions_seq db); sol_error_id := si_errorId input;
            content := si_content input; code_snippet := or_null (si_codeSnippet input);
            success_count := 0; failure_count := 0; success_rate := 0%Q;
            source := si_source input; sol_project_name := or_null (si_projectName input);
            created_at := now |}.

End History.

(* ================================================================= *)
(** ** The state of the edit-distance matrix while it is filled *)

Module LevInv.
Import Js Similarity.

(** Rows [0..i) are complete and bounded, row [i] holds its first [j] cells,
    the rows after it hold their first cell only. *)
Record filling (a b : str) (i j : nat) (m : list (list nat)) : Prop := {
  f_rows : List.length m = S (List.length b);
  f_done : forall i', i' < i ->
             List.length (nth i' m []) = S (List.length a)
             /\ forall j', j' <= List.length a -> cell m i' j' <= Nat.max i' j';
  f_cur : List.length (nth i m []) = j
          /\ forall j', j' < j -> cell m i j' <= Nat.max i j';
  f_todo : forall i', i < i' <= List.length b -> nth i' m [] = [i']
}.

End LevInv.

(* ================================================================= *)
(** ** Magnitudes of vectors, as the cosine computes them *)

Module Magnitude.
Local Open Scope float_scope.

(** Every component is zero. *)
Definition zero_vector (v : list float) : bool := forallb (fun x => x =? 0) v.

(** The sum of the squares, accumulated left to right. *)
Definition norm_sq (v : list float) : float := fold_left (fun s x => s + x * x) v 0.

(** [Math.sqrt] of it: the magnitude the cosine divides by. *)
Definition magnitude (v : list float) : float := sqrt (norm_sq v).

(** One turn of the cosine's loop. *)
Definition body (a b : list float) : float * float * float -> nat -> float * float * float :=
  fun '(dotProduct, normA, normB) i =>
    let ai := nth i a nan in
    let bi := nth i b nan in
    (dotProduct + ai * bi, normA + ai * ai, normB + bi * bi).

End Magnitude.

(* ================================================================= *)
(** ** Sample inputs *)

Module Samples.
Import Js Types.

Definition duplicate_error : ErrorInput :=
  {| in_message := of_string "Duplicate error"; in_errorType := of_string "TestError";
     in_severity := Some medium; in_stackTrace := None; in_filePath := None;
     in_projectName := None; in_tags := None |}.

(** The store after one report of it. *)
Definition one_error : Db := History.run [History.RecordError 1 duplicate_error] empty_db.

Definition a_solution : SolutionInput :=
  {| si_errorId := 1; si_content := of_string "Restart the service";
     si_codeSnippet := None; si_source := manual; si_projectName := None |}.

End Samples.

(* ================================================================= *)
(** ** More sample inputs *)

Module Samples2.
Import Js Types.

Definition type_error : ErrorInput :=
  {| in_message := of_string "TypeError: x is not a function at line 10";
     in_errorType := of_string "TypeError";
     in_severity := Some high; in_stackTrace := None; in_filePath := None;
     in_projectName := None; in_tags := None |}.

(** The same report, some lines further down. *)
Definition type_error_query : str := of_string "TypeError: x is not a function at line 99".

Definition two_errors : list History.Op :=
  [ History.RecordError 1 Samples.duplicate_error; History.RecordError 2 type_error ].

(** The row the second report is stored as. *)
Definition stored_type_error : ErrorRow :=
  Eval vm_compute in
    History.new_error 2 type_error (History.run [History.RecordError 1 Samples.duplicate_error] empty_db).

(** Error 1 with an embedding of two dimensions, error 2 with one of three. *)
Definition two_embeddings : list History.Op :=
  two_errors
  ++ [ History.StoreEmbedding (fun _ => 0%Z) 1 [1; 0]%float (of_string "mock-embedding-v1");
       History.StoreEmbedding (fun _ => 0%Z) 2 [0; 1; 0]%float (of_string "mock-embedding-v1") ].

(** The row of the first of them. *)
Definition first_embedding : EmbeddingRow :=
  {| emb_id := 1; emb_error_id := 1;
     embedding := [0; 0; 128; 63; 0; 0; 0; 0]%Z;
     model := of_string "mock-embedding-v1"; dimensions := 2 |}.

(** A semantic strategy that finds the second error at 0.8. *)
Definition semantic_hit : MemoryService.SemanticSearch :=
  fun db _ _ _ => Ok [(ErrorService.with_tags_of db stored_type_error, (8 # 10)%Q)].

Definition with_embeddings : MemoryService.Config :=
  {| MemoryService.enableEmbeddings := true;
     MemoryService.embeddingGenerator := Some semantic_hit |}.



End Samples2.

(* ================================================================= *)
(** ** Ranked lists *)

Module Ranking.
Import Types.

(** Scores fall (weakly) along the list. *)
Definition descending {A : Type} (score : A -> Q) (l : list A) : Prop :=
  Sorted.Sorted (fun a b => (score b <= score a)%Q) l.

Definition id_of (r : ErrorSearchResult) : nat := id (error (res_error r)).

Definition attempts (s : SolutionRow) : nat := success_count s + failure_count s.

(** A solution of the list that no other beats on success rate. *)
Definition best_of (solutions : list SolutionRow) (s : SolutionRow) : Prop :=
  In s solutions /\ forall t, In t solutions -> (success_rate t <= success_rate s)%Q.

(** The relevance score, as the specification words it. *)
Definition relevance (similarity : Q) (best : option SolutionRow) : Q :=
  match best with
  | None => (similarity * 40)%Q
  | Some s =>
      (similarity * 40 + 20 + success_rate s * 30
       + inject_Z (Z.of_nat (Nat.min (2 * attempts s) 10)))%Q
  end.

End Ranking.

(* ================================================================= *)
(** ** What a pattern needs, and what the white-space pattern does *)

Module Analysis.
Import Js Regex.

Definition all_ascii : list ascii := map ascii_of_nat (seq 0 256).

(** [needs ok r]: every match of [r] takes a code unit outside [ok]. *)
Fixpoint needs (ok : ascii -> bool) (r : re) : bool :=
  match r with
  | Chr p => forallb (fun c => negb (ok c && p c)) all_ascii
  | Seq r1 r2 => needs ok r1 || needs ok r2
  | Alt r1 r2 => needs ok r1 && needs ok r2
  | Eps | Star _ | Bound | Eos | Look _ => false
  end.




(** Where a run of white space that starts at a position ends. *)
Fixpoint skip_spaces (p : option ascii) (s : str) : pos :=
  match s with
  | c :: s' => if is_space c then skip_spaces (Some c) s' else (p, s)
  | [] => (p, [])
  end.

(** Every run of white space becomes one space; [gap] holds inside a run. *)
Fixpoint collapse_from (gap : bool) (s : str) : str :=
  match s with
  | [] => []
  | c :: s' =>
      if is_space c
      then if gap then collapse_from true s' else " "%char :: collapse_from true s'
      else c :: collapse_from false s'
  end.

Definition collapse (s : str) : str := collapse_from false s.

(** No white space in front. *)
Definition starts_clean (s : str) : Prop :=
  match s with
  | c :: _ => is_space c = false
  | [] => True
  end.

Definition clean (s : str) : Prop := starts_clean s /\ starts_clean (rev s).

End Analysis.

(* ================================================================= *)
(** ** utils/similarity.ts: the generic ranking helper *)

Module MostSimilar.
Import Types Similarity.

Section Generic.
Context {T : Type}.

(** [(a, b) => b.similarity - a.similarity] *)
Definition by_similarity (a b : T * Q) : bool := Qltb 0 (snd b - snd a).

(** [findMostSimilar], for a similarity function whose values are rationals. *)
Definition findMostSimilar (target : T) (items : list T) (similarityFn : T -> T -> Q)
           (limit : option Z) (minSimilarity : option Q) : list (T * Q) :=
  let limit := default limit 10%Z in
  let minSimilarity := default minSimilarity 0%Q in
  let scored :=
    Sorting.sort by_similarity
      (filter (fun result => Qle_bool minSimilarity (snd result))
         (map (fun item => (item, similarityFn target item)) items)) in
  Sorting.slice limit scored.

End Generic.

End MostSimilar.

(* ================================================================= *)
(** ** The edit distance of prefixes *)

Module EditDistance.
Import Js Similarity.

(** The least number of insertions, deletions and substitutions that turn the
    first [j] code units of [a] into the first [i] code units of [b]. *)
Fixpoint table (a b : str) (i : nat) : nat -> nat :=
  match i with
  | O => fun j => j
  | S i' =>
      fix row (j : nat) : nat :=
        match j with
        | O => S i'
        | S j' =>
            if same_char (charAt b i') (charAt a j') then table a b i' j'
            else Nat.min (table a b i' j' + 1)
                   (Nat.min (row j' + 1) (table a b i' j + 1))
        end
  end.

(** The state of the matrix while it is filled, with the values it holds:
    rows [0..i) are complete, row [i] holds its first [j] cells, the rows after
    it their first cell only. *)
Record tabulated (a b : str) (i j : nat) (m : list (list nat)) : Prop := {
  t_rows : List.length m = S (List.length b);
  t_done : forall i', i' < i ->
             List.length (nth i' m []) = S (List.length a)
             /\ forall j', j' <= List.length a -> cell m i' j' = table a b i' j';
  t_cur : List.length (nth i m []) = j
          /\ forall j', j' < j -> cell m i j' = table a b i j';
  t_todo : forall i', i < i' <= List.length b -> nth i' m [] = [i']
}.

End EditDistance.

(* ================================================================= *)
(** ** The loop that unpacks a buffer *)

Module Unpacking.
Import Similarity.

(** The number the four bytes at an offset read as. *)
Definition word_at (buffer : Buffer) (offset : nat) : float :=
  Float32.float_of_bits (le_word (firstn 4 (skipn offset buffer))).

(** One turn of the loop of [bufferToFloatArray]. *)
Definition read_step (buffer : Buffer) (acc : result (list float)) (i : nat)
  : result (list float) :=
  floats <- acc ;; x <- readFloatLE buffer i ;; Ok (floats ++ [x]).

End Unpacking.

(* ================================================================= *)
(** ** The accumulators of the cosine's loop, with the vectors exchanged *)

Module Accumulators.

(** The dot product stays, the two squared norms change places. *)
Definition swap (acc : float * float * float) : float * float * float :=
  let '(d, nA, nB) := acc in (d, nB, nA).

End Accumulators.

(* ================================================================= *)
(** ** Letter case and the classifying patterns *)

Module CaseAnalysis.
Import Js Regex.

(** [blind r]: no character class of [r] tells a code unit from its lower-case
    form. *)
Fixpoint blind (r : re) : bool :=
  match r with
  | Chr f => forallb (fun c => Bool.eqb (f (lower_char c)) (f c)) Analysis.all_ascii
  | Seq r1 r2 | Alt r1 r2 => blind r1 && blind r2
  | Star r1 | Look r1 => blind r1
  | Eps | Bound | Eos => true
  end.

(** The message holds the word, in any letter case. *)
Definition mentions (w : string) (message : str) : Prop :=
  exists pre mid post,
    message = pre ++ mid ++ post /\ toLowerCase mid = toLowerCase (of_string w).

(** The words of the two patterns [suggestSeverity] tries first. *)
Definition critical_words : list string :=
  [ "security"; "vulnerability"; "injection"; "xss"; "csrf"; "breach"; "leak"; "expose";
    "data loss"; "corruption"; "critical"; "fatal"; "unrecoverable" ]%string.

(** No code unit of the message is one of [A-Za-z]. *)
Definition not_letter (c : ascii) : bool := negb (is_letter c).

Definition letterless (message : str) : bool := forallb not_letter message.

Definition starts_with_letter (w : string) : bool :=
  match of_string w with
  | c :: _ => is_letter c
  | [] => false
  end.

(** The position in front of a suffix: the code unit before it. *)
Definition before (p : option ascii) (pre : str) : option ascii :=
  match rev pre with
  | c :: _ => Some c
  | [] => p
  end.

End CaseAnalysis.

(* ================================================================= *)
(** ** The other statements: deletes with their cascades, updates *)

Module Statements.
Import Js Types Sql.

(** The four tables a delete may touch; the keys handed out stay as they are. *)
Definition with_tables (db : Db) (es : list ErrorRow) (ss : list SolutionRow)
           (ls : list (nat * nat)) (ms : list EmbeddingRow) : Db :=
  {| errors := es; errors_seq := errors_seq db; solutions := ss;
     solutions_seq := solutions_seq db; tag_rows := tag_rows db; tags_seq := tags_seq db;
     error_tags := ls; error_tag_rowids := rowids_of db ls; embeddings := ms;
     embeddings_seq := embeddings_seq db; lastInsertRowid := lastInsertRowid db |}.

(** [DELETE FROM errors WHERE id = ?], with the number of rows deleted.  The
    rows of [solutions], [error_tags] and [embeddings] that refer to the
    error go with it ([ON DELETE CASCADE]). *)
Definition delete_error (i : nat) (db : Db) : nat * Db :=
  if existsb (fun r => id r =? i) (errors db)
  then (List.length (filter (fun r => id r =? i) (errors db)),
        with_tables db
          (filter (fun r => negb (id r =? i)) (errors db))
          (filter (fun r => negb (sol_error_id r =? i)) (solutions db))
          (filter (fun l => negb (fst l =? i)) (error_tags db))
          (filter (fun r => negb (emb_error_id r =? i)) (embeddings db)))
  else (0, db).

(** [DELETE FROM tags WHERE id = ?]; its rows of [error_tags] go with it. *)
Definition delete_tag (i : nat) (db : Db) : nat * Db :=
  if existsb (fun t => tag_id t =? i) (tag_rows db)
  then (List.length (filter (fun t => tag_id t =? i) (tag_rows db)),
        with_error_tags
          (with_tags db (filter (fun t => negb (tag_id t =? i)) (tag_rows db))
             (tags_seq db) (lastInsertRowid db))
          (filter (fun l => negb (snd l =? i)) (error_tags db)))
  else (0, db).

(** [UPDATE tags SET category = ? WHERE id = ?] *)
Definition update_tag_category (i : nat) (c : option TagCategory) (db : Db) : nat * Db :=
  (List.length (filter (fun t => tag_id t =? i) (tag_rows db)),
   with_tags db
     (map (fun t => if tag_id t =? i
                    then {| tag_id := tag_id t; name := name t; category := c |}
                    else t) (tag_rows db))
     (tags_seq db) (lastInsertRowid db)).

(** [DELETE FROM error_tags WHERE error_id = ? AND tag_id = ?] *)
Definition delete_link (e t : nat) (db : Db) : Db :=
  with_error_tags db (filter (fun l => negb ((fst l =? e) && (snd l =? t))) (error_tags db)).

(** [DELETE FROM error_tags WHERE error_id = ?] *)
Definition delete_links_of (e : nat) (db : Db) : Db :=
  with_error_tags db (filter (fun l => negb (fst l =? e)) (error_tags db)).

(** [DELETE FROM solutions WHERE id = ?] and [... WHERE error_id = ?] *)
Definition delete_solution (i : nat) (db : Db) : nat * Db :=
  (List.length (filter (fun r => sol_id r =? i) (solutions db)),
   with_solutions db (filter (fun r => negb (sol_id r =? i)) (solutions db))
     (solutions_seq db) (lastInsertRowid db)).

Definition delete_solutions_of (e : nat) (db : Db) : nat * Db :=
  (List.length (filter (fun r => sol_error_id r =? e) (solutions db)),
   with_solutions db (filter (fun r => negb (sol_error_id r =? e)) (solutions db))
     (solutions_seq db) (lastInsertRowid db)).

(** [UPDATE solutions SET content = ?, code_snippet = ? WHERE id = ?], each of
    the two columns only when a value is given for it. *)
Definition revise (newContent newSnippet : option str) (r : SolutionRow) : SolutionRow :=
  stored {| sol_id := sol_id r; sol_error_id := sol_error_id r;
            content := match newContent with Some c => c | None => content r end;
            code_snippet := match newSnippet with Some s => Some s | None => code_snippet r end;
            success_count := success_count r; failure_count := failure_count r;
            success_rate := success_rate r; source := source r;
            sol_project_name := sol_project_name r; created_at := created_at r |}.

Definition update_solution (i : nat) (newContent newSnippet : option str) (db : Db)
  : nat * Db :=
  (List.length (filter (fun r => sol_id r =? i) (solutions db)),
   with_solutions db
     (map (fun r => if sol_id r =? i then revise newContent newSnippet r else r)
          (solutions db))
     (solutions_seq db) (lastInsertRowid db)).

(** [DELETE FROM embeddings WHERE error_id = ?] *)
Definition delete_embedding (e : nat) (db : Db) : nat * Db :=
  (List.length (filter (fun r => emb_error_id r =? e) (embeddings db)),
   with_embeddings db (filter (fun r => negb (emb_error_id r =? e)) (embeddings db))
     (embeddings_seq db) (lastInsertRowid db)).

End Statements.

(* ================================================================= *)
(** ** services/tag-service.ts: the rest of the tag functions *)

Module TagAdmin.
Import Js Types Sql Statements.

Definition getTagById (db : Db) (i : nat) : option TagRow :=
  find (fun t => tag_id t =? i) (tag_rows db).

(** [ORDER BY name ASC] *)
Definition by_name (x y : TagRow) : bool := str_ltb (name y) (name x).

Definition getAllTags (db : Db) : list TagRow := Sorting.sort by_name (tag_rows db).

Definition cat_eqb (a b : TagCategory) : bool :=
  match a, b with
  | cat_error_type, cat_error_type | cat_technology, cat_technology
  | cat_framework, cat_framework | cat_domain, cat_domain | cat_custom, cat_custom => true
  | _, _ => false
  end.

Definition getTagsByCategory (db : Db) (c : TagCategory) : list TagRow :=
  Sorting.sort by_name
    (filter (fun t => match category t with Some c' => cat_eqb c' c | None => false end)
            (tag_rows db)).

(** The loop of [addTagsToError], statement by statement: the links written
    before one that throws stay written. *)
Fixpoint addTagsToError (errorId : nat) (tagIds : list nat) (db : Db) : Db * option exn :=
  match tagIds with
  | [] => (db, None)
  | tagId :: tagIds' =>
      match insert_link errorId tagId db with
      | Ok db' => addTagsToError errorId tagIds' db'
      | Throw e => (db, Some e)
      end
  end.

Definition removeTagsFromError (errorId : nat) (tagIds : list nat) (db : Db) : Db :=
  fold_left (fun db tagId => delete_link errorId tagId db) tagIds db.

Definition setErrorTags (errorId : nat) (tagIds : list nat) (db : Db) : Db * option exn :=
  let db := delete_links_of errorId db in
  if 0 <? List.length tagIds then addTagsToError errorId tagIds db else (db, None).

(** [SELECT error_id FROM error_tags WHERE tag_id = ?] *)
Definition getErrorIdsByTag (db : Db) (tagId : nat) : list nat :=
  map fst (filter (fun l => snd l =? tagId) (error_tags db)).

Definition updateTagCategory (i : nat) (c : option TagCategory) (db : Db) : bool * Db :=
  let '(changes, db') := update_tag_category i c db in (0 <? changes, db').

Definition deleteTag (i : nat) (db : Db) : bool * Db :=
  let '(changes, db') := delete_tag i db in (0 <? changes, db').

Definition getTagCount (db : Db) : nat := List.length (tag_rows db).

End TagAdmin.

(* ================================================================= *)
(** ** services/error-service.ts: the rest of the error functions *)

Module ErrorAdmin.
Import Js Types Sql Statements.

Definition getRecentErrors (db : Db) (limit : option Z) : list ErrorWithTags :=
  let limit := Similarity.default limit 20%Z in
  map (ErrorService.with_tags_of db) (ErrorService.most_recent limit (errors db)).

(** [ORDER BY occurrence_count DESC LIMIT ?] *)
Definition most_frequent (n : Z) (rows : list ErrorRow) : list ErrorRow :=
  Sorting.sql_limit n
    (Sorting.sort (fun x y => occurrence_count x <? occurrence_count y) rows).

Definition getFrequentErrors (db : Db) (limit : option Z) : list ErrorWithTags :=
  let limit := Similarity.default limit 20%Z in
  map (ErrorService.with_tags_of db) (most_frequent limit (errors db)).

Definition deleteError (i : nat) (db : Db) : bool * Db :=
  let '(changes, db') := delete_error i db in (0 <? changes, db').

Definition getErrorCount (db : Db) : nat := List.length (errors db).

End ErrorAdmin.

(* ================================================================= *)
(** ** services/solution-service.ts: the rest of the solution functions *)

Module SolutionAdmin.
Import Js Types Sql Statements.

(** [... ORDER BY success_rate DESC, success_count DESC LIMIT 1] *)
Definition getBestSolutionForError (db : Db) (errorId : nat) : option SolutionRow :=
  match solutions_of_error db errorId with
  | row :: _ => Some row
  | [] => None
  end.

(** [WHERE success_rate >= ? AND (success_count + failure_count) >= 2
     ORDER BY success_rate DESC, success_count DESC LIMIT ?] *)
Definition getSuccessfulSolutions (db : Db) (minSuccessRate : option Q) (limit : option Z)
  : list SolutionRow :=
  let minSuccessRate := Similarity.default minSuccessRate (7 # 10)%Q in
  let limit := Similarity.default limit 20%Z in
  Sorting.sql_limit limit
    (Sorting.sort solution_after
       (filter (fun r => Qle_bool minSuccessRate (success_rate r)
                         && (2 <=? success_count r + failure_count r))
               (solutions db))).

(** [ORDER BY created_at DESC LIMIT ?] *)
Definition getRecentSolutions (db : Db) (limit : option Z) : list SolutionRow :=
  let limit := Similarity.default limit 20%Z in
  Sorting.sql_limit limit (Sorting.sort (fun x y => created_at x <? created_at y) (solutions db)).

Definition updateSolution (i : nat) (newContent newSnippet : option str) (db : Db)
  : bool * Db :=
  match newContent, newSnippet with
  | None, None => (false, db)
  | _, _ => let '(changes, db') := update_solution i newContent newSnippet db in
            (0 <? changes, db')
  end.

Definition deleteSolution (i : nat) (db : Db) : bool * Db :=
  let '(changes, db') := delete_solution i db in (0 <? changes, db').

Definition deleteSolutionsForError (errorId : nat) (db : Db) : nat * Db :=
  delete_solutions_of errorId db.

Definition getSolutionCount (db : Db) : nat := List.length (solutions db).

(** [SELECT AVG(success_rate) FROM solutions WHERE (success_count +
     failure_count) > 0], and [avg_rate || 0]: no row gives [NULL], so 0. *)
Definition getAverageSuccessRate (db : Db) : Q :=
  let tried := filter (fun r => 0 <? success_count r + failure_count r) (solutions db) in
  match tried with
  | [] => 0%Q
  | _ :: _ =>
      let avg_rate := (fold_right Qplus 0 (map success_rate tried)
                       / inject_Z (Z.of_nat (List.length tried)))%Q in
      Q_or (Some avg_rate) 0%Q
  end.

Definition source_eqb (a b : SolutionSource) : bool :=
  match a, b with
  | auto_mode, auto_mode | agent, agent | manual, manual => true
  | _, _ => false
  end.

(** [WHERE source = ? ORDER BY success_rate DESC] *)
Definition getSolutionsBySource (db : Db) (src : SolutionSource) : list SolutionRow :=
  Sorting.sort (fun x y => Qltb (success_rate x) (success_rate y))
    (filter (fun r => source_eqb (source r) src) (solutions db)).

End SolutionAdmin.

(* ================================================================= *)
(** ** services/embedding-service.ts: the rest of the embedding functions *)

Module EmbeddingAdmin.
Import Js Types Sql Statements Similarity.

Definition getEmbeddingByErrorId (db : Db) (errorId : nat) : option EmbeddingRow :=
  find (fun r => emb_error_id r =? errorId) (embeddings db).

Definition getEmbeddingVector (db : Db) (errorId : nat) : result (option (list float)) :=
  match getEmbeddingByErrorId db errorId with
  | None => Ok None
  | Some row => floats <- bufferToFloatArray (embedding row) ;; Ok (Some floats)
  end.

Definition deleteEmbedding (errorId : nat) (db : Db) : bool * Db :=
  let '(changes, db') := delete_embedding errorId db in (0 <? changes, db').

Definition hasEmbedding (db : Db) (errorId : nat) : bool :=
  existsb (fun r => emb_error_id r =? errorId) (embeddings db).

Definition getEmbeddingCount (db : Db) : nat := List.length (embeddings db).

(** [FROM errors e LEFT JOIN embeddings emb ON e.id = emb.error_id
     WHERE emb.id IS NULL ORDER BY e.last_seen_at DESC LIMIT ?] *)
Definition getErrorsWithoutEmbeddings (db : Db) (limit : option Z) : list nat :=
  let limit := default limit 100%Z in
  map id (ErrorService.most_recent limit
            (filter (fun e => negb (hasEmbedding db (id e))) (errors db))).

(** The body of the transaction of [batchStoreEmbeddings]; a throw rolls it
    back, so the caller keeps the tables it had. *)
Fixpoint batchInsert (heap : nat -> Z) (items : list (nat * list float)) (model : str)
         (db : Db) : result Db :=
  match items with
  | [] => Ok db
  | (errorId, embedding) :: items' =>
      embeddingBuffer <- floatArrayToBuffer heap embedding ;;
      db' <- upsert_embedding errorId embeddingBuffer model (List.length embedding) db ;;
      batchInsert heap items' model db'
  end.

Definition batchStoreEmbeddings (heap : nat -> Z) (items : list (nat * list float))
           (model : str) (db : Db) : result Db :=
  batchInsert heap items model db.

End EmbeddingAdmin.

(* ================================================================= *)
(** ** services/memory-service.ts: capturing and tagging *)

Module MemoryFacade.
Import Js Types Sql.

(** An embedding provider: [generate(text)], which may fail, and its model. *)
Record EmbeddingGenerator : Type := {
  generate : str -> result (list float);
  generator_model : str
}.

Record Settings : Type := {
  enableEmbeddings : bool;
  embeddingGenerator : option EmbeddingGenerator
}.

(** [captureError]: what the [try] block fails with is logged and dropped. *)
Definition captureError (config : Settings) (heap : nat -> Z) (now : nat)
           (input : ErrorInput) (db : Db) : result (nat * Db) :=
  r <- ErrorService.recordError now input db ;;
  let errorId := fst r in
  match enableEmbeddings config, embeddingGenerator config with
  | true, Some generator =>
      match generate generator (in_message input) with
      | Ok embedding =>
          match EmbeddingService.storeEmbedding heap errorId embedding
                  (generator_model generator) (snd r) with
          | Ok stored => Ok (errorId, snd stored)
          | Throw _ => Ok (errorId, snd r)
          end
      | Throw _ => Ok (errorId, snd r)
      end
  | _, _ => Ok (errorId, snd r)
  end.

Definition captureSolution (now : nat) (input : SolutionInput) (db : Db)
  : result (nat * Db) :=
  SolutionService.recordSolution now input db.

Definition reportOutcome (solutionId : nat) (success : bool) (db : Db) : result Db :=
  SolutionService.recordSolutionOutcome solutionId success db.

(** [tagError]: the tags are created before the links are written, and stay
    when a link throws. *)
Definition tagError (errorId : nat) (tags : list str) (db : Db) : Db * option exn :=
  match TagService.getOrCreateTags tags None db with
  | Ok (tagRecords, db') => TagAdmin.addTagsToError errorId (map tag_id tagRecords) db'
  | Throw e => (db, Some e)
  end.

Definition with_errorId (solution : SolutionInput) (errorId : nat) : SolutionInput :=
  {| si_errorId := errorId; si_content := si_content solution;
     si_codeSnippet := si_codeSnippet solution; si_source := si_source solution;
     si_projectName := si_projectName solution |}.

Definition recordErrorWithSolution (config : Settings) (heap : nat -> Z) (now : nat)
           (error : ErrorInput) (solution : SolutionInput) (db : Db)
  : result ((nat * nat) * Db) :=
  r <- captureError config heap now error db ;;
  let errorId := fst r in
  s <- captureSolution now (with_errorId solution errorId) (snd r) ;;
  Ok ((errorId, fst s), snd s).

(** [checkForKnownSolutions]: [found] and [solutions]. *)
Definition checkForKnownSolutions (config : MemoryService.Config) (db : Db)
           (errorMessage : str) : bool * list ErrorSearchResult :=
  let results :=
    MemoryService.findSimilar config db errorMessage
      {| limit := Some 3%Z; minSimilarity := Some (7 # 10)%Q; opt_tags := None;
         projectName := None; errorType := None; opt_severity := None;
         includeEmbeddings := None |} in
  let withSolutions := filter (fun r => 0 <? List.length (res_solutions r)) results in
  (0 <? List.length withSolutions, withSolutions).

End MemoryFacade.

(* ================================================================= *)
(** ** Sessions: the database after any sequence of calls that write *)

Module Session.
Import Js Types Sql.

Inductive Call : Type :=
| Service (op : History.Op)
| CreateTag (name : str) (category : option TagCategory)
| GetOrCreateTags (names : list str) (category : option TagCategory)
| AddTagsToError (errorId : nat) (tagIds : list nat)
| RemoveTagsFromError (errorId : nat) (tagIds : list nat)
| SetErrorTags (errorId : nat) (tagIds : list nat)
| UpdateTagCategory (tagId : nat) (category : option TagCategory)
| DeleteTag (tagId : nat)
| TagError (errorId : nat) (tags : list str)
| DeleteError (errorId : nat)
| UpdateSolution (solutionId : nat) (newContent newSnippet : option str)
| DeleteSolution (solutionId : nat)
| DeleteSolutionsForError (errorId : nat)
| DeleteEmbedding (errorId : nat)
| BatchStoreEmbeddings (heap : nat -> Z) (items : list (nat * list float)) (model : str).

(** The tables a call leaves behind, whether it returns or throws. *)
Definition step (db : Db) (call : Call) : Db :=
  match call with
  | Service op => History.step db op
  | CreateTag name category =>
      match TagService.createTag name category db with Ok r => snd r | Throw _ => db end
  | GetOrCreateTags names category =>
      match TagService.getOrCreateTags names category db with
      | Ok r => snd r
      | Throw _ => db
      end
  | AddTagsToError errorId tagIds => fst (TagAdmin.addTagsToError errorId tagIds db)
  | RemoveTagsFromError errorId tagIds => TagAdmin.removeTagsFromError errorId tagIds db
  | SetErrorTags errorId tagIds => fst (TagAdmin.setErrorTags errorId tagIds db)
  | UpdateTagCategory tagId category => snd (TagAdmin.updateTagCategory tagId category db)
  | DeleteTag tagId => snd (TagAdmin.deleteTag tagId db)
  | TagError errorId tags => fst (MemoryFacade.tagError errorId tags db)
  | DeleteError errorId => snd (ErrorAdmin.deleteError errorId db)
  | UpdateSolution solutionId newContent newSnippet =>
      snd (SolutionAdmin.updateSolution solutionId newContent newSnippet db)
  | DeleteSolution solutionId => snd (SolutionAdmin.deleteSolution solutionId db)
  | DeleteSolutionsForError errorId => snd (SolutionAdmin.deleteSolutionsForError errorId db)
  | DeleteEmbedding errorId => snd (EmbeddingAdmin.deleteEmbedding errorId db)
  | BatchStoreEmbeddings heap items model =>
      match EmbeddingAdmin.batchStoreEmbeddings heap items model db with
      | Ok db' => db'
      | Throw _ => db
      end
  end.

Definition run (calls : list Call) (db : Db) : Db := fold_left step calls db.

(** An error, a tag with this key is in its table. *)
Definition has_error (db : Db) (e : nat) : Prop :=
  exists row, In row (errors db) /\ id row = e.

(** What the schema and the services keep true of the tag table: the keys,
    the uniqueness of names, and their spelling (lower case, trimmed). *)
Record tags_sound (db : Db) : Prop := {
  ts_ids : Forall (fun t => tag_id t <= tags_seq db) (tag_rows db);
  ts_ids_nodup : NoDup (map tag_id (tag_rows db));
  ts_names_nodup : NoDup (map name (tag_rows db));
  ts_names : Forall (fun t => trim (toLowerCase (name t)) = name t) (tag_rows db)
}.

(** The primary key of [error_tags] and the foreign keys of the schema. *)
Record refs_sound (db : Db) : Prop := {
  rs_links_nodup : NoDup (error_tags db);
  rs_links : Forall (fun l => has_error db (fst l) /\ History.has_tag db (snd l))
                    (error_tags db);
  rs_solutions : Forall (fun r => has_error db (sol_error_id r)) (solutions db);
  rs_embeddings : Forall (fun r => has_error db (emb_error_id r)) (embeddings db)
}.

Record sound (db : Db) : Prop := {
  s_wf : History.wf db;
  s_tags : tags_sound db;
  s_refs : refs_sound db
}.

End Session.

(* ================================================================= *)
(** ** Counting reports *)

Module Counting.
Import Js Types.

(** The inputs a history reports, in order. *)
Definition reports (ops : list History.Op) : list ErrorInput :=
  flat_map (fun op => match op with
                      | History.RecordError _ input => [input]
                      | _ => []
                      end) ops.

(** [SELECT SUM(occurrence_count) FROM errors] *)
Definition total_occurrences (db : Db) : nat :=
  fold_right Nat.add 0 (map occurrence_count (errors db)).

(** The tag names [recordError] asks for, as [getOrCreateTags] spells them. *)
Definition wanted_tags (input : ErrorInput) : list str :=
  let errorType := str_or (in_errorType input)
                     (ErrorHash.extractErrorType (in_message input) ErrorHash.unknown) in
  let autoTags := ErrorHash.extractTags (in_message input) errorType in
  let allTags := Similarity.mkSet (Similarity.default (in_tags input) [] ++ autoTags) in
  filter Similarity.nonempty (map (fun n => trim (toLowerCase n)) allTags).

(** How many of the reports of a history have a given fingerprint. *)
Definition reported (ops : list History.Op) (h : str) : nat :=
  List.length (filter (fun input => Js.eqb (ErrorService.fingerprint input) h) (reports ops)).

(** The same for a session, where the calls to [recordError] stand among the
    calls to the other functions that write. *)
Definition session_reports (calls : list Session.Call) : list ErrorInput :=
  flat_map (fun call => match call with
                        | Session.Service (History.RecordError _ input) => [input]
                        | _ => []
                        end) calls.

Definition session_reported (calls : list Session.Call) (h : str) : nat :=
  List.length (filter (fun input => Js.eqb (ErrorService.fingerprint input) h)
                      (session_reports calls)).

(** The calls that delete no row of [errors]: all but [deleteError]. *)
Definition keeps_errors (call : Session.Call) : bool :=
  match call with
  | Session.DeleteError _ => false
  | _ => true
  end.

End Counting.

(* ================================================================= *)
(** ** What the semantic search keeps of a stored embedding *)

Module Semantic.
Import Js Types Similarity.

(** An entry of the results that a stored embedding accounts for: the
    embedding unpacks to a vector as long as the query, the entry carries the
    error id of the row and the cosine of the two, and this is at or above
    the floor. *)
Definition scored (target : list float) (minSim : float) (row : EmbeddingRow)
           (r : nat * float) : Prop :=
  fst r = emb_error_id row
  /\ exists w, bufferToFloatArray (embedding row) = Ok w
               /\ List.length w = List.length target
               /\ cosineSimilarity target w = Ok (snd r)
               /\ (minSim <=? snd r)%float = true.

End Semantic.

(* ================================================================= *)
(** * Properties *)

(* ================================================================= *)
(** ** Edit distance *)

Module ListFacts.

Lemma fold_left_seq_inv {A : Type} (P : nat -> A -> Prop) (f : A -> nat -> A) :
  forall n s m,
    P s m ->
    (forall k x, s <= k < s + n -> P k x -> P (S k) (f x k)) ->
    P (s + n) (fold_left f (seq s n) m).
Proof.
  induction n as [|n IH]; intros s m H0 Hstep; simpl.
  - now rewrite Nat.add_0_r.
  - rewrite <- Nat.add_succ_comm. apply IH.
    + apply Hstep; [lia | exact H0].
    + intros k x Hk. apply Hstep. lia.
Qed.

Lemma fold_left_map {A B C : Type} (f : A -> C -> A) (g : B -> C) :
  forall l a, fold_left f (map g l) a = fold_left (fun a x => f a (g x)) l a.
Proof. induction l as [|x l IH]; intros a; simpl; [reflexivity | apply IH]. Qed.

Lemma fold_left_ext {A B : Type} (f g : A -> B -> A) :
  (forall a x, f a x = g a x) ->
  forall l a, fold_left f l a = fold_left g l a.
Proof.
  intros H. induction l as [|x l IH]; intros a; simpl; [reflexivity|].
  rewrite H. apply IH.
Qed.

End ListFacts.

Module LevFacts.
Import Js Similarity ListFacts.

Lemma set_at_length {A} (l : list A) i v :
  i < List.length l -> List.length (set_at l i v) = List.length l.
Proof.
  intros H. unfold set_at. rewrite length_app, length_firstn.
  change (List.length (v :: skipn (S i) l)) with (S (List.length (skipn (S i) l))).
  rewrite length_skipn. lia.
Qed.

Lemma set_at_same {A} (l : list A) i v d :
  i <= List.length l -> nth i (set_at l i v) d = v.
Proof.
  intros H. unfold set_at. rewrite app_nth2; rewrite length_firstn.
  - replace (i - Nat.min i (List.length l)) with 0 by lia. reflexivity.
  - lia.
Qed.

Lemma set_at_other {A} (l : list A) i k v d :
  i < List.length l -> k <> i -> nth k (set_at l i v) d = nth k l d.
Proof.
  intros H Hk. unfold set_at.
  destruct (Nat.lt_ge_cases k i) as [Hlt|Hge].
  - rewrite app_nth1 by (rewrite length_firstn; lia).
    rewrite nth_firstn. destruct (Nat.ltb_spec k i); [reflexivity | lia].
  - rewrite app_nth2 by (rewrite length_firstn; lia).
    rewrite length_firstn. replace (Nat.min i (List.length l)) with i by lia.
    destruct (k - i) as [|d'] eqn:E; [lia|]. cbn [nth].
    rewrite nth_skipn. f_equal. lia.
Qed.

Lemma set_at_end {A} (l : list A) v : set_at l (List.length l) v = l ++ [v].
Proof.
  unfold set_at. rewrite firstn_all. rewrite skipn_all2 by lia. reflexivity.
Qed.

End LevFacts.

Module LevProofs.
Import Js Similarity ListFacts LevFacts LevInv.

Lemma cell_set_cell_same m i j v :
  i < List.length m -> j <= List.length (nth i m []) -> cell (set_cell m i j v) i j = v.
Proof.
  intros Hi Hj. unfold cell, set_cell.
  rewrite set_at_same by lia. now apply set_at_same.
Qed.

Lemma row_set_cell_other m i i' j v :
  i < List.length m -> i' <> i -> nth i' (set_cell m i j v) [] = nth i' m [].
Proof. intros Hi Hne. unfold set_cell. now apply set_at_other. Qed.

Lemma row_set_cell_same m i j v :
  i < List.length m -> nth i (set_cell m i j v) [] = set_at (nth i m []) j v.
Proof. intros Hi. unfold set_cell. apply set_at_same. lia. Qed.

Lemma set_cell_rows m i j v :
  i < List.length m -> List.length (set_cell m i j v) = List.length m.
Proof. intros Hi. unfold set_cell. now apply set_at_length. Qed.

(** Writing the next cell of the current row. *)
Lemma filling_push a b i j m v :
  i <= List.length b ->
  filling a b i j m -> v <= Nat.max i j ->
  filling a b i (S j) (set_cell m i j v).
Proof.
  intros Hi [Hrows Hdone [Hlen Hcur] Htodo] Hv.
  assert (Him : i < List.length m) by lia.
  split.
  - now rewrite set_cell_rows.
  - intros i' Hi'. unfold cell. rewrite row_set_cell_other by lia.
    apply Hdone; assumption.
  - rewrite row_set_cell_same by assumption. subst j.
    rewrite set_at_end. split.
    + rewrite length_app. simpl. lia.
    + intros j' Hj'. unfold cell. rewrite row_set_cell_same by assumption.
      rewrite set_at_end.
      destruct (Nat.eq_dec j' (List.length (nth i m []))) as [->|Hne].
      * rewrite nth_middle. exact Hv.
      * rewrite app_nth1 by lia. apply Hcur. lia.
  - intros i' Hi'. rewrite row_set_cell_other by lia. now apply Htodo.
Qed.

Lemma lev_cell_filling a b i j m :
  1 <= i <= List.length b -> 1 <= j ->
  filling a b i j m -> filling a b i (S j) (lev_cell a b m i j).
Proof.
  intros Hi Hj F.
  assert (Hd : cell m (i - 1) (j - 1) <= Nat.max (i - 1) (j - 1)).
  { destruct F as [_ Hdone [Hlen Hcur] _].
    destruct (Nat.le_gt_cases (j - 1) (List.length a)) as [Hle|Hgt].
    - apply Hdone; lia.
    - unfold cell. destruct (Hdone (i - 1)) as [Hl _]; [lia|].
      rewrite nth_overflow by lia. lia. }
  unfold lev_cell.
  destruct (same_char _ _); apply filling_push; try assumption; try lia.
Qed.

Lemma lev_row_filling a b i m :
  1 <= i <= List.length b ->
  filling a b i 1 m -> filling a b i (S (List.length a)) (lev_row a b m i).
Proof.
  intros Hi F. unfold lev_row.
  change (S (List.length a)) with (1 + List.length a).
  apply (fold_left_seq_inv (fun j x => filling a b i j x)); [exact F|].
  intros k x Hk Fk. apply lev_cell_filling; [assumption | lia | assumption].
Qed.

(** A finished row, seen from the row after it. *)
Lemma filling_next a b i m :
  S i <= List.length b ->
  filling a b i (S (List.length a)) m -> filling a b (S i) 1 m.
Proof.
  intros Hi [Hrows Hdone [Hlen Hcur] Htodo]. split.
  - assumption.
  - intros i' Hi'. destruct (Nat.eq_dec i' i) as [->|Hne].
    + split; [assumption|]. intros j' Hj'. apply Hcur. lia.
    + apply Hdone. lia.
  - rewrite (Htodo (S i)) by lia. split; [reflexivity|].
    intros j' Hj'. unfold cell. rewrite (Htodo (S i)) by lia.
    destruct j'; [simpl; lia | lia].
  - intros i' Hi'. apply Htodo. lia.
Qed.

Lemma lev_init_filling a b : filling a b 0 (S (List.length a)) (lev_init a b).
Proof.
  unfold lev_init.
  set (m0 := map (fun i => [i]) (seq 0 (S (List.length b)))).
  assert (Hlen0 : List.length m0 = S (List.length b)).
  { unfold m0. now rewrite length_map, length_seq. }
  assert (Hm0 : forall i, i <= List.length b -> nth i m0 [] = [i]).
  { intros i Hi. unfold m0.
    rewrite (nth_indep _ [] [0]) by (rewrite length_map, length_seq; lia).
    transitivity ((fun i => [i]) (nth i (seq 0 (S (List.length b))) 0)).
    - exact (map_nth (fun i => [i]) _ 0 i).
    - rewrite seq_nth by lia. reflexivity. }
  cbn [seq fold_left].
  change (S (List.length a)) with (1 + List.length a).
  apply (fold_left_seq_inv (fun j x => filling a b 0 j x)).
  - split.
    + rewrite set_cell_rows; lia.
    + intros i' Hi'. lia.
    + rewrite row_set_cell_same by lia. rewrite Hm0 by lia. split; [reflexivity|].
      intros j' Hj'. unfold cell. rewrite row_set_cell_same by lia.
      rewrite Hm0 by lia. destruct j'; [simpl; lia | lia].
    + intros i' Hi'. rewrite row_set_cell_other by lia. apply Hm0. lia.
  - intros k x Hk Fk. apply filling_push; [lia | assumption | lia].
Qed.

Lemma lev_rows_filling a b :
  forall n, n <= List.length b ->
    filling a b n (S (List.length a))
      (fold_left (lev_row a b) (seq 1 n) (lev_init a b)).
Proof.
  induction n as [|n IH]; intros Hn.
  - apply lev_init_filling.
  - rewrite seq_S, fold_left_app. cbn [fold_left Nat.add].
    apply lev_row_filling; [lia|].
    apply filling_next; [lia|]. apply IH. lia.
Qed.

Lemma levenshteinDistance_le_max (a b : str) :
  levenshteinDistance a b <= Nat.max (List.length a) (List.length b).
Proof.
  unfold levenshteinDistance.
  destruct (Nat.eqb_spec (List.length a) 0) as [Ha|Ha]; [lia|].
  destruct (Nat.eqb_spec (List.length b) 0) as [Hb|Hb]; [lia|].
  destruct (@lev_rows_filling a b (List.length b) (Nat.le_refl _)) as [_ _ [_ Hcur] _].
  rewrite Nat.max_comm. apply Hcur. lia.
Qed.

End LevProofs.

Module RatioFacts.
Import Similarity.

Lemma ratio_nonneg n m : (0 <= ratio n m)%Q.
Proof.
  unfold ratio. destruct m as [|k].
  - simpl. unfold Qdiv, Qinv. simpl. unfold Qle. simpl. lia.
  - unfold Qdiv, Qinv, Qmult, Qle, inject_Z. simpl. lia.
Qed.

Lemma ratio_le_1 n m : n <= m -> (ratio n m <= 1)%Q.
Proof.
  intros H. unfold ratio. destruct m as [|k].
  - replace n with 0 by lia. unfold Qdiv, Qinv, Qmult, Qle, inject_Z. simpl. lia.
  - unfold Qdiv, Qinv, Qmult, Qle, inject_Z. simpl. lia.
Qed.

End RatioFacts.

(** C10: the normalised edit similarity lies in [[0, 1]], because the edit
    distance of two strings never exceeds the length of the longer one. *)
Theorem C10_levenshtein_similarity_in_unit_interval (a b : Js.str) :
  Similarity.levenshteinDistance a b <= Nat.max (List.length a) (List.length b)
  /\ (0 <= Similarity.levenshteinSimilarity a b)%Q
  /\ (Similarity.levenshteinSimilarity a b <= 1)%Q.
Proof.
  pose proof (LevProofs.levenshteinDistance_le_max a b) as Hd.
  split; [exact Hd|].
  unfold Similarity.levenshteinSimilarity.
  destruct (Nat.max (List.length a) (List.length b) =? 0).
  - split; unfold Qle; simpl; lia.
  - pose proof (RatioFacts.ratio_nonneg (Similarity.levenshteinDistance a b)
                  (Nat.max (List.length a) (List.length b))).
    pose proof (RatioFacts.ratio_le_1 Hd). split; lra.
Qed.

(* ================================================================= *)
(** ** Cosine similarity *)

Module FloatFacts.
Local Open Scope float_scope.

Lemma zero_cases (x : float) : (x =? 0) = true -> x = 0 \/ x = -0.
Proof.
  intros H. rewrite eqb_spec in H.
  change (Prim2SF 0) with (S754_zero false) in H.
  rewrite <- (SF2Prim_Prim2SF x).
  destruct (Prim2SF x) as [s|s| |s m e].
  - destruct s; [right | left]; reflexivity.
  - destruct s; discriminate H.
  - discriminate H.
  - destruct s; discriminate H.
Qed.

Lemma finite_cases (y : float) :
  is_finite y = true ->
  exists s, Prim2SF y = S754_zero s \/ exists m e, Prim2SF y = S754_finite s m e.
Proof.
  unfold is_finite, is_nan, is_infinity. intros H.
  rewrite !eqb_spec, abs_spec in H.
  change (Prim2SF infinity) with (S754_infinity false) in H.
  destruct (Prim2SF y) as [s|s| |s m e].
  - exists s. now left.
  - destruct s; discriminate H.
  - discriminate H.
  - exists s. right. now exists m, e.
Qed.

Lemma zero_mul_finite (y : float) : is_finite y = true -> (0 * y =? 0) = true.
Proof.
  intros H. rewrite eqb_spec, mul_spec.
  change (Prim2SF 0) with (S754_zero false).
  destruct (finite_cases y H) as [s [E | [m [e E]]]]; rewrite E; destruct s; reflexivity.
Qed.

Lemma finite_mul_zero (y : float) : is_finite y = true -> (y * 0 =? 0) = true.
Proof.
  intros H. rewrite eqb_spec, mul_spec.
  change (Prim2SF 0) with (S754_zero false).
  destruct (finite_cases y H) as [s [E | [m [e E]]]]; rewrite E; destruct s; reflexivity.
Qed.

End FloatFacts.

Module CosineProofs.
Import Similarity Magnitude FloatFacts ListFacts.
Local Open Scope float_scope.

Lemma cosine_loop_norms :
  forall a b acc,
    List.length a = List.length b ->
    let '(_, nA, nB) := fold_left (body a b) (seq 0 (List.length a)) acc in
    nA = fold_left (fun s x => s + x * x) a (snd (fst acc))
    /\ nB = fold_left (fun s x => s + x * x) b (snd acc).
Proof.
  induction a as [|x a IH]; intros b acc Hlen.
  - destruct b; [|discriminate]. destruct acc as [[d nA] nB]. simpl. auto.
  - destruct b as [|y b]; [discriminate|]. injection Hlen as Hlen.
    cbn [List.length seq fold_left]. rewrite <- seq_shift.
    rewrite fold_left_map.
    rewrite (fold_left_ext _ (body a b)) by (intros [[d nA] nB] i; reflexivity).
    specialize (IH b (body (x :: a) (y :: b) acc 0) Hlen).
    destruct (fold_left (body a b) (seq 0 (List.length a)) (body (x :: a) (y :: b) acc 0))
      as [[d nA] nB].
    destruct acc as [[d0 nA0] nB0]. exact IH.
Qed.

Lemma cosine_loop_spec (a b : list float) :
  List.length a = List.length b ->
  exists d, cosine_loop a b (seq 0 (List.length a)) = (d, norm_sq a, norm_sq b).
Proof.
  intros Hlen. pose proof (cosine_loop_norms a b (0, 0, 0) Hlen) as H.
  unfold cosine_loop. fold (body a b).
  destruct (fold_left (body a b) (seq 0 (List.length a)) (0, 0, 0)) as [[d nA] nB].
  destruct H as [-> ->]. now exists d.
Qed.

Lemma norm_sq_zero_from (v : list float) :
  zero_vector v = true -> fold_left (fun s x => s + x * x) v 0 = 0.
Proof.
  induction v as [|x v IH]; intros H; [reflexivity|].
  simpl in H. apply andb_prop in H as [Hx Hv]. cbn [fold_left].
  destruct (zero_cases Hx) as [-> | ->]; exact (IH Hv).
Qed.

Lemma norm_sq_zero (v : list float) : zero_vector v = true -> norm_sq v = 0.
Proof. apply norm_sq_zero_from. Qed.

Lemma cosine_total (a b : list float) :
  List.length a = List.length b -> exists r, cosineSimilarity a b = Ok r.
Proof.
  intros Hlen. unfold cosineSimilarity. rewrite Hlen, Nat.eqb_refl. cbn [negb].
  destruct (List.length b =? 0)%nat; [eauto|].
  destruct (cosine_loop a b _) as [[d nA] nB].
  destruct (_ =? _); eauto.
Qed.

End CosineProofs.

(** What the guards of [cosineSimilarity] do give: it throws exactly on
    vectors of different lengths; on vectors of one length it returns a
    number, which is 0 for two empty vectors, 0 whenever the product of the
    two magnitudes it computes is zero (a magnitude that underflows to zero
    included), and so 0 whenever one vector is all zeros and the magnitude
    computed for the other is finite. *)
Lemma cosine_guards (a b : list float) :
  (is_ok (Similarity.cosineSimilarity a b) = false <-> List.length a <> List.length b)
  /\ (List.length a = List.length b -> exists r, Similarity.cosineSimilarity a b = Ok r)
  /\ Similarity.cosineSimilarity [] [] = Ok 0%float
  /\ (List.length a = List.length b ->
      (Magnitude.magnitude a * Magnitude.magnitude b =? 0)%float = true ->
      Similarity.cosineSimilarity a b = Ok 0%float)
  /\ (List.length a = List.length b ->
      Magnitude.zero_vector a = true -> is_finite (Magnitude.magnitude b) = true ->
      Similarity.cosineSimilarity a b = Ok 0%float)
  /\ (List.length a = List.length b ->
      Magnitude.zero_vector b = true -> is_finite (Magnitude.magnitude a) = true ->
      Similarity.cosineSimilarity a b = Ok 0%float).
Proof.
  assert (Hshape : List.length a = List.length b ->
            Similarity.cosineSimilarity a b =
            if (List.length a =? 0)%nat then Ok 0%float
            else if (Magnitude.magnitude a * Magnitude.magnitude b =? 0)%float then Ok 0%float
                 else Ok (fst (fst (Similarity.cosine_loop a b (seq 0 (List.length a))))
                          / (Magnitude.magnitude a * Magnitude.magnitude b))%float).
  { intros Hlen. unfold Similarity.cosineSimilarity.
    rewrite Hlen, Nat.eqb_refl. cbn [negb]. rewrite <- Hlen.
    destruct (CosineProofs.cosine_loop_spec a b Hlen) as [d ->]. reflexivity. }
  repeat split.
  - intros H Hlen. rewrite (Hshape Hlen) in H.
    destruct (List.length a =? 0)%nat; [discriminate|].
    destruct (_ =? _)%float; discriminate.
  - intros Hne. unfold Similarity.cosineSimilarity.
    destruct (Nat.eqb_spec (List.length a) (List.length b)); [contradiction | reflexivity].
  - intros Hlen. rewrite (Hshape Hlen).
    destruct (List.length a =? 0)%nat; [eauto|].
    destruct (_ =? _)%float; eauto.
  - intros Hlen Hz. rewrite (Hshape Hlen), Hz.
    destruct (List.length a =? 0)%nat; reflexivity.
  - intros Hlen Hz Hfin. rewrite (Hshape Hlen).
    destruct (List.length a =? 0)%nat; [reflexivity|].
    unfold Magnitude.magnitude at 1. rewrite (CosineProofs.norm_sq_zero a Hz).
    change (sqrt 0)%float with 0%float.
    now rewrite (@FloatFacts.zero_mul_finite _ Hfin).
  - intros Hlen Hz Hfin. rewrite (Hshape Hlen).
    destruct (List.length a =? 0)%nat; [reflexivity|].
    unfold Magnitude.magnitude at 2. rewrite (CosineProofs.norm_sq_zero b Hz).
    change (sqrt 0)%float with 0%float.
    now rewrite (@FloatFacts.finite_mul_zero _ Hfin).
Qed.

(** At a vector of zeros and a vector of ones the guard returns 0. *)
Lemma cosine_guards_example :
  Similarity.cosineSimilarity [0; 0]%float [1; 1]%float = Ok 0%float.
Proof.
  destruct (cosine_guards [0; 0]%float [1; 1]%float) as (_ & _ & _ & _ & H & _).
  apply H; reflexivity.
Defined.

(** C6 at the vector [[0]] against [[2 ^ 700]]: the two have one length and
    the first has magnitude zero, so the claim, the comment of the function
    (a value between -1 and 1) and its test for zero vectors ask for 0.  The
    code computes the magnitude of the second as infinity, the product of
    the two as NaN, finds that this is not zero and divides: it returns NaN. *)
Theorem C6_zero_vector_against_overflow :
  List.length [0]%float = List.length [0x1p+700]%float
  /\ Magnitude.zero_vector [0]%float = true
  /\ Magnitude.magnitude [0]%float = 0%float
  /\ Magnitude.magnitude [0x1p+700]%float = infinity
  /\ (Magnitude.magnitude [0]%float * Magnitude.magnitude [0x1p+700]%float =? 0)%float
     = false
  /\ Similarity.cosineSimilarity [0]%float [0x1p+700]%float = Ok nan
  /\ Similarity.cosineSimilarity [0]%float [0x1p+700]%float <> Ok 0%float.
Proof.
  repeat split.
  intros H.
  apply (f_equal (fun r => match r with Ok x => is_nan x | Throw _ => false end)) in H.
  vm_compute in H. discriminate H.
Qed.

(* ================================================================= *)
(** ** Rounding a double to binary32 *)

Module RoundFacts.
Import Single.
Local Open Scope Z_scope.

Lemma digits_bounds (m : positive) :
  2 ^ (Zpos (digits2_pos m) - 1) <= Zpos m < 2 ^ Zpos (digits2_pos m).
Proof.
  induction m as [m IH|m IH|]; cbn [digits2_pos]; [| |cbn; lia];
    rewrite Pos2Z.inj_succ;
    set (d := Zpos (digits2_pos m)) in *;
    assert (Hd : 0 < d) by (unfold d; lia);
    replace (Z.succ d - 1) with d by lia;
    assert (E1 : 2 ^ d = 2 * 2 ^ (d - 1))
      by (replace d with (Z.succ (d - 1)) at 1 by lia; apply Z.pow_succ_r; lia);
    rewrite Z.pow_succ_r by lia.
  - change (Zpos m~1) with (2 * Zpos m + 1). lia.
  - change (Zpos m~0) with (2 * Zpos m). lia.
Qed.

Lemma digits_unique (n d : Z) :
  0 < d -> 2 ^ (d - 1) <= n < 2 ^ d -> Zdigits2 n = d.
Proof.
  intros Hd [Hlo Hhi].
  assert (0 < n) by (pose proof (Z.pow_pos_nonneg 2 (d - 1)); lia).
  destruct n as [|m|m]; try lia. cbn [Zdigits2].
  pose proof (digits_bounds m) as [Blo Bhi].
  set (k := Zpos (digits2_pos m)) in *.
  assert (0 < k) by (unfold k; lia).
  destruct (Z.lt_trichotomy k d) as [Hlt|[Heq|Hgt]]; [|exact Heq|].
  - assert (2 ^ k <= 2 ^ (d - 1)) by (apply Z.pow_le_mono_r; lia). lia.
  - assert (2 ^ d <= 2 ^ (k - 1)) by (apply Z.pow_le_mono_r; lia). lia.
Qed.

Lemma iter_pos_nat {A} (f : A -> A) (p : positive) :
  forall x, iter_pos f p x = Nat.iter (Pos.to_nat p) f x.
Proof.
  induction p as [p IH|p IH|]; intros x; cbn [iter_pos].
  - rewrite !IH, Pos2Nat.inj_xI. rewrite <- Nat.iter_succ_r.
    rewrite <- Nat.iter_add. f_equal. lia.
  - rewrite !IH, Pos2Nat.inj_xO. rewrite <- Nat.iter_add. f_equal. lia.
  - reflexivity.
Qed.

Lemma shr_1_nonneg (m : Z) (r s : bool) :
  0 <= m ->
  shr_1 {| shr_m := m; shr_r := r; shr_s := s |}
  = {| shr_m := m / 2; shr_r := Z.odd m; shr_s := r || s |}.
Proof.
  intros Hm. destruct m as [|[p|p|]|]; try lia; cbn [shr_1 Z.odd]; f_equal.
  - change (Zpos p~1) with (2 * Zpos p + 1). apply Z.div_unique with 1; lia.
  - change (Zpos p~0) with (2 * Zpos p + 0). apply Z.div_unique with 0; lia.
Qed.

(** After [k] one-bit shifts of a mantissa without a remainder so far. *)
Lemma shr_iter (m : Z) (k : nat) :
  0 <= m ->
  Nat.iter (S k) shr_1 {| shr_m := m; shr_r := false; shr_s := false |}
  = {| shr_m := m / 2 ^ Z.of_nat (S k);
       shr_r := Z.odd (m / 2 ^ Z.of_nat k);
       shr_s := negb (m mod 2 ^ Z.of_nat k =? 0) |}.
Proof.
  intros Hm. induction k as [|k IH].
  - cbn [Nat.iter]. rewrite shr_1_nonneg by assumption.
    change (2 ^ Z.of_nat 1) with 2. change (2 ^ Z.of_nat 0) with 1.
    rewrite Z.div_1_r, Z.mod_1_r. reflexivity.
  - rewrite Nat.iter_succ, IH. rewrite shr_1_nonneg by (apply Z.div_pos; lia).
    assert (P : 0 < 2 ^ Z.of_nat k) by (apply Z.pow_pos_nonneg; lia).
    assert (E1 : 2 ^ Z.of_nat (S k) = 2 ^ Z.of_nat k * 2)
      by (rewrite Nat2Z.inj_succ, Z.pow_succ_r; lia).
    assert (E2 : 2 ^ Z.of_nat (S (S k)) = 2 ^ Z.of_nat (S k) * 2)
      by (rewrite (Nat2Z.inj_succ (S k)), Z.pow_succ_r; lia).
    f_equal.
    + rewrite E2, Z.div_div by lia. reflexivity.
    + rewrite E1.
      pose proof (Z.div_mod m (2 ^ Z.of_nat k) ltac:(lia)) as D.
      pose proof (Z.mod_pos_bound m (2 ^ Z.of_nat k) P) as B.
      pose proof (Z.div_mod (m / 2 ^ Z.of_nat k) 2 ltac:(lia)) as D2.
      pose proof (Z.mod_pos_bound (m / 2 ^ Z.of_nat k) 2 ltac:(lia)) as B2.
      pose proof (Zmod_odd (m / 2 ^ Z.of_nat k)) as Eo.
      assert (Em : m mod (2 ^ Z.of_nat k * 2)
                   = m mod 2 ^ Z.of_nat k + 2 ^ Z.of_nat k * ((m / 2 ^ Z.of_nat k) mod 2)).
      { symmetry. apply Z.mod_unique with (m / 2 ^ Z.of_nat k / 2); nia. }
      rewrite Em, Eo.
      destruct (Z.odd (m / 2 ^ Z.of_nat k)); cbn [orb].
      * destruct (Z.eqb_spec (m mod 2 ^ Z.of_nat k + 2 ^ Z.of_nat k * 1) 0); [lia | reflexivity].
      * rewrite Z.mul_0_r, Z.add_0_r. reflexivity.
Qed.


Lemma shr_steps (m e n : Z) :
  0 <= m -> 0 < n ->
  fst (shr {| shr_m := m; shr_r := false; shr_s := false |} e n)
  = {| shr_m := m / 2 ^ n;
       shr_r := Z.odd (m / 2 ^ (n - 1));
       shr_s := negb (m mod 2 ^ (n - 1) =? 0) |}.
Proof.
  intros Hm Hn. destruct n as [|p|p]; try lia. cbn [shr fst].
  rewrite iter_pos_nat.
  destruct (Pos2Nat.is_succ p) as [k Ek]. rewrite Ek, shr_iter by assumption.
  assert (Z.pos p = Z.of_nat (S k)) by lia.
  assert (Z.pos p - 1 = Z.of_nat k) by lia.
  congruence.
Qed.

Lemma shr_exp (r : shr_record) (e n : Z) : 0 <= n -> snd (shr r e n) = e + n.
Proof. intros Hn. destruct n; try lia; cbn [shr snd]; lia. Qed.

(** Shifting out [n] bits and rounding what is left. *)
Lemma shr_round (m e n : Z) :
  0 <= m -> 0 <= n ->
  let rec := fst (shr {| shr_m := m; shr_r := false; shr_s := false |} e n) in
  round_nearest_even (shr_m rec) (loc_of_shr_record rec) = nearest_even m n.
Proof.
  intros Hm Hn. cbv zeta. unfold nearest_even.
  destruct (Z.eq_dec n 0) as [->|Hn0].
  - cbn [shr fst shr_m loc_of_shr_record round_nearest_even].
    change (2 ^ 0) with 1. rewrite Z.div_1_r, Z.mod_1_r. reflexivity.
  - rewrite shr_steps by lia. cbn [shr_m].
    assert (P : 0 < 2 ^ (n - 1)) by (apply Z.pow_pos_nonneg; lia).
    assert (E : 2 ^ n = 2 ^ (n - 1) * 2).
    { replace n with (Z.succ (n - 1)) at 1 by lia. rewrite Z.pow_succ_r; lia. }
    pose proof (Z.div_mod m (2 ^ (n - 1)) ltac:(lia)) as D.
    pose proof (Z.mod_pos_bound m (2 ^ (n - 1)) P) as B.
    pose proof (Zmod_odd (m / 2 ^ (n - 1))) as Eo.
    pose proof (Z.div_mod (m / 2 ^ (n - 1)) 2 ltac:(lia)) as D2.
    pose proof (Z.mod_pos_bound (m / 2 ^ (n - 1)) 2 ltac:(lia)) as B2.
    assert (Eq : m / 2 ^ n = m / 2 ^ (n - 1) / 2) by (rewrite E, Z.div_div; lia).
    assert (Em : m mod 2 ^ n
                 = m mod 2 ^ (n - 1) + 2 ^ (n - 1) * ((m / 2 ^ (n - 1)) mod 2)).
    { rewrite E. symmetry. apply Z.mod_unique with (m / 2 ^ (n - 1) / 2); nia. }
    rewrite Em, Eo.
    destruct (Z.odd (m / 2 ^ (n - 1))) eqn:Odd;
      destruct (Z.eqb_spec (m mod 2 ^ (n - 1)) 0) as [Z0|Z0];
      cbn [negb loc_of_shr_record round_nearest_even].
    + rewrite Z0.
      destruct (Z.ltb_spec (2 * (0 + 2 ^ (n - 1) * 1)) (2 ^ n)); [lia|].
      destruct (Z.ltb_spec (2 ^ n) (2 * (0 + 2 ^ (n - 1) * 1))); [lia|]. reflexivity.
    + destruct (Z.ltb_spec (2 * (m mod 2 ^ (n - 1) + 2 ^ (n - 1) * 1)) (2 ^ n)); [lia|].
      destruct (Z.ltb_spec (2 ^ n) (2 * (m mod 2 ^ (n - 1) + 2 ^ (n - 1) * 1))); [|lia].
      reflexivity.
    + rewrite Z0.
      destruct (Z.ltb_spec (2 * (0 + 2 ^ (n - 1) * 0)) (2 ^ n)); [reflexivity | lia].
    + destruct (Z.ltb_spec (2 * (m mod 2 ^ (n - 1) + 2 ^ (n - 1) * 0)) (2 ^ n));
        [reflexivity | lia].
Qed.


Lemma iter_xO (m d : positive) : Zpos (Pos.iter xO m d) = Zpos m * 2 ^ Zpos d.
Proof.
  revert m. induction d as [|d IH] using Pos.peano_ind; intros m.
  - cbn. lia.
  - rewrite Pos.iter_succ, Pos2Z.inj_succ, Z.pow_succ_r by lia.
    change (Zpos (Pos.iter xO m d)~0) with (2 * Zpos (Pos.iter xO m d)).
    rewrite IH. lia.
Qed.

Lemma digits_pos (m : positive) : Zdigits2 (Zpos m) = Zpos (digits2_pos m).
Proof. reflexivity. Qed.

Lemma digits_shift (n k : Z) :
  0 < n -> 0 <= k -> Zdigits2 (n * 2 ^ k) = Zdigits2 n + k.
Proof.
  intros Hn Hk. destruct n as [|m|m]; try lia.
  pose proof (digits_bounds m) as [Blo Bhi]. cbn [Zdigits2].
  set (d := Zpos (digits2_pos m)) in *.
  assert (Hd : 0 < d) by (unfold d; lia).
  assert (P : 0 < 2 ^ k) by (apply Z.pow_pos_nonneg; lia).
  apply digits_unique; [lia|].
  replace (d + k - 1) with ((d - 1) + k) by lia.
  rewrite !Z.pow_add_r by lia. nia.
Qed.

(** [nearest_even m n] is within half of [m / 2 ^ n], and even at exactly a
    half. *)
Lemma nearest_even_half (m n : Z) :
  0 <= m -> 0 <= n ->
  2 * Z.abs (nearest_even m n * 2 ^ n - m) <= 2 ^ n
  /\ (2 * Z.abs (nearest_even m n * 2 ^ n - m) = 2 ^ n ->
      Z.even (nearest_even m n) = true).
Proof.
  intros Hm Hn. unfold nearest_even.
  assert (P : 0 < 2 ^ n) by (apply Z.pow_pos_nonneg; lia).
  pose proof (Z.div_mod m (2 ^ n) ltac:(lia)) as D.
  pose proof (Z.mod_pos_bound m (2 ^ n) P) as B.
  set (q := m / 2 ^ n) in *. set (r := m mod 2 ^ n) in *. set (p := 2 ^ n) in *.
  destruct (Z.ltb_spec (2 * r) p) as [H1|H1].
  - split; [|intros E]; lia.
  - destruct (Z.ltb_spec p (2 * r)) as [H2|H2].
    + split; [|intros E]; lia.
    + destruct (Z.even q) eqn:Ev.
      * split; [lia | intros _; exact Ev].
      * split; [lia|]. intros _. rewrite Z.even_add, Ev. reflexivity.
Qed.

(** No multiple of [2 ^ n] is nearer to [m] than the rounded one, and one as
    near means the rounded one is even. *)
Lemma nearest_even_closest (m n k : Z) :
  0 <= m -> 0 <= n ->
  Z.abs (nearest_even m n * 2 ^ n - m) <= Z.abs (k * 2 ^ n - m)
  /\ (Z.abs (nearest_even m n * 2 ^ n - m) = Z.abs (k * 2 ^ n - m) ->
      k <> nearest_even m n -> Z.even (nearest_even m n) = true).
Proof.
  intros Hm Hn. destruct (nearest_even_half Hm Hn) as [Hh He].
  assert (P : 0 < 2 ^ n) by (apply Z.pow_pos_nonneg; lia).
  set (q := nearest_even m n) in *. set (p := 2 ^ n) in *.
  destruct (Z.eq_dec k q) as [->|Hk]; [split; [lia | congruence]|].
  assert (Hfar : p <= Z.abs (k * p - q * p)).
  { destruct (Z_lt_le_dec k q).
    - assert ((k + 1) * p <= q * p) by (apply Z.mul_le_mono_nonneg_r; lia). lia.
    - assert ((q + 1) * p <= k * p) by (apply Z.mul_le_mono_nonneg_r; lia). lia. }
  split; [lia|]. intros E _. apply He. lia.
Qed.

Section Round.
Variables prec emax : Z.
Hypothesis prec_pos : 0 < prec.

Lemma shr_fexp_idle (m e : Z) :
  fexp prec emax (Zdigits2 m + e) <= e ->
  shr_fexp prec emax m e loc_Exact = ({| shr_m := m; shr_r := false; shr_s := false |}, e).
Proof.
  intros H. unfold shr_fexp. cbn [shr_record_of_loc].
  destruct (fexp prec emax (Zdigits2 m + e) - e) eqn:E; try reflexivity. lia.
Qed.

Lemma aux_idle (s : bool) (m e : Z) :
  fexp prec emax (Zdigits2 m + e) <= e ->
  binary_round_aux prec emax s m e loc_Exact = classed prec emax s (m, e).
Proof.
  intros H. unfold binary_round_aux. rewrite shr_fexp_idle by assumption.
  cbn [shr_m loc_of_shr_record round_nearest_even].
  rewrite shr_fexp_idle by assumption. reflexivity.
Qed.

Lemma fexp_floor (e : Z) : SpecFloat.emin prec emax <= fexp prec emax e.
Proof. unfold fexp. lia. Qed.

Lemma nearest_even_bounds (m n : Z) :
  0 <= m -> 0 <= n -> m / 2 ^ n <= nearest_even m n <= m / 2 ^ n + 1.
Proof.
  intros Hm Hn. unfold nearest_even.
  destruct (_ <? _); [lia|]. destruct (_ <? _); [lia|]. destruct (Z.even _); lia.
Qed.

(** The rounded mantissa has at most [prec] bits, or is [2 ^ prec]. *)
Lemma nearest_even_top (m : positive) (e : Z) :
  let e1 := fexp prec emax (Zpos (digits2_pos m) + e) in
  e < e1 -> 0 <= nearest_even (Zpos m) (e1 - e) <= 2 ^ prec.
Proof.
  intros e1 He.
  pose proof (digits_bounds m) as [Blo Bhi].
  set (d := Zpos (digits2_pos m)) in *.
  assert (Hd : 0 < d) by (unfold d; lia).
  pose proof (@nearest_even_bounds (Zpos m) (e1 - e) ltac:(lia) ltac:(lia)) as [Nlo Nhi].
  assert (P : 0 < 2 ^ (e1 - e)) by (apply Z.pow_pos_nonneg; lia).
  assert (0 <= Zpos m / 2 ^ (e1 - e)) by (apply Z.div_pos; lia).
  split; [lia|].
  assert (Zpos m / 2 ^ (e1 - e) < 2 ^ prec); [|lia].
  apply Z.div_lt_upper_bound; [lia|].
  rewrite <- Z.pow_add_r by lia.
  assert (2 ^ d <= 2 ^ (e1 - e + prec)); [|lia].
  apply Z.pow_le_mono_r; [lia|]. unfold e1, fexp. fold d. lia.
Qed.

(** At a normal exponent the rounded mantissa keeps its top bit. *)
Lemma nearest_even_normal (m : positive) (e : Z) :
  let e1 := fexp prec emax (Zpos (digits2_pos m) + e) in
  e < e1 -> SpecFloat.emin prec emax < e1 -> 2 ^ (prec - 1) <= nearest_even (Zpos m) (e1 - e).
Proof.
  intros e1 He Hn.
  pose proof (digits_bounds m) as [Blo Bhi].
  set (d := Zpos (digits2_pos m)) in *.
  assert (Hd : 0 < d) by (unfold d; lia).
  assert (E1 : e1 = d + e - prec) by (unfold e1, fexp in *; fold d in Hn |- *; lia).
  pose proof (@nearest_even_bounds (Zpos m) (e1 - e) ltac:(lia) ltac:(lia)) as [Nlo Nhi].
  assert (P : 0 < 2 ^ (e1 - e)) by (apply Z.pow_pos_nonneg; lia).
  assert (2 ^ (prec - 1) <= Zpos m / 2 ^ (e1 - e)); [|lia].
  apply Z.div_le_lower_bound; [lia|].
  rewrite <- Z.pow_add_r by lia.
  replace (e1 - e + (prec - 1)) with (d - 1) by lia. exact Blo.
Qed.

(** What [binary_round] computes. *)
Lemma binary_round_shape (s : bool) (m : positive) (e : Z) :
  binary_round prec emax s m e = classed prec emax s (rounded prec emax m e).
Proof.
  unfold binary_round, rounded.
  pose proof (digits_bounds m) as [Blo Bhi].
  set (d := Zpos (digits2_pos m)) in *.
  assert (Hd : 0 < d) by (unfold d; lia).
  set (e1 := fexp prec emax (d + e)).
  assert (He1 : e1 = fexp prec emax (d + e)) by reflexivity.
  pose proof (fexp_floor (d + e)) as Hfl. rewrite <- He1 in Hfl.
  assert (Hge : d + e - prec <= e1) by (unfold e1, fexp; lia).
  assert (Ppos : 0 < 2 ^ prec) by (apply Z.pow_pos_nonneg; lia).
  destruct (Z.leb_spec e1 e) as [Hle|Hlt].
  - (* the mantissa is padded to the exponent [e1] *)
    assert (Hsh : shl_align m e e1 = (Z.to_pos (Zpos m * 2 ^ (e - e1)), e1)
                  /\ 0 < Zpos m * 2 ^ (e - e1)).
    { unfold shl_align. destruct (e1 - e) as [|p|p] eqn:E; try lia.
      - replace (e - e1) with 0 by lia. change (2 ^ 0) with 1.
        rewrite Z.mul_1_r. cbn [Z.to_pos]. split; [f_equal; lia | lia].
      - replace (e - e1) with (Zpos p) by lia.
        rewrite <- iter_xO. cbn [Z.to_pos]. split; [reflexivity | lia]. }
    destruct Hsh as [-> Hpos].
    rewrite Z2Pos.id by assumption.
    assert (Hdig : Zdigits2 (Zpos m * 2 ^ (e - e1)) = d + (e - e1))
      by (rewrite digits_shift by lia; reflexivity).
    rewrite aux_idle
      by (rewrite Hdig; replace (d + (e - e1) + e1) with (d + e) by lia; fold e1; lia).
    destruct (Z.eqb_spec (Zpos m * 2 ^ (e - e1)) (2 ^ prec)) as [Eq|Ne]; [|reflexivity].
    (* a mantissa of [prec + 1] bits cannot arise here *)
    exfalso.
    assert (Hd2 : Zdigits2 (2 ^ prec) = prec + 1).
    { apply digits_unique; [lia|]. replace (prec + 1 - 1) with prec by lia.
      rewrite Z.pow_add_r by lia. lia. }
    rewrite Eq, Hd2 in Hdig. lia.
  - assert (Hsh : shl_align m e e1 = (m, e)).
    { unfold shl_align. destruct (e1 - e) eqn:E; try reflexivity. lia. }
    rewrite Hsh. unfold binary_round_aux.
    assert (E1 : shr_fexp prec emax (Zpos m) e loc_Exact
                 = shr {| shr_m := Zpos m; shr_r := false; shr_s := false |} e (e1 - e)).
    { reflexivity. }
    rewrite E1.
    pose proof (@shr_round (Zpos m) e (e1 - e) ltac:(lia) ltac:(lia)) as Hq.
    cbv zeta in Hq.
    pose proof (@shr_exp {| shr_m := Zpos m; shr_r := false; shr_s := false |} e (e1 - e)
                  ltac:(lia)) as He.
    destruct (shr {| shr_m := Zpos m; shr_r := false; shr_s := false |} e (e1 - e))
      as [rec e'] eqn:Es.
    cbn [fst snd] in Hq, He. rewrite Hq. subst e'. replace (e + (e1 - e)) with e1 by lia.
    pose proof (@nearest_even_top m e) as Top. cbv zeta in Top. fold d e1 in Top.
    specialize (Top Hlt).
    set (q := nearest_even (Zpos m) (e1 - e)) in *.
    destruct (Z.eqb_spec q (2 ^ prec)) as [Eq|Ne].
    + rewrite Eq.
      assert (Hd2 : Zdigits2 (2 ^ prec) = prec + 1).
      { apply digits_unique; [lia|]. replace (prec + 1 - 1) with prec by lia.
        rewrite Z.pow_add_r by lia. lia. }
      unfold shr_fexp. rewrite Hd2. cbn [shr_record_of_loc].
      replace (fexp prec emax (prec + 1 + e1) - e1) with 1 by (unfold fexp; lia).
      cbn [shr iter_pos]. rewrite shr_1_nonneg by lia. cbn [shr_m].
      replace (2 ^ prec / 2) with (2 ^ (prec - 1)).
      2:{ replace prec with (Z.succ (prec - 1)) at 2 by lia.
          rewrite Z.pow_succ_r by lia. rewrite Z.mul_comm, Z.div_mul by lia. reflexivity. }
      reflexivity.
    + assert (Hidle : fexp prec emax (Zdigits2 q + e1) <= e1).
      { destruct (Z.eq_dec q 0) as [->|Hq0]; [cbn [Zdigits2]; unfold fexp; lia|].
        assert (Zdigits2 q <= prec); [|unfold fexp; lia].
        destruct q as [|p|p]; try lia. cbn [Zdigits2].
        pose proof (digits_bounds p) as [Qlo Qhi].
        destruct (Z_lt_le_dec prec (Zpos (digits2_pos p))) as [Hbig|]; [|lia].
        assert (2 ^ prec <= 2 ^ (Zpos (digits2_pos p) - 1))
          by (apply Z.pow_le_mono_r; lia).
        lia. }
      rewrite shr_fexp_idle by assumption. reflexivity.
Qed.

Lemma digits_le (q : Z) : 0 < q -> q < 2 ^ prec -> Zdigits2 q <= prec.
Proof.
  intros Hq Hlt. destruct q as [|p|p]; try lia. cbn [Zdigits2].
  pose proof (digits_bounds p) as [Qlo Qhi].
  destruct (Z_lt_le_dec prec (Zpos (digits2_pos p))) as [Hbig|]; [|lia].
  assert (2 ^ prec <= 2 ^ (Zpos (digits2_pos p) - 1)) by (apply Z.pow_le_mono_r; lia).
  lia.
Qed.

(** The mantissa [rounded] arrives at is canonical at its exponent. *)
Lemma rounded_canonical (m : positive) (e : Z) :
  let qe := rounded prec emax m e in
  0 <= fst qe < 2 ^ prec
  /\ SpecFloat.emin prec emax <= snd qe
  /\ (0 < fst qe -> fexp prec emax (Zdigits2 (fst qe) + snd qe) = snd qe).
Proof.
  unfold rounded.
  pose proof (digits_bounds m) as [Blo Bhi].
  set (d := Zpos (digits2_pos m)) in *.
  assert (Hd : 0 < d) by (unfold d; lia).
  set (e1 := fexp prec emax (d + e)).
  pose proof (fexp_floor (d + e)) as Hfl. fold e1 in Hfl.
  assert (Hge : d + e - prec <= e1) by (unfold e1, fexp; lia).
  assert (Ppos : 0 < 2 ^ prec) by (apply Z.pow_pos_nonneg; lia).
  assert (Phalf : 2 ^ prec = 2 * 2 ^ (prec - 1)).
  { replace prec with (Z.succ (prec - 1)) at 1 by lia. apply Z.pow_succ_r. lia. }
  assert (Hd2 : Zdigits2 (2 ^ (prec - 1)) = prec).
  { apply digits_unique; lia. }
  destruct (Z.leb_spec e1 e) as [Hle|Hlt].
  - assert (Hpos : 0 < Zpos m * 2 ^ (e - e1)).
    { assert (0 < 2 ^ (e - e1)) by (apply Z.pow_pos_nonneg; lia). lia. }
    assert (Hdig : Zdigits2 (Zpos m * 2 ^ (e - e1)) = d + (e - e1))
      by (rewrite digits_shift by lia; reflexivity).
    destruct (Z.eqb_spec (Zpos m * 2 ^ (e - e1)) (2 ^ prec)) as [Eq|Ne]; cbn [fst snd].
    + split; [lia|]. split; [lia|]. intros _. rewrite Hd2. unfold fexp; lia.
    + split.
      * split; [lia|].
        destruct (Z_lt_le_dec (Zpos m * 2 ^ (e - e1)) (2 ^ prec)) as [?|Hbig]; [assumption|].
        exfalso.
        assert (Hlow : 2 ^ (d + (e - e1) - 1) <= Zpos m * 2 ^ (e - e1)).
        { replace (d + (e - e1) - 1) with ((d - 1) + (e - e1)) by lia.
          rewrite Z.pow_add_r by lia.
          assert (0 < 2 ^ (e - e1)) by (apply Z.pow_pos_nonneg; lia). nia. }
        assert (Hup : Zpos m * 2 ^ (e - e1) < 2 ^ (d + (e - e1))).
        { rewrite Z.pow_add_r by lia.
          assert (0 < 2 ^ (e - e1)) by (apply Z.pow_pos_nonneg; lia). nia. }
        assert (2 ^ (d + (e - e1)) <= 2 ^ prec) by (apply Z.pow_le_mono_r; lia).
        lia.
      * split; [lia|]. intros _. rewrite Hdig.
        replace (d + (e - e1) + e1) with (d + e) by lia. reflexivity.
  - pose proof (@nearest_even_top m e) as Top. cbv zeta in Top. fold d e1 in Top.
    specialize (Top Hlt).
    pose proof (@nearest_even_normal m e) as Nor. cbv zeta in Nor. fold d e1 in Nor.
    specialize (Nor Hlt).
    set (q := nearest_even (Zpos m) (e1 - e)) in *.
    destruct (Z.eqb_spec q (2 ^ prec)) as [Eq|Ne]; cbn [fst snd].
    + split; [lia|]. split; [lia|]. intros _. rewrite Hd2. unfold fexp; lia.
    + split; [lia|]. split; [lia|]. intros Hq.
      pose proof (@digits_le q Hq ltac:(lia)) as Hdq.
      destruct (Z.eq_dec e1 (SpecFloat.emin prec emax)) as [Em|Em].
      * unfold fexp. lia.
      * specialize (Nor ltac:(lia)).
        assert (Zdigits2 q = prec) by (apply digits_unique; lia).
        unfold fexp. lia.
Qed.

Lemma binary_round_valid (s : bool) (m : positive) (e : Z) :
  SpecFloat.valid_binary prec emax (binary_round prec emax s m e) = true.
Proof.
  rewrite binary_round_shape. pose proof (rounded_canonical m e) as H. cbv zeta in H.
  destruct (rounded prec emax m e) as [q e']. cbn [fst snd] in H.
  destruct H as (Hq & He & Hc). unfold classed. cbn [fst snd].
  destruct q as [|p|p]; try reflexivity.
  destruct (Z.leb_spec e' (emax - prec)) as [Hle|Hgt]; [|reflexivity].
  cbn [SpecFloat.valid_binary]. unfold bounded, canonical_mantissa.
  specialize (Hc ltac:(lia)). cbn [Zdigits2] in Hc. rewrite Hc, Z.eqb_refl.
  apply Z.leb_le. exact Hle.
Qed.

(** A number that fits the format is kept, its mantissa padded. *)
Lemma binary_round_exact (s : bool) (m : positive) (e : Z) :
  let e1 := fexp prec emax (Zpos (digits2_pos m) + e) in
  e1 <= e -> e1 <= emax - prec ->
  binary_round prec emax s m e = S754_finite s (Z.to_pos (Zpos m * 2 ^ (e - e1))) e1.
Proof.
  intros e1 Hle Hmax. rewrite binary_round_shape. unfold rounded. fold e1.
  pose proof (digits_bounds m) as [Blo Bhi].
  set (d := Zpos (digits2_pos m)) in *.
  assert (Hd : 0 < d) by (unfold d; lia).
  assert (Hge : d + e - prec <= e1) by (unfold e1, fexp; lia).
  assert (P : 0 < 2 ^ (e - e1)) by (apply Z.pow_pos_nonneg; lia).
  assert (Hlt : Zpos m * 2 ^ (e - e1) < 2 ^ prec).
  { assert (2 ^ (d + (e - e1)) <= 2 ^ prec) by (apply Z.pow_le_mono_r; lia).
    rewrite Z.pow_add_r in H by lia.
    assert (Zpos m * 2 ^ (e - e1) < 2 ^ d * 2 ^ (e - e1))
      by (apply Z.mul_lt_mono_pos_r; lia).
    lia. }
  destruct (Z.leb_spec e1 e); [|lia].
  destruct (Z.eqb_spec (Zpos m * 2 ^ (e - e1)) (2 ^ prec)); [lia|].
  unfold classed. cbn [fst snd].
  destruct (Zpos m * 2 ^ (e - e1)) as [|p|p] eqn:E; try lia.
  destruct (Z.leb_spec e1 (emax - prec)); [|lia]. reflexivity.
Qed.

End Round.


(** *** Rounding to binary32 *)

Lemma pow_split (a b : Z) : 0 <= a -> 0 <= b -> 2 ^ (a + b) = 2 ^ a * 2 ^ b.
Proof. intros. apply Z.pow_add_r; assumption. Qed.

(** A single is a multiple of [2 ^ e1], or it is below [2 ^ (23 + e1)]. *)
Lemma single_grid (y : spec_float) (e1 : Z) :
  single y = true -> is_number y = true -> -149 <= e1 ->
  (exists k, units y = k * 2 ^ (e1 + 1074))
  \/ (-149 < e1 /\ Z.abs (units y) < 2 ^ (23 + e1 + 1074)).
Proof.
  intros Hv Hn He1. destruct y as [s|s| |s m e]; try discriminate.
  - left. exists 0. unfold units; cbn; destruct s; reflexivity.
  - unfold single in Hv. cbn [SpecFloat.valid_binary] in Hv.
    unfold bounded, canonical_mantissa in Hv.
    apply andb_true_iff in Hv. destruct Hv as [Hc Hb].
    apply Z.eqb_eq in Hc. apply Z.leb_le in Hb.
    pose proof (digits_bounds m) as [Blo Bhi].
    set (d := Zpos (digits2_pos m)) in *.
    assert (Hd : 0 < d) by (unfold d; lia).
    assert (He : -149 <= e /\ d + e - 24 <= e) by (unfold fexp, SpecFloat.emin in Hc; lia).
    destruct (Z_le_gt_dec e1 e) as [Hle|Hgt].
    + left. exists ((if s then -1 else 1) * (Zpos m * 2 ^ (e - e1))).
      unfold units, size, negative.
      replace (e + 1074) with ((e - e1) + (e1 + 1074)) by lia.
      rewrite (@pow_split (e - e1) (e1 + 1074)) by lia. destruct s; lia.
    + right. split; [lia|].
      assert (Zpos m * 2 ^ (e + 1074) < 2 ^ (23 + e1 + 1074)).
      { assert (2 ^ d <= 2 ^ 24) by (apply Z.pow_le_mono_r; lia).
        assert (2 ^ (24 + (e + 1074)) <= 2 ^ (23 + e1 + 1074))
          by (apply Z.pow_le_mono_r; lia).
        rewrite pow_split in * by lia.
        assert (0 < 2 ^ (e + 1074)) by (apply Z.pow_pos_nonneg; lia). nia. }
      unfold units, size, negative. destruct s; lia.
Qed.


(** Among the multiples of [G], one within half of [G] of [X] is a nearest,
    and the even one of two. *)
Lemma grid_nearest (G X q k : Z) :
  0 < G ->
  2 * Z.abs (q * G - X) <= G ->
  (2 * Z.abs (q * G - X) = G -> Z.even q = true) ->
  Z.abs (q * G - X) <= Z.abs (k * G - X)
  /\ (Z.abs (q * G - X) = Z.abs (k * G - X) -> k <> q -> Z.even q = true).
Proof.
  intros HG Hh He.
  destruct (Z.eq_dec k q) as [->|Hk]; [split; [lia | congruence]|].
  assert (Hfar : G <= Z.abs (k * G - q * G)).
  { destruct (Z_lt_le_dec k q).
    - assert ((k + 1) * G <= q * G) by (apply Z.mul_le_mono_nonneg_r; lia). lia.
    - assert ((q + 1) * G <= k * G) by (apply Z.mul_le_mono_nonneg_r; lia). lia. }
  split; [lia|]. intros E _. apply He. lia.
Qed.

(** The mantissa binary32 rounding settles on, before a carry is absorbed. *)
Lemma rounded32_facts (m : positive) (e : Z) :
  -1074 <= e ->
  let e1 := fexp 24 128 (Zpos (digits2_pos m) + e) in
  let q := if e1 <=? e then Zpos m * 2 ^ (e - e1) else nearest_even (Zpos m) (e1 - e) in
  let G := 2 ^ (e1 + 1074) in
  let X := Zpos m * 2 ^ (e + 1074) in
  -149 <= e1
  /\ 2 * Z.abs (q * G - X) <= G
  /\ (2 * Z.abs (q * G - X) = G -> Z.even q = true)
  /\ X < 16777216 * G
  /\ (-149 < e1 -> 8388608 * G <= X).
Proof.
  intros He e1 q G X.
  pose proof (digits_bounds m) as [Blo Bhi].
  set (d := Zpos (digits2_pos m)) in *.
  assert (Hd : 0 < d) by (unfold d; lia).
  assert (Hfl : -149 <= e1) by (unfold e1, fexp, SpecFloat.emin; lia).
  assert (Hge : d + e - 24 <= e1) by (unfold e1, fexp; lia).
  assert (Hor : e1 = -149 \/ e1 = d + e - 24) by (unfold e1, fexp, SpecFloat.emin; lia).
  assert (HG : 0 < G) by (apply Z.pow_pos_nonneg; lia).
  set (U := 2 ^ (e + 1074)) in *.
  assert (HU : 0 < U) by (apply Z.pow_pos_nonneg; lia).
  split; [exact Hfl|].
  assert (Hhalf : 2 * Z.abs (q * G - X) <= G
                  /\ (2 * Z.abs (q * G - X) = G -> Z.even q = true)).
  { unfold q. destruct (Z.leb_spec e1 e) as [Hle|Hlt].
    - assert (E : Zpos m * 2 ^ (e - e1) * G = X).
      { unfold X, U, G. replace (e + 1074) with ((e - e1) + (e1 + 1074)) by lia.
        rewrite (@pow_split (e - e1) (e1 + 1074)) by lia. lia. }
      rewrite E. replace (X - X) with 0 by lia. cbn [Z.abs]. split; [lia|]. lia.
    - assert (E : G = 2 ^ (e1 - e) * U).
      { unfold U, G. replace (e1 + 1074) with ((e1 - e) + (e + 1074)) by lia.
        apply pow_split; lia. }
      destruct (@nearest_even_half (Zpos m) (e1 - e) ltac:(lia) ltac:(lia)) as [Hh Hev].
      set (n := nearest_even (Zpos m) (e1 - e)) in *.
      set (p := 2 ^ (e1 - e)) in *.
      assert (Ev : n * G - X = (n * p - Zpos m) * U) by (unfold X; rewrite E; ring).
      rewrite Ev, Z.abs_mul, (Z.abs_eq U) by lia. rewrite E.
      split.
      + replace (2 * (Z.abs (n * p - Z.pos m) * U))
          with ((2 * Z.abs (n * p - Z.pos m)) * U) by ring.
        apply Z.mul_le_mono_nonneg_r; lia.
      + intros Et. apply Hev.
        replace (2 * (Z.abs (n * p - Z.pos m) * U))
          with ((2 * Z.abs (n * p - Z.pos m)) * U) in Et by ring.
        apply Z.mul_cancel_r in Et; lia. }
  destruct Hhalf as [Hh Hev]. split; [exact Hh|]. split; [exact Hev|].
  split.
  - assert (2 ^ (d + (e + 1074)) <= 2 ^ (24 + (e1 + 1074)))
      by (apply Z.pow_le_mono_r; lia).
    rewrite (@pow_split d (e + 1074)), (@pow_split 24 (e1 + 1074)) in H by lia.
    fold U G in H. change (2 ^ 24) with 16777216 in H.
    assert (Zpos m * U < 2 ^ d * U) by (apply Z.mul_lt_mono_pos_r; lia).
    unfold X. lia.
  - intros Hn. assert (E1 : e1 = d + e - 24) by lia.
    assert (E : 8388608 * G = 2 ^ (d - 1) * U).
    { unfold G, U. change 8388608 with (2 ^ 23).
      rewrite <- (@pow_split 23 (e1 + 1074)), <- (@pow_split (d - 1) (e + 1074)) by lia.
      f_equal. lia. }
    rewrite E. unfold X. apply Z.mul_le_mono_nonneg_r; lia.
Qed.


(** The same against every single: off the grid of [G] a single is too small
    to be near. *)
Lemma nearest_core (G X q Y : Z) :
  0 < G ->
  2 * Z.abs (q * G - X) <= G ->
  (2 * Z.abs (q * G - X) = G -> Z.even q = true) ->
  (exists k, Y = k * G) \/ (Z.abs Y < 8388608 * G /\ 8388608 * G <= X) ->
  Z.abs (q * G - X) <= Z.abs (Y - X)
  /\ (Z.abs (q * G - X) = Z.abs (Y - X) -> Y <> q * G -> Z.even q = true).
Proof.
  intros HG Hh Hev [[k ->]|[Hs Hx]].
  - destruct (@grid_nearest G X q k HG Hh Hev) as [H1 H2]. split; [exact H1|].
    intros E Hne. apply H2; [exact E|]. intros ->. apply Hne. reflexivity.
  - destruct (@grid_nearest G X q 8388608 HG Hh Hev) as [H1 _]. split; lia.
Qed.

Lemma classed_units (s : bool) (p : positive) (e1 : Z) :
  units (S754_finite s p e1) = (if s then -1 else 1) * (Zpos p * 2 ^ (e1 + 1074)).
Proof. unfold units, negative, size. destruct s; lia. Qed.

Lemma zero_units (s : bool) : units (S754_zero s) = 0.
Proof. destruct s; reflexivity. Qed.

(** Rounding a double to binary32 with [binary_round] is rounding to the
    nearest single, ties to even. *)
Lemma binary32_nearest (s : bool) (m : positive) (e : Z) :
  -1074 <= e -> nearest_single (S754_finite s m e) (binary_round 24 128 s m e).
Proof.
  intros He. split; [apply binary_round_valid; lia|].
  rewrite binary_round_shape by lia. unfold rounded. cbn [size].
  destruct (@rounded32_facts m e He) as (Hfl & Hh & Hev & Htop & Hnorm).
  set (e1 := fexp 24 128 (Zpos (digits2_pos m) + e)) in *.
  set (q := if e1 <=? e then Zpos m * 2 ^ (e - e1) else nearest_even (Zpos m) (e1 - e)) in *.
  set (G := 2 ^ (e1 + 1074)) in *.
  set (X := Zpos m * 2 ^ (e + 1074)) in *.
  assert (HG : 0 < G) by (apply Z.pow_pos_nonneg; lia).
  assert (HX : 0 < X).
  { assert (0 < 2 ^ (e + 1074)) by (apply Z.pow_pos_nonneg; lia). unfold X. lia. }
  unfold overflow. change (2 ^ 25 - 1) with 33554431. change (103 + 1074) with 1177.
  assert (HH : 0 < 2 ^ 1177) by (apply Z.pow_pos_nonneg; lia).
  assert (Glow : e1 <= 103 -> G <= 2 ^ 1177).
  { intros. apply Z.pow_le_mono_r; lia. }
  assert (Gmid : e1 = 104 -> G = 2 * 2 ^ 1177).
  { intros E. unfold G. rewrite E. change (104 + 1074) with (Z.succ 1177).
    apply Z.pow_succ_r. lia. }
  assert (Ghigh : 105 <= e1 -> 4 * 2 ^ 1177 <= G).
  { intros. change 4 with (2 ^ 2). rewrite <- (@pow_split 2 1177) by lia.
    apply Z.pow_le_mono_r; lia. }
  set (H := 2 ^ 1177) in *.
  assert (Gnext : 2 ^ (e1 + 1 + 1074) = 2 * G).
  { unfold G. replace (e1 + 1 + 1074) with (Z.succ (e1 + 1074)) by lia.
    apply Z.pow_succ_r. lia. }
  assert (Q0 : 0 <= q).
  { destruct (Z_lt_le_dec q 0) as [Hq|]; [|assumption]. exfalso.
    assert (q * G <= (-1) * G) by (apply Z.mul_le_mono_nonneg_r; lia). lia. }
  assert (Q1 : q <= 16777216).
  { destruct (Z_le_gt_dec q 16777216) as [|Hq]; [assumption|]. exfalso.
    assert (16777217 * G <= q * G) by (apply Z.mul_le_mono_nonneg_r; lia). lia. }
  assert (Q2 : -149 < e1 -> 8388608 <= q).
  { intros Hn. specialize (Hnorm Hn).
    destruct (Z_le_gt_dec 8388608 q) as [|Hq]; [assumption|]. exfalso.
    assert (q * G <= 8388607 * G) by (apply Z.mul_le_mono_nonneg_r; lia). lia. }
  assert (Q3 : q <= 16777215 -> 2 * X < 33554431 * G).
  { intros Hq.
    destruct (Z.eq_dec q 16777215) as [Eq|Ne].
    - destruct (Z.eq_dec (2 * Z.abs (q * G - X)) G) as [Et|Nt].
      + apply Hev in Et. rewrite Eq in Et. discriminate.
      + rewrite Eq in *. lia.
    - assert (q * G <= 16777214 * G) by (apply Z.mul_le_mono_nonneg_r; lia). lia. }
  assert (Near : forall y, single y = true -> is_number y = true ->
            Z.abs (q * G - X) <= Z.abs ((if s then - units y else units y) - X)
            /\ (Z.abs (q * G - X) = Z.abs ((if s then - units y else units y) - X) ->
                (if s then - units y else units y) <> q * G -> Z.even q = true)).
  { intros y Hy Hn. apply nearest_core; try assumption.
    destruct (@single_grid y e1 Hy Hn Hfl) as [[k Ek]|[Hlt Hsm]].
    - left. exists (if s then - k else k). rewrite Ek. fold G. destruct s; ring.
    - right. specialize (Hnorm Hlt).
      replace (23 + e1 + 1074) with (23 + (e1 + 1074)) in Hsm by lia.
      rewrite (@pow_split 23 (e1 + 1074)) in Hsm by lia. fold G in Hsm.
      change (2 ^ 23) with 8388608 in Hsm. split; [destruct s; lia | exact Hnorm]. }
  change (2 ^ 24) with 16777216. change (2 ^ (24 - 1)) with 8388608.
  unfold classed.
  destruct (Z.eqb_spec q 16777216) as [Eq|Ne]; cbn [fst snd].
  - (* a carry: the mantissa is [2 ^ 23] one exponent up *)
    destruct (Z.leb_spec (e1 + 1) (128 - 24)) as [Hle|Hgt];
      destruct (Z.leb_spec (33554431 * H) X) as [Ho|Ho]; try reflexivity.
    + exfalso. specialize (Glow ltac:(lia)). lia.
    + split; [reflexivity|]. split; [reflexivity|]. intros y Hy Hn.
      destruct (Near y Hy Hn) as [N1 N2]. rewrite !classed_units.
      rewrite Gnext. fold X. rewrite Eq in N1, N2.
      split; [destruct s; lia|]. intros _ _. reflexivity.
    + exfalso. rewrite Eq in Hh.
      destruct (Z.eq_dec e1 104) as [E|E]; [specialize (Gmid E) | specialize (Ghigh ltac:(lia))];
        lia.
  - destruct q as [|p|p] eqn:Eqq; [| |lia].
    + (* rounded to zero *)
      destruct (Z.leb_spec (33554431 * H) X) as [Ho|Ho].
      * exfalso.
        destruct (Z_le_gt_dec e1 103) as [E|E]; [specialize (Glow E); lia|].
        specialize (Q2 ltac:(lia)). lia.
      * split; [reflexivity|]. split; [reflexivity|]. intros y Hy Hn.
        destruct (Near y Hy Hn) as [N1 N2].
        rewrite !zero_units, !classed_units. fold X.
        split; [destruct s; lia|]. intros _ _. reflexivity.
    + destruct (Z.leb_spec e1 (128 - 24)) as [Hle|Hgt];
        destruct (Z.leb_spec (33554431 * H) X) as [Ho|Ho]; try reflexivity.
      * exfalso. specialize (Q3 ltac:(lia)).
        destruct (Z.eq_dec e1 104) as [E|E]; [specialize (Gmid E) | specialize (Glow ltac:(lia))];
          lia.
      * split; [reflexivity|]. split; [reflexivity|]. intros y Hy Hn.
        destruct (Near y Hy Hn) as [N1 N2]. rewrite !classed_units. fold G X.
        split; [destruct s; lia|]. intros E Hne. cbn [even_mantissa].
        apply N2; destruct s; lia.
      * exfalso. specialize (Ghigh ltac:(lia)). specialize (Hnorm ltac:(lia)). lia.
Qed.


(** *** Singles among the doubles *)

(** A single read as a double: the same number, its mantissa padded to the
    53 bits of the format. *)
Lemma single_as_double (s : bool) (m : positive) (e : Z) :
  single (S754_finite s m e) = true ->
  Prim2SF (SF2Prim (S754_finite s m e))
  = S754_finite s (Z.to_pos (Zpos m * 2 ^ (53 - Zpos (digits2_pos m))))
      (e + Zpos (digits2_pos m) - 53).
Proof.
  intros Hv. unfold single in Hv. cbn [SpecFloat.valid_binary] in Hv.
  unfold bounded, canonical_mantissa in Hv.
  apply andb_true_iff in Hv. destruct Hv as [Hc Hb].
  apply Z.eqb_eq in Hc. apply Z.leb_le in Hb.
  pose proof (digits_bounds m) as [Blo Bhi].
  set (d := Zpos (digits2_pos m)) in *.
  assert (Hd : 0 < d) by (unfold d; lia).
  assert (He : -149 <= e /\ d <= 24) by (unfold fexp, SpecFloat.emin in Hc; lia).
  set (M := Z.to_pos (Zpos m * 2 ^ (53 - d))).
  assert (PM : 0 < Zpos m * 2 ^ (53 - d)).
  { assert (0 < 2 ^ (53 - d)) by (apply Z.pow_pos_nonneg; lia). lia. }
  assert (EM : Zpos M = Zpos m * 2 ^ (53 - d)) by (unfold M; apply Z2Pos.id; exact PM).
  assert (DM : Zpos (digits2_pos M) = 53).
  { change (Zpos (digits2_pos M)) with (Zdigits2 (Zpos M)). rewrite EM.
    rewrite digits_shift by lia. cbn [Zdigits2]. fold d. lia. }
  assert (Hm : Uint63Axioms.to_Z (Uint63Axioms.of_Z (Zpos m)) = Zpos m).
  { rewrite Uint63.of_Z_spec. apply Z.mod_small. split; [lia|].
    assert (2 ^ d <= 2 ^ 24) by (apply Z.pow_le_mono_r; lia).
    change Uint63Axioms.wB with (2 ^ 63).
    assert (2 ^ 24 < 2 ^ 63) by (apply Z.pow_lt_mono_r; lia). lia. }
  assert (H1 : Prim2SF (of_uint63 (Uint63Axioms.of_Z (Zpos m)))
               = S754_finite false M (d - 53)).
  { rewrite of_uint63_spec, Hm. cbn [binary_normalize].
    rewrite binary_round_exact; fold d.
    - replace (fexp prec emax (d + 0)) with (d - 53)
        by (unfold fexp, SpecFloat.emin, prec, emax; lia).
      f_equal. fold M. replace (0 - (d - 53)) with (53 - d) by lia. reflexivity.
    - unfold prec. lia.
    - unfold fexp, SpecFloat.emin, prec, emax. lia.
    - unfold fexp, SpecFloat.emin, prec, emax. lia. }
  assert (H2 : Prim2SF (Z.ldexp (of_uint63 (Uint63Axioms.of_Z (Zpos m))) e)
               = S754_finite false M (e + d - 53)).
  { rewrite FloatLemmas.Z_ldexp_spec, H1. cbn [SFldexp].
    rewrite binary_round_exact; rewrite ?DM.
    - replace (fexp prec emax (53 + (d - 53 + e))) with (e + d - 53)
        by (unfold fexp, SpecFloat.emin, prec, emax; lia).
      f_equal. replace (d - 53 + e - (e + d - 53)) with 0 by lia.
      change (2 ^ 0) with 1. rewrite Z.mul_1_r. reflexivity.
    - unfold prec. lia.
    - unfold fexp, SpecFloat.emin, prec, emax. lia.
    - unfold fexp, SpecFloat.emin, prec, emax. lia. }
  unfold SF2Prim. destruct s.
  - rewrite opp_spec, H2. reflexivity.
  - exact H2.
Qed.


Lemma read_single (r : spec_float) :
  single r = true -> same_number (Prim2SF (SF2Prim r)) r.
Proof.
  intros Hv. destruct r as [s|s| |s m e].
  - destruct s; reflexivity.
  - destruct s; reflexivity.
  - reflexivity.
  - rewrite single_as_double by exact Hv. cbn [same_number]. split; [reflexivity|].
    unfold single in Hv. cbn [SpecFloat.valid_binary] in Hv.
    unfold bounded, canonical_mantissa in Hv.
    apply andb_true_iff in Hv. destruct Hv as [Hc Hb]. apply Z.eqb_eq in Hc.
    set (d := Zpos (digits2_pos m)) in *.
    assert (Hd : 0 < d) by (unfold d; lia).
    assert (He : -149 <= e /\ d <= 24) by (unfold fexp, SpecFloat.emin in Hc; lia).
    rewrite Z2Pos.id.
    + replace (e + 1074) with ((53 - d) + (e + d - 53 + 1074)) by lia.
      rewrite (@pow_split (53 - d) (e + d - 53 + 1074)) by lia. ring.
    + assert (0 < 2 ^ (53 - d)) by (apply Z.pow_pos_nonneg; lia). lia.
Qed.

Lemma double_exponent (x : float) (s : bool) (m : positive) (e : Z) :
  Prim2SF x = S754_finite s m e -> -1074 <= e.
Proof.
  intros E. pose proof (Prim2SF_valid x) as Hv. rewrite E in Hv.
  cbn [SpecFloat.valid_binary] in Hv. unfold bounded, canonical_mantissa in Hv.
  apply andb_true_iff in Hv. destruct Hv as [Hc _]. apply Z.eqb_eq in Hc.
  unfold fexp, SpecFloat.emin, prec, emax in Hc. lia.
Qed.

Lemma round32_nearest (x : float) :
  nearest_single (Prim2SF x) (Float32.round32 (Prim2SF x)).
Proof.
  destruct (Prim2SF x) as [s|s| |s m e] eqn:E; cbn [Float32.round32].
  - split; reflexivity.
  - split; reflexivity.
  - split; reflexivity.
  - apply binary32_nearest. exact (double_exponent x E).
Qed.

Lemma round32_single (x : spec_float) : single (Float32.round32 x) = true.
Proof.
  destruct x as [s|s| |s m e]; try reflexivity.
  apply binary_round_valid. lia.
Qed.

(** [Math.fround] rounds to the nearest single, ties to even. *)
Lemma fround_rounds (x : float) : rounds_to x (Float32.fround x).
Proof.
  exists (Float32.round32 (Prim2SF x)). split; [apply round32_nearest|].
  apply read_single, round32_single.
Qed.


(** *** The 32-bit words of the singles *)

(** The three fields of a word. *)
Lemma word_fields (sb : bool) (E M : Z) :
  0 <= E < 256 -> 0 <= M < 8388608 ->
  let bits := Float32.sign_bit sb + E * 8388608 + M in
  0 <= bits < 4294967296
  /\ Z.testbit bits 31 = sb
  /\ Z.land (Z.shiftr bits 23) 255 = E
  /\ Z.land bits 8388607 = M.
Proof.
  intros HE HM bits.
  assert (Hs : Float32.sign_bit sb = (if sb then 1 else 0) * 2147483648)
    by (destruct sb; reflexivity).
  assert (Hr : 0 <= bits < 4294967296) by (unfold bits; rewrite Hs; destruct sb; lia).
  split; [exact Hr|]. split; [|split].
  - rewrite Z.testbit_eqb by lia. change (2 ^ 31) with 2147483648.
    assert (D : bits / 2147483648 = if sb then 1 else 0).
    { symmetry. apply Z.div_unique with (E * 8388608 + M); [lia|].
      unfold bits. rewrite Hs. ring. }
    rewrite D. destruct sb; reflexivity.
  - rewrite Z.shiftr_div_pow2 by lia. change 255 with (Z.ones 8).
    rewrite Z.land_ones by lia. change (2 ^ 23) with 8388608. change (2 ^ 8) with 256.
    assert (D : bits / 8388608 = (if sb then 1 else 0) * 256 + E).
    { symmetry. apply Z.div_unique with M; [lia|]. unfold bits. rewrite Hs. ring. }
    rewrite D. symmetry. apply Z.mod_unique with (if sb then 1 else 0); [lia|ring].
  - change 8388607 with (Z.ones 23). rewrite Z.land_ones by lia.
    change (2 ^ 23) with 8388608. symmetry.
    apply Z.mod_unique with ((if sb then 1 else 0) * 256 + E); [lia|].
    unfold bits. rewrite Hs. ring.
Qed.

(** The word of a single reads back as the single. *)
Lemma decode_encode (r : spec_float) :
  single r = true -> Float32.decode (Float32.encode r mod 4294967296) = r.
Proof.
  intros Hv. destruct r as [s|s| |s m e]; cbn [Float32.encode].
  - destruct (@word_fields s 0 0 ltac:(lia) ltac:(lia)) as (Hr & Hs & He & Hm).
    cbv zeta in *. replace (Float32.sign_bit s + 0 * 8388608 + 0)
      with (Float32.sign_bit s) in * by lia.
    rewrite Z.mod_small by exact Hr. unfold Float32.decode. rewrite Hs, He, Hm. reflexivity.
  - destruct (@word_fields s 255 0 ltac:(lia) ltac:(lia)) as (Hr & Hs & He & Hm).
    cbv zeta in *. replace (Float32.sign_bit s + 255 * 8388608 + 0)
      with (Float32.sign_bit s + 2139095040) in * by lia.
    rewrite Z.mod_small by exact Hr. unfold Float32.decode. rewrite Hs, He, Hm. reflexivity.
  - reflexivity.
  - unfold single in Hv. cbn [SpecFloat.valid_binary] in Hv.
    unfold bounded, canonical_mantissa in Hv.
    apply andb_true_iff in Hv. destruct Hv as [Hc Hb].
    apply Z.eqb_eq in Hc. apply Z.leb_le in Hb.
    pose proof (digits_bounds m) as [Blo Bhi].
    set (d := Zpos (digits2_pos m)) in *.
    assert (Hd : 0 < d) by (unfold d; lia).
    assert (He : -149 <= e /\ d <= 24) by (unfold fexp, SpecFloat.emin in Hc; lia).
    assert (Htop : Zpos m < 16777216).
    { assert (2 ^ d <= 2 ^ 24) by (apply Z.pow_le_mono_r; lia).
      change (2 ^ 24) with 16777216 in *. lia. }
    destruct (Z.leb_spec 8388608 (Zpos m)) as [Hn|Hsub].
    + destruct (@word_fields s (e + 150) (Zpos m - 8388608) ltac:(lia) ltac:(lia))
        as (Hr & Hs & Hf & Hm).
      cbv zeta in *. rewrite Z.mod_small by exact Hr.
      unfold Float32.decode. rewrite Hs, Hf, Hm.
      destruct (Z.eqb_spec (e + 150) 0); [lia|].
      destruct (Z.eqb_spec (e + 150) 255); [lia|].
      replace (Zpos m - 8388608 + 8388608) with (Zpos m) by lia.
      f_equal. lia.
    + assert (Ee : e = -149).
      { assert (d <= 23); [|unfold fexp, SpecFloat.emin in Hc; lia].
        destruct (Z_le_gt_dec d 23) as [|Hbig]; [assumption|].
        assert (2 ^ 23 <= 2 ^ (d - 1)) by (apply Z.pow_le_mono_r; lia).
        change (2 ^ 23) with 8388608 in *. lia. }
      destruct (@word_fields s 0 (Zpos m) ltac:(lia) ltac:(lia)) as (Hr & Hs & Hf & Hm).
      cbv zeta in *. replace (Float32.sign_bit s + 0 * 8388608 + Zpos m)
        with (Float32.sign_bit s + Zpos m) in * by lia.
      rewrite Z.mod_small by exact Hr.
      unfold Float32.decode. rewrite Hs, Hf, Hm. cbn [Z.eqb]. rewrite Ee. reflexivity.
Qed.

(** What is read from the word a double is stored as is the double rounded
    to single precision. *)
Lemma read_written (x : float) :
  Float32.float_of_bits (Float32.bits_of_float x) = Float32.fround x.
Proof.
  unfold Float32.float_of_bits, Float32.bits_of_float, Float32.fround.
  rewrite decode_encode by apply round32_single. reflexivity.
Qed.

End RoundFacts.

(* ================================================================= *)
(** ** Packing vectors into buffers *)

Module BufferProofs.
Import Similarity Packing ListFacts.

Lemma bits_range (x : float) : (0 <= Float32.bits_of_float x < 4294967296)%Z.
Proof. unfold Float32.bits_of_float. apply Z.mod_pos_bound. lia. Qed.

Lemma le_word_bytes (w : Z) : (0 <= w < 4294967296)%Z -> le_word (le_bytes w) = w.
Proof.
  intros H. unfold le_word, le_bytes. cbn [nth].
  pose proof (Z.div_mod w 256 ltac:(lia)).
  pose proof (Z.div_mod (w / 256) 256 ltac:(lia)).
  pose proof (Z.div_mod (w / 65536) 256 ltac:(lia)).
  pose proof (Z.div_mod (w / 16777216) 256 ltac:(lia)).
  assert (w / 65536 = w / 256 / 256)%Z by (rewrite Z.div_div by lia; reflexivity).
  assert (w / 16777216 = w / 65536 / 256)%Z by (rewrite Z.div_div by lia; reflexivity).
  assert (w / 16777216 / 256 = 0)%Z.
  { rewrite Z.div_div by lia. apply Z.div_small. lia. }
  lia.
Qed.

Lemma read_enc (x : float) : Float32.float_of_bits (le_word (enc x)) = Float32.fround x.
Proof.
  unfold enc. rewrite le_word_bytes by apply bits_range. apply RoundFacts.read_written.
Qed.

Lemma enc_length (x : float) : List.length (enc x) = 4.
Proof. reflexivity. Qed.

Lemma firstn_enc_app (x : float) (rest : list Z) : firstn 4 (enc x ++ rest) = enc x.
Proof. reflexivity. Qed.

Lemma packed_length (v : list float) : List.length (flat_map enc v) = 4 * List.length v.
Proof.
  induction v as [|x v IH]; [reflexivity|].
  cbn [flat_map]. rewrite length_app, IH, enc_length. simpl. lia.
Qed.

Lemma firstn_succ {A} (l : list A) (d : A) (i : nat) :
  i < List.length l -> firstn (S i) l = firstn i l ++ [nth i l d].
Proof.
  revert i. induction l as [|x l IH]; intros i Hi; [simpl in Hi; lia|].
  destruct i as [|i]; [reflexivity|].
  cbn [firstn nth app]. f_equal. apply IH. simpl in Hi. lia.
Qed.

Lemma skipn_packed (v : list float) (k : nat) :
  skipn (4 * k) (flat_map enc v) = flat_map enc (skipn k v).
Proof.
  revert v. induction k as [|k IH]; intros v; [reflexivity|].
  destruct v as [|x v]; [reflexivity|].
  replace (4 * S k) with (4 + 4 * k) by lia.
  cbn [flat_map skipn]. rewrite <- IH.
  change (enc x) with [nth 0 (enc x) 0%Z; nth 1 (enc x) 0%Z; nth 2 (enc x) 0%Z; nth 3 (enc x) 0%Z].
  reflexivity.
Qed.

(** The buffer after [i] numbers are written. *)
Lemma pack_loop (heap : nat -> Z) (v : list float) :
  floatArrayToBuffer heap v = Ok (flat_map enc v).
Proof.
  unfold floatArrayToBuffer.
  set (alloc := allocUnsafe heap (List.length v * 4)).
  assert (Halloc : List.length alloc = 4 * List.length v).
  { unfold alloc, allocUnsafe. rewrite length_map, length_seq. lia. }
  set (step := fun acc i => buffer <- acc ;; writeFloatLE buffer (nth i v nan) (i * 4)).
  assert (H : fold_left step (seq 0 (List.length v)) (Ok alloc)
              = Ok (flat_map enc (firstn (0 + List.length v) v)
                      ++ skipn (4 * (0 + List.length v)) alloc)).
  { apply (fold_left_seq_inv
             (fun i acc => acc = Ok (flat_map enc (firstn i v) ++ skipn (4 * i) alloc))).
    - reflexivity.
    - intros k x Hk ->. unfold step, bind, writeFloatLE.
      assert (Hpre : List.length (flat_map enc (firstn k v)) = k * 4).
      { rewrite packed_length, length_firstn. lia. }
      rewrite length_app, length_skipn, Hpre, Halloc.
      destruct (Nat.leb_spec (k * 4 + 4) (k * 4 + (4 * List.length v - 4 * k))); [|lia].
      f_equal.
      rewrite firstn_app, Hpre, Nat.sub_diag, firstn_O, app_nil_r.
      rewrite <- Hpre at 1. rewrite firstn_all.
      rewrite skipn_app, Hpre.
      rewrite (skipn_all2 (flat_map enc (firstn k v))) by lia.
      replace (k * 4 + 4 - k * 4) with 4 by lia.
      rewrite skipn_skipn. cbn [app].
      rewrite (firstn_succ v nan) by lia.
      rewrite flat_map_app. cbn [flat_map]. rewrite app_nil_r, <- app_assoc.
      do 3 f_equal. lia. }
  cbn [Nat.add] in H. rewrite H, firstn_all.
  rewrite skipn_all2 by lia. apply f_equal, app_nil_r.
Qed.

Lemma offsets_packed (n : nat) : offsets (4 * n) = map (fun k => 4 * k) (seq 0 n).
Proof.
  unfold offsets. do 2 f_equal.
  replace (4 * n + 3) with (3 + n * 4) by lia.
  rewrite Nat.div_add by lia. reflexivity.
Qed.

Lemma unpack_loop (v : list float) :
  bufferToFloatArray (flat_map enc v) = Ok (map Float32.fround v).
Proof.
  unfold bufferToFloatArray. rewrite packed_length, offsets_packed, fold_left_map.
  set (buffer := flat_map enc v).
  set (step := fun acc k => floats <- acc ;; x <- readFloatLE buffer (4 * k) ;; Ok (floats ++ [x])).
  assert (H : fold_left step (seq 0 (List.length v)) (Ok [])
              = Ok (map Float32.fround (firstn (0 + List.length v) v))).
  { apply (fold_left_seq_inv (fun k acc => acc = Ok (map Float32.fround (firstn k v)))).
    - reflexivity.
    - intros k x Hk ->. unfold step, bind, readFloatLE.
      unfold buffer at 1. rewrite packed_length.
      destruct (Nat.leb_spec (4 * k + 4) (4 * List.length v)); [|lia].
      unfold buffer. rewrite skipn_packed.
      rewrite (firstn_succ v nan) by lia. rewrite map_app. cbn [map].
      destruct (skipn k v) as [|y rest] eqn:E.
      + apply (f_equal (@List.length _)) in E. rewrite length_skipn in E. simpl in E. lia.
      + assert (Hy : nth k v nan = y).
        { rewrite <- (firstn_skipn k v) at 1. rewrite app_nth2; rewrite length_firstn; [|lia].
          replace (k - Nat.min k (List.length v)) with 0 by lia. now rewrite E. }
        cbn [flat_map]. rewrite firstn_enc_app.
        now rewrite read_enc, Hy. }
  cbn [Nat.add] in H. now rewrite H, firstn_all.
Qed.

End BufferProofs.

(** C9: unpacking a packed vector gives a vector of the same length, each
    element the single IEEE 754 rounds the input's element to (the nearest
    binary32 number, the one with the even mantissa of two at the same
    distance, infinity from [Single.overflow] on, NaN, zeros and infinities
    kept), read back as a double; the empty vector packs to the empty buffer
    and the empty buffer unpacks to the empty vector. *)
Theorem C9_pack_unpack_round_trip (heap : nat -> Z) (v : list float) :
  (exists buffer unpacked,
      Similarity.floatArrayToBuffer heap v = Ok buffer
      /\ List.length buffer = 4 * List.length v
      /\ Similarity.bufferToFloatArray buffer = Ok unpacked
      /\ List.length unpacked = List.length v
      /\ Forall2 Single.rounds_to v unpacked
      /\ unpacked = map Float32.fround v)
  /\ Similarity.floatArrayToBuffer heap [] = Ok []
  /\ Similarity.bufferToFloatArray [] = Ok [].
Proof.
  split; [|split; reflexivity].
  exists (flat_map Packing.enc v), (map Float32.fround v). repeat split.
  - apply BufferProofs.pack_loop.
  - apply BufferProofs.packed_length.
  - apply BufferProofs.unpack_loop.
  - apply length_map.
  - induction v as [|x v IH]; constructor; [apply RoundFacts.fround_rounds | exact IH].
Qed.

(* ================================================================= *)
(** ** The tables under the service calls *)

Module StoreFacts.
Import Js Types Sql History.

Lemma eqb_eq (a b : str) : Js.eqb a b = true <-> a = b.
Proof.
  unfold Js.eqb, to_string. rewrite String.eqb_eq. split; [|now intros ->].
  intros H. apply (f_equal list_ascii_of_string) in H.
  now rewrite !list_ascii_of_string_of_list_ascii in H.
Qed.

Lemma eqb_refl (a : str) : Js.eqb a a = true.
Proof. now apply eqb_eq. Qed.

Lemma find_none_hash (db : Db) (h : str) :
  error_by_hash db h = None -> ~ In h (map hash (errors db)).
Proof.
  unfold error_by_hash. intros H Hin. apply in_map_iff in Hin as [r [Hr Hin]].
  apply (find_none _ _ H) in Hin. rewrite Hr, eqb_refl in Hin. discriminate.
Qed.

Lemma find_by_id_some {A} (key : A -> nat) (l : list A) (i : nat) :
  (exists r, In r l /\ key r = i) -> exists r, find (fun r => key r =? i) l = Some r.
Proof.
  intros [r [Hin Hk]]. destruct (find (fun r => key r =? i) l) eqn:E; [eauto|].
  apply (find_none _ _ E) in Hin. rewrite Hk, Nat.eqb_refl in Hin. discriminate.
Qed.

(** In a list without repeated keys, looking a member up by its key finds it. *)
Lemma find_unique {A} (key : A -> nat) (l : list A) (r : A) :
  NoDup (map key l) -> In r l -> find (fun x => key x =? key r) l = Some r.
Proof.
  induction l as [|x l IH]; intros Hnd Hin; [contradiction|].
  cbn [map] in Hnd. inversion Hnd as [|? ? Hx Hnd']; subst.
  cbn [find]. destruct Hin as [-> | Hin].
  - now rewrite Nat.eqb_refl.
  - destruct (Nat.eqb_spec (key x) (key r)) as [E|_]; [|now apply IH].
    exfalso. apply Hx. rewrite E. now apply in_map.
Qed.

Lemma find_unique_hash (l : list ErrorRow) (r : ErrorRow) :
  NoDup (map hash l) -> In r l -> find (fun x => Js.eqb (hash x) (hash r)) l = Some r.
Proof.
  induction l as [|x l IH]; intros Hnd Hin; [contradiction|].
  cbn [map] in Hnd. inversion Hnd as [|? ? Hx Hnd']; subst.
  cbn [find]. destruct Hin as [-> | Hin].
  - now rewrite eqb_refl.
  - destruct (Js.eqb (hash x) (hash r)) eqn:E; [|now apply IH].
    exfalso. apply Hx. apply eqb_eq in E. rewrite E. now apply in_map.
Qed.

Lemma frame_refl (db : Db) : frame db db.
Proof. now split. Qed.

Lemma frame_trans (a b c : Db) : frame a b -> frame b c -> frame a c.
Proof. intros [] []. split; congruence. Qed.

Lemma frame_wf (db db' : Db) : frame db db' -> wf db -> wf db'.
Proof.
  intros [E1 E2 E3 E4 E5 E6] [W1 W2 W3 W4 W5 W6 W7 W8].
  split; rewrite ?E1, ?E2, ?E3, ?E4, ?E5, ?E6; assumption.
Qed.

(** *** Tags *)

Lemma insert_tag_ok (n : str) (c : option TagCategory) (db : Db) :
  tag_by_name db n = None ->
  exists db', insert_tag n c db = Ok (S (tags_seq db), db')
              /\ frame db db'
              /\ error_tags db' = error_tags db
              /\ tag_rows db' = tag_rows db
                                 ++ [{| tag_id := S (tags_seq db); name := n; category := c |}].
Proof.
  intros H. unfold insert_tag. rewrite H. eexists. split; [reflexivity|].
  split; [now split|]. split; reflexivity.
Qed.

Lemma getOrCreateTags_ok (names : list str) (c : option TagCategory) :
  forall db, exists tags db',
    TagService.getOrCreateTags names c db = Ok (tags, db')
    /\ frame db db'
    /\ error_tags db' = error_tags db
    /\ (exists extra, tag_rows db' = tag_rows db ++ extra)
    /\ Forall (fun t => has_tag db' (tag_id t)) tags.
Proof.
  induction names as [|n names IH]; intros db.
  - exists [], db. split; [reflexivity|]. split; [apply frame_refl|].
    split; [reflexivity|]. split; [exists []; symmetry; apply app_nil_r | constructor].
  - cbn [TagService.getOrCreateTags].
    destruct (List.length (trim (toLowerCase n)) =? 0); [apply IH|].
    set (nn := trim (toLowerCase n)).
    assert (Hfirst : exists t db1,
               match TagService.getTagByName db nn with
               | Some tag => Ok (tag, db)
               | None => TagService.createTag nn c db
               end = Ok (t, db1)
               /\ frame db db1 /\ error_tags db1 = error_tags db
               /\ (exists extra, tag_rows db1 = tag_rows db ++ extra)
               /\ has_tag db1 (tag_id t)).
    { unfold TagService.getTagByName, TagService.createTag.
      destruct (tag_by_name db (trim (toLowerCase nn))) as [t|] eqn:E.
      - exists t, db. split; [reflexivity|]. split; [apply frame_refl|].
        split; [reflexivity|]. split; [exists []; symmetry; apply app_nil_r|].
        exists t. split; [|reflexivity]. apply (find_some _ _ E).
      - destruct (@insert_tag_ok _ c _ E) as [db1 [-> [Hf [Hl Hrows]]]].
        eexists _, db1. cbn [bind fst snd]. split; [reflexivity|].
        split; [exact Hf|]. split; [exact Hl|]. split; [eauto|].
        eexists. split; [rewrite Hrows; apply in_or_app; right; left; reflexivity|].
        reflexivity. }
    destruct Hfirst as [t [db1 [-> [Hf1 [Hl1 [[ex1 Hr1] Ht]]]]]].
    destruct (IH db1) as [tags [db2 [E2 [Hf2 [Hl2 [[ex2 Hr2] Htags]]]]]].
    cbn [bind fst snd]. rewrite E2. cbn [bind fst snd].
    exists (t :: tags), db2. split; [reflexivity|].
    split; [eapply frame_trans; eassumption|].
    split; [congruence|].
    split; [exists (ex1 ++ ex2); rewrite Hr2, Hr1; symmetry; apply app_assoc|].
    constructor; [|assumption].
    destruct Ht as [row [Hin Hid]]. exists row. split; [|assumption].
    rewrite Hr2. apply in_or_app. now left.
Qed.

Lemma addTagsToError_ok (e : nat) (ids : list nat) :
  forall db,
    error_by_id db e <> None ->
    Forall (has_tag db) ids ->
    exists db', TagService.addTagsToError e ids db = Ok db'
                /\ frame db db' /\ tag_rows db' = tag_rows db.
Proof.
  induction ids as [|t ids IH]; intros db He Hids.
  - exists db. split; [reflexivity|]. split; [apply frame_refl | reflexivity].
  - inversion Hids as [|? ? Ht Hrest]; subst.
    cbn [TagService.addTagsToError].
    assert (H1 : exists db1, insert_link e t db = Ok db1
                             /\ frame db db1 /\ tag_rows db1 = tag_rows db).
    { unfold insert_link. destruct (has_link db e t).
      - exists db. split; [reflexivity|]. split; [apply frame_refl | reflexivity].
      - destruct (error_by_id db e); [|contradiction].
        destruct (@find_by_id_some _ tag_id (tag_rows db) _ Ht) as [row ->].
        eexists. split; [reflexivity|]. split; [now split | reflexivity]. }
    destruct H1 as [db1 [-> [Hf1 Hr1]]]. cbn [bind].
    destruct (IH db1) as [db2 [E2 [Hf2 Hr2]]].
    + unfold error_by_id. rewrite (fr_errors Hf1). exact He.
    + unfold has_tag in *. rewrite Hr1. exact Hrest.
    + exists db2. split; [exact E2|]. split; [eapply frame_trans; eassumption | congruence].
Qed.

End StoreFacts.

Module HistoryProofs.
Import Js Types Sql History StoreFacts.

Lemma wf_empty : wf empty_db.
Proof. split; cbn; constructor. Qed.

(** *** Recording an error *)

Lemma recordError_seen (now : nat) (input : ErrorInput) (db : Db) (existing : ErrorRow) :
  error_by_hash db (ErrorService.fingerprint input) = Some existing ->
  ErrorService.recordError now input db
  = Ok (id existing, update_error_seen now (id existing) db).
Proof.
  intros H. unfold ErrorService.recordError.
  change (ErrorHash.generateErrorHash _ _) with (ErrorService.fingerprint input).
  now rewrite H.
Qed.

Lemma recordError_new (now : nat) (input : ErrorInput) (db : Db) :
  error_by_hash db (ErrorService.fingerprint input) = None ->
  exists db',
    ErrorService.recordError now input db = Ok (S (errors_seq db), db')
    /\ errors db' = errors db ++ [new_error now input db]
    /\ errors_seq db' = S (errors_seq db)
    /\ solutions db' = solutions db /\ solutions_seq db' = solutions_seq db
    /\ embeddings db' = embeddings db /\ embeddings_seq db' = embeddings_seq db.
Proof.
  intros H. unfold ErrorService.recordError.
  change (ErrorHash.generateErrorHash _ _) with (ErrorService.fingerprint input).
  rewrite H. unfold insert_error. rewrite H. cbn [bind fst snd].
  fold (new_error now input db).
  set (db1 := with_errors db (errors db ++ [new_error now input db])
                (S (errors_seq db)) (S (errors_seq db))).
  destruct (0 <? List.length _).
  - match goal with
    | |- context [TagService.getOrCreateTags ?names None db1] =>
        destruct (getOrCreateTags_ok names None db1)
          as [tags [db2 [-> [Hf2 [_ [[extra Hr2] Htags]]]]]]
    end.
    cbn [bind fst snd].
    destruct (@addTagsToError_ok (S (errors_seq db)) (map tag_id tags) db2)
      as [db3 [-> [Hf3 _]]].
    + unfold error_by_id. rewrite (fr_errors Hf2). cbn [db1 with_errors errors].
      intros Hnone.
      assert (Hin : In (new_error now input db) (errors db ++ [new_error now input db]))
        by (apply in_or_app; right; now left).
      apply (find_none _ _ Hnone) in Hin. cbn in Hin.
      rewrite Nat.eqb_refl in Hin. discriminate.
    + apply Forall_map. exact Htags.
    + cbn [bind]. exists db3. split; [reflexivity|].
      pose proof (frame_trans Hf2 Hf3) as [E1 E2 E3 E4 E5 E6].
      rewrite E1, E2, E3, E4, E5, E6. repeat split; reflexivity.
  - exists db1. repeat split; reflexivity.
Qed.

Lemma map_update_key {A K} (key : A -> K) (f : A -> A) (l : list A) :
  (forall x, key (f x) = key x) -> map key (map f l) = map key l.
Proof. intros H. rewrite map_map. apply map_ext. exact H. Qed.

Lemma recordError_wf (now : nat) (input : ErrorInput) (db : Db) :
  wf db ->
  exists i db', ErrorService.recordError now input db = Ok (i, db') /\ wf db'.
Proof.
  intros [W1 W2 W3 W4 W5 W6 W7 W8].
  destruct (error_by_hash db (ErrorService.fingerprint input)) as [existing|] eqn:E.
  - rewrite (recordError_seen now input db E). eexists _, _. split; [reflexivity|].
    split; cbn [update_error_seen with_errors errors errors_seq solutions solutions_seq
                embeddings embeddings_seq]; try assumption.
    + apply Forall_map. eapply Forall_impl; [|exact W1].
      intros r Hr. cbn. destruct (id r =? id existing); exact Hr.
    + rewrite map_update_key; [assumption|].
      intros r. destruct (id r =? id existing); reflexivity.
    + rewrite map_update_key; [assumption|].
      intros r. destruct (id r =? id existing); reflexivity.
  - destruct (recordError_new now input db E) as [db' [-> [E1 [E2 [E3 [E4 [E5 E6]]]]]]].
    eexists _, db'. split; [reflexivity|].
    split; rewrite ?E1, ?E2, ?E3, ?E4, ?E5, ?E6; try assumption.
    + apply Forall_app. split.
      * eapply Forall_impl; [|exact W1]. cbn. intros; lia.
      * constructor; [cbn; lia | constructor].
    + rewrite map_app. cbn [map new_error id].
      apply NoDup_app; [assumption | repeat constructor; intros [] | ].
      intros x Hx [<- | []]. apply in_map_iff in Hx as [r [Hr Hin]].
      rewrite Forall_forall in W1. specialize (W1 r Hin). lia.
    + rewrite map_app. cbn [map new_error hash].
      apply NoDup_app; [assumption | repeat constructor; intros [] | ].
      intros x Hx [<- | []]. exact (find_none_hash _ _ E Hx).
Qed.

(** *** Solutions *)

Lemma stored_rate (r : SolutionRow) :
  success_rate (stored r) = generated_success_rate (success_count (stored r)) (failure_count (stored r)).
Proof. reflexivity. Qed.

Lemma recordSolution_ok (now : nat) (input : SolutionInput) (db : Db) :
  error_by_id db (si_errorId input) <> None ->
  SolutionService.recordSolution now input db
  = Ok (S (solutions_seq db),
        with_solutions db
          (solutions db ++ [new_solution now input db])
          (S (solutions_seq db)) (S (solutions_seq db))).
Proof.
  intros H. unfold SolutionService.recordSolution, insert_solution.
  destruct (error_by_id db (si_errorId input)); [reflexivity | contradiction].
Qed.

Lemma recordSolution_throws (now : nat) (input : SolutionInput) (db : Db) :
  error_by_id db (si_errorId input) = None ->
  SolutionService.recordSolution now input db = Throw (ErrorNotFound (si_errorId input)).
Proof. intros H. unfold SolutionService.recordSolution. now rewrite H. Qed.

Lemma recordSolution_wf (now : nat) (input : SolutionInput) (db : Db) :
  wf db -> forall r, SolutionService.recordSolution now input db = Ok r -> wf (snd r).
Proof.
  intros [W1 W2 W3 W4 W5 W6 W7 W8] r H.
  destruct (error_by_id db (si_errorId input)) eqn:E.
  - rewrite recordSolution_ok in H by (rewrite E; discriminate).
    injection H as <-. cbn [snd].
    split; cbn [with_solutions errors errors_seq solutions solutions_seq
                embeddings embeddings_seq]; try assumption.
    + apply Forall_app. split.
      * eapply Forall_impl; [|exact W4]. cbn. intros; lia.
      * constructor; [cbn; lia | constructor].
    + rewrite map_app. cbn [map new_solution stored sol_id].
      apply NoDup_app; [assumption | repeat constructor; intros [] | ].
      intros x Hx [<- | []]. apply in_map_iff in Hx as [s [Hs Hin]].
      rewrite Forall_forall in W4. specialize (W4 s Hin). lia.
    + apply Forall_app. split; [assumption|]. constructor; [reflexivity | constructor].
  - rewrite recordSolution_throws in H by assumption. discriminate.
Qed.

Lemma recordSolutionOutcome_wf (i : nat) (success : bool) (db : Db) :
  wf db -> forall db', SolutionService.recordSolutionOutcome i success db = Ok db' -> wf db'.
Proof.
  intros [W1 W2 W3 W4 W5 W6 W7 W8] db' H.
  unfold SolutionService.recordSolutionOutcome, update_solution_count in H.
  destruct (_ =? 0); [discriminate|]. injection H as <-.
  split; cbn [with_solutions errors errors_seq solutions solutions_seq
              embeddings embeddings_seq]; try assumption.
  - apply Forall_map. eapply Forall_impl; [|exact W4].
    intros r Hr. cbn. destruct (sol_id r =? i); exact Hr.
  - rewrite map_update_key; [assumption|].
    intros r. destruct (sol_id r =? i); reflexivity.
  - apply Forall_map. eapply Forall_impl; [|exact W6].
    intros r Hr. cbn beta. destruct (sol_id r =? i); [reflexivity | exact Hr].
Qed.

(** *** Embeddings *)

Lemma storeEmbedding_wf (heap : nat -> Z) (e : nat) (v : list float) (m : str) (db : Db) :
  wf db -> forall r, EmbeddingService.storeEmbedding heap e v m db = Ok r -> wf (snd r).
Proof.
  intros [W1 W2 W3 W4 W5 W6 W7 W8] r H.
  unfold EmbeddingService.storeEmbedding in H.
  destruct (error_by_id db e) eqn:E; [|discriminate].
  rewrite BufferProofs.pack_loop in H. cbn [bind] in H.
  unfold upsert_embedding in H. rewrite E in H.
  destruct (existsb (fun r => emb_error_id r =? e) (embeddings db)) eqn:Ex;
    cbn [bind] in H; injection H as <-; cbn [snd];
    split; cbn [with_embeddings errors errors_seq solutions solutions_seq
                embeddings embeddings_seq]; try assumption.
  - rewrite map_update_key; [assumption|].
    intros x. destruct (Nat.eqb_spec (emb_error_id x) e); [cbn; congruence | reflexivity].
  - apply Forall_map. eapply Forall_impl; [|exact W8].
    intros x Hx. cbn beta. destruct (emb_error_id x =? e); [|exact Hx].
    exists v. split; reflexivity.
  - rewrite map_app. cbn [map emb_error_id].
    apply NoDup_app; [assumption | repeat constructor; intros [] | ].
    intros x Hx [<- | []]. apply in_map_iff in Hx as [row [Hrow Hin]].
    assert (Hex : existsb (fun r => emb_error_id r =? e) (embeddings db) = true).
    { apply existsb_exists. exists row. split; [assumption|]. now apply Nat.eqb_eq. }
    congruence.
  - apply Forall_app. split; [assumption|].
    constructor; [|constructor]. exists v. split; reflexivity.
Qed.

(** *** Every history keeps the tables well formed *)

Lemma step_wf (db : Db) (op : Op) : wf db -> wf (step db op).
Proof.
  intros W. destruct op as [now input | now input | i success | heap e v m]; cbn [step].
  - destruct (recordError_wf now input W) as [i [db' [-> W']]]. exact W'.
  - destruct (SolutionService.recordSolution now input db) eqn:E; [|exact W].
    exact (recordSolution_wf now input W E).
  - destruct (SolutionService.recordSolutionOutcome i success db) eqn:E; [|exact W].
    exact (recordSolutionOutcome_wf i success W E).
  - destruct (EmbeddingService.storeEmbedding heap e v m db) eqn:E; [|exact W].
    exact (storeEmbedding_wf heap e v m W E).
Qed.

Lemma run_wf (ops : list Op) : forall db, wf db -> wf (run ops db).
Proof.
  induction ops as [|op ops IH]; intros db W; [exact W|].
  cbn [run fold_left]. apply IH. now apply step_wf.
Qed.

Lemma reachable_wf (ops : list Op) : wf (run ops empty_db).
Proof. apply run_wf, wf_empty. Qed.

End HistoryProofs.

(* ================================================================= *)
(** ** Insert-or-increment *)

Module RecordErrorProofs.
Import Js Types Sql History StoreFacts HistoryProofs.

Lemma find_map {A} (p : A -> bool) (f : A -> A) (l : list A) :
  (forall x, p (f x) = p x) -> find p (map f l) = option_map f (find p l).
Proof.
  intros H. induction l as [|x l IH]; [reflexivity|].
  cbn [map find]. rewrite H. destruct (p x); [reflexivity | exact IH].
Qed.

Lemma find_app_none {A} (p : A -> bool) (l l' : list A) :
  find p l = None -> find p (l ++ l') = find p l'.
Proof.
  induction l as [|x l IH]; intros H; [reflexivity|].
  cbn [find app] in *. destruct (p x); [discriminate | now apply IH].
Qed.

Lemma fingerprint_same (first second : ErrorInput) :
  in_message first = in_message second ->
  in_errorType first = in_errorType second ->
  ErrorService.fingerprint second = ErrorService.fingerprint first.
Proof. intros Hm Ht. unfold ErrorService.fingerprint. now rewrite Hm, Ht. Qed.

(** The count the store holds for a fingerprint; 0 when it holds none. *)
Lemma by_hash_after_update (now i : nat) (db : Db) (h : str) :
  error_by_hash (update_error_seen now i db) h
  = option_map (fun r => if id r =? i then seen_again now r else r) (error_by_hash db h).
Proof.
  unfold error_by_hash, update_error_seen. cbn [errors with_errors].
  apply find_map. intros r. destruct (id r =? i); reflexivity.
Qed.

Lemma by_id_after_update (now i : nat) (db : Db) (j : nat) :
  error_by_id (update_error_seen now i db) j
  = option_map (fun r => if id r =? i then seen_again now r else r) (error_by_id db j).
Proof.
  unfold error_by_id, update_error_seen. cbn [errors with_errors].
  apply find_map. intros r. destruct (id r =? i); reflexivity.
Qed.

Lemma by_hash_id (db : Db) (h : str) (r : ErrorRow) :
  wf db -> error_by_hash db h = Some r -> error_by_id db (id r) = Some r.
Proof.
  intros W H. apply find_some in H as [Hin _].
  exact (find_unique id (errors db) r (wf_error_ids_nodup W) Hin).
Qed.

Lemma twice (now1 now2 : nat) (first second : ErrorInput) (db : Db) :
  wf db ->
  in_message first = in_message second ->
  in_errorType first = in_errorType second ->
  exists i db1 db2 row,
    ErrorService.recordError now1 first db = Ok (i, db1)
    /\ ErrorService.recordError now2 second db1 = Ok (i, db2)
    /\ error_by_id db2 i = Some row
    /\ hash row = ErrorService.fingerprint first
    /\ occurrence_count row = ErrorService.sightings db (ErrorService.fingerprint first) + 2.
Proof.
  intros W Hm Ht. pose proof (fingerprint_same first second Hm Ht) as Hfp.
  unfold ErrorService.sightings.
  destruct (error_by_hash db (ErrorService.fingerprint first)) as [existing|] eqn:E.
  - pose proof (find_some _ _ E) as [Hin Hh]. apply eqb_eq in Hh.
    rewrite (recordError_seen now1 first db E).
    set (db1 := update_error_seen now1 (id existing) db).
    assert (E1 : error_by_hash db1 (ErrorService.fingerprint second)
                 = Some (seen_again now1 existing)).
    { unfold db1. rewrite Hfp, by_hash_after_update, E. cbn [option_map].
      now rewrite Nat.eqb_refl. }
    exists (id existing), db1. eexists _, _. split; [reflexivity|].
    split; [exact (recordError_seen now2 second db1 E1)|].
    cbn [seen_again id]. split.
    + rewrite by_id_after_update. unfold db1. rewrite by_id_after_update.
      rewrite (@by_hash_id _ _ _ W E). cbn [option_map]. rewrite Nat.eqb_refl.
      cbn [seen_again id]. rewrite Nat.eqb_refl. reflexivity.
    + cbn [seen_again hash occurrence_count]. split; [assumption | lia].
  - destruct (recordError_new now1 first db E) as [db1 [-> [E1 [E2 _]]]].
    assert (Hnew : error_by_hash db1 (ErrorService.fingerprint second)
                   = Some (new_error now1 first db)).
    { unfold error_by_hash in *. rewrite E1, Hfp, (find_app_none _ _ _ E).
      cbn [find new_error hash]. now rewrite eqb_refl. }
    exists (S (errors_seq db)), db1. eexists _, _. split; [reflexivity|].
    split; [exact (recordError_seen now2 second db1 Hnew)|].
    cbn [new_error id]. split.
    + rewrite by_id_after_update. unfold error_by_id. rewrite E1.
      rewrite find_app_none.
      * cbn [find new_error id]. rewrite Nat.eqb_refl. cbn [option_map id].
        rewrite Nat.eqb_refl. reflexivity.
      * destruct (find _ (errors db)) as [r|] eqn:Er; [|reflexivity].
        apply find_some in Er as [Hin Hid]. apply Nat.eqb_eq in Hid.
        pose proof (wf_error_ids W) as Wids. rewrite Forall_forall in Wids.
        specialize (Wids r Hin). lia.
    + cbn. split; reflexivity.
Qed.

End RecordErrorProofs.

(** C1: recording the same message and category twice yields the same
    identity id both times and leaves the stored row with two sightings more
    than the store held before (so 2 for an error it had not seen); and after
    any sequence of calls no two error rows share a fingerprint. *)
Theorem C1_insert_or_increment :
  (forall (ops : list History.Op) (now1 now2 : nat) (first second : Types.ErrorInput),
      Types.in_message first = Types.in_message second ->
      Types.in_errorType first = Types.in_errorType second ->
      let db := History.run ops Types.empty_db in
      exists i db1 db2 row,
        ErrorService.recordError now1 first db = Ok (i, db1)
        /\ ErrorService.recordError now2 second db1 = Ok (i, db2)
        /\ Sql.error_by_id db2 i = Some row
        /\ Types.hash row = ErrorService.fingerprint first
        /\ Types.occurrence_count row
           = ErrorService.sightings db (ErrorService.fingerprint first) + 2)
  /\ (forall ops : list History.Op,
         NoDup (map Types.hash (Types.errors (History.run ops Types.empty_db)))).
Proof.
  split.
  - intros ops now1 now2 first second Hm Ht db.
    apply RecordErrorProofs.twice; [apply HistoryProofs.reachable_wf | assumption..].
  - intros ops. apply History.wf_hashes, HistoryProofs.reachable_wf.
Qed.

(** C1 on an empty store: the second call returns the id of the first and the
    row then counts 2. *)
Lemma C1_insert_or_increment_witness :
  exists i db1 db2 row,
    ErrorService.recordError 1 Samples.duplicate_error Types.empty_db = Ok (i, db1)
    /\ ErrorService.recordError 2 Samples.duplicate_error db1 = Ok (i, db2)
    /\ Sql.error_by_id db2 i = Some row
    /\ Types.hash row = ErrorService.fingerprint Samples.duplicate_error
    /\ Types.occurrence_count row = 2.
Proof.
  exact (proj1 C1_insert_or_increment [] 1 2 Samples.duplicate_error Samples.duplicate_error
           eq_refl eq_refl).
Defined.

(* ================================================================= *)
(** ** Success rates *)

Module SolutionProofs.
Import Js Types Sql History StoreFacts HistoryProofs RecordErrorProofs.

Lemma outcome_on_last (success : bool) (db : Db) (old : list SolutionRow) (r : SolutionRow) :
  solutions db = old ++ [r] ->
  Forall (fun x => sol_id x <> sol_id r) old ->
  exists db',
    SolutionService.recordSolutionOutcome (sol_id r) success db = Ok db'
    /\ solutions db' = old ++ [bump success r].
Proof.
  intros Hs Hold.
  unfold SolutionService.recordSolutionOutcome, update_solution_count. rewrite Hs.
  assert (Hfilter : filter (fun x => sol_id x =? sol_id r) old = []).
  { clear Hs. induction old as [|x old IH]; [reflexivity|].
    inversion Hold as [|? ? Hx Hrest]; subst. cbn [filter].
    destruct (Nat.eqb_spec (sol_id x) (sol_id r)); [contradiction | now apply IH]. }
  assert (Hmap : map (fun x => if sol_id x =? sol_id r then bump success x else x) old = old).
  { clear Hs Hfilter. induction old as [|x old IH]; [reflexivity|].
    inversion Hold as [|? ? Hx Hrest]; subst. cbn [map].
    destruct (Nat.eqb_spec (sol_id x) (sol_id r)); [contradiction|].
    f_equal. now apply IH. }
  rewrite filter_app, Hfilter, map_app, Hmap. cbn [filter map app].
  rewrite Nat.eqb_refl. cbn [List.length Nat.eqb].
  eexists. split; reflexivity.
Qed.

Lemma find_last (old : list SolutionRow) (r : SolutionRow) :
  Forall (fun x => sol_id x <> sol_id r) old ->
  find (fun x => sol_id x =? sol_id r) (old ++ [r]) = Some r.
Proof.
  intros Hold. rewrite find_app_none.
  - cbn [find]. now rewrite Nat.eqb_refl.
  - destruct (find _ old) as [x|] eqn:E; [|reflexivity].
    apply find_some in E as [Hin Hid]. apply Nat.eqb_eq in Hid.
    rewrite Forall_forall in Hold. now specialize (Hold x Hin).
Qed.

(** A fresh solution, then two successes and one failure. *)
Lemma two_of_three (now : nat) (input : SolutionInput) (db : Db) :
  wf db ->
  error_by_id db (si_errorId input) <> None ->
  exists i db1 row,
    SolutionService.recordSolution now input db = Ok (i, db1)
    /\ SolutionService.getSolutionById
         (run [RecordOutcome i true; RecordOutcome i true; RecordOutcome i false] db1) i
       = Some row
    /\ success_count row = 2 /\ failure_count row = 1
    /\ success_rate row = (2 # 3)%Q.
Proof.
  intros W He. rewrite (recordSolution_ok now input db He).
  set (r0 := new_solution now input db).
  set (db1 := with_solutions db (solutions db ++ [r0]) (S (solutions_seq db))
                (S (solutions_seq db))).
  assert (Hold : Forall (fun x => sol_id x <> S (solutions_seq db)) (solutions db)).
  { eapply Forall_impl; [|exact (wf_solution_ids W)]. cbn. intros; lia. }
  exists (S (solutions_seq db)), db1.
  destruct (@outcome_on_last true db1 (solutions db) r0 eq_refl Hold) as [db2 [E2 S2]].
  destruct (@outcome_on_last true db2 (solutions db) (bump true r0) S2 Hold) as [db3 [E3 S3]].
  destruct (@outcome_on_last false db3 (solutions db) (bump true (bump true r0)) S3 Hold)
    as [db4 [E4 S4]].
  exists (bump false (bump true (bump true r0))).
  split; [reflexivity|].
  cbn [run fold_left step]. cbn [r0 new_solution stored sol_id bump] in E2, E3, E4.
  rewrite E2, E3, E4.
  unfold SolutionService.getSolutionById. rewrite S4.
  split; [|repeat split].
  exact (@find_last (solutions db) (bump false (bump true (bump true r0))) Hold).
Qed.

End SolutionProofs.

(** C8: after any sequence of service calls every solution row's success rate
    is its success count over its attempts, and 0 when it has no attempts; a
    fresh solution that then sees two successes and one failure has rate 2/3. *)
Theorem C8_success_rate_from_counts :
  (forall (ops : list History.Op) (s : Types.SolutionRow),
      In s (Types.solutions (History.run ops Types.empty_db)) ->
      (Types.success_count s + Types.failure_count s = 0 -> Types.success_rate s = 0%Q)
      /\ (0 < Types.success_count s + Types.failure_count s ->
          Types.success_rate s
          = (inject_Z (Z.of_nat (Types.success_count s))
             / inject_Z (Z.of_nat (Types.success_count s + Types.failure_count s)))%Q))
  /\ (forall (ops : list History.Op) (now : nat) (input : Types.SolutionInput),
         let db := History.run ops Types.empty_db in
         Sql.error_by_id db (Types.si_errorId input) <> None ->
         exists i db1 row,
           SolutionService.recordSolution now input db = Ok (i, db1)
           /\ SolutionService.getSolutionById
                (History.run [History.RecordOutcome i true; History.RecordOutcome i true;
                              History.RecordOutcome i false] db1) i
              = Some row
           /\ Types.success_count row = 2 /\ Types.failure_count row = 1
           /\ Types.success_rate row = (2 # 3)%Q).
Proof.
  split.
  - intros ops s Hin.
    pose proof (History.wf_rates (HistoryProofs.reachable_wf ops)) as Hr.
    rewrite Forall_forall in Hr. rewrite (Hr s Hin).
    unfold Types.generated_success_rate.
    destruct (Nat.eqb_spec (Types.success_count s + Types.failure_count s) 0) as [E|E];
      split; intros H; try reflexivity; lia.
  - intros ops now input db He.
    apply SolutionProofs.two_of_three; [apply HistoryProofs.reachable_wf | exact He].
Qed.

(** C8 on a store that holds one error: its first solution, after two
    successes and a failure, has rate 2/3. *)
Lemma C8_success_rate_from_counts_witness :
  exists i db1 row,
    SolutionService.recordSolution 2 Samples.a_solution Samples.one_error = Ok (i, db1)
    /\ SolutionService.getSolutionById
         (History.run [History.RecordOutcome i true; History.RecordOutcome i true;
                       History.RecordOutcome i false] db1) i
       = Some row
    /\ Types.success_count row = 2 /\ Types.failure_count row = 1
    /\ Types.success_rate row = (2 # 3)%Q.
Proof.
  refine (proj2 C8_success_rate_from_counts [History.RecordError 1 Samples.duplicate_error]
            2 Samples.a_solution _).
  vm_compute. discriminate.
Defined.

(* ================================================================= *)
(** ** The exact match of the lexical search *)

(** C5: when a stored error has the fingerprint of the query, the lexical
    search returns that record alone, with similarity 1, and compares the
    query with no other row. *)
Theorem C5_exact_match_short_circuit
        (ops : list History.Op) (message : Js.str) (options : Types.SearchOptions)
        (row : Types.ErrorRow) :
  let db := History.run ops Types.empty_db in
  In row (Types.errors db) ->
  Types.hash row = ErrorService.query_fingerprint message ->
  ErrorService.findSimilarErrors db message options
  = {| ErrorService.found := [(ErrorService.with_tags_of db row, 1%Q)];
       ErrorService.compared := [] |}.
Proof.
  intros db Hin Hh.
  unfold ErrorService.findSimilarErrors, ErrorService.findErrorByMessage,
    ErrorService.getErrorByHash, Sql.error_by_hash.
  cbn [Types.or_null].
  change (ErrorHash.generateErrorHash message _) with (ErrorService.query_fingerprint message).
  rewrite <- Hh.
  rewrite (StoreFacts.find_unique_hash (Types.errors db) row
             (History.wf_hashes (HistoryProofs.reachable_wf ops)) Hin).
  reflexivity.
Qed.

(** C5 on a store of two errors, queried with the second report at another
    line number. *)
Lemma C5_exact_match_short_circuit_witness :
  let db := History.run Samples2.two_errors Types.empty_db in
  ErrorService.findSimilarErrors db Samples2.type_error_query Types.no_options
  = {| ErrorService.found := [(ErrorService.with_tags_of db Samples2.stored_type_error, 1%Q)];
       ErrorService.compared := [] |}.
Proof.
  apply (C5_exact_match_short_circuit Samples2.two_errors Samples2.type_error_query
           Types.no_options Samples2.stored_type_error).
  - vm_compute. right. left. reflexivity.
  - vm_compute. reflexivity.
Defined.

(* ================================================================= *)
(** ** Semantic search *)

Module SortFacts.
Import Sorting.

Lemma insert_In {A} (after : A -> A -> bool) (x y : A) (l : list A) :
  In y (insert after x l) <-> y = x \/ In y l.
Proof.
  induction l as [|z l IH]; cbn [insert].
  - cbn. intuition.
  - destruct (after x z); cbn [In]; [rewrite IH|]; intuition.
Qed.

Lemma sort_In {A} (after : A -> A -> bool) (y : A) (l : list A) :
  In y (sort after l) <-> In y l.
Proof.
  induction l as [|x l IH]; [reflexivity|].
  cbn [sort fold_right]. fold (sort after l). rewrite insert_In, IH. cbn. intuition.
Qed.

Lemma firstn_In {A} (n : nat) (y : A) (l : list A) : In y (firstn n l) -> In y l.
Proof.
  revert l. induction n as [|n IH]; intros [|x l] H; try contradiction.
  cbn in H. destruct H as [<- | H]; [now left | right; now apply IH].
Qed.

Lemma slice_In {A} (n : Z) (y : A) (l : list A) : In y (slice n l) -> In y l.
Proof. unfold slice. destruct (n <? 0)%Z; apply firstn_In. Qed.

Lemma slice_length {A} (n : Z) (l : list A) :
  (0 <= n)%Z -> List.length (slice n l) <= Z.to_nat n.
Proof.
  intros H. unfold slice. destruct (Z.ltb_spec n 0); [lia|].
  rewrite length_firstn. lia.
Qed.

End SortFacts.

Module EmbeddingProofs.
Import Js Types Sql History StoreFacts HistoryProofs Similarity EmbeddingService.

Lemma compare_row_ok (target : list float) (minSim : float)
      (results : list (nat * float)) (row : EmbeddingRow) :
  (exists v, embedding row = flat_map Packing.enc v /\ dimensions row = List.length v) ->
  exists extra,
    compare_row target minSim results row = Ok (results ++ extra)
    /\ forall r, In r extra -> fst r = emb_error_id row /\ comparable target row.
Proof.
  intros [v [Hv _]]. unfold compare_row. rewrite Hv, BufferProofs.unpack_loop. cbn [bind].
  rewrite length_map.
  destruct (Nat.eqb_spec (List.length v) (List.length target)) as [Hlen|Hne]; cbn [negb].
  - destruct (@CosineProofs.cosine_total target (map Float32.fround v)) as [s ->].
    { now rewrite length_map. }
    cbn [bind]. destruct (minSim <=? s)%float.
    + exists [(emb_error_id row, s)]. split; [reflexivity|].
      intros r [<- | []]. split; [reflexivity|]. now exists v.
    + exists []. split; [now rewrite app_nil_r | intros r []].
  - exists []. split; [now rewrite app_nil_r | intros r []].
Qed.

Lemma scan_ok (target : list float) (minSim : float) (rows : list EmbeddingRow) :
  Forall (fun r => exists v, embedding r = flat_map Packing.enc v
                             /\ dimensions r = List.length v) rows ->
  forall results,
  exists extra,
    fold_left (fun acc row => rs <- acc ;; compare_row target minSim rs row) rows (Ok results)
    = Ok (results ++ extra)
    /\ forall r, In r extra ->
         exists row, In row rows /\ fst r = emb_error_id row /\ comparable target row.
Proof.
  induction rows as [|row rows IH]; intros Hrows results.
  - exists []. split; [cbn; now rewrite app_nil_r | intros r []].
  - inversion Hrows as [|? ? Hrow Hrest]; subst.
    cbn [fold_left bind].
    destruct (@compare_row_ok target minSim results row Hrow) as [e1 [-> H1]].
    destruct (IH Hrest (results ++ e1)) as [e2 [-> H2]].
    exists (e1 ++ e2). split; [now rewrite app_assoc|].
    intros r Hr. apply in_app_or in Hr as [Hr | Hr].
    + exists row. split; [now left | exact (H1 r Hr)].
    + destruct (H2 r Hr) as [row' [Hin H']]. exists row'. split; [now right | exact H'].
Qed.

Lemma fetch_In (db : Db) (sorted : list (nat * float)) (e : ErrorWithTags) (s : float) :
  In (e, s) (fetch db sorted) -> In (id (error e), s) sorted.
Proof.
  unfold fetch. rewrite in_flat_map. intros [[i s'] [Hin Hr]]. cbn [fst snd] in Hr.
  unfold ErrorService.getErrorById, error_by_id in Hr.
  destruct (find _ _) as [row|] eqn:E; cbn [option_map] in Hr; [|contradiction].
  destruct Hr as [Hr | []]. injection Hr as <- <-.
  apply find_some in E as [_ Hid]. apply Nat.eqb_eq in Hid.
  cbn [ErrorService.with_tags_of error]. now rewrite Hid.
Qed.

Lemma key_unique (l : list EmbeddingRow) (a b : EmbeddingRow) :
  NoDup (map emb_error_id l) -> In a l -> In b l ->
  emb_error_id a = emb_error_id b -> a = b.
Proof.
  induction l as [|x l IH]; intros Hnd Ha Hb Hk; [contradiction|].
  cbn [map] in Hnd. inversion Hnd as [|? ? Hx Hnd']; subst.
  destruct Ha as [-> | Ha], Hb as [-> | Hb].
  - reflexivity.
  - exfalso. apply Hx. rewrite Hk. now apply in_map.
  - exfalso. apply Hx. rewrite <- Hk. now apply in_map.
  - now apply IH.
Qed.

Lemma packed_inj_length (v w : list float) :
  flat_map Packing.enc v = flat_map Packing.enc w -> List.length v = List.length w.
Proof.
  intros H. apply (f_equal (@List.length _)) in H.
  rewrite !BufferProofs.packed_length in H. lia.
Qed.

Lemma search_ok (db : Db) (target : list float) (limit : option Z) (minSim : option float) :
  wf db ->
  exists results,
    findSimilarByEmbedding db target limit minSim = Ok results
    /\ (forall row, In row (embeddings db) ->
          dimensions row <> List.length target ->
          ~ In (emb_error_id row) (map (fun r => id (error (fst r))) results))
    /\ (forall row, In row (embeddings db) ->
          exists v, bufferToFloatArray (embedding row) = Ok v
                    /\ List.length v = dimensions row).
Proof.
  intros W. unfold findSimilarByEmbedding.
  destruct (@scan_ok target (default minSim floor_default) (embeddings db)
              (wf_embedding_buffers W) []) as [found [-> Hfound]].
  cbn [bind app]. eexists. split; [reflexivity|]. split.
  - intros row Hin Hdim Hres. apply in_map_iff in Hres as [[e s] [He Hr]].
    cbn [fst] in He. apply fetch_In in Hr.
    apply SortFacts.slice_In, SortFacts.sort_In in Hr.
    destruct (Hfound _ Hr) as [row' [Hin' [Hid [v [Hv Hlen]]]]]. cbn [fst] in Hid.
    assert (row' = row) as -> .
    { apply (@key_unique (embeddings db)); try assumption;
        [apply (wf_embedding_keys W) | congruence]. }
    pose proof (wf_embedding_buffers W) as Hb. rewrite Forall_forall in Hb.
    destruct (Hb row Hin) as [w [Hw Hd]].
    apply Hdim. rewrite Hd, <- Hlen. apply packed_inj_length. congruence.
  - intros row Hin.
    pose proof (wf_embedding_buffers W) as Hb. rewrite Forall_forall in Hb.
    destruct (Hb row Hin) as [w [Hw Hd]].
    exists (map Float32.fround w). rewrite Hw, BufferProofs.unpack_loop.
    split; [reflexivity | now rewrite length_map].
Qed.

End EmbeddingProofs.

(** C7: the semantic search never raises on a stored embedding whose
    dimensionality differs from the query's; it leaves every such embedding's
    error out of its results. *)
Theorem C7_dimension_mismatch_skipped
        (ops : list History.Op) (target : list float)
        (limit : option Z) (minSimilarity : option float) :
  let db := History.run ops Types.empty_db in
  exists results,
    EmbeddingService.findSimilarByEmbedding db target limit minSimilarity = Ok results
    /\ (forall row, In row (Types.embeddings db) ->
          Types.dimensions row <> List.length target ->
          ~ In (Types.emb_error_id row)
               (map (fun r => Types.id (Types.error (fst r))) results))
    /\ (forall row, In row (Types.embeddings db) ->
          exists v, Similarity.bufferToFloatArray (Types.embedding row) = Ok v
                    /\ List.length v = Types.dimensions row).
Proof.
  intros db. apply EmbeddingProofs.search_ok, HistoryProofs.reachable_wf.
Qed.

(** C7 on a store with an embedding of two dimensions for error 1 and one of
    three for error 2, searched with a vector of three: error 1 is left out. *)
Lemma C7_dimension_mismatch_skipped_witness :
  let db := History.run Samples2.two_embeddings Types.empty_db in
  exists results,
    EmbeddingService.findSimilarByEmbedding db [0; 1; 0]%float None None = Ok results
    /\ ~ In 1 (map (fun r => Types.id (Types.error (fst r))) results).
Proof.
  intros db.
  destruct (C7_dimension_mismatch_skipped Samples2.two_embeddings [0; 1; 0]%float None None)
    as [results [E [Hskip _]]].
  exists results. split; [exact E|].
  apply (Hskip Samples2.first_embedding).
  - vm_compute. left. reflexivity.
  - vm_compute. discriminate.
Defined.

(* ================================================================= *)
(** ** Ranking *)

Module RankFacts.
Import Types Sorting Ranking.

Lemma Qltb_true (a b : Q) : Qltb a b = true <-> (a < b)%Q.
Proof.
  unfold Qltb. rewrite negb_true_iff. split; intros H.
  - apply Qnot_le_lt. intros Hle. apply Qle_bool_iff in Hle. congruence.
  - destruct (Qle_bool b a) eqn:E; [|reflexivity].
    apply Qle_bool_iff in E. exfalso. exact (Qlt_not_le _ _ H E).
Qed.

Lemma Qltb_false (a b : Q) : Qltb a b = false <-> (b <= a)%Q.
Proof.
  unfold Qltb. rewrite negb_false_iff. apply Qle_bool_iff.
Qed.

Section Sorted.
Context {A : Type} (after : A -> A -> bool) (R : A -> A -> Prop).
Hypothesis keep : forall x y, after x y = false -> R x y.
Hypothesis swap : forall x y, after x y = true -> R y x.

Lemma insert_sorted (x : A) (l : list A) :
  Sorted.Sorted R l -> Sorted.Sorted R (insert after x l).
Proof.
  induction l as [|y l IH]; intros Hs; cbn [insert].
  - repeat constructor.
  - inversion Hs as [|? ? Hl Hhd]; subst.
    destruct (after x y) eqn:E.
    + constructor; [now apply IH|].
      destruct l as [|z l]; cbn [insert].
      * constructor. now apply swap.
      * destruct (after x z); constructor; [|now apply swap].
        now inversion Hhd.
    + constructor; [assumption|]. constructor. now apply keep.
Qed.

Lemma sort_sorted (l : list A) : Sorted.Sorted R (sort after l).
Proof.
  induction l as [|x l IH]; [constructor|].
  cbn [sort fold_right]. now apply insert_sorted.
Qed.

End Sorted.

Lemma firstn_sorted {A} (R : A -> A -> Prop) (n : nat) (l : list A) :
  Sorted.Sorted R l -> Sorted.Sorted R (firstn n l).
Proof.
  revert l. induction n as [|n IH]; intros l Hs; [constructor|].
  destruct l as [|x l]; [constructor|].
  inversion Hs as [|? ? Hl Hhd]; subst. cbn [firstn]. constructor; [now apply IH|].
  destruct l as [|y l]; [rewrite firstn_nil; constructor|]. destruct n; [constructor|].
  cbn [firstn]. constructor. now inversion Hhd.
Qed.

Lemma slice_sorted {A} (R : A -> A -> Prop) (n : Z) (l : list A) :
  Sorted.Sorted R l -> Sorted.Sorted R (slice n l).
Proof. intros H. unfold slice. destruct (n <? 0)%Z; now apply firstn_sorted. Qed.

(** A sort by [0 < score b - score a] leaves the scores falling. *)
Lemma sort_descending {A} (score : A -> Q) (l : list A) :
  descending score (sort (fun a b => Qltb 0 (score b - score a)) l).
Proof.
  apply sort_sorted.
  - intros x y H. apply Qltb_false in H. lra.
  - intros x y H. apply Qltb_true in H. lra.
Qed.

End RankFacts.

Module ScoreProofs.
Import Js Types Sql Ranking RankFacts MemoryService.

Lemma fold_better (rest : list SolutionRow) :
  forall first, best_of (first :: rest) (fold_left better rest first).
Proof.
  induction rest as [|s rest IH]; intros first.
  - split; [now left|]. intros t [<- | []]. apply Qle_refl.
  - cbn [fold_left]. destruct (IH (better first s)) as [Hin Hmax].
    split.
    + destruct Hin as [<- | Hin]; [|right; now right].
      unfold better. destruct (Qltb _ _); [right; now left | now left].
    + intros t Ht.
      assert (Hstep : (success_rate first <= success_rate (better first s))%Q
                      /\ (success_rate s <= success_rate (better first s))%Q).
      { unfold better. destruct (Qltb _ _) eqn:E.
        - apply Qltb_true in E. split; [now apply Qlt_le_weak | apply Qle_refl].
        - apply Qltb_false in E. split; [apply Qle_refl | assumption]. }
      destruct Hstep as [H1 H2].
      pose proof (Hmax (better first s) (or_introl eq_refl)) as H0.
      destruct Ht as [<- | [<- | Ht]].
      * eapply Qle_trans; eassumption.
      * eapply Qle_trans; eassumption.
      * apply Hmax. now right.
Qed.

Lemma score_spec (result : ErrorSearchResult) :
  match res_solutions result with
  | [] => (calculateResultScore result == relevance (score_of result) None)%Q
  | _ :: _ =>
      exists best,
        best_of (res_solutions result) best
        /\ (calculateResultScore result == relevance (score_of result) (Some best))%Q
  end.
Proof.
  unfold calculateResultScore. destruct (res_solutions result) as [|first rest].
  - cbn [relevance]. ring.
  - exists (fold_left better rest first). split; [apply fold_better|].
    cbn [relevance]. unfold attempts.
    replace (2 * (success_count (fold_left better rest first)
                  + failure_count (fold_left better rest first)))
      with ((success_count (fold_left better rest first)
             + failure_count (fold_left better rest first)) * 2) by lia.
    ring.
Qed.

End ScoreProofs.

(** C4: the score of a result is its similarity times 40, plus, when it has a
    solution, 20, the best solution's success rate times 30 and twice that
    solution's attempts capped at 10; [getRelevantMemories] returns its results
    in falling order of this score. *)
Theorem C4_relevance_score :
  (forall result : Types.ErrorSearchResult,
      match Types.res_solutions result with
      | [] => (MemoryService.calculateResultScore result
               == Ranking.relevance (MemoryService.score_of result) None)%Q
      | _ :: _ =>
          exists best,
            Ranking.best_of (Types.res_solutions result) best
            /\ (MemoryService.calculateResultScore result
                == Ranking.relevance (MemoryService.score_of result) (Some best))%Q
      end)
  /\ (forall (config : MemoryService.Config) (db : Types.Db)
             (context : ContextBuilder.TaskContext),
         Ranking.descending MemoryService.calculateResultScore
           (MemoryService.relevantErrors
              (MemoryService.getRelevantMemories config db context))).
Proof.
  split; [exact ScoreProofs.score_spec|].
  intros config db context. unfold MemoryService.getRelevantMemories.
  cbn [MemoryService.buildMemoryContext MemoryService.relevantErrors].
  apply RankFacts.slice_sorted. apply RankFacts.sort_descending.
Qed.

(* ================================================================= *)
(** ** Fusion of the strategies *)

Module FusionProofs.
Import Js Types Sql Ranking RankFacts MemoryService.

Lemma seen_In (results : list ErrorSearchResult) (i : nat) :
  seen results i = true <-> In i (map id_of results).
Proof.
  unfold seen. rewrite existsb_exists, in_map_iff. split.
  - intros [r [Hin Hid]]. apply Nat.eqb_eq in Hid. now exists r.
  - intros [r [Hid Hin]]. exists r. split; [assumption|]. now apply Nat.eqb_eq.
Qed.

(** [push_unseen] appends: what was there stays in front; no id is added
    twice; every id found is there afterwards; each entry added comes from a
    found pair whose id was not there yet and has no earlier pair. *)
Lemma push_unseen_spec (db : Db) (kind : Q -> MatchType) (found : list (ErrorWithTags * Q)) :
  forall results,
    NoDup (map id_of results) ->
    exists extra,
      push_unseen db kind results found = results ++ extra
      /\ NoDup (map id_of (results ++ extra))
      /\ (forall f, In f found -> In (id (error (fst f))) (map id_of (results ++ extra)))
      /\ (forall r, In r extra ->
            ~ In (id_of r) (map id_of results)
            /\ exists before f after,
                 found = before ++ f :: after
                 /\ r = entry db kind f
                 /\ ~ In (id_of r) (map (fun g => id (error (fst g))) before)).
Proof.
  unfold push_unseen.
  induction found as [|f found IH]; intros results Hnd.
  - exists []. rewrite app_nil_r. split; [reflexivity|]. split; [assumption|].
    split; [intros f [] | intros r []].
  - cbn [fold_left].
    destruct (seen results (id (error (fst f)))) eqn:Hseen.
    + destruct (IH results Hnd) as [extra [E [Hnd' [Hall Hextra]]]].
      exists extra. split; [exact E|]. split; [exact Hnd'|]. split.
      * intros g [<- | Hg]; [|now apply Hall].
        rewrite map_app. apply in_or_app. left. now apply seen_In.
      * intros r Hr. destruct (Hextra r Hr) as [Hnew [before [g [after [-> [Hr' Hfirst]]]]]].
        split; [exact Hnew|]. exists (f :: before), g, after.
        split; [reflexivity|]. split; [exact Hr'|].
        cbn [map]. intros [Hf | Hin]; [|now apply Hfirst].
        apply Hnew. rewrite <- Hf. now apply seen_In.
    + assert (Hfresh : ~ In (id (error (fst f))) (map id_of results)).
      { intros H. apply seen_In in H. congruence. }
      assert (Hnd1 : NoDup (map id_of (results ++ [entry db kind f]))).
      { rewrite map_app. cbn [map]. apply NoDup_app; [assumption | repeat constructor; intros [] | ].
        intros x Hx [<- | []]. exact (Hfresh Hx). }
      destruct (IH _ Hnd1) as [extra [E [Hnd' [Hall Hextra]]]].
      exists (entry db kind f :: extra).
      replace (results ++ entry db kind f :: extra)
        with ((results ++ [entry db kind f]) ++ extra) by (now rewrite <- app_assoc).
      split; [exact E|]. split; [exact Hnd'|]. split.
      * intros g [<- | Hg]; [|now apply Hall].
        rewrite !map_app. apply in_or_app. left. apply in_or_app. right. now left.
      * intros r [<- | Hr].
        -- split; [exact Hfresh|]. exists [], f, found.
           split; [reflexivity|]. split; [reflexivity|]. intros [].
        -- destruct (Hextra r Hr) as [Hnew [before [g [after [-> [Hr' Hfirst]]]]]].
           split.
           ++ intros H. apply Hnew. rewrite map_app. apply in_or_app. now left.
           ++ exists (f :: before), g, after.
              split; [reflexivity|]. split; [exact Hr'|].
              cbn [map]. intros [Hf | Hin]; [|now apply Hfirst].
              apply Hnew. rewrite map_app. apply in_or_app. right. left.
              unfold id_of, entry. cbn [res_error]. exact Hf.
Qed.

(** The lexical results [merged] asks for once the semantic ones are in. *)
Lemma merged_shape (config : Config) (db : Db) (errorMessage : str) (options : SearchOptions) :
  exists sem text,
    merged config db errorMessage options = sem ++ text
    /\ NoDup (map id_of (sem ++ text))
    /\ (forall search semanticResults,
          semantic_enabled config options = Some search ->
          search db errorMessage (Z_or (limit options) 5)
                 (Q_or (minSimilarity options) (7 # 10)%Q) = Ok semanticResults ->
          (forall f, In f semanticResults -> In (id (error (fst f))) (map id_of sem))
          /\ forall r, In r sem ->
               exists before f after,
                 semanticResults = before ++ f :: after
                 /\ r = entry db semantic_kind f
                 /\ ~ In (id_of r) (map (fun g => id (error (fst g))) before)).
Proof.
  unfold merged.
  set (sem := match semantic_enabled config options with
              | Some search =>
                  match search db errorMessage (Z_or (limit options) 5)
                          (Q_or (minSimilarity options) (7 # 10)%Q) with
                  | Ok semanticResults => push_unseen db semantic_kind [] semanticResults
                  | Throw _ => []
                  end
              | None => []
              end).
  assert (Hsem : NoDup (map id_of sem)
                 /\ forall search semanticResults,
                      semantic_enabled config options = Some search ->
                      search db errorMessage (Z_or (limit options) 5)
                             (Q_or (minSimilarity options) (7 # 10)%Q) = Ok semanticResults ->
                      (forall f, In f semanticResults -> In (id (error (fst f))) (map id_of sem))
                      /\ forall r, In r sem ->
                           exists before f after,
                             semanticResults = before ++ f :: after
                             /\ r = entry db semantic_kind f
                             /\ ~ In (id_of r) (map (fun g => id (error (fst g))) before)).
  { unfold sem. destruct (semantic_enabled config options) as [search|].
    - destruct (search db errorMessage _ _) as [semanticResults|e] eqn:Esem.
      + destruct (@push_unseen_spec db semantic_kind semanticResults [] (NoDup_nil _))
          as [extra [-> [Hnd [Hall Hextra]]]].
        cbn [app] in *. split; [exact Hnd|].
        intros search' results' Hs Hr. injection Hs as <-.
        rewrite Esem in Hr. injection Hr as <-.
        split; [exact Hall|]. intros r Hr. now destruct (Hextra r Hr).
      + split; [constructor|]. intros search' results' Hs Hr. injection Hs as <-.
        rewrite Esem in Hr. discriminate.
    - split; [constructor|]. discriminate. }
  destruct Hsem as [Hnd Hsem].
  match goal with
  | |- context [push_unseen db text_kind sem ?t] =>
      destruct (@push_unseen_spec db text_kind t sem Hnd) as [text [-> [Hnd' _]]]
  end.
  exists sem, text. split; [reflexivity|]. split; [exact Hnd'|]. exact Hsem.
Qed.

End FusionProofs.

(** C3, as the code has it: an error that the semantic and the lexical
    strategy both return is in the merged list exactly once, with the score
    and the match kind of the semantic strategy, which runs first; the final
    list is the merged list sorted by falling similarity and cut to the
    requested limit (10 when none is requested). *)
Theorem C3_fusion_first_strategy_wins
        (config : MemoryService.Config) (db : Types.Db) (errorMessage : Js.str)
        (options : Types.SearchOptions) :
  let all := MemoryService.merged config db errorMessage options in
  let final := MemoryService.findSimilar config db errorMessage options in
  NoDup (map Ranking.id_of all)
  /\ (forall search semanticResults f,
        MemoryService.semantic_enabled config options = Some search ->
        search db errorMessage (Types.Z_or (Types.limit options) 5)
               (Types.Q_or (Types.minSimilarity options) (7 # 10)%Q) = Ok semanticResults ->
        In f semanticResults ->
        exists r first,
          In r all /\ In first semanticResults
          /\ Ranking.id_of r = Types.id (Types.error (fst f))
          /\ Types.id (Types.error (fst first)) = Types.id (Types.error (fst f))
          /\ r = MemoryService.entry db MemoryService.semantic_kind first
          /\ Types.matchType r = Types.semantic
          /\ Types.similarity r = Some (snd first))
  /\ final = Sorting.slice (Types.Z_or (Types.limit options) 10)
               (Sorting.sort MemoryService.by_similarity all)
  /\ Ranking.descending MemoryService.score_of final
  /\ (forall r, In r final -> In r all)
  /\ ((0 <= Types.Z_or (Types.limit options) 10)%Z ->
      List.length final <= Z.to_nat (Types.Z_or (Types.limit options) 10)).
Proof.
  intros all final.
  destruct (FusionProofs.merged_shape config db errorMessage options)
    as [sem [text [E [Hnd Hsem]]]].
  fold all in E. split; [now rewrite E|]. split; [|split; [reflexivity|]].
  - intros search semanticResults f Hs Hr Hf.
    destruct (Hsem search semanticResults Hs Hr) as [Hall Hfrom].
    specialize (Hall f Hf). apply in_map_iff in Hall as [r [Hid Hin]].
    destruct (Hfrom r Hin) as [before [first [after [Hsplit [Hr' _]]]]].
    exists r, first. split; [rewrite E; apply in_or_app; now left|].
    split; [rewrite Hsplit; apply in_or_app; right; now left|].
    split; [exact Hid|]. split; [|split; [exact Hr'|]].
    + rewrite <- Hid, Hr'. reflexivity.
    + rewrite Hr'. split; reflexivity.
  - split; [|split].
    + unfold final, MemoryService.findSimilar.
      apply RankFacts.slice_sorted. apply RankFacts.sort_descending.
    + intros r Hr. unfold final, MemoryService.findSimilar in Hr.
      now apply SortFacts.slice_In, SortFacts.sort_In in Hr.
    + intros H. unfold final, MemoryService.findSimilar. now apply SortFacts.slice_length.
Qed.

(** C3 on the store of two errors: the semantic strategy finds the second at
    0.8, the lexical one finds it exactly; the list holds it once, as a
    semantic match at 0.8. *)
Lemma C3_fusion_first_strategy_wins_witness :
  let db := History.run Samples2.two_errors Types.empty_db in
  let hit := (ErrorService.with_tags_of db Samples2.stored_type_error, (8 # 10)%Q) in
  exists r first,
    In r (MemoryService.merged Samples2.with_embeddings db Samples2.type_error_query
            Types.no_options)
    /\ In first [hit]
    /\ Ranking.id_of r = 2
    /\ Types.id (Types.error (fst first)) = 2
    /\ r = MemoryService.entry db MemoryService.semantic_kind first
    /\ Types.matchType r = Types.semantic
    /\ Types.similarity r = Some (snd first).
Proof.
  intros db hit.
  exact (proj1 (proj2 (C3_fusion_first_strategy_wins Samples2.with_embeddings db
                         Samples2.type_error_query Types.no_options))
           Samples2.semantic_hit [hit] hit eq_refl eq_refl (or_introl eq_refl)).
Defined.

(** C3 as stated fails there: the lexical strategy scores the error 1, the
    semantic one 0.8, and the list keeps 0.8. *)
Lemma C3_higher_score_counterexample :
  let db := History.run Samples2.two_errors Types.empty_db in
  let e := ErrorService.with_tags_of db Samples2.stored_type_error in
  Samples2.semantic_hit db Samples2.type_error_query 5%Z (7 # 10)%Q = Ok [(e, (8 # 10)%Q)]
  /\ ErrorService.found
       (ErrorService.findSimilarErrors db Samples2.type_error_query
          (MemoryService.with_limit Types.no_options 9%Z))
     = [(e, 1%Q)]
  /\ MemoryService.findSimilar Samples2.with_embeddings db Samples2.type_error_query
       Types.no_options
     = [ {| Types.res_error := e; Types.res_solutions := [];
            Types.similarity := Some (8 # 10)%Q; Types.matchType := Types.semantic |} ]
  /\ (8 # 10 < 1)%Q.
Proof.
  vm_compute. repeat split; reflexivity.
Qed.

(* ================================================================= *)
(** ** Normalisation *)

Module RegexFacts.
Import Js Regex Analysis.

Lemma in_all_ascii (c : ascii) : In c all_ascii.
Proof.
  unfold all_ascii. apply in_map_iff. exists (nat_of_ascii c).
  split; [apply ascii_nat_embedding|]. apply in_seq.
  pose proof (nat_ascii_bounded c). lia.
Qed.

Section Needs.
Variable ok : ascii -> bool.

(** A continuation that fails on every remainder within [ok] makes the whole
    match fail. *)
Lemma run_fail_cont (r : re) :
  forall p s k,
    Forall (fun c => ok c = true) s ->
    (forall p' s', Forall (fun c => ok c = true) s' -> k p' s' = None) ->
    run r p s k = None.
Proof.
  induction r as [| f | r1 IH1 r2 IH2 | r1 IH1 r2 IH2 | r1 IH1 | | | r1 IH1];
    intros p s k Hs Hk; cbn [run].
  - now apply Hk.
  - destruct s as [|c s']; [reflexivity|]. inversion Hs; subst.
    destruct (f c); [now apply Hk | reflexivity].
  - apply IH1; [assumption|]. intros p' s' Hs'. now apply IH2.
  - rewrite IH1 by assumption. now apply IH2.
  - generalize (List.length s) as n. intros n. revert p s Hs.
    induction n as [|n IHn]; intros p s Hs; [now apply Hk|].
    rewrite IH1; [now apply Hk | assumption |].
    intros p' s' Hs'. destruct (_ <? _); [now apply IHn | reflexivity].
  - destruct (xorb _ _); [now apply Hk | reflexivity].
  - destruct s; [now apply Hk | reflexivity].
  - destruct (run r1 p s _); [now apply Hk | reflexivity].
Qed.

Lemma run_needs (r : re) :
  forall p s k,
    Forall (fun c => ok c = true) s -> needs ok r = true -> run r p s k = None.
Proof.
  induction r as [| f | r1 IH1 r2 IH2 | r1 IH1 r2 IH2 | r1 IH1 | | | r1 IH1];
    intros p s k Hs Hn; cbn [needs] in Hn; try discriminate Hn; cbn [run].
  - destruct s as [|c s']; [reflexivity|]. inversion Hs as [|? ? Hc Hs']; subst.
    rewrite forallb_forall in Hn. specialize (Hn c (in_all_ascii c)).
    rewrite Hc in Hn. cbn in Hn. apply negb_true_iff in Hn. now rewrite Hn.
  - apply orb_prop in Hn as [Hn | Hn].
    + now apply IH1.
    + apply run_fail_cont; [assumption|]. intros p' s' Hs'. now apply IH2.
  - apply andb_prop in Hn as [Hn1 Hn2]. rewrite IH1 by assumption. now apply IH2.
Qed.


End Needs.

(** *** The white-space pattern *)

Lemma skip_spaces_rest (p : option ascii) (s : str) : snd (skip_spaces p s) = trimStart s.
Proof.
  revert p. induction s as [|c s IH]; intros p; [reflexivity|].
  cbn [skip_spaces trimStart]. destruct (is_space c); [apply IH | reflexivity].
Qed.

Lemma trimStart_length (s : str) : List.length (trimStart s) <= List.length s.
Proof.
  induction s as [|c s IH]; [reflexivity|].
  cbn [trimStart]. destruct (is_space c); cbn [List.length]; lia.
Qed.

Lemma star_spaces (n : nat) :
  forall p s,
    List.length s <= n ->
    run (Star space) p s (fun p' s' => Some (p', s')) = Some (skip_spaces p s).
Proof.
  cbn [run space].
  assert (H : forall n p s, List.length s <= n ->
    (fix star (fuel : nat) (p0 : option ascii) (s0 : str) {struct fuel} : option pos :=
       match fuel with
       | 0 => Some (p0, s0)
       | S fuel' =>
           match
             match s0 with
             | [] => None
             | c :: s' =>
                 if is_space c
                 then if List.length s' <? List.length s0 then star fuel' (Some c) s' else None
                 else None
             end
           with
           | Some e => Some e
           | None => Some (p0, s0)
           end
       end) n p s = Some (skip_spaces p s)).
  { clear n. induction n as [|n IH]; intros p s Hlen.
    - destruct s; [reflexivity | cbn in Hlen; lia].
    - destruct s as [|c s']; [reflexivity|]. cbn [skip_spaces].
      destruct (is_space c); [|reflexivity].
      cbn [List.length] in *.
      destruct (Nat.ltb_spec (List.length s') (S (List.length s'))); [|lia].
      rewrite IH by lia. reflexivity. }
  intros p s Hlen. apply H. lia.
Qed.

Lemma match_spaces (p : option ascii) (s : str) :
  match_at ErrorHash.pat_spaces p s
  = match s with
    | c :: s' => if is_space c then Some (skip_spaces (Some c) s') else None
    | [] => None
    end.
Proof.
  unfold match_at, ErrorHash.pat_spaces, Plus.
  change (run (Seq space (Star space)) p s (fun p' s' => Some (p', s')))
    with (run space p s (fun p' s' => run (Star space) p' s' (fun p'' s'' => Some (p'', s'')))).
  unfold space at 1. cbn [run].
  destruct s as [|c s']; [reflexivity|].
  destruct (is_space c); [|reflexivity].
  exact (@star_spaces (List.length s') (Some c) s' (Nat.le_refl _)).
Qed.

Lemma collapse_gap (s : str) : collapse_from true s = collapse_from false (trimStart s).
Proof.
  induction s as [|c s IH]; [reflexivity|].
  cbn [collapse_from trimStart]. destruct (is_space c) eqn:E; [exact IH|].
  cbn [collapse_from]. now rewrite E.
Qed.

Lemma replace_spaces (fuel : nat) :
  forall p s,
    List.length s < fuel ->
    replace_from fuel ErrorHash.pat_spaces (of_string " ") p s = collapse s.
Proof.
  unfold collapse.
  induction fuel as [|fuel IH]; intros p s Hlen; [lia|].
  cbn [replace_from]. rewrite match_spaces.
  destruct s as [|c s']; [reflexivity|]. cbn [List.length] in Hlen.
  cbn [collapse_from]. destruct (is_space c).
  - pose proof (skip_spaces_rest (Some c) s') as Hrest.
    pose proof (trimStart_length s') as Hl.
    destruct (skip_spaces (Some c) s') as [p' rest]. cbn [snd] in Hrest. subst rest.
    destruct (Nat.ltb_spec (List.length (trimStart s')) (List.length (c :: s')));
      [|cbn [List.length] in *; lia].
    rewrite IH by lia. rewrite collapse_gap. reflexivity.
  - rewrite IH by lia. reflexivity.
Qed.

End RegexFacts.

Module TrimFacts.
Import Js Regex Analysis RegexFacts.

(** *** Facts about single code units, checked on all 256 *)

Lemma for_all_ascii (P : ascii -> bool) :
  forallb P all_ascii = true -> forall c, P c = true.
Proof. intros H c. rewrite forallb_forall in H. apply H, in_all_ascii. Qed.

Lemma lower_space (c : ascii) : is_space (lower_char c) = is_space c.
Proof.
  apply Bool.eqb_prop.
  apply (for_all_ascii (fun c => Bool.eqb (is_space (lower_char c)) (is_space c))).
  vm_compute. reflexivity.
Qed.

Lemma lower_lower (c : ascii) : lower_char (lower_char c) = lower_char c.
Proof.
  apply Ascii.eqb_eq.
  apply (for_all_ascii (fun c => Ascii.eqb (lower_char (lower_char c)) (lower_char c))).
  vm_compute. reflexivity.
Qed.



(** *** Lower case commutes with trimming and collapsing *)

Lemma lower_trimStart (s : str) : toLowerCase (trimStart s) = trimStart (toLowerCase s).
Proof.
  unfold toLowerCase. induction s as [|c s IH]; [reflexivity|].
  cbn [trimStart map]. rewrite lower_space. destruct (is_space c); [exact IH | reflexivity].
Qed.

Lemma lower_rev (s : str) : toLowerCase (rev s) = rev (toLowerCase s).
Proof. unfold toLowerCase. apply map_rev. Qed.

Lemma lower_trim (s : str) : toLowerCase (trim s) = trim (toLowerCase s).
Proof.
  unfold trim, trimEnd.
  now rewrite lower_rev, lower_trimStart, lower_rev, lower_trimStart.
Qed.

Lemma lower_collapse_from (gap : bool) (s : str) :
  toLowerCase (collapse_from gap s) = collapse_from gap (toLowerCase s).
Proof.
  unfold toLowerCase. revert gap. induction s as [|c s IH]; intros gap; [reflexivity|].
  cbn [collapse_from map]. rewrite lower_space.
  destruct (is_space c); [destruct gap|]; cbn [map]; now rewrite IH.
Qed.

Lemma lower_idem (s : str) : toLowerCase (toLowerCase s) = toLowerCase s.
Proof. unfold toLowerCase. rewrite map_map. apply map_ext, lower_lower. Qed.

(** *** Trimming *)

Lemma trimStart_clean (s : str) : starts_clean (trimStart s).
Proof.
  induction s as [|c s IH]; [exact I|].
  cbn [trimStart]. destruct (is_space c) eqn:E; [exact IH | exact E].
Qed.

Lemma trimStart_id (s : str) : starts_clean s -> trimStart s = s.
Proof. destruct s as [|c s]; [reflexivity|]. cbn. now intros ->. Qed.

(** [trimStart] drops a prefix of white space. *)
Lemma trimStart_suffix (s : str) :
  exists sp, s = sp ++ trimStart s /\ Forall (fun c => is_space c = true) sp.
Proof.
  induction s as [|c s [sp [E Hsp]]]; [now exists []|].
  cbn [trimStart]. destruct (is_space c) eqn:Ec.
  - exists (c :: sp). split; [cbn; now rewrite <- E | now constructor].
  - now exists [].
Qed.

Lemma starts_clean_app (s t : str) : starts_clean (s ++ t) -> s <> [] -> starts_clean s.
Proof. destruct s; [contradiction | trivial]. Qed.

Lemma trim_clean (s : str) : clean (trim s).
Proof.
  unfold clean, trim, trimEnd. rewrite rev_involutive. split; [|apply trimStart_clean].
  set (t := trimStart s). pose proof (trimStart_clean s) as Ht. fold t in Ht.
  destruct (trimStart_suffix (rev t)) as [sp [E _]].
  destruct (rev (trimStart (rev t))) as [|c u] eqn:Eu; [exact I|].
  assert (Et : t = rev (trimStart (rev t)) ++ rev sp).
  { rewrite <- (rev_involutive t) at 1. rewrite E at 1. now rewrite rev_app_distr. }
  rewrite Eu in Et. rewrite Et in Ht. exact Ht.
Qed.

Lemma clean_trim (s : str) : clean s -> trim s = s.
Proof.
  intros [H1 H2]. unfold trim, trimEnd. rewrite (trimStart_id s H1).
  rewrite (trimStart_id (rev s) H2). apply rev_involutive.
Qed.

Lemma trim_trim (s : str) : trim (trim s) = trim s.
Proof. apply clean_trim, trim_clean. Qed.

(** *** Collapsing *)








End TrimFacts.

Module NormalizeProofs.
Import Js Regex Analysis RegexFacts TrimFacts ErrorHash.

(** The placeholder patterns: all but the last, which collapses white space. *)
Lemma patterns_split :
  NORMALIZATION_PATTERNS
  = firstn 12 NORMALIZATION_PATTERNS ++ [(pat_spaces, of_string " ")].
Proof. reflexivity. Qed.



Lemma apply_patterns_app (ps qs : list (re * str)) (s : str) :
  apply_patterns (ps ++ qs) s = apply_patterns qs (apply_patterns ps s).
Proof. unfold apply_patterns. apply fold_left_app. Qed.

Lemma apply_patterns_one (r : re) (rep : str) (s : str) :
  apply_patterns [(r, rep)] s = replace_all r rep s.
Proof. reflexivity. Qed.



Lemma lower_collapse (s : str) : toLowerCase (collapse s) = collapse (toLowerCase s).
Proof. apply lower_collapse_from. Qed.







End NormalizeProofs.




(* ================================================================= *)
(** ** The edit distance, exactly *)

Module TableProofs.
Import Js Similarity ListFacts LevFacts LevProofs EditDistance.

Lemma table_step a b i j :
  table a b (S i) (S j)
  = if same_char (charAt b i) (charAt a j) then table a b i j
    else Nat.min (table a b i j + 1)
           (Nat.min (table a b (S i) j + 1) (table a b i (S j) + 1)).
Proof. reflexivity. Qed.

Lemma table_left a b i : table a b i 0 = i.
Proof. destruct i; reflexivity. Qed.

Lemma tabulated_push a b i j m v :
  i <= List.length b ->
  tabulated a b i j m -> v = table a b i j ->
  tabulated a b i (S j) (set_cell m i j v).
Proof.
  intros Hi [Hrows Hdone [Hlen Hcur] Htodo] Hv.
  assert (Him : i < List.length m) by lia.
  split.
  - now rewrite set_cell_rows.
  - intros i' Hi'. unfold cell. rewrite row_set_cell_other by lia.
    apply Hdone; assumption.
  - rewrite row_set_cell_same by assumption. subst j.
    rewrite set_at_end. split.
    + rewrite length_app. simpl. lia.
    + intros j' Hj'. unfold cell. rewrite row_set_cell_same by assumption.
      rewrite set_at_end.
      destruct (Nat.eq_dec j' (List.length (nth i m []))) as [->|Hne].
      * rewrite nth_middle. exact Hv.
      * rewrite app_nth1 by lia. apply Hcur. lia.
  - intros i' Hi'. rewrite row_set_cell_other by lia. now apply Htodo.
Qed.

Lemma lev_cell_tabulated a b i j m :
  1 <= i <= List.length b -> 1 <= j <= List.length a ->
  tabulated a b i j m -> tabulated a b i (S j) (lev_cell a b m i j).
Proof.
  intros Hi Hj F.
  destruct i as [|i]; [lia|]. destruct j as [|j]; [lia|].
  assert (Hd : cell m i j = table a b i j
               /\ cell m i (S j) = table a b i (S j)
               /\ cell m (S i) j = table a b (S i) j).
  { destruct F as [_ Hdone [Hlen Hcur] _].
    destruct (Hdone i) as [_ Hrow]; [lia|].
    split; [apply Hrow; lia|]. split; [apply Hrow; lia|]. apply Hcur. lia. }
  destruct Hd as (Hd1 & Hd2 & Hd3).
  unfold lev_cell. cbn [Nat.sub]. rewrite !Nat.sub_0_r.
  rewrite Hd1, Hd2, Hd3.
  destruct (same_char _ _) eqn:E;
    (apply tabulated_push; [lia | assumption | rewrite table_step, E; reflexivity]).
Qed.

Lemma lev_row_tabulated a b i m :
  1 <= i <= List.length b ->
  tabulated a b i 1 m -> tabulated a b i (S (List.length a)) (lev_row a b m i).
Proof.
  intros Hi F. unfold lev_row.
  change (S (List.length a)) with (1 + List.length a).
  apply (fold_left_seq_inv (fun j x => tabulated a b i j x)); [exact F|].
  intros k x Hk Fk. apply lev_cell_tabulated; [assumption | lia | assumption].
Qed.

Lemma tabulated_next a b i m :
  S i <= List.length b ->
  tabulated a b i (S (List.length a)) m -> tabulated a b (S i) 1 m.
Proof.
  intros Hi [Hrows Hdone [Hlen Hcur] Htodo]. split.
  - assumption.
  - intros i' Hi'. destruct (Nat.eq_dec i' i) as [->|Hne].
    + split; [assumption|]. intros j' Hj'. apply Hcur. lia.
    + apply Hdone. lia.
  - rewrite (Htodo (S i)) by lia. split; [reflexivity|].
    intros j' Hj'. unfold cell. rewrite (Htodo (S i)) by lia.
    destruct j'; [reflexivity | lia].
  - intros i' Hi'. apply Htodo. lia.
Qed.

Lemma lev_init_tabulated a b : tabulated a b 0 (S (List.length a)) (lev_init a b).
Proof.
  unfold lev_init.
  set (m0 := map (fun i => [i]) (seq 0 (S (List.length b)))).
  assert (Hlen0 : List.length m0 = S (List.length b)).
  { unfold m0. now rewrite length_map, length_seq. }
  assert (Hm0 : forall i, i <= List.length b -> nth i m0 [] = [i]).
  { intros i Hi. unfold m0.
    rewrite (nth_indep _ [] [0]) by (rewrite length_map, length_seq; lia).
    transitivity ((fun i => [i]) (nth i (seq 0 (S (List.length b))) 0)).
    - exact (map_nth (fun i => [i]) _ 0 i).
    - rewrite seq_nth by lia. reflexivity. }
  cbn [seq fold_left].
  change (S (List.length a)) with (1 + List.length a).
  apply (fold_left_seq_inv (fun j x => tabulated a b 0 j x)).
  - split.
    + rewrite set_cell_rows; lia.
    + intros i' Hi'. lia.
    + rewrite row_set_cell_same by lia. rewrite Hm0 by lia. split; [reflexivity|].
      intros j' Hj'. unfold cell. rewrite row_set_cell_same by lia.
      rewrite Hm0 by lia. destruct j'; [reflexivity | lia].
    + intros i' Hi'. rewrite row_set_cell_other by lia. apply Hm0. lia.
  - intros k x Hk Fk. apply tabulated_push; [lia | assumption | reflexivity].
Qed.

Lemma lev_rows_tabulated a b :
  forall n, n <= List.length b ->
    tabulated a b n (S (List.length a))
      (fold_left (lev_row a b) (seq 1 n) (lev_init a b)).
Proof.
  induction n as [|n IH]; intros Hn.
  - apply lev_init_tabulated.
  - rewrite seq_S, fold_left_app. cbn [fold_left Nat.add].
    apply lev_row_tabulated; [lia|].
    apply tabulated_next; [lia|]. apply IH. lia.
Qed.

(** The loops compute the table. *)
Lemma levenshteinDistance_table (a b : str) :
  levenshteinDistance a b = table a b (List.length b) (List.length a).
Proof.
  unfold levenshteinDistance.
  destruct (Nat.eqb_spec (List.length a) 0) as [Ha|Ha].
  { rewrite Ha. now rewrite table_left. }
  destruct (Nat.eqb_spec (List.length b) 0) as [Hb|Hb].
  { rewrite Hb. reflexivity. }
  destruct (@lev_rows_tabulated a b (List.length b) (Nat.le_refl _)) as [_ _ [_ Hcur] _].
  apply Hcur. lia.
Qed.

(** *** The table is a distance *)

Lemma same_char_sym x y : same_char x y = same_char y x.
Proof.
  destruct x as [c|], y as [d|]; cbn; try reflexivity.
  apply Ascii.eqb_sym.
Qed.

Lemma table_sym a b : forall i j, table a b i j = table b a j i.
Proof.
  induction i as [|i IHi]; intros j.
  - cbn [table]. now rewrite table_left.
  - induction j as [|j IHj].
    + reflexivity.
    + rewrite !table_step. rewrite same_char_sym.
      rewrite IHj. rewrite (IHi j), (IHi (S j)).
      destruct (same_char _ _); [reflexivity|]. lia.
Qed.

Lemma table_gap a b : forall i j, i - j <= table a b i j /\ j - i <= table a b i j.
Proof.
  induction i as [|i IHi]; intros j.
  - cbn [table]. lia.
  - induction j as [|j IHj].
    + cbn [table]. lia.
    + rewrite table_step.
      pose proof (IHi j). pose proof (IHi (S j)).
      destruct (same_char _ _); lia.
Qed.

Lemma table_diag a : forall n, table a a n n = 0.
Proof.
  induction n as [|n IH]; [reflexivity|].
  rewrite table_step.
  replace (same_char (charAt a n) (charAt a n)) with true; [exact IH|].
  unfold charAt. destruct (nth_error a n); cbn; [|reflexivity].
  symmetry. apply Ascii.eqb_refl.
Qed.

Lemma firstn_snoc {A} (l : list A) (n : nat) (x : A) :
  nth_error l n = Some x -> firstn (S n) l = firstn n l ++ [x].
Proof.
  revert l. induction n as [|n IH]; intros [|y l] H; try discriminate.
  - cbn in H. injection H as ->. reflexivity.
  - cbn in H. change (y :: firstn (S n) l = y :: (firstn n l ++ [x])).
    f_equal. now apply IH.
Qed.

Lemma table_zero a b : forall i j,
  i <= List.length b -> j <= List.length a ->
  table a b i j = 0 -> i = j /\ firstn i b = firstn j a.
Proof.
  induction i as [|i IHi]; intros j Hi Hj H.
  - cbn [table] in H. subst j. split; reflexivity.
  - destruct j as [|j]; [cbn [table] in H; discriminate|].
    rewrite table_step in H.
    destruct (nth_error b i) as [c|] eqn:Eb; [|apply nth_error_None in Eb; lia].
    destruct (nth_error a j) as [d|] eqn:Ea; [|apply nth_error_None in Ea; lia].
    unfold charAt in H. rewrite Eb, Ea in H. cbn [same_char] in H.
    destruct (Ascii.eqb_spec c d) as [->|Hne]; [|lia].
    destruct (IHi j) as [-> Hpre]; [lia | lia | exact H|].
    split; [reflexivity|].
    rewrite (firstn_snoc _ _ Eb), (firstn_snoc _ _ Ea). now rewrite Hpre.
Qed.

Lemma distance_zero (a b : str) : levenshteinDistance a b = 0 <-> a = b.
Proof.
  rewrite levenshteinDistance_table. split.
  - intros H. apply table_zero in H; [|lia|lia].
    destruct H as [Hl H]. rewrite !firstn_all in H. now symmetry.
  - intros ->. apply table_diag.
Qed.

End TableProofs.

(** X1: the edit distance is 0 exactly for equal strings, does not depend on
    the order of its arguments and is at least the difference of the lengths;
    so the normalised similarity is 1 exactly for equal strings. *)
Theorem X1_levenshtein_is_a_distance (a b : Js.str) :
  (Similarity.levenshteinDistance a b = 0 <-> a = b)
  /\ Similarity.levenshteinDistance a b = Similarity.levenshteinDistance b a
  /\ List.length a - List.length b <= Similarity.levenshteinDistance a b
  /\ List.length b - List.length a <= Similarity.levenshteinDistance a b
  /\ (Similarity.levenshteinSimilarity a b == 1 <-> a = b)%Q.
Proof.
  split; [apply TableProofs.distance_zero|].
  split; [rewrite !TableProofs.levenshteinDistance_table; apply TableProofs.table_sym|].
  pose proof (TableProofs.table_gap a b (List.length b) (List.length a)) as [G1 G2].
  rewrite <- TableProofs.levenshteinDistance_table in G1, G2.
  split; [exact G2|]. split; [exact G1|].
  unfold Similarity.levenshteinSimilarity.
  destruct (Nat.eqb_spec (Nat.max (List.length a) (List.length b)) 0) as [E|E].
  - split; [|reflexivity]. intros _.
    destruct a, b; cbn in E; try lia. reflexivity.
  - rewrite <- TableProofs.distance_zero.
    set (d := Similarity.levenshteinDistance a b).
    set (m := Nat.max (List.length a) (List.length b)) in *.
    unfold Similarity.ratio. split.
    + intros H. assert (H0 : (inject_Z (Z.of_nat d) / inject_Z (Z.of_nat m) == 0)%Q) by lra.
      destruct m as [|m]; [lia|].
      unfold Qdiv, Qinv, Qmult, Qeq, inject_Z in H0. cbn in H0. lia.
    + intros ->. unfold Qdiv, Qmult, Qminus, Qplus, Qopp, Qeq, inject_Z. cbn. lia.
Qed.

(* ================================================================= *)
(** ** Sets of strings and the overlap of two of them *)

Module SetFacts.
Import Js Similarity StoreFacts.

Lemma has_In (s : list str) (x : str) : has s x = true <-> In x s.
Proof.
  unfold has. rewrite existsb_exists. split.
  - intros [y [Hin E]]. apply eqb_eq in E. now subst.
  - intros H. exists x. split; [assumption | apply eqb_refl].
Qed.

Lemma filter_has_nil (l : list str) : filter (has []) l = [].
Proof. induction l as [|y l IH]; [reflexivity | exact IH]. Qed.

Lemma dedup_In (l : list str) (x : str) : In x (dedup l) <-> In x l.
Proof.
  induction l as [|y l IH]; [reflexivity|].
  cbn [dedup]. destruct (existsb (Js.eqb y) (dedup l)) eqn:E.
  - rewrite IH. cbn [In]. split; [now right|]. intros [<- | H]; [|assumption].
    apply IH. now apply has_In.
  - cbn [In]. now rewrite IH.
Qed.

Lemma dedup_NoDup (l : list str) : NoDup (dedup l).
Proof.
  induction l as [|y l IH]; [constructor|].
  cbn [dedup]. destruct (existsb (Js.eqb y) (dedup l)) eqn:E; [assumption|].
  constructor; [|assumption]. intros H. apply has_In in H. unfold has in H. congruence.
Qed.

Lemma dedup_id (l : list str) : NoDup l -> dedup l = l.
Proof.
  induction l as [|y l IH]; intros H; [reflexivity|].
  inversion H as [|? ? Hy Hl]; subst. cbn [dedup]. rewrite (IH Hl).
  destruct (existsb (Js.eqb y) l) eqn:E; [|reflexivity].
  exfalso. apply Hy. now apply has_In.
Qed.

Lemma mkSet_In (l : list str) (x : str) : In x (mkSet l) <-> In x l.
Proof. unfold mkSet. now rewrite <- in_rev, dedup_In, <- in_rev. Qed.

Lemma mkSet_NoDup (l : list str) : NoDup (mkSet l).
Proof. unfold mkSet. apply NoDup_rev, dedup_NoDup. Qed.

Lemma mkSet_id (l : list str) : NoDup l -> mkSet l = l.
Proof.
  intros H. unfold mkSet. rewrite dedup_id by now apply NoDup_rev.
  apply rev_involutive.
Qed.

(** Two lists without repeats and with the same members are equally long. *)
Lemma same_members_length (l l' : list str) :
  NoDup l -> NoDup l' -> (forall x, In x l <-> In x l') -> List.length l = List.length l'.
Proof.
  intros H H' E. apply Nat.le_antisymm; apply NoDup_incl_length; try assumption;
    intros x Hx; now apply E.
Qed.

Lemma ratio_one (n m : nat) : 0 < m -> (ratio n m == 1)%Q <-> n = m.
Proof.
  intros Hm. unfold ratio. destruct m as [|m]; [lia|].
  unfold Qdiv, Qinv, Qmult, Qeq, inject_Z. cbn. lia.
Qed.

(** The members of the intersection and of the union that [jaccardSimilarity]
    builds. *)
Section Overlap.
Variables a b : list str.
Let setA := mkSet (map toLowerCase a).
Let setB := mkSet (map toLowerCase b).
Let intersection := mkSet (filter (has setB) setA).
Let union := mkSet (setA ++ setB).

Lemma intersection_In x :
  In x intersection <-> In x (map toLowerCase a) /\ In x (map toLowerCase b).
Proof.
  unfold intersection. rewrite mkSet_In, filter_In, has_In. unfold setA, setB.
  now rewrite !mkSet_In.
Qed.

Lemma union_In x :
  In x union <-> In x (map toLowerCase a) \/ In x (map toLowerCase b).
Proof.
  unfold union. rewrite mkSet_In, in_app_iff. unfold setA, setB. now rewrite !mkSet_In.
Qed.

Lemma intersection_le_union : List.length intersection <= List.length union.
Proof.
  apply NoDup_incl_length; [apply mkSet_NoDup|].
  intros x Hx. apply union_In. apply intersection_In in Hx. tauto.
Qed.

Lemma jaccard_unfold :
  jaccardSimilarity a b
  = if (List.length setA =? 0) && (List.length setB =? 0) then 1%Q
    else ratio (List.length intersection) (List.length union).
Proof. reflexivity. Qed.

Lemma union_empty : List.length union = 0 -> List.length setA = 0 /\ List.length setB = 0.
Proof.
  intros H. apply length_zero_iff_nil in H.
  assert (Hn : forall x, ~ In x (setA ++ setB)).
  { intros x Hx. apply (mkSet_In (setA ++ setB)) in Hx. fold union in Hx.
    rewrite H in Hx. contradiction. }
  destruct setA as [|x ?]; [|exfalso; apply (Hn x); now left].
  destruct setB as [|x ?]; [|exfalso; apply (Hn x); now left].
  split; reflexivity.
Qed.

End Overlap.

Lemma jaccard_range (a b : list str) :
  (0 <= jaccardSimilarity a b)%Q /\ (jaccardSimilarity a b <= 1)%Q.
Proof.
  rewrite jaccard_unfold. destruct (_ && _).
  - split; unfold Qle; cbn; lia.
  - split; [apply RatioFacts.ratio_nonneg|].
    apply RatioFacts.ratio_le_1, intersection_le_union.
Qed.

Lemma jaccard_sym (a b : list str) : jaccardSimilarity a b = jaccardSimilarity b a.
Proof.
  rewrite !jaccard_unfold. rewrite andb_comm.
  destruct (_ && _); [reflexivity|]. f_equal.
  - apply same_members_length; try apply mkSet_NoDup.
    intros x. rewrite !intersection_In. tauto.
  - apply same_members_length; try apply mkSet_NoDup.
    intros x. rewrite !union_In. tauto.
Qed.

Lemma jaccard_one (a b : list str) :
  (jaccardSimilarity a b == 1)%Q
  <-> (forall x, In x (map toLowerCase a) <-> In x (map toLowerCase b)).
Proof.
  rewrite jaccard_unfold.
  destruct (Nat.eqb_spec (List.length (mkSet (map toLowerCase a))) 0) as [Ea|Ea];
  destruct (Nat.eqb_spec (List.length (mkSet (map toLowerCase b))) 0) as [Eb|Eb];
  cbn [andb].
  - split; [|reflexivity]. intros _ x.
    apply length_zero_iff_nil in Ea, Eb.
    rewrite <- (mkSet_In (map toLowerCase a)), <- (mkSet_In (map toLowerCase b)).
    now rewrite Ea, Eb.
  - rewrite ratio_one.
    2:{ destruct (List.length (mkSet (mkSet (map toLowerCase a) ++ mkSet (map toLowerCase b)))) eqn:E;
        [apply union_empty in E; lia | lia]. }
    split.
    + intros H. exfalso. apply Eb.
      assert (Hi : List.length (mkSet (filter (has (mkSet (map toLowerCase b)))
                                         (mkSet (map toLowerCase a)))) = 0).
      { apply length_zero_iff_nil in Ea. now rewrite Ea. }
      rewrite Hi in H. symmetry in H. now apply union_empty in H.
    + intros H. exfalso. apply Eb. apply length_zero_iff_nil in Ea.
      destruct (mkSet (map toLowerCase b)) as [|x l] eqn:E; [reflexivity|].
      assert (Hx : In x (map toLowerCase b)).
      { apply mkSet_In. rewrite E. now left. }
      apply H in Hx. apply mkSet_In in Hx. rewrite Ea in Hx. contradiction.
  - rewrite ratio_one.
    2:{ destruct (List.length (mkSet (mkSet (map toLowerCase a) ++ mkSet (map toLowerCase b)))) eqn:E;
        [apply union_empty in E; lia | lia]. }
    split.
    + intros H. exfalso. apply Ea.
      assert (Hi : List.length (mkSet (filter (has (mkSet (map toLowerCase b)))
                                         (mkSet (map toLowerCase a)))) = 0).
      { apply length_zero_iff_nil in Eb. rewrite Eb.
        rewrite filter_has_nil. reflexivity. }
      rewrite Hi in H. symmetry in H. now apply union_empty in H.
    + intros H. exfalso. apply Ea. apply length_zero_iff_nil in Eb.
      destruct (mkSet (map toLowerCase a)) as [|x l] eqn:E; [reflexivity|].
      assert (Hx : In x (map toLowerCase a)).
      { apply mkSet_In. rewrite E. now left. }
      apply H in Hx. apply mkSet_In in Hx. rewrite Eb in Hx. contradiction.
  - rewrite ratio_one.
    2:{ destruct (List.length (mkSet (mkSet (map toLowerCase a) ++ mkSet (map toLowerCase b)))) eqn:E;
        [apply union_empty in E; lia | lia]. }
    split.
    + intros H x.
      assert (Hincl : incl (mkSet (mkSet (map toLowerCase a) ++ mkSet (map toLowerCase b)))
                           (mkSet (filter (has (mkSet (map toLowerCase b)))
                                     (mkSet (map toLowerCase a))))).
      { apply NoDup_length_incl; [apply mkSet_NoDup | lia |].
        intros y Hy. apply union_In. apply intersection_In in Hy. tauto. }
      split; intros Hx.
      * assert (Hu : In x (mkSet (mkSet (map toLowerCase a) ++ mkSet (map toLowerCase b))))
          by (apply union_In; now left).
        apply Hincl in Hu. apply intersection_In in Hu. tauto.
      * assert (Hu : In x (mkSet (mkSet (map toLowerCase a) ++ mkSet (map toLowerCase b))))
          by (apply union_In; now right).
        apply Hincl in Hu. apply intersection_In in Hu. tauto.
    + intros H. apply same_members_length; try apply mkSet_NoDup.
      intros x. rewrite intersection_In, union_In. rewrite (H x). tauto.
Qed.

End SetFacts.

(** X2: the Jaccard similarity of two lists of strings lies in [[0, 1]], does
    not depend on the order of its arguments, and is 1 exactly when the two
    lists have the same members once lower-cased (so also when both are
    empty, and for a list and itself). *)
Theorem X2_jaccard_similarity (a b : list Js.str) :
  (0 <= Similarity.jaccardSimilarity a b)%Q
  /\ (Similarity.jaccardSimilarity a b <= 1)%Q
  /\ Similarity.jaccardSimilarity a b = Similarity.jaccardSimilarity b a
  /\ ((Similarity.jaccardSimilarity a b == 1)%Q
      <-> (forall x, In x (map Js.toLowerCase a) <-> In x (map Js.toLowerCase b)))
  /\ (Similarity.jaccardSimilarity a a == 1)%Q.
Proof.
  destruct (SetFacts.jaccard_range a b) as [H0 H1].
  split; [exact H0|]. split; [exact H1|].
  split; [apply SetFacts.jaccard_sym|].
  split; [apply SetFacts.jaccard_one|].
  apply SetFacts.jaccard_one. intros x. reflexivity.
Qed.

(* ================================================================= *)
(** ** The combined lexical score *)

Module CombinedFacts.
Import Js Similarity.

Lemma token_range (a b : str) :
  (0 <= tokenSimilarity a b)%Q /\ (tokenSimilarity a b <= 1)%Q.
Proof. apply SetFacts.jaccard_range. Qed.

Lemma token_same (a : str) : (tokenSimilarity a a == 1)%Q.
Proof. apply SetFacts.jaccard_one. intros x. reflexivity. Qed.

Lemma lev_range (a b : str) :
  (0 <= levenshteinSimilarity a b)%Q /\ (levenshteinSimilarity a b <= 1)%Q.
Proof.
  pose proof (LevProofs.levenshteinDistance_le_max a b) as Hd.
  unfold levenshteinSimilarity.
  destruct (Nat.max (List.length a) (List.length b) =? 0).
  - split; unfold Qle; simpl; lia.
  - pose proof (RatioFacts.ratio_nonneg (levenshteinDistance a b)
                  (Nat.max (List.length a) (List.length b))).
    pose proof (RatioFacts.ratio_le_1 Hd). split; lra.
Qed.

Lemma lev_same (a : str) : (levenshteinSimilarity a a == 1)%Q.
Proof.
  unfold levenshteinSimilarity.
  destruct (Nat.eqb_spec (Nat.max (List.length a) (List.length a)) 0) as [E|E];
    [reflexivity|].
  assert (H : levenshteinDistance a a = 0) by now apply TableProofs.distance_zero.
  rewrite H. unfold ratio, Qdiv, Qmult, Qminus, Qplus, Qopp, Qeq, inject_Z. cbn. lia.
Qed.

Lemma combined_range (a b : str) :
  (0 <= combinedSimilarity a b no_weights)%Q /\ (combinedSimilarity a b no_weights <= 1)%Q.
Proof.
  destruct (token_range a b), (lev_range a b).
  unfold combinedSimilarity, no_weights, default. cbn [token levenshtein].
  split; nra.
Qed.

End CombinedFacts.

(** X3: with the default weights the combined score lies in [[0, 1]] and is 1
    for a string and itself; with any weights it does not depend on the order
    of the two strings, and with weights that are not negative it lies between
    0 and their sum. *)
Theorem X3_combined_similarity_bounds (a b : Js.str) :
  (0 <= Similarity.combinedSimilarity a b Similarity.no_weights)%Q
  /\ (Similarity.combinedSimilarity a b Similarity.no_weights <= 1)%Q
  /\ (Similarity.combinedSimilarity a a Similarity.no_weights == 1)%Q
  /\ (forall weights,
        Similarity.combinedSimilarity a b weights = Similarity.combinedSimilarity b a weights)
  /\ (forall t l,
        (0 <= t)%Q -> (0 <= l)%Q ->
        (0 <= Similarity.combinedSimilarity a b
                {| Similarity.token := Some t; Similarity.levenshtein := Some l |}
         <= t + l)%Q).
Proof.
  destruct (CombinedFacts.combined_range a b) as [H0 H1].
  split; [exact H0|]. split; [exact H1|].
  split.
  { pose proof (CombinedFacts.token_same a). pose proof (CombinedFacts.lev_same a).
    unfold Similarity.combinedSimilarity, Similarity.no_weights, Similarity.default.
    cbn [Similarity.token Similarity.levenshtein]. rewrite H, H2. reflexivity. }
  split.
  { intros weights. unfold Similarity.combinedSimilarity.
    assert (Ht : Similarity.tokenSimilarity a b = Similarity.tokenSimilarity b a)
      by apply SetFacts.jaccard_sym.
    assert (Hl : Similarity.levenshteinSimilarity a b = Similarity.levenshteinSimilarity b a).
    { unfold Similarity.levenshteinSimilarity.
      rewrite (Nat.max_comm (List.length a)).
      rewrite !TableProofs.levenshteinDistance_table.
      now rewrite TableProofs.table_sym. }
    now rewrite Ht, Hl. }
  intros t l Ht Hl.
  destruct (CombinedFacts.token_range a b), (CombinedFacts.lev_range a b).
  unfold Similarity.combinedSimilarity, Similarity.default.
  cbn [Similarity.token Similarity.levenshtein]. split; nra.
Qed.

(* ================================================================= *)
(** ** The generic ranking helper *)

Module MostSimilarProofs.
Import Types Similarity Sorting MostSimilar SortFacts RankFacts.

(** In a list sorted by a transitive order, what [firstn] keeps is in front of
    what it drops. *)
Lemma firstn_before_rest {A} (R : A -> A -> Prop) (l : list A) :
  (forall x y z, R x y -> R y z -> R x z) ->
  Sorted.Sorted R l ->
  forall n x y, In x (firstn n l) -> In y (skipn n l) -> R x y.
Proof.
  intros Htr Hs. apply Sorted_StronglySorted in Hs; [|exact Htr].
  induction Hs as [|z l Hs IH Hall]; intros n x y Hx Hy.
  - rewrite firstn_nil in Hx. contradiction.
  - destruct n as [|n]; [contradiction|].
    cbn [firstn skipn] in Hx, Hy. destruct Hx as [<- | Hx].
    + rewrite Forall_forall in Hall. apply Hall.
      rewrite <- (firstn_skipn n l). apply in_or_app. now right.
    + now apply (IH n).
Qed.

Lemma slice_firstn {A} (n : Z) (l : list A) : exists k, slice n l = firstn k l.
Proof. unfold slice. destruct (n <? 0)%Z; eauto. Qed.

End MostSimilarProofs.

(** X4: every entry [findMostSimilar] returns is an item of the list with its
    score, at or above the floor; the scores fall along the result; a
    limit that is not negative bounds its length; and an item at or above the
    floor that is left out scores no higher than any entry returned. *)
Theorem X4_findMostSimilar_top_of_ranking
        (T : Type) (target : T) (items : list T) (similarityFn : T -> T -> Q)
        (limit : option Z) (minSimilarity : option Q) :
  let result := MostSimilar.findMostSimilar target items similarityFn limit minSimilarity in
  (forall item s, In (item, s) result ->
      In item items /\ s = similarityFn target item
      /\ (Similarity.default minSimilarity 0 <= s)%Q)
  /\ Ranking.descending snd result
  /\ ((0 <= Similarity.default limit 10)%Z ->
      (Z.of_nat (List.length result) <= Similarity.default limit 10)%Z)
  /\ (forall item, In item items ->
        (Similarity.default minSimilarity 0 <= similarityFn target item)%Q ->
        ~ In (item, similarityFn target item) result ->
        forall entry, In entry result -> (similarityFn target item <= snd entry)%Q).
Proof.
  intros result. unfold result, MostSimilar.findMostSimilar.
  set (scored := Sorting.sort _ _).
  assert (Hin : forall e, In e scored <->
                  (In (fst e) items /\ snd e = similarityFn target (fst e)
                   /\ (Similarity.default minSimilarity 0 <= snd e)%Q)).
  { intros [item s]. unfold scored. rewrite SortFacts.sort_In, filter_In, in_map_iff.
    cbn [fst snd]. rewrite Qle_bool_iff. split.
    - intros [[x [E Hx]] Hs]. injection E as -> <-. auto.
    - intros (Hi & -> & Hs). split; [|assumption]. now exists item. }
  assert (Hsorted : Ranking.descending snd scored).
  { unfold scored, MostSimilar.by_similarity. apply (RankFacts.sort_descending snd). }
  split.
  { intros item s H. apply SortFacts.slice_In in H. apply Hin in H. exact H. }
  split; [now apply RankFacts.slice_sorted|].
  split.
  { intros Hl. pose proof (@SortFacts.slice_length _ _ scored Hl). lia. }
  intros item Hitem Hmin Hout entry Hentry.
  destruct (MostSimilarProofs.slice_firstn (Similarity.default limit 10%Z) scored) as [k Ek].
  rewrite Ek in Hout, Hentry.
  assert (Hs : In (item, similarityFn target item) scored) by (apply Hin; cbn; auto).
  rewrite <- (firstn_skipn k scored) in Hs. apply in_app_or in Hs as [Hs | Hs];
    [contradiction|].
  apply (@MostSimilarProofs.firstn_before_rest _ (fun a b => (snd b <= snd a)%Q) scored)
    with (n := k) (x := entry) (y := (item, similarityFn target item)); try assumption.
  intros x y z Hxy Hyz. lra.
Qed.

(* ================================================================= *)
(** ** Reading a buffer that is not a whole number of words *)

Module UnpackProofs.
Import Js Similarity Unpacking.

Lemma read_throw (buffer : Buffer) (os : list nat) (e : exn) :
  fold_left (read_step buffer) os (Throw e) = Throw e.
Proof. induction os as [|o os IH]; [reflexivity | exact IH]. Qed.

Lemma read_all (buffer : Buffer) (os : list nat) :
  forall acc,
    Forall (fun o => o + 4 <= List.length buffer) os ->
    fold_left (read_step buffer) os (Ok acc) = Ok (acc ++ map (word_at buffer) os).
Proof.
  induction os as [|o os IH]; intros acc H.
  - cbn. now rewrite app_nil_r.
  - inversion H as [|? ? Ho Hos]; subst. cbn [fold_left].
    unfold read_step at 2. cbn [bind]. unfold readFloatLE.
    destruct (Nat.leb_spec (o + 4) (List.length buffer)) as [_|Hn]; [|lia].
    cbn [bind]. rewrite (IH _ Hos). rewrite <- app_assoc. reflexivity.
Qed.

Lemma read_stops (buffer : Buffer) (os : list nat) (o : nat) (rest : list nat) :
  forall acc,
    Forall (fun o => o + 4 <= List.length buffer) os ->
    List.length buffer < o + 4 ->
    fold_left (read_step buffer) (os ++ o :: rest) (Ok acc) = Throw (OutOfRange o).
Proof.
  intros acc H Ho. rewrite fold_left_app, (@read_all buffer os acc H). cbn [fold_left].
  unfold read_step at 2. cbn [bind]. unfold readFloatLE.
  destruct (Nat.leb_spec (o + 4) (List.length buffer)) as [Hn|_]; [lia|].
  cbn [bind]. apply read_throw.
Qed.

Lemma offsets_whole (q : nat) : offsets (4 * q) = map (fun k => 4 * k) (seq 0 q).
Proof.
  unfold offsets. f_equal. f_equal.
  replace (4 * q + 3) with (3 + q * 4) by lia.
  rewrite Nat.div_add by lia. reflexivity.
Qed.

Lemma offsets_part (q r : nat) :
  0 < r < 4 -> offsets (4 * q + r) = map (fun k => 4 * k) (seq 0 q) ++ [4 * q].
Proof.
  intros Hr. unfold offsets.
  replace ((4 * q + r + 3) / 4) with (S q).
  - rewrite seq_S, map_app. reflexivity.
  - replace (4 * q + r + 3) with ((r - 1) + (S q) * 4) by lia.
    rewrite Nat.div_add by lia. rewrite Nat.div_small by lia. reflexivity.
Qed.

Lemma unpack_cases (buffer : Buffer) :
  let q := List.length buffer / 4 in
  (List.length buffer mod 4 = 0
   /\ bufferToFloatArray buffer = Ok (map (fun k => word_at buffer (4 * k)) (seq 0 q)))
  \/ (List.length buffer mod 4 <> 0
      /\ bufferToFloatArray buffer = Throw (OutOfRange (4 * q))).
Proof.
  intros q. pose proof (Nat.div_mod_eq (List.length buffer) 4) as E. fold q in E.
  pose proof (Nat.mod_upper_bound (List.length buffer) 4) as Hr.
  assert (Hall : Forall (fun o => o + 4 <= List.length buffer)
                        (map (fun k => 4 * k) (seq 0 q))).
  { apply Forall_forall. intros o Ho. apply in_map_iff in Ho as [k [<- Hk]].
    apply in_seq in Hk. lia. }
  change (bufferToFloatArray buffer)
    with (fold_left (read_step buffer) (offsets (List.length buffer)) (Ok [])).
  destruct (Nat.eq_dec (List.length buffer mod 4) 0) as [Hz|Hnz].
  - left. split; [assumption|].
    rewrite E at 1. rewrite Hz, Nat.add_0_r, offsets_whole.
    rewrite (@read_all buffer _ [] Hall). cbn [app]. now rewrite map_map.
  - right. split; [assumption|].
    rewrite E at 1. rewrite offsets_part by lia.
    apply read_stops; [assumption | lia].
Qed.

End UnpackProofs.

(** X5: [bufferToFloatArray] returns exactly when the length of the buffer is
    a multiple of 4, and then one number for every four bytes, each the
    single-precision value of its word; on any other buffer the read of the
    last, partial word throws. *)
Theorem X5_bufferToFloatArray_whole_words (buffer : Similarity.Buffer) :
  (is_ok (Similarity.bufferToFloatArray buffer) = true
   <-> List.length buffer mod 4 = 0)
  /\ (forall floats,
        Similarity.bufferToFloatArray buffer = Ok floats ->
        4 * List.length floats = List.length buffer
        /\ forall k, k < List.length floats ->
             nth k floats PrimFloat.nan = Unpacking.word_at buffer (4 * k))
  /\ (List.length buffer mod 4 <> 0 ->
      Similarity.bufferToFloatArray buffer
      = Throw (OutOfRange (4 * (List.length buffer / 4)))).
Proof.
  pose proof (Nat.div_mod_eq (List.length buffer) 4) as E.
  destruct (UnpackProofs.unpack_cases buffer) as [[Hz Hr] | [Hnz Hr]]; rewrite Hr.
  - split; [cbn; tauto|]. split; [|contradiction].
    intros floats H. injection H as <-. rewrite length_map, length_seq.
    change (fst (Nat.divmod (List.length buffer) 3 0 3)) with (List.length buffer / 4) in *.
    split; [rewrite Hz in E; lia|]. intros k Hk.
    rewrite (nth_indep _ PrimFloat.nan (Unpacking.word_at buffer (4 * 0)))
      by now rewrite length_map, length_seq.
    rewrite (map_nth (fun k => Unpacking.word_at buffer (4 * k)) (seq 0 _) 0 k).
    now rewrite seq_nth.
  - split; [cbn; split; [discriminate | contradiction]|].
    split; [discriminate | reflexivity].
Qed.

(* ================================================================= *)
(** ** The cosine does not depend on the order of the vectors *)

Module CosineSymmetry.
Import Similarity Magnitude Accumulators.
Local Open Scope float_scope.

Lemma mul_comm (x y : float) : x * y = y * x.
Proof.
  apply Prim2SF_inj. rewrite !mul_spec. unfold SF64mul, SFmul.
  destruct (Prim2SF x) as [sx|sx| |sx mx ex], (Prim2SF y) as [sy|sy| |sy my ey];
    try reflexivity; try (now rewrite xorb_comm).
  now rewrite xorb_comm, Pos.mul_comm, Z.add_comm.
Qed.

Lemma loop_swap (a b : list float) (idxs : list nat) :
  forall acc,
    fold_left (body a b) idxs acc = swap (fold_left (body b a) idxs (swap acc)).
Proof.
  induction idxs as [|i idxs IH]; intros [[d nA] nB]; [reflexivity|].
  cbn [fold_left]. rewrite IH. cbn [body swap].
  now rewrite (mul_comm (nth i a nan) (nth i b nan)).
Qed.

Lemma cosine_sym (a b : list float) :
  List.length a = List.length b -> cosineSimilarity a b = cosineSimilarity b a.
Proof.
  intros Hlen. unfold cosineSimilarity. rewrite Hlen, Nat.eqb_refl. cbn [negb].
  destruct (List.length b =? 0)%nat; [reflexivity|].
  unfold cosine_loop. fold (body a b). fold (body b a).
  rewrite (loop_swap a b). cbn [swap].
  destruct (fold_left (body b a) _ _) as [[d nB] nA]. cbn [swap].
  now rewrite (mul_comm (sqrt nA) (sqrt nB)).
Qed.

End CosineSymmetry.

(** X6: for two vectors of one length the cosine similarity is the same
    number whichever of them comes first, whatever their components are. *)
Theorem X6_cosine_is_symmetric (a b : list float) :
  List.length a = List.length b ->
  Similarity.cosineSimilarity a b = Similarity.cosineSimilarity b a.
Proof. apply CosineSymmetry.cosine_sym. Qed.

Lemma X6_cosine_is_symmetric_witness :
  Similarity.cosineSimilarity [1; 2; 3]%float [0.5; 4; -1]%float
  = Similarity.cosineSimilarity [0.5; 4; -1]%float [1; 2; 3]%float.
Proof. apply X6_cosine_is_symmetric. reflexivity. Defined.

(* ================================================================= *)
(** ** White space in a normalised message *)

Module SpacingProofs.
Import Js Regex Analysis RegexFacts TrimFacts NormalizeProofs ErrorHash.

Lemma collapse_space_is_blank (s : str) :
  forall gap c, In c (collapse_from gap s) -> is_space c = true -> c = " "%char.
Proof.
  induction s as [|x s IH]; intros gap c Hin Hc; [contradiction|].
  cbn [collapse_from] in Hin. destruct (is_space x) eqn:Ex.
  - destruct gap.
    + now apply (IH true).
    + destruct Hin as [<- | Hin]; [reflexivity | now apply (IH true)].
  - destruct Hin as [<- | Hin]; [congruence | now apply (IH false)].
Qed.

Lemma collapse_gap_head (s : str) (d : ascii) (t : str) :
  collapse_from true s = d :: t -> is_space d = false.
Proof.
  induction s as [|x s IH]; intros H; [discriminate|].
  cbn [collapse_from] in H. destruct (is_space x) eqn:Ex; [now apply IH|].
  injection H as <- _. exact Ex.
Qed.

Lemma collapse_no_run (s : str) :
  forall gap pre c d post,
    collapse_from gap s = pre ++ c :: d :: post -> is_space c = true -> is_space d = false.
Proof.
  induction s as [|x s IH]; intros gap pre c d post H Hc.
  - destruct pre; discriminate.
  - cbn [collapse_from] in H. destruct (is_space x) eqn:Ex.
    + destruct gap; [now apply (IH true pre c d post)|].
      destruct pre as [|y pre].
      * injection H as _ H. now apply (@collapse_gap_head s d post).
      * injection H as _ H. now apply (IH true pre c d post).
    + destruct pre as [|y pre].
      * injection H as H _. congruence.
      * injection H as _ H. now apply (IH false pre c d post).
Qed.

(** What [trim] returns is a piece of what it is given. *)
Lemma trim_infix (s : str) : exists l r, s = l ++ trim s ++ r.
Proof.
  unfold trim, trimEnd.
  destruct (trimStart_suffix s) as [l [El _]].
  destruct (trimStart_suffix (rev (trimStart s))) as [r [Er _]].
  exists l, (rev r). rewrite El at 1. f_equal.
  rewrite <- (rev_involutive (trimStart s)) at 1. rewrite Er at 1.
  now rewrite rev_app_distr.
Qed.

Lemma normalize_shape (message : str) :
  exists s, normalizeErrorMessage message = trim (collapse s).
Proof.
  unfold normalizeErrorMessage.
  rewrite patterns_split, apply_patterns_app, apply_patterns_one.
  unfold replace_all. rewrite replace_spaces by lia.
  rewrite lower_collapse. eauto.
Qed.

End SpacingProofs.

(** X7: in a normalised message every white-space code unit is a plain space,
    and no two of them follow one another: tabs, line breaks and runs of
    blanks all come out as single spaces, whatever the input. *)
Theorem X7_normalized_message_is_single_spaced (message : Js.str) :
  let normalized := ErrorHash.normalizeErrorMessage message in
  (forall c, In c normalized -> Js.is_space c = true -> c = " "%char)
  /\ (forall pre c d post,
        normalized = pre ++ c :: d :: post -> Js.is_space c = true -> Js.is_space d = false).
Proof.
  cbv zeta.
  destruct (SpacingProofs.normalize_shape message) as [s Es]. rewrite Es.
  destruct (SpacingProofs.trim_infix (Analysis.collapse s)) as [l [r E]].
  split.
  - intros c Hin. apply (@SpacingProofs.collapse_space_is_blank s false).
    unfold Analysis.collapse in E. rewrite E. apply in_or_app. right.
    apply in_or_app. now left.
  - intros pre c d post H.
    apply (@SpacingProofs.collapse_no_run s false (l ++ pre) c d (post ++ r)).
    unfold Analysis.collapse in *. rewrite E at 1. rewrite H.
    rewrite <- !app_assoc. reflexivity.
Qed.

(* ================================================================= *)
(** ** The classifying patterns do not see the letter case *)

Module CaseProofs.
Import Js Regex Analysis CaseAnalysis RegexFacts TrimFacts ErrorHash.

Lemma lower_word (c : ascii) : is_word (lower_char c) = is_word c.
Proof.
  apply Bool.eqb_prop.
  apply (for_all_ascii (fun c => Bool.eqb (is_word (lower_char c)) (is_word c))).
  vm_compute. reflexivity.
Qed.

Lemma word_before_lower (p : option ascii) :
  word_before (option_map lower_char p) = word_before p.
Proof. destruct p as [c|]; [apply lower_word | reflexivity]. Qed.

Lemma word_after_lower (s : str) : word_after (toLowerCase s) = word_after s.
Proof. destruct s as [|c s]; [reflexivity | apply lower_word]. Qed.

Lemma lower_length (s : str) : List.length (toLowerCase s) = List.length s.
Proof. apply length_map. Qed.

(** A blind pattern fails on a string exactly when it fails on the string in
    lower case, as long as what follows the match does so too. *)
Lemma run_blind (r : re) :
  blind r = true ->
  forall p s k k',
    (forall p0 s0, k' (option_map lower_char p0) (toLowerCase s0) = None <-> k p0 s0 = None) ->
    (run r (option_map lower_char p) (toLowerCase s) k' = None <-> run r p s k = None).
Proof.
  induction r as [| f | r1 IH1 r2 IH2 | r1 IH1 r2 IH2 | r1 IH1 | | | r1 IH1];
    intros Hb p s k k' Hk; cbn [blind] in Hb; cbn [run].
  - apply Hk.
  - destruct s as [|c s']; [reflexivity|]. cbn [toLowerCase map].
    pose proof (for_all_ascii _ Hb c) as Hc. cbn beta in Hc.
    apply Bool.eqb_prop in Hc. rewrite Hc.
    destruct (f c); [|reflexivity]. apply (Hk (Some c) s').
  - apply andb_prop in Hb as [Hb1 Hb2].
    apply IH1; [assumption|]. intros p0 s0. now apply IH2.
  - apply andb_prop in Hb as [Hb1 Hb2].
    pose proof (IH1 Hb1 p s k k' Hk) as H1. pose proof (IH2 Hb2 p s k k' Hk) as H2.
    destruct (run r1 (option_map lower_char p) (toLowerCase s) k') as [e'|];
      destruct (run r1 p s k) as [e|]; try assumption.
    + exfalso. destruct H1 as [_ H1]. specialize (H1 eq_refl). discriminate.
    + exfalso. destruct H1 as [H1 _]. specialize (H1 eq_refl). discriminate.
  - rewrite lower_length. generalize (List.length s) as n. intros n. revert p s.
    induction n as [|n IHn]; intros p s; [apply Hk|].
    match goal with
    | |- match ?a with _ => _ end = None <-> match ?b with _ => _ end = None =>
        assert (H1 : a = None <-> b = None)
    end.
    { apply IH1; [assumption|]. intros p0 s0. rewrite !lower_length.
      destruct (_ <? _); [apply IHn | reflexivity]. }
    match goal with
    | |- match ?a with _ => _ end = None <-> match ?b with _ => _ end = None =>
        destruct a as [e'|]; destruct b as [e|]
    end.
    + split; discriminate.
    + exfalso. destruct H1 as [_ H1]. specialize (H1 eq_refl). discriminate.
    + exfalso. destruct H1 as [H1 _]. specialize (H1 eq_refl). discriminate.
    + apply Hk.
  - rewrite word_before_lower, word_after_lower.
    destruct (xorb _ _); [apply Hk | reflexivity].
  - destruct s as [|c s']; [apply (Hk p []) | reflexivity].
  - assert (H1 : run r1 (option_map lower_char p) (toLowerCase s)
                   (fun p' s' => Some (p', s')) = None
                 <-> run r1 p s (fun p' s' => Some (p', s')) = None).
    { apply IH1; [assumption|]. intros p0 s0. split; discriminate. }
    destruct (run r1 (option_map lower_char p) (toLowerCase s) _) as [e'|];
      destruct (run r1 p s _) as [e|].
    + apply Hk.
    + exfalso. destruct H1 as [_ H1]. specialize (H1 eq_refl). discriminate.
    + exfalso. destruct H1 as [H1 _]. specialize (H1 eq_refl). discriminate.
    + reflexivity.
Qed.

Lemma search_blind (r : re) :
  blind r = true ->
  forall s p, search r (option_map lower_char p) (toLowerCase s) = search r p s.
Proof.
  intros Hb. induction s as [|c s IH]; intros p.
  - cbn [toLowerCase map search]. unfold match_at.
    assert (H1 : run r (option_map lower_char p) (toLowerCase [])
                   (fun p' s' => Some (p', s')) = None
                 <-> run r p [] (fun p' s' => Some (p', s')) = None).
    { apply run_blind; [assumption|]. intros p0 s0. split; discriminate. }
    cbn [toLowerCase map] in H1.
    destruct (run r (option_map lower_char p) [] _) as [e'|];
      destruct (run r p [] _) as [e|]; try reflexivity.
    + destruct H1 as [_ H1]. specialize (H1 eq_refl). discriminate.
    + destruct H1 as [H1 _]. specialize (H1 eq_refl). discriminate.
  - cbn [toLowerCase map search]. unfold match_at.
    assert (H1 : run r (option_map lower_char p) (toLowerCase (c :: s))
                   (fun p' s' => Some (p', s')) = None
                 <-> run r p (c :: s) (fun p' s' => Some (p', s')) = None).
    { apply run_blind; [assumption|]. intros p0 s0. split; discriminate. }
    cbn [toLowerCase map] in H1.
    destruct (run r (option_map lower_char p) (lower_char c :: map lower_char s) _) as [e'|];
      destruct (run r p (c :: s) _) as [e|]; try reflexivity.
    + destruct H1 as [_ H1]. specialize (H1 eq_refl). discriminate.
    + destruct H1 as [H1 _]. specialize (H1 eq_refl). discriminate.
    + apply (IH (Some c)).
Qed.

Lemma test_blind (r : re) (s : str) :
  blind r = true -> test r (toLowerCase s) = test r s.
Proof. intros Hb. unfold test. apply (@search_blind r Hb s None). Qed.

Lemma first_match_blind (ps : list (re * str)) (message : str) :
  forallb (fun pr => blind (fst pr)) ps = true ->
  first_match ps (toLowerCase message) = first_match ps message.
Proof.
  induction ps as [|[r t] ps IH]; intros H; [reflexivity|].
  cbn [forallb fst] in H. apply andb_prop in H as [Hr Hps].
  cbn [first_match]. rewrite (@test_blind r _ Hr). now rewrite IH.
Qed.

Lemma add_matching_blind (ps : list (re * str)) (message : str) :
  forallb (fun pr => blind (fst pr)) ps = true ->
  forall tags, add_matching ps (toLowerCase message) tags = add_matching ps message tags.
Proof.
  unfold add_matching.
  induction ps as [|[r t] ps IH]; intros H tags; [reflexivity|].
  cbn [forallb fst] in H. apply andb_prop in H as [Hr Hps].
  cbn [fold_left fst snd]. rewrite (@test_blind r _ Hr). now apply IH.
Qed.

(** A literal under the [i] flag is blind, whatever its letters. *)
Lemma blind_chr_i (c : ascii) : blind (chr_i c) = true.
Proof.
  cbn [blind chr_i]. apply forallb_forall. intros x _.
  rewrite lower_lower. apply Bool.eqb_reflx.
Qed.

Lemma blind_lit_of (s : str) : blind (lit_of chr_i s) = true.
Proof.
  induction s as [|c s IH]; [reflexivity|].
  destruct s as [|d s]; [apply blind_chr_i|].
  change (lit_of chr_i (c :: d :: s)) with (Seq (chr_i c) (lit_of chr_i (d :: s))).
  cbn [blind]. now rewrite blind_chr_i, IH.
Qed.

Lemma blind_lit_i (w : string) : blind (lit_i w) = true.
Proof. apply blind_lit_of. Qed.

Lemma blind_any : blind any = true.
Proof. vm_compute. reflexivity. Qed.

Lemma blind_seq (r1 r2 : re) : blind r1 = true -> blind r2 = true -> blind (Seq r1 r2) = true.
Proof. intros H1 H2. cbn [blind]. now rewrite H1, H2. Qed.

Lemma blind_alt (r1 r2 : re) : blind r1 = true -> blind r2 = true -> blind (Alt r1 r2) = true.
Proof. intros H1 H2. cbn [blind]. now rewrite H1, H2. Qed.

Lemma blind_star (r : re) : blind r = true -> blind (Star r) = true.
Proof. intros H. exact H. Qed.

Lemma blind_bound : blind Bound = true.
Proof. reflexivity. Qed.

Lemma blind_eps : blind Eps = true.
Proof. reflexivity. Qed.

Lemma all_cons {A} (P : A -> bool) (x : A) (l : list A) :
  P x = true -> forallb P l = true -> forallb P (x :: l) = true.
Proof. intros H1 H2. cbn [forallb]. now rewrite H1, H2. Qed.

Lemma all_nil {A} (P : A -> bool) : forallb P [] = true.
Proof. reflexivity. Qed.

(** The patterns are taken apart by their syntax, so that no character class
    is ever evaluated. *)
Ltac blind_pattern :=
  lazymatch goal with
  | |- blind (lit_i _) = true => apply blind_lit_i
  | |- blind any = true => exact blind_any
  | |- blind Bound = true => exact blind_bound
  | |- blind Eps = true => exact blind_eps
  | |- blind (Star _) = true => apply blind_star; blind_pattern
  | |- blind (Seq _ _) = true => apply blind_seq; blind_pattern
  | |- blind (Alt _ _) = true => apply blind_alt; blind_pattern
  | |- blind (Opt _) = true => unfold Opt; blind_pattern
  | |- blind (word _) = true => unfold word; blind_pattern
  | |- blind (seqs _) = true => cbn [seqs]; blind_pattern
  | |- blind (alts _) = true => cbn [alts]; blind_pattern
  end.

Ltac blind_patterns :=
  lazymatch goal with
  | |- forallb _ [] = true => exact (all_nil _)
  | |- forallb _ (_ :: _) = true =>
      apply all_cons; [cbn beta; cbn [fst]; blind_pattern | blind_patterns]
  end.

Lemma type_patterns_blind :
  forallb (fun pr => blind (fst pr)) errorTypePatterns = true.
Proof. unfold errorTypePatterns. cbn [map fst snd]. blind_patterns. Qed.

Lemma tag_patterns_blind :
  forallb (fun pr => blind (fst pr)) techPatterns = true
  /\ forallb (fun pr => blind (fst pr)) domainPatterns = true.
Proof.
  split; [unfold techPatterns | unfold domainPatterns]; cbn [map fst snd]; blind_patterns.
Qed.

End CaseProofs.

(** X8: on a message whose code units are all below 256 (Latin-1, the
    strings of this development) the three classifiers do not see the letter
    case: the error type, the suggested severity and the tags of the message
    are those of the message in lower case.  Code units from 256 up are not
    covered, and the statement does not extend to them: [toLowerCase] takes
    the Kelvin sign U+212A to k, which the flag [i] of the patterns does not
    match against k. *)
Theorem X8_classifiers_ignore_letter_case (message defaultType errorType : Js.str) :
  ErrorHash.extractErrorType (Js.toLowerCase message) defaultType
  = ErrorHash.extractErrorType message defaultType
  /\ ErrorHash.suggestSeverity (Js.toLowerCase message) = ErrorHash.suggestSeverity message
  /\ ErrorHash.extractTags (Js.toLowerCase message) errorType
     = ErrorHash.extractTags message errorType.
Proof.
  split; [|split].
  - unfold ErrorHash.extractErrorType.
    now rewrite (@CaseProofs.first_match_blind _ _ CaseProofs.type_patterns_blind).
  - unfold ErrorHash.suggestSeverity. now rewrite TrimFacts.lower_idem.
  - unfold ErrorHash.extractTags.
    destruct CaseProofs.tag_patterns_blind as [Ht Hd].
    rewrite (@CaseProofs.add_matching_blind _ _ Ht).
    now rewrite (@CaseProofs.add_matching_blind _ _ Hd).
Qed.

(* ================================================================= *)
(** ** A word inside a message *)

Module MentionProofs.
Import Js Regex Analysis CaseAnalysis RegexFacts TrimFacts ErrorHash.

Lemma before_cons (p : option ascii) (x : ascii) (l : str) :
  before p (x :: l) = before (Some x) l.
Proof.
  unfold before. cbn [rev].
  destruct (rev l) as [|c t]; reflexivity.
Qed.

Lemma before_app (p : option ascii) (l l' : str) :
  before p (l ++ l') = before (before p l) l'.
Proof.
  revert p. induction l as [|x l IH]; intros p; [reflexivity|].
  cbn [app]. now rewrite !before_cons.
Qed.

(** A literal under the [i] flag takes any spelling of itself. *)
Lemma run_lit (w : str) :
  forall mid p post k,
    toLowerCase mid = toLowerCase w ->
    run (lit_of chr_i w) p (mid ++ post) k = k (before p mid) post.
Proof.
  induction w as [|c w IH]; intros mid p post k E.
  - destruct mid; [reflexivity | discriminate].
  - destruct mid as [|x mid]; [discriminate|].
    cbn [toLowerCase map] in E. injection E as Ex E.
    rewrite before_cons.
    destruct w as [|d w].
    + destruct mid; [|discriminate].
      cbn [lit_of chr_i run app]. rewrite Ex, Ascii.eqb_refl. reflexivity.
    + change (lit_of chr_i (c :: d :: w)) with (Seq (chr_i c) (lit_of chr_i (d :: w))).
      cbn [run chr_i app]. rewrite Ex, Ascii.eqb_refl. now apply IH.
Qed.

Lemma search_unfold (r : re) (p : option ascii) (s : str) :
  search r p s
  = match match_at r p s with
    | Some _ => true
    | None => match s with c :: s' => search r (Some c) s' | [] => false end
    end.
Proof. destruct s; reflexivity. Qed.

(** A match somewhere in the string is enough for [test]. *)
Lemma search_at (r : re) (s : str) :
  forall pre p,
    match_at r (before p pre) s <> None -> search r p (pre ++ s) = true.
Proof.
  induction pre as [|c pre IH]; intros p H; rewrite search_unfold.
  - cbn [app]. unfold before in H. cbn in H.
    destruct (match_at r p s); [reflexivity | contradiction].
  - cbn [app]. destruct (match_at r p (c :: pre ++ s)); [reflexivity|].
    apply IH. rewrite before_cons in H. exact H.
Qed.

Lemma test_lit_i (w : string) (message : str) :
  mentions w message -> test (lit_i w) message = true.
Proof.
  intros (pre & mid & post & -> & E). unfold test. apply search_at.
  unfold match_at, lit_i. rewrite (@run_lit _ _ _ _ _ E). discriminate.
Qed.

Lemma match_alts (rs : list re) (r : re) (p : option ascii) (s : str) :
  In r rs -> match_at r p s <> None -> match_at (alts rs) p s <> None.
Proof.
  induction rs as [|x rs IH]; intros Hin H; [contradiction|].
  destruct rs as [|y rs].
  - destruct Hin as [<- | []]. exact H.
  - change (alts (x :: y :: rs)) with (Alt x (alts (y :: rs))).
    unfold match_at in *. cbn [run].
    destruct (run x p s _) eqn:Ex; [discriminate|].
    destruct Hin as [<- | Hin]; [congruence|]. now apply IH.
Qed.

Lemma test_any_i (ws : list string) (w : string) (message : str) :
  In w ws -> mentions w message -> test (any_i ws) message = true.
Proof.
  intros Hin (pre & mid & post & -> & E). unfold test. apply search_at.
  apply (@match_alts _ (lit_i w)); [unfold any_i; now apply in_map|].
  unfold match_at, lit_i. rewrite (@run_lit _ _ _ _ _ E). discriminate.
Qed.

Lemma mentions_lower (w : string) (message : str) :
  mentions w message -> mentions w (toLowerCase message).
Proof.
  intros (pre & mid & post & -> & E).
  exists (toLowerCase pre), (toLowerCase mid), (toLowerCase post).
  split; [unfold toLowerCase; now rewrite !map_app|].
  rewrite <- E. apply lower_idem.
Qed.

End MentionProofs.

(** X9: the first pattern of each classifier wins.  A message that holds the
    word TypeError, in any letter case, has the type [TypeError] whatever else
    it holds; a message that holds one of the thirteen critical words is of
    critical severity whatever else it holds. *)
Theorem X9_first_pattern_wins (message defaultType : Js.str) (w : string) :
  (CaseAnalysis.mentions "TypeError" message ->
   ErrorHash.extractErrorType message defaultType = Js.of_string "TypeError")
  /\ (In w CaseAnalysis.critical_words ->
      CaseAnalysis.mentions w message ->
      ErrorHash.suggestSeverity message = ErrorHash.critical).
Proof.
  split.
  - intros H. unfold ErrorHash.extractErrorType.
    change (ErrorHash.first_match ErrorHash.errorTypePatterns message)
      with (if Regex.test (Regex.lit_i "TypeError") message
            then Some (Js.of_string "TypeError")
            else ErrorHash.first_match (tl ErrorHash.errorTypePatterns) message).
    now rewrite (@MentionProofs.test_lit_i _ _ H).
  - intros Hin H. apply MentionProofs.mentions_lower in H.
    unfold ErrorHash.suggestSeverity.
    unfold CaseAnalysis.critical_words in Hin.
    change (In w (List.app
                    ["security"; "vulnerability"; "injection"; "xss"; "csrf";
                     "breach"; "leak"; "expose"]%string
                    ["data loss"; "corruption"; "critical"; "fatal";
                     "unrecoverable"]%string)) in Hin.
    apply in_app_or in Hin as [Hin | Hin].
    + now rewrite (@MentionProofs.test_any_i _ _ _ Hin H).
    + rewrite (@MentionProofs.test_any_i _ _ _ Hin H). now rewrite orb_true_r.
Qed.

Lemma X9_first_pattern_wins_witness :
  ErrorHash.extractErrorType
    (Js.of_string "ENOENT inside a typeerror: fatal") ErrorHash.unknown
  = Js.of_string "TypeError"
  /\ ErrorHash.suggestSeverity (Js.of_string "ENOENT inside a typeerror: fatal")
     = ErrorHash.critical.
Proof.
  destruct (X9_first_pattern_wins (Js.of_string "ENOENT inside a typeerror: fatal")
              ErrorHash.unknown "fatal") as [H1 H2].
  split.
  - apply H1.
    exists (Js.of_string "ENOENT inside a "), (Js.of_string "typeerror"),
           (Js.of_string ": fatal").
    split; reflexivity.
  - apply H2.
    + cbn. tauto.
    + exists (Js.of_string "ENOENT inside a typeerror: "), (Js.of_string "fatal"), [].
      split; reflexivity.
Defined.

(* ================================================================= *)
(** ** Messages without a letter *)

Module LetterProofs.
Import Js Regex Analysis CaseAnalysis RegexFacts TrimFacts ErrorHash.

Lemma lower_letter (c : ascii) : is_letter (lower_char c) = is_letter c.
Proof.
  apply Bool.eqb_prop.
  apply (for_all_ascii (fun c => Bool.eqb (is_letter (lower_char c)) (is_letter c))).
  vm_compute. reflexivity.
Qed.

Lemma needs_chr_i (x : ascii) : is_letter x = true -> needs not_letter (chr_i x) = true.
Proof.
  intros Hx. cbn [needs chr_i]. apply forallb_forall. intros c _.
  apply negb_true_iff. apply andb_false_iff.
  destruct (Ascii.eqb_spec (lower_char c) (lower_char x)) as [E|_]; [|now right].
  left. unfold not_letter. apply negb_false_iff.
  rewrite <- lower_letter, E, lower_letter. exact Hx.
Qed.

Lemma needs_seq_l (ok : ascii -> bool) (r1 r2 : re) :
  needs ok r1 = true -> needs ok (Seq r1 r2) = true.
Proof. intros H. cbn [needs]. now rewrite H. Qed.

Lemma needs_seq_r (ok : ascii -> bool) (r1 r2 : re) :
  needs ok r2 = true -> needs ok (Seq r1 r2) = true.
Proof. intros H. cbn [needs]. rewrite H. apply orb_true_r. Qed.

Lemma needs_alt (ok : ascii -> bool) (r1 r2 : re) :
  needs ok r1 = true -> needs ok r2 = true -> needs ok (Alt r1 r2) = true.
Proof. intros H1 H2. cbn [needs]. now rewrite H1, H2. Qed.

Lemma needs_lit_i (w : string) :
  starts_with_letter w = true -> needs not_letter (lit_i w) = true.
Proof.
  unfold starts_with_letter, lit_i. destruct (of_string w) as [|c [|d s]]; intros H.
  - discriminate.
  - now apply needs_chr_i.
  - change (lit_of chr_i (c :: d :: s)) with (Seq (chr_i c) (lit_of chr_i (d :: s))).
    apply needs_seq_l. now apply needs_chr_i.
Qed.

Lemma needs_nothing (ok : ascii -> bool) : needs ok (Chr (fun _ => false)) = true.
Proof.
  cbn [needs]. apply forallb_forall. intros c _. now rewrite andb_false_r.
Qed.

Lemma needs_any_i (ws : list string) :
  forallb starts_with_letter ws = true -> needs not_letter (any_i ws) = true.
Proof.
  unfold any_i. induction ws as [|w ws IH]; intros H.
  - apply needs_nothing.
  - cbn [forallb] in H. apply andb_prop in H as [Hw Hws].
    destruct ws as [|v ws]; [now apply needs_lit_i|].
    change (alts (map lit_i (w :: v :: ws)))
      with (Alt (lit_i w) (alts (map lit_i (v :: ws)))).
    apply needs_alt; [now apply needs_lit_i | now apply IH].
Qed.

(** A pattern that needs a letter is not found in a message without one. *)
Lemma search_needs (r : re) :
  needs not_letter r = true ->
  forall s p, letterless s = true -> search r p s = false.
Proof.
  intros Hn. induction s as [|c s IH]; intros p Hs; rewrite MentionProofs.search_unfold.
  - unfold match_at. rewrite (@run_needs not_letter r); [reflexivity | constructor | exact Hn].
  - unfold match_at. rewrite (@run_needs not_letter r).
    + cbn [letterless forallb] in Hs. apply andb_prop in Hs as [_ Hs]. now apply IH.
    + apply Forall_forall. intros x Hx. unfold letterless in Hs.
      rewrite forallb_forall in Hs. now apply Hs.
    + exact Hn.
Qed.

Lemma test_needs (r : re) (s : str) :
  needs not_letter r = true -> letterless s = true -> test r s = false.
Proof. intros Hn Hs. unfold test. now apply search_needs. Qed.

Lemma test_any_i_letterless (ws : list string) (s : str) :
  forallb starts_with_letter ws = true -> letterless s = true -> test (any_i ws) s = false.
Proof. intros Hw Hs. apply test_needs; [now apply needs_any_i | exact Hs]. Qed.

Lemma lower_letterless (s : str) : letterless (toLowerCase s) = letterless s.
Proof.
  unfold letterless, toLowerCase. induction s as [|c s IH]; [reflexivity|].
  cbn [map forallb]. rewrite IH. unfold not_letter. now rewrite lower_letter.
Qed.

Lemma first_match_none (ps : list (re * str)) (s : str) :
  forallb (fun pr => needs not_letter (fst pr)) ps = true ->
  letterless s = true -> first_match ps s = None.
Proof.
  induction ps as [|[r t] ps IH]; intros H Hs; [reflexivity|].
  cbn [forallb fst] in H. apply andb_prop in H as [Hr Hps].
  cbn [first_match]. rewrite (@test_needs r s Hr Hs). now apply IH.
Qed.

Lemma add_matching_none (ps : list (re * str)) (s : str) :
  forallb (fun pr => needs not_letter (fst pr)) ps = true ->
  letterless s = true -> forall tags, add_matching ps s tags = tags.
Proof.
  unfold add_matching.
  induction ps as [|[r t] ps IH]; intros H Hs tags; [reflexivity|].
  cbn [forallb fst] in H. apply andb_prop in H as [Hr Hps].
  cbn [fold_left fst snd]. rewrite (@test_needs r s Hr Hs). now apply IH.
Qed.

(** The patterns are taken apart by their syntax: each starts, after an
    optional word boundary, with a literal whose first code unit is a letter. *)
Ltac letter_pattern :=
  lazymatch goal with
  | |- needs _ (lit_i _) = true => apply needs_lit_i; reflexivity
  | |- needs _ (Seq Bound _) = true => apply needs_seq_r; letter_pattern
  | |- needs _ (Seq (lit_i _) _) = true => apply needs_seq_l; letter_pattern
  | |- needs _ (Alt _ _) = true => apply needs_alt; letter_pattern
  | |- needs _ (word _) = true => unfold word; letter_pattern
  | |- needs _ (seqs _) = true => cbn [seqs]; letter_pattern
  | |- needs _ (alts _) = true => cbn [alts]; letter_pattern
  end.

Ltac letter_patterns :=
  lazymatch goal with
  | |- forallb _ [] = true => exact (CaseProofs.all_nil _)
  | |- forallb _ (_ :: _) = true =>
      apply CaseProofs.all_cons; [cbn beta; cbn [fst]; letter_pattern | letter_patterns]
  end.

Lemma type_patterns_need_letter :
  forallb (fun pr => needs not_letter (fst pr)) errorTypePatterns = true.
Proof. unfold errorTypePatterns. cbn [map fst snd]. letter_patterns. Qed.

Lemma tag_patterns_need_letter :
  forallb (fun pr => needs not_letter (fst pr)) techPatterns = true
  /\ forallb (fun pr => needs not_letter (fst pr)) domainPatterns = true.
Proof.
  split; [unfold techPatterns | unfold domainPatterns]; cbn [map fst snd]; letter_patterns.
Qed.

End LetterProofs.

(** X10: a message without a letter, the empty one among them, is left
    unclassified: its type is the default, its severity low, and its only tag
    is the error type in lower case. *)
Theorem X10_letterless_message_is_unclassified (message defaultType errorType : Js.str) :
  CaseAnalysis.letterless message = true ->
  ErrorHash.extractErrorType message defaultType = defaultType
  /\ ErrorHash.suggestSeverity message = ErrorHash.low
  /\ ErrorHash.extractTags message errorType = [Js.toLowerCase errorType].
Proof.
  intros H. split; [|split].
  - unfold ErrorHash.extractErrorType.
    now rewrite (@LetterProofs.first_match_none _ _ LetterProofs.type_patterns_need_letter H).
  - assert (Hl : CaseAnalysis.letterless (Js.toLowerCase message) = true)
      by now rewrite LetterProofs.lower_letterless.
    unfold ErrorHash.suggestSeverity.
    rewrite !(fun ws Hws => @LetterProofs.test_any_i_letterless ws _ Hws Hl)
      by reflexivity.
    reflexivity.
  - unfold ErrorHash.extractTags.
    destruct LetterProofs.tag_patterns_need_letter as [Ht Hd].
    rewrite (@LetterProofs.add_matching_none _ _ Ht H).
    rewrite (@LetterProofs.add_matching_none _ _ Hd H).
    reflexivity.
Qed.

Lemma X10_letterless_message_is_unclassified_witness :
  ErrorHash.extractErrorType (Js.of_string "404 (50%)") ErrorHash.unknown = ErrorHash.unknown
  /\ ErrorHash.suggestSeverity (Js.of_string "404 (50%)") = ErrorHash.low
  /\ ErrorHash.extractTags (Js.of_string "404 (50%)") (Js.of_string "HttpError")
     = [Js.of_string "httperror"].
Proof.
  apply (@X10_letterless_message_is_unclassified
           (Js.of_string "404 (50%)") ErrorHash.unknown (Js.of_string "HttpError")).
  reflexivity.
Defined.

(* ================================================================= *)
(** ** The shape of a digest *)

Module DigestProofs.
Import Js Sha256.
Local Open Scope Z_scope.

Lemma round_length (st : list Z) (kw : Z * Z) :
  List.length st = 8%nat -> List.length (round st kw) = 8%nat.
Proof.
  intros H. unfold round.
  destruct st as [|a [|b [|c [|d [|e [|f [|g [|h [|i st]]]]]]]]]; try discriminate H.
  reflexivity.
Qed.

Lemma rounds_length (kws : list (Z * Z)) :
  forall st, List.length st = 8%nat -> List.length (fold_left round kws st) = 8%nat.
Proof.
  induction kws as [|kw kws IH]; intros st H; [exact H|].
  cbn [fold_left]. apply IH. now apply round_length.
Qed.

Lemma compress_length (h block : list Z) :
  List.length h = 8%nat -> List.length (compress h block) = 8%nat.
Proof.
  intros H. unfold compress. rewrite length_map, length_combine.
  rewrite (rounds_length _ _ H), H. reflexivity.
Qed.

Lemma blocks_length (fuel : nat) :
  forall ws h, List.length h = 8%nat -> List.length (blocks fuel ws h) = 8%nat.
Proof.
  induction fuel as [|fuel IH]; intros ws h H; [exact H|].
  cbn [blocks]. destruct ws as [|w ws]; [exact H|].
  apply IH. now apply compress_length.
Qed.

Lemma flat_map_length {A B} (f : A -> list B) (n : nat) (l : list A) :
  (forall x, List.length (f x) = n) -> List.length (flat_map f l) = (n * List.length l)%nat.
Proof.
  intros H. induction l as [|x l IH]; [cbn; lia|].
  cbn [flat_map]. rewrite length_app, H, IH. cbn [List.length]. lia.
Qed.

Lemma be_bytes_range (count : nat) (x b : Z) : In b (be_bytes count x) -> 0 <= b < 256.
Proof.
  unfold be_bytes. intros H. apply in_map_iff in H as [i [<- _]].
  change 255 with (Z.ones 8). rewrite Z.land_ones by lia.
  apply Z.mod_pos_bound. reflexivity.
Qed.

Lemma hex_digits_checked :
  forallb (fun k => is_digit (hex_digit (Z.of_nat k)) || in_range 97 102 (hex_digit (Z.of_nat k)))
          (seq 0 16) = true.
Proof. vm_compute. reflexivity. Qed.

Lemma hex_digit_is_hex (n : Z) :
  0 <= n < 16 -> (is_digit (hex_digit n) || in_range 97 102 (hex_digit n))%bool = true.
Proof.
  intros H. pose proof hex_digits_checked as Hall. rewrite forallb_forall in Hall.
  specialize (Hall (Z.to_nat n)). rewrite Z2Nat.id in Hall by lia.
  apply Hall. apply in_seq. lia.
Qed.

Lemma hex_byte_is_hex (b : Z) (c : ascii) :
  0 <= b < 256 -> In c (hex_byte b) ->
  (is_digit c || in_range 97 102 c)%bool = true.
Proof.
  intros Hb [<- | [<- | []]]; apply hex_digit_is_hex.
  - rewrite Z.shiftr_div_pow2 by lia. change (2 ^ 4) with 16.
    split; [apply Z.div_pos; lia | apply Z.div_lt_upper_bound; lia].
  - change 15 with (Z.ones 4). rewrite Z.land_ones by lia.
    apply Z.mod_pos_bound. reflexivity.
Qed.

Lemma digest_shape (s : str) :
  List.length (digest_hex s) = 64%nat
  /\ Forall (fun c => (is_digit c || in_range 97 102 c)%bool = true) (digest_hex s).
Proof.
  unfold digest_hex. split.
  - rewrite (@flat_map_length _ _ hex_byte 2) by reflexivity.
    rewrite (@flat_map_length _ _ (be_bytes 4) 4).
    + rewrite blocks_length; reflexivity.
    + intros x. unfold be_bytes. now rewrite length_map, length_seq.
  - apply Forall_forall. intros c Hc.
    apply in_flat_map in Hc as [b [Hb Hc]].
    apply in_flat_map in Hb as [x [_ Hb]].
    apply be_bytes_range in Hb. now apply (hex_byte_is_hex Hb).
Qed.

End DigestProofs.

(** X11: the fingerprint of any message and type is a string of 64
    code units, each one of [0-9a-f]. *)
Theorem X11_fingerprint_is_64_hex_digits (message errorType : Js.str) :
  List.length (ErrorHash.generateErrorHash message errorType) = 64
  /\ Forall (fun c => Js.is_digit c || Js.in_range 97 102 c = true)
            (ErrorHash.generateErrorHash message errorType).
Proof. unfold ErrorHash.generateErrorHash. apply DigestProofs.digest_shape. Qed.

(* ================================================================= *)
(** ** Keywords of a task context *)

Module KeywordProofs.
Import Js Regex Similarity ContextBuilder.

(** Replacing a character class by a space is a map over the code units. *)
Lemma replace_class (f : ascii -> bool) (fuel : nat) :
  forall p s,
    List.length s < fuel ->
    replace_from fuel (Chr f) (of_string " ") p s
    = map (fun c => if f c then " "%char else c) s.
Proof.
  induction fuel as [|fuel IH]; intros p s Hlen; [lia|].
  cbn [replace_from]. unfold match_at. cbn [run].
  destruct s as [|c s]; [reflexivity|]. cbn [List.length] in Hlen. cbn [map].
  destruct (f c).
  - destruct (Nat.ltb_spec (List.length s) (List.length (c :: s)));
      [|cbn [List.length] in *; lia].
    rewrite IH by lia. reflexivity.
  - rewrite IH by lia. reflexivity.
Qed.

(** The pieces of a split hold no white space, and only code units of the
    string or of the piece in progress. *)
Lemma split_pieces (s : str) :
  forall gap cur w c,
    In w (split_from gap cur s) -> In c w ->
    (In c s /\ is_space c = false) \/ In c cur.
Proof.
  induction s as [|x s IH]; intros gap cur w c Hw Hc.
  - cbn [split_from] in Hw. destruct Hw as [<- | []]. right. now apply in_rev.
  - cbn [split_from] in Hw. destruct (is_space x) eqn:Ex.
    + destruct gap.
      * destruct (IH _ _ _ _ Hw Hc) as [[H1 H2] | H]; [left; split; [now right | assumption] | now right].
      * destruct Hw as [<- | Hw]; [right; now apply in_rev|].
        destruct (IH _ _ _ _ Hw Hc) as [[H1 H2] | []]. left. split; [now right | assumption].
    + destruct (IH _ _ _ _ Hw Hc) as [[H1 H2] | [<- | H]].
      * left. split; [now right | assumption].
      * left. split; [now left | assumption].
      * now right.
Qed.

End KeywordProofs.

(** X12: the keywords of a task context are pairwise distinct; each is longer
    than two code units, is not a stop word, and is made of lower-case
    letters, digits and hyphens only. *)
Theorem X12_context_keywords (context : ContextBuilder.TaskContext) :
  let keywords := ContextBuilder.extractContextKeywords context in
  NoDup keywords
  /\ forall word, In word keywords ->
       2 < List.length word
       /\ ~ In word ContextBuilder.stopWords
       /\ Forall (fun c => Js.is_lower c || Js.is_digit c || (Js.code c =? 45) = true) word.
Proof.
  cbv zeta. unfold ContextBuilder.extractContextKeywords.
  split; [apply SetFacts.mkSet_NoDup|].
  intros word Hw. rewrite SetFacts.mkSet_In in Hw. apply filter_In in Hw as [Hw Hf].
  apply andb_prop in Hf as [Hlen Hstop]. apply Nat.ltb_lt in Hlen.
  split; [exact Hlen|]. split.
  - intros Hin. apply SetFacts.has_In in Hin. rewrite Hin in Hstop. discriminate.
  - apply Forall_forall. intros c Hc.
    unfold Similarity.split_spaces, Regex.replace_all, ContextBuilder.pat_other in Hw.
    rewrite KeywordProofs.replace_class in Hw by lia.
    destruct (KeywordProofs.split_pieces _ _ _ _ _ Hw Hc) as [[Hin Hsp] | []].
    apply in_map_iff in Hin as [x [Ex _]].
    cbn beta in Ex.
    destruct (Js.is_lower x || Js.is_digit x || Js.is_space x || (Js.code x =? 45)) eqn:E;
      cbn [negb] in Ex; subst c.
    + rewrite Hsp in E.
      destruct (Js.is_lower x), (Js.is_digit x), (Js.code x =? 45); try reflexivity.
      discriminate E.
    + vm_compute in Hsp. discriminate Hsp.
Qed.

(* ================================================================= *)
(** ** Sessions keep the tables sound *)

Module SessionProofs.
Import Js Types Sql Statements History StoreFacts HistoryProofs Session.

Ltac fields :=
  cbn [with_errors with_solutions with_tags with_error_tags with_links add_link
       with_embeddings with_tables
       errors errors_seq solutions solutions_seq tag_rows tags_seq error_tags
       error_tag_rowids embeddings embeddings_seq lastInsertRowid fst snd] in *.

(** *** Rows and their keys *)

Lemma has_error_find (db : Db) (e : nat) : has_error db e <-> error_by_id db e <> None.
Proof.
  unfold has_error, error_by_id. split.
  - intros H. destruct (find_by_id_some id (errors db) H) as [r ->]. discriminate.
  - intros H. destruct (find (fun r => id r =? e) (errors db)) as [r|] eqn:E; [|contradiction].
    apply find_some in E as [Hin Hid]. apply Nat.eqb_eq in Hid. eauto.
Qed.

Lemma has_tag_find (db : Db) (t : nat) :
  has_tag db t <-> find (fun r => tag_id r =? t) (tag_rows db) <> None.
Proof.
  unfold has_tag. split.
  - intros H. destruct (find_by_id_some tag_id (tag_rows db) H) as [r ->]. discriminate.
  - intros H. destruct (find (fun r => tag_id r =? t) (tag_rows db)) as [r|] eqn:E;
      [|contradiction].
    apply find_some in E as [Hin Hid]. apply Nat.eqb_eq in Hid. eauto.
Qed.

Lemma has_link_In (db : Db) (e t : nat) : has_link db e t = true <-> In (e, t) (error_tags db).
Proof.
  unfold has_link. rewrite existsb_exists. split.
  - intros [[e' t'] [Hin H]]. cbn in H. apply andb_prop in H as [He Ht].
    apply Nat.eqb_eq in He, Ht. now subst.
  - intros H. exists (e, t). split; [assumption|]. cbn. now rewrite !Nat.eqb_refl.
Qed.

(** The three outcomes of [INSERT OR IGNORE INTO error_tags]. *)
Lemma insert_link_cases (e t : nat) (db : Db) :
  (In (e, t) (error_tags db) /\ insert_link e t db = Ok db)
  \/ (~ In (e, t) (error_tags db) /\ has_error db e /\ has_tag db t
      /\ insert_link e t db = Ok (add_link db e t))
  \/ (~ In (e, t) (error_tags db) /\ ~ (has_error db e /\ has_tag db t)
      /\ insert_link e t db = Throw SqliteConstraint).
Proof.
  unfold insert_link. destruct (has_link db e t) eqn:El.
  - left. split; [now apply has_link_In | reflexivity].
  - right.
    assert (Hn : ~ In (e, t) (error_tags db)).
    { intros H. apply has_link_In in H. congruence. }
    destruct (error_by_id db e) eqn:Ee.
    + destruct (find (fun r => tag_id r =? t) (tag_rows db)) eqn:Et.
      * left. split; [assumption|]. split; [apply has_error_find; congruence|].
        split; [apply has_tag_find; congruence | reflexivity].
      * right. split; [assumption|]. split; [|reflexivity].
        intros [_ H]. apply has_tag_find in H. contradiction.
    + right. split; [assumption|]. split; [|reflexivity].
      intros [H _]. apply has_error_find in H. contradiction.
Qed.

(** *** Soundness, table by table *)

Lemma tags_same (db db' : Db) :
  tag_rows db' = tag_rows db -> tags_seq db' = tags_seq db -> tags_sound db -> tags_sound db'.
Proof. intros E1 E2 [T1 T2 T3 T4]. split; rewrite ?E1, ?E2; assumption. Qed.

Lemma wf_same (db db' : Db) :
  errors db' = errors db -> errors_seq db' = errors_seq db ->
  solutions db' = solutions db -> solutions_seq db' = solutions_seq db ->
  embeddings db' = embeddings db -> embeddings_seq db' = embeddings_seq db ->
  wf db -> wf db'.
Proof. intros E1 E2 E3 E4 E5 E6. apply frame_wf. now split. Qed.

(** Foreign keys survive when no row they point to goes away. *)
Lemma refs_keep (db db' : Db) :
  (forall e, has_error db e -> has_error db' e) ->
  (forall t, has_tag db t -> has_tag db' t) ->
  error_tags db' = error_tags db -> solutions db' = solutions db ->
  embeddings db' = embeddings db ->
  refs_sound db -> refs_sound db'.
Proof.
  intros He Ht E1 E2 E3 [R1 R2 R3 R4]. split; rewrite ?E1, ?E2, ?E3; try assumption.
  - eapply Forall_impl; [|exact R2]. intros l [H1 H2]. auto.
  - eapply Forall_impl; [|exact R3]. intros r H. auto.
  - eapply Forall_impl; [|exact R4]. intros r H. auto.
Qed.

Lemma sound_empty : sound empty_db.
Proof.
  split; [apply wf_empty | split; cbn; constructor | split; cbn; constructor].
Qed.

(** New links. *)
Lemma sound_links (db : Db) (links : list (nat * nat)) (rowids : list (nat * nat * nat))
      (rowid : nat) :
  sound db -> NoDup links ->
  Forall (fun l => has_error db (fst l) /\ has_tag db (snd l)) links ->
  sound (with_links db links rowids rowid).
Proof.
  intros [W T [R1 R2 R3 R4]] Hnd Hl. split.
  - now apply (@wf_same db).
  - now apply (@tags_same db).
  - split; assumption.
Qed.

Lemma insert_link_sound (e t : nat) (db db' : Db) :
  sound db -> insert_link e t db = Ok db' -> sound db'.
Proof.
  intros S H.
  destruct (insert_link_cases e t db) as [[_ E] | [(Hn & He & Ht & E) | (_ & _ & E)]];
    rewrite E in H; [injection H as <-; exact S | injection H as <- | discriminate].
  destruct (s_refs S) as [R1 R2 _ _].
  apply sound_links; [assumption | |].
  - apply NoDup_app; [assumption | repeat constructor; intros [] |].
    intros x Hx [<- | []]. contradiction.
  - apply Forall_app. split; [assumption|]. repeat constructor; assumption.
Qed.

Lemma addTagsToError_sound (e : nat) (ids : list nat) :
  forall db db', sound db -> TagService.addTagsToError e ids db = Ok db' -> sound db'.
Proof.
  induction ids as [|t ids IH]; intros db db' S H; cbn [TagService.addTagsToError] in H.
  - injection H as <-. exact S.
  - destruct (insert_link e t db) as [db1|x] eqn:E; [|discriminate].
    cbn [bind] in H. apply (IH db1); [|exact H]. exact (@insert_link_sound _ _ _ _ S E).
Qed.

Lemma addTagsToError_st_sound (e : nat) (ids : list nat) :
  forall db, sound db -> sound (fst (TagAdmin.addTagsToError e ids db)).
Proof.
  induction ids as [|t ids IH]; intros db S; cbn [TagAdmin.addTagsToError]; [exact S|].
  destruct (insert_link e t db) as [db1|x] eqn:E; [|exact S].
  apply IH. exact (@insert_link_sound _ _ _ _ S E).
Qed.

(** The two models of the loop agree when it does not throw. *)
Lemma addTagsToError_agree (e : nat) (ids : list nat) :
  forall db db',
    TagService.addTagsToError e ids db = Ok db'
    <-> TagAdmin.addTagsToError e ids db = (db', None).
Proof.
  induction ids as [|t ids IH]; intros db db';
    cbn [TagService.addTagsToError TagAdmin.addTagsToError].
  - split; intros H; injection H as <-; reflexivity.
  - destruct (insert_link e t db) as [db1|x]; cbn [bind]; [apply IH|].
    split; discriminate.
Qed.

(** *** Tags *)

Lemma normal_name (n : str) : trim (toLowerCase (trim (toLowerCase n))) = trim (toLowerCase n).
Proof. now rewrite TrimFacts.lower_trim, TrimFacts.lower_idem, TrimFacts.trim_trim. Qed.

Lemma tag_by_name_none (db : Db) (n : str) :
  tag_by_name db n = None -> ~ In n (map name (tag_rows db)).
Proof.
  unfold tag_by_name. intros H Hin. apply in_map_iff in Hin as [r [Hr Hin]].
  apply (find_none _ _ H) in Hin. rewrite Hr, eqb_refl in Hin. discriminate.
Qed.

Lemma insert_tag_sound (n : str) (c : option TagCategory) (db : Db) (r : nat * Db) :
  sound db -> trim (toLowerCase n) = n -> insert_tag n c db = Ok r -> sound (snd r).
Proof.
  intros [W [T1 T2 T3 T4] R] Hn H. unfold insert_tag in H.
  destruct (tag_by_name db n) eqn:E; [discriminate|]. injection H as <-. fields.
  split.
  - now apply (@wf_same db).
  - split; fields.
    + apply Forall_app. split.
      * eapply Forall_impl; [|exact T1]. cbn. intros; lia.
      * repeat constructor.
    + rewrite map_app. cbn [map tag_id].
      apply NoDup_app; [assumption | repeat constructor; intros [] |].
      intros x Hx [<- | []]. apply in_map_iff in Hx as [row [Hrow Hin]].
      rewrite Forall_forall in T1. specialize (T1 row Hin). lia.
    + rewrite map_app. cbn [map name].
      apply NoDup_app; [assumption | repeat constructor; intros [] |].
      intros x Hx [<- | []]. exact (tag_by_name_none _ _ E Hx).
    + apply Forall_app. split; [assumption|]. repeat constructor. exact Hn.
  - apply (@refs_keep db); try reflexivity; [intros e He; exact He | | exact R].
    intros t [row [Hin Hid]]. exists row. split; [|assumption]. fields.
    apply in_or_app. now left.
Qed.

Lemma createTag_sound (n : str) (c : option TagCategory) (db : Db) (r : TagRow * Db) :
  sound db -> TagService.createTag n c db = Ok r -> sound (snd r).
Proof.
  intros S H. unfold TagService.createTag in H.
  destruct (insert_tag (trim (toLowerCase n)) c db) as [r1|x] eqn:E; [|discriminate].
  cbn [bind] in H. injection H as <-. cbn [snd].
  exact (@insert_tag_sound _ _ _ _ S (normal_name n) E).
Qed.

Lemma getOrCreateTags_sound (names : list str) (c : option TagCategory) :
  forall db r, sound db -> TagService.getOrCreateTags names c db = Ok r -> sound (snd r).
Proof.
  induction names as [|n names IH]; intros db r S H; cbn [TagService.getOrCreateTags] in H.
  - injection H as <-. exact S.
  - destruct (List.length (trim (toLowerCase n)) =? 0); [exact (IH _ _ S H)|].
    destruct (TagService.getTagByName db (trim (toLowerCase n))) as [tag|].
    + cbn [bind fst snd] in H.
      destruct (TagService.getOrCreateTags names c db) as [rest|x] eqn:E; [|discriminate].
      cbn [bind] in H. injection H as <-. cbn [snd]. exact (IH _ _ S E).
    + destruct (TagService.createTag (trim (toLowerCase n)) c db) as [r1|x] eqn:E1;
        [|discriminate].
      cbn [bind] in H.
      destruct (TagService.getOrCreateTags names c (snd r1)) as [rest|x] eqn:E;
        [|discriminate].
      cbn [bind] in H. injection H as <-. cbn [snd].
      apply (IH _ _ (@createTag_sound _ _ _ _ S E1) E).
Qed.

(** *** The four calls of a history *)

Lemma has_error_map (db : Db) (f : ErrorRow -> ErrorRow) (seq rowid : nat) (e : nat) :
  (forall r, id (f r) = id r) ->
  has_error db e -> has_error (with_errors db (map f (errors db)) seq rowid) e.
Proof.
  intros Hf [row [Hin Hid]]. exists (f row). fields.
  split; [now apply in_map | now rewrite Hf].
Qed.

Lemma has_error_app (db : Db) (rows : list ErrorRow) (seq rowid : nat) (e : nat) :
  has_error db e -> has_error (with_errors db (errors db ++ rows) seq rowid) e.
Proof.
  intros [row [Hin Hid]]. exists row. fields. split; [|assumption].
  apply in_or_app. now left.
Qed.

Lemma recordError_sound (now : nat) (input : ErrorInput) (db : Db) (r : nat * Db) :
  sound db -> ErrorService.recordError now input db = Ok r -> sound (snd r).
Proof.
  intros S H.
  assert (W' : wf (snd r)).
  { destruct (recordError_wf now input (s_wf S)) as [i [db' [E W']]].
    rewrite E in H. injection H as <-. exact W'. }
  destruct (error_by_hash db (ErrorService.fingerprint input)) as [existing|] eqn:E.
  - rewrite (recordError_seen now input db E) in H. injection H as <-. cbn [snd] in *.
    split; [exact W' | |].
    + apply (@tags_same db); [reflexivity | reflexivity | exact (s_tags S)].
    + apply (@refs_keep db); try reflexivity; [| intros t Ht; exact Ht | exact (s_refs S)].
      intros e He. unfold update_error_seen. apply has_error_map; [|exact He].
      intros x. destruct (id x =? id existing); reflexivity.
  - unfold ErrorService.recordError in H.
    change (ErrorHash.generateErrorHash _ _) with (ErrorService.fingerprint input) in H.
    rewrite E in H. unfold insert_error in H. rewrite E in H. cbn [bind fst snd] in H.
    fold (new_error now input db) in H.
    set (db1 := with_errors db (errors db ++ [new_error now input db])
                  (Datatypes.S (errors_seq db)) (Datatypes.S (errors_seq db))) in *.
    assert (S1 : sound db1).
    { destruct (recordError_new now input db E) as [db' [_ [E1 [E2 [E3 [E4 [E5 E6]]]]]]].
      split.
      - destruct (s_wf S) as [W1 W2 W3 W4 W5 W6 W7 W8].
        split; unfold db1; fields; try assumption.
        + apply Forall_app. split.
          * eapply Forall_impl; [|exact W1]. cbn. intros; lia.
          * constructor; [cbn; lia | constructor].
        + rewrite map_app. cbn [map new_error id].
          apply NoDup_app; [assumption | repeat constructor; intros [] | ].
          intros x Hx [<- | []]. apply in_map_iff in Hx as [row [Hr Hin]].
          rewrite Forall_forall in W1. specialize (W1 row Hin). lia.
        + rewrite map_app. cbn [map new_error hash].
          apply NoDup_app; [assumption | repeat constructor; intros [] | ].
          intros x Hx [<- | []]. exact (find_none_hash _ _ E Hx).
      - apply (@tags_same db); [reflexivity | reflexivity | exact (s_tags S)].
      - apply (@refs_keep db); try reflexivity; [| intros t Ht; exact Ht | exact (s_refs S)].
        intros e He. unfold db1. now apply has_error_app. }
    destruct (0 <? List.length _); [|injection H as <-; exact S1].
    match type of H with
    | context [TagService.getOrCreateTags ?names None db1] =>
        destruct (TagService.getOrCreateTags names None db1) as [tr|x] eqn:Et
    end; [|discriminate].
    cbn [bind] in H.
    destruct (TagService.addTagsToError _ _ (snd tr)) as [db3|x] eqn:Ea; [|discriminate].
    cbn [bind] in H. injection H as <-. cbn [snd].
    exact (@addTagsToError_sound _ _ _ _ (@getOrCreateTags_sound _ _ _ _ S1 Et) Ea).
Qed.

Lemma recordSolution_sound (now : nat) (input : SolutionInput) (db : Db) (r : nat * Db) :
  sound db -> SolutionService.recordSolution now input db = Ok r -> sound (snd r).
Proof.
  intros S H. pose proof (recordSolution_wf now input (s_wf S) H) as W'.
  destruct (error_by_id db (si_errorId input)) eqn:E.
  - rewrite recordSolution_ok in H by congruence.
    injection H as <-. cbn [snd] in *.
    split; [exact W' | |].
    + apply (@tags_same db); [reflexivity | reflexivity | exact (s_tags S)].
    + destruct (s_refs S) as [R1 R2 R3 R4]. split; fields; try assumption.
      apply Forall_app. split; [assumption|]. repeat constructor.
      change (has_error db (si_errorId input)). apply has_error_find. congruence.
  - rewrite recordSolution_throws in H by assumption. discriminate.
Qed.

Lemma recordSolutionOutcome_sound (i : nat) (success : bool) (db db' : Db) :
  sound db -> SolutionService.recordSolutionOutcome i success db = Ok db' -> sound db'.
Proof.
  intros S H. pose proof (recordSolutionOutcome_wf i success (s_wf S) H) as W'.
  unfold SolutionService.recordSolutionOutcome, update_solution_count in H.
  destruct (_ =? 0); [discriminate|]. injection H as <-.
  split; [exact W' | |].
  - apply (@tags_same db); [reflexivity | reflexivity | exact (s_tags S)].
  - destruct (s_refs S) as [R1 R2 R3 R4]. split; fields; try assumption.
    apply Forall_map. eapply Forall_impl; [|exact R3].
    intros r Hr. destruct (sol_id r =? i); exact Hr.
Qed.

(** [INSERT ... ON CONFLICT(error_id) DO UPDATE] of a packed vector. *)
Lemma upsert_embedding_sound (e : nat) (v : list float) (m : str) (db db' : Db) :
  sound db ->
  upsert_embedding e (flat_map Packing.enc v) m (List.length v) db = Ok db' ->
  sound db'.
Proof.
  intros S H. unfold upsert_embedding in H.
  destruct (error_by_id db e) eqn:E; [|discriminate].
  assert (He : has_error db e) by (apply has_error_find; rewrite E; discriminate).
  destruct (s_wf S) as [W1 W2 W3 W4 W5 W6 W7 W8].
  destruct (s_refs S) as [R1 R2 R3 R4].
  destruct (existsb (fun r => emb_error_id r =? e) (embeddings db)) eqn:Ex;
    injection H as <-.
  - split; [split; fields; try assumption | | split; fields; try assumption].
    + rewrite map_update_key; [assumption|].
      intros x. destruct (Nat.eqb_spec (emb_error_id x) e); [cbn; congruence | reflexivity].
    + apply Forall_map. eapply Forall_impl; [|exact W8].
      intros x Hx. cbn beta. destruct (emb_error_id x =? e); [|exact Hx].
      exists v. split; reflexivity.
    + apply (@tags_same db); [reflexivity | reflexivity | exact (s_tags S)].
    + apply Forall_map. eapply Forall_impl; [|exact R4].
      intros x Hx. cbn beta. destruct (emb_error_id x =? e); [exact He | exact Hx].
  - split; [split; fields; try assumption | | split; fields; try assumption].
    + rewrite map_app. cbn [map emb_error_id].
      apply NoDup_app; [assumption | repeat constructor; intros [] | ].
      intros x Hx [<- | []]. apply in_map_iff in Hx as [row [Hrow Hin]].
      assert (Hex : existsb (fun r => emb_error_id r =? e) (embeddings db) = true).
      { apply existsb_exists. exists row. split; [assumption|]. now apply Nat.eqb_eq. }
      congruence.
    + apply Forall_app. split; [assumption|].
      constructor; [|constructor]. exists v. split; reflexivity.
    + apply (@tags_same db); [reflexivity | reflexivity | exact (s_tags S)].
    + apply Forall_app. split; [assumption|]. repeat constructor. exact He.
Qed.

Lemma storeEmbedding_sound (heap : nat -> Z) (e : nat) (v : list float) (m : str)
      (db : Db) (r : nat * Db) :
  sound db -> EmbeddingService.storeEmbedding heap e v m db = Ok r -> sound (snd r).
Proof.
  intros S H. unfold EmbeddingService.storeEmbedding in H.
  destruct (error_by_id db e); [|discriminate].
  rewrite BufferProofs.pack_loop in H. cbn [bind] in H.
  destruct (upsert_embedding e _ m _ db) as [db'|x] eqn:E; [|discriminate].
  cbn [bind] in H. injection H as <-. cbn [snd].
  exact (@upsert_embedding_sound _ _ _ _ _ S E).
Qed.

Lemma batchInsert_sound (heap : nat -> Z) (items : list (nat * list float)) (m : str) :
  forall db db', sound db -> EmbeddingAdmin.batchInsert heap items m db = Ok db' -> sound db'.
Proof.
  induction items as [|[e v] items IH]; intros db db' S H; cbn [EmbeddingAdmin.batchInsert] in H.
  - injection H as <-. exact S.
  - rewrite BufferProofs.pack_loop in H. cbn [bind] in H.
    destruct (upsert_embedding e _ m _ db) as [db1|x] eqn:E; [|discriminate].
    cbn [bind] in H. exact (IH _ _ (@upsert_embedding_sound _ _ _ _ _ S E) H).
Qed.

Lemma service_sound (db : Db) (op : Op) : sound db -> sound (History.step db op).
Proof.
  intros S. destruct op as [now input | now input | i success | heap e v m]; cbn [History.step].
  - destruct (ErrorService.recordError now input db) eqn:E; [|exact S].
    exact (@recordError_sound _ _ _ _ S E).
  - destruct (SolutionService.recordSolution now input db) eqn:E; [|exact S].
    exact (@recordSolution_sound _ _ _ _ S E).
  - destruct (SolutionService.recordSolutionOutcome i success db) eqn:E; [|exact S].
    exact (@recordSolutionOutcome_sound _ _ _ _ S E).
  - destruct (EmbeddingService.storeEmbedding heap e v m db) eqn:E; [|exact S].
    exact (@storeEmbedding_sound _ _ _ _ _ _ S E).
Qed.

(** *** Deletes and updates *)

(** Rows that stay after a delete keep their keys pairwise distinct. *)
Lemma NoDup_map_filter {Row Key : Type} (rows : list Row) :
  forall (key : Row -> Key) (keep : Row -> bool),
    NoDup (map key rows) -> NoDup (map key (filter keep rows)).
Proof.
  intros key keep. induction rows as [|x l IH]; intros H; [constructor|].
  cbn [map] in H. inversion H as [|? ? Hx Hl]; subst. cbn [filter].
  destruct (keep x); [|now apply IH]. cbn [map]. constructor; [|now apply IH].
  intros Hin. apply Hx. apply in_map_iff in Hin as [y [Hy Hin]].
  apply filter_In in Hin as [Hin _]. apply in_map_iff. eauto.
Qed.

Lemma Forall_keep {A} (P : A -> Prop) (p : A -> bool) (l : list A) :
  Forall P l -> Forall P (filter p l).
Proof.
  intros H. apply Forall_forall. intros x Hx. apply filter_In in Hx as [Hx _].
  rewrite Forall_forall in H. now apply H.
Qed.

Lemma delete_link_sound (e t : nat) (db : Db) : sound db -> sound (delete_link e t db).
Proof.
  intros Hs. destruct (s_refs Hs) as [R1 R2 _ _]. unfold delete_link.
  apply sound_links; [assumption | now apply NoDup_filter | now apply Forall_keep].
Qed.

Lemma removeTagsFromError_sound (e : nat) (ids : list nat) :
  forall db, sound db -> sound (TagAdmin.removeTagsFromError e ids db).
Proof.
  unfold TagAdmin.removeTagsFromError.
  induction ids as [|t ids IH]; intros db Hs; [exact Hs|].
  cbn [fold_left]. apply IH. now apply delete_link_sound.
Qed.

Lemma delete_links_of_sound (e : nat) (db : Db) : sound db -> sound (delete_links_of e db).
Proof.
  intros Hs. destruct (s_refs Hs) as [R1 R2 _ _]. unfold delete_links_of.
  apply sound_links; [assumption | now apply NoDup_filter | now apply Forall_keep].
Qed.

Lemma setErrorTags_sound (e : nat) (ids : list nat) (db : Db) :
  sound db -> sound (fst (TagAdmin.setErrorTags e ids db)).
Proof.
  intros Hs. unfold TagAdmin.setErrorTags.
  destruct (0 <? List.length ids).
  - apply addTagsToError_st_sound. now apply delete_links_of_sound.
  - cbn [fst]. now apply delete_links_of_sound.
Qed.

Lemma tagError_sound (e : nat) (names : list str) (db : Db) :
  sound db -> sound (fst (MemoryFacade.tagError e names db)).
Proof.
  intros Hs. unfold MemoryFacade.tagError.
  destruct (TagService.getOrCreateTags names None db) as [[tags db1]|x] eqn:E; [|exact Hs].
  apply addTagsToError_st_sound.
  exact (@getOrCreateTags_sound _ _ _ _ Hs E).
Qed.

Lemma updateTagCategory_sound (i : nat) (c : option TagCategory) (db : Db) :
  sound db -> sound (snd (TagAdmin.updateTagCategory i c db)).
Proof.
  intros Hs. unfold TagAdmin.updateTagCategory, update_tag_category. cbn [snd].
  destruct (s_tags Hs) as [T1 T2 T3 T4]. split.
  - apply (@wf_same db); try reflexivity. exact (s_wf Hs).
  - split; fields.
    + apply Forall_map. eapply Forall_impl; [|exact T1].
      intros t Ht. destruct (tag_id t =? i); exact Ht.
    + rewrite map_update_key; [assumption|].
      intros t. destruct (tag_id t =? i); reflexivity.
    + rewrite map_update_key; [assumption|].
      intros t. destruct (tag_id t =? i); reflexivity.
    + apply Forall_map. eapply Forall_impl; [|exact T4].
      intros t Ht. destruct (tag_id t =? i); exact Ht.
  - apply (@refs_keep db); try reflexivity; [intros e He; exact He | | exact (s_refs Hs)].
    intros t [row [Hin Hid]].
    exists (if tag_id row =? i
            then {| tag_id := tag_id row; name := name row; category := c |} else row).
    fields. split.
    + apply in_map_iff. exists row. split; [reflexivity | assumption].
    + destruct (tag_id row =? i); exact Hid.
Qed.

Lemma deleteTag_sound (i : nat) (db : Db) : sound db -> sound (snd (TagAdmin.deleteTag i db)).
Proof.
  intros Hs. unfold TagAdmin.deleteTag, delete_tag.
  destruct (existsb (fun t => tag_id t =? i) (tag_rows db)); [|exact Hs]. cbn [snd].
  destruct (s_tags Hs) as [T1 T2 T3 T4]. destruct (s_refs Hs) as [R1 R2 R3 R4]. split.
  - apply (@wf_same db); try reflexivity. exact (s_wf Hs).
  - split; fields.
    + now apply Forall_keep.
    + now apply NoDup_map_filter.
    + now apply NoDup_map_filter.
    + now apply Forall_keep.
  - split; fields; try assumption.
    + now apply NoDup_filter.
    + apply Forall_forall. intros [e t] Hl. apply filter_In in Hl as [Hl Hne].
      rewrite Forall_forall in R2. destruct (R2 _ Hl) as [He [row [Hin Hid]]].
      split; [exact He|]. exists row. fields. split; [|exact Hid].
      apply filter_In. split; [exact Hin|]. now rewrite Hid.
Qed.

Lemma deleteError_sound (i : nat) (db : Db) :
  sound db -> sound (snd (ErrorAdmin.deleteError i db)).
Proof.
  intros Hs. unfold ErrorAdmin.deleteError, delete_error.
  destruct (existsb (fun r => id r =? i) (errors db)); [|exact Hs]. cbn [snd].
  destruct (s_wf Hs) as [W1 W2 W3 W4 W5 W6 W7 W8].
  destruct (s_refs Hs) as [R1 R2 R3 R4].
  assert (Hkeep : forall e, has_error db e -> (negb (e =? i)) = true ->
            exists row, In row (filter (fun r => negb (id r =? i)) (errors db)) /\ id row = e).
  { intros e [row [Hin Hid]] Hne. exists row. split; [|exact Hid].
    apply filter_In. split; [exact Hin|]. now rewrite Hid. }
  split.
  - split; fields.
    + now apply Forall_keep.
    + now apply NoDup_map_filter.
    + now apply NoDup_map_filter.
    + now apply Forall_keep.
    + now apply NoDup_map_filter.
    + now apply Forall_keep.
    + now apply NoDup_map_filter.
    + now apply Forall_keep.
  - apply (@tags_same db); [reflexivity | reflexivity | exact (s_tags Hs)].
  - split; fields.
    + now apply NoDup_filter.
    + apply Forall_forall. intros [e t] Hl. apply filter_In in Hl as [Hl Hne].
      rewrite Forall_forall in R2. destruct (R2 _ Hl) as [He Ht].
      split; [exact (Hkeep _ He Hne) | exact Ht].
    + apply Forall_forall. intros r Hr. apply filter_In in Hr as [Hr Hne].
      rewrite Forall_forall in R3. exact (Hkeep _ (R3 _ Hr) Hne).
    + apply Forall_forall. intros r Hr. apply filter_In in Hr as [Hr Hne].
      rewrite Forall_forall in R4. exact (Hkeep _ (R4 _ Hr) Hne).
Qed.

(** Solutions whose keys, counts and errors stay. *)
Lemma sound_solutions_map (f : SolutionRow -> SolutionRow) (db : Db) :
  (forall r, sol_id (f r) = sol_id r) ->
  (forall r, sol_error_id (f r) = sol_error_id r) ->
  (forall r, success_rate r = generated_success_rate (success_count r) (failure_count r) ->
             success_rate (f r)
             = generated_success_rate (success_count (f r)) (failure_count (f r))) ->
  sound db ->
  sound (with_solutions db (map f (solutions db)) (solutions_seq db) (lastInsertRowid db)).
Proof.
  intros H1 H2 H3 Hs.
  destruct (s_wf Hs) as [W1 W2 W3 W4 W5 W6 W7 W8].
  destruct (s_refs Hs) as [R1 R2 R3 R4]. split.
  - split; fields; try assumption.
    + apply Forall_map. eapply Forall_impl; [|exact W4]. intros r Hr. now rewrite H1.
    + now rewrite map_update_key.
    + apply Forall_map. eapply Forall_impl; [|exact W6]. intros r Hr. now apply H3.
  - apply (@tags_same db); [reflexivity | reflexivity | exact (s_tags Hs)].
  - split; fields; try assumption.
    apply Forall_map. eapply Forall_impl; [|exact R3]. intros r Hr. now rewrite H2.
Qed.

Lemma sound_solutions_filter (p : SolutionRow -> bool) (db : Db) :
  sound db ->
  sound (with_solutions db (filter p (solutions db)) (solutions_seq db) (lastInsertRowid db)).
Proof.
  intros Hs.
  destruct (s_wf Hs) as [W1 W2 W3 W4 W5 W6 W7 W8].
  destruct (s_refs Hs) as [R1 R2 R3 R4]. split.
  - split; fields; try assumption.
    + now apply Forall_keep.
    + now apply NoDup_map_filter.
    + now apply Forall_keep.
  - apply (@tags_same db); [reflexivity | reflexivity | exact (s_tags Hs)].
  - split; fields; try assumption. now apply Forall_keep.
Qed.

Lemma updateSolution_sound (i : nat) (newContent newSnippet : option str) (db : Db) :
  sound db -> sound (snd (SolutionAdmin.updateSolution i newContent newSnippet db)).
Proof.
  intros Hs. unfold SolutionAdmin.updateSolution.
  assert (H : sound (snd (update_solution i newContent newSnippet db))).
  { unfold update_solution. cbn [snd]. apply sound_solutions_map; [| | |exact Hs].
    - intros r. destruct (sol_id r =? i); reflexivity.
    - intros r. destruct (sol_id r =? i); reflexivity.
    - intros r Hr. destruct (sol_id r =? i); [reflexivity | exact Hr]. }
  destruct newContent, newSnippet; try exact Hs;
    destruct (update_solution i _ _ db); exact H.
Qed.

Lemma deleteSolution_sound (i : nat) (db : Db) :
  sound db -> sound (snd (SolutionAdmin.deleteSolution i db)).
Proof.
  intros Hs. unfold SolutionAdmin.deleteSolution, delete_solution. cbn [snd].
  now apply sound_solutions_filter.
Qed.

Lemma deleteSolutionsForError_sound (e : nat) (db : Db) :
  sound db -> sound (snd (SolutionAdmin.deleteSolutionsForError e db)).
Proof.
  intros Hs. unfold SolutionAdmin.deleteSolutionsForError, delete_solutions_of. cbn [snd].
  now apply sound_solutions_filter.
Qed.

Lemma deleteEmbedding_sound (e : nat) (db : Db) :
  sound db -> sound (snd (EmbeddingAdmin.deleteEmbedding e db)).
Proof.
  intros Hs. unfold EmbeddingAdmin.deleteEmbedding, delete_embedding. cbn [snd].
  destruct (s_wf Hs) as [W1 W2 W3 W4 W5 W6 W7 W8].
  destruct (s_refs Hs) as [R1 R2 R3 R4]. split.
  - split; fields; try assumption.
    + now apply NoDup_map_filter.
    + now apply Forall_keep.
  - apply (@tags_same db); [reflexivity | reflexivity | exact (s_tags Hs)].
  - split; fields; try assumption. now apply Forall_keep.
Qed.

(** *** Every call, every session *)

Lemma step_sound (db : Db) (call : Call) : sound db -> sound (Session.step db call).
Proof.
  intros Hs.
  destruct call as [op | n c | names c | e ids | e ids | e ids | t c | t | e names | e
                   | i newContent newSnippet | i | e | e | heap items model];
    cbn [Session.step].
  - now apply service_sound.
  - destruct (TagService.createTag n c db) eqn:E; [|exact Hs].
    exact (@createTag_sound _ _ _ _ Hs E).
  - destruct (TagService.getOrCreateTags names c db) eqn:E; [|exact Hs].
    exact (@getOrCreateTags_sound _ _ _ _ Hs E).
  - now apply addTagsToError_st_sound.
  - now apply removeTagsFromError_sound.
  - now apply setErrorTags_sound.
  - now apply updateTagCategory_sound.
  - now apply deleteTag_sound.
  - now apply tagError_sound.
  - now apply deleteError_sound.
  - now apply updateSolution_sound.
  - now apply deleteSolution_sound.
  - now apply deleteSolutionsForError_sound.
  - now apply deleteEmbedding_sound.
  - unfold EmbeddingAdmin.batchStoreEmbeddings.
    destruct (EmbeddingAdmin.batchInsert heap items model db) eqn:E; [|exact Hs].
    exact (@batchInsert_sound _ _ _ _ _ Hs E).
Qed.

Lemma run_sound (calls : list Call) : forall db, sound db -> sound (Session.run calls db).
Proof.
  induction calls as [|call calls IH]; intros db Hs; [exact Hs|].
  cbn [Session.run fold_left]. apply IH. now apply step_sound.
Qed.

Lemma reachable_sound (calls : list Call) : sound (Session.run calls empty_db).
Proof. apply run_sound, sound_empty. Qed.

(** A history is a session of service calls. *)
Lemma history_session (ops : list Op) :
  forall db, History.run ops db = Session.run (map Service ops) db.
Proof.
  induction ops as [|op ops IH]; intros db; [reflexivity|].
  cbn [History.run Session.run map fold_left]. apply IH.
Qed.

End SessionProofs.

(** X13: after any sequence of writing calls, whether they return or throw,
    the tables are sound: keys, hashes and tag names are pairwise distinct,
    tag names are in lower case and trimmed, every solution and every
    embedding belongs to an error that [getErrorById] finds, and every tag
    link joins such an error to a tag that [getTagById] finds. *)
Theorem X13_sessions_keep_the_tables_sound (calls : list Session.Call) :
  let db := Session.run calls Types.empty_db in
  Session.sound db
  /\ (forall s, In s (Types.solutions db) ->
        ErrorService.getErrorById db (Types.sol_error_id s) <> None)
  /\ (forall r, In r (Types.embeddings db) ->
        ErrorService.getErrorById db (Types.emb_error_id r) <> None)
  /\ (forall e t, In (e, t) (Types.error_tags db) ->
        ErrorService.getErrorById db e <> None /\ TagAdmin.getTagById db t <> None).
Proof.
  cbv zeta. pose proof (SessionProofs.reachable_sound calls) as Hs.
  set (db := Session.run calls Types.empty_db) in *.
  assert (Hget : forall e, Session.has_error db e -> ErrorService.getErrorById db e <> None).
  { intros e He. apply SessionProofs.has_error_find in He.
    unfold ErrorService.getErrorById. destruct (Sql.error_by_id db e); [discriminate | contradiction]. }
  destruct (Session.s_refs Hs) as [_ R2 R3 R4].
  rewrite Forall_forall in R2, R3, R4.
  split; [exact Hs|]. split; [|split].
  - intros s Hin. apply Hget. now apply R3.
  - intros r Hin. apply Hget. now apply R4.
  - intros e t Hin. destruct (R2 _ Hin) as [He Ht]. split; [now apply Hget|].
    apply SessionProofs.has_tag_find in Ht. exact Ht.
Qed.

(* ================================================================= *)
(** ** Creating tags and finding them again *)

Module TagProofs.
Import Js Types Sql Statements History StoreFacts HistoryProofs Session SessionProofs.

Lemma find_app_first {A} (p : A -> bool) (l l' : list A) (x : A) :
  find p l = Some x -> find p (l ++ l') = Some x.
Proof.
  induction l as [|y l IH]; intros H; [discriminate|].
  cbn [find app] in *. destruct (p y); [exact H | now apply IH].
Qed.

Lemma find_app_last {A} (p : A -> bool) (l : list A) (x : A) :
  find p l = None -> p x = true -> find p (l ++ [x]) = Some x.
Proof.
  induction l as [|y l IH]; intros H Hx; cbn [find app] in *.
  - now rewrite Hx.
  - destruct (p y); [discriminate | now apply IH].
Qed.

(** What [createTag] does, by whether the name is taken. *)
Lemma createTag_cases (n : str) (c : option TagCategory) (db : Db) :
  let nn := trim (toLowerCase n) in
  (tag_by_name db nn <> None /\ TagService.createTag n c db = Throw SqliteConstraint)
  \/ (tag_by_name db nn = None
      /\ TagService.createTag n c db
         = Ok ({| tag_id := S (tags_seq db); name := nn; category := c |},
               with_tags db
                 (tag_rows db ++ [{| tag_id := S (tags_seq db); name := nn; category := c |}])
                 (S (tags_seq db)) (S (tags_seq db)))).
Proof.
  cbv zeta. unfold TagService.createTag, insert_tag.
  destruct (tag_by_name db (trim (toLowerCase n))) eqn:E.
  - left. split; [discriminate | reflexivity].
  - right. split; reflexivity.
Qed.

(** One turn of the loop of [getOrCreateTags]: the tag for a name that is
    not blank, and the tables afterwards. *)
Lemma tag_for_name (nn : str) (c : option TagCategory) (db : Db) :
  trim (toLowerCase nn) = nn ->
  exists tag db1,
    match TagService.getTagByName db nn with
    | Some tag => Ok (tag, db)
    | None => TagService.createTag nn c db
    end = Ok (tag, db1)
    /\ name tag = nn
    /\ (exists extra, tag_rows db1 = tag_rows db ++ extra)
    /\ tag_by_name db1 nn = Some tag.
Proof.
  intros Hn. unfold TagService.getTagByName. rewrite Hn.
  destruct (tag_by_name db nn) as [tag|] eqn:E.
  - exists tag, db. split; [reflexivity|]. split.
    + unfold tag_by_name in E. apply find_some in E as [_ E]. now apply eqb_eq in E.
    + split; [exists []; now rewrite app_nil_r | exact E].
  - destruct (createTag_cases nn c db) as [[Hc _] | [_ Hc]]; cbv zeta in *;
      rewrite Hn in Hc; [contradiction|].
    rewrite Hc. eexists _, _. split; [reflexivity|]. cbn [name with_tags tag_rows].
    split; [reflexivity|]. split; [eauto|].
    unfold tag_by_name. cbn [with_tags tag_rows].
    apply find_app_last; [exact E | cbn; apply eqb_refl].
Qed.

Lemma getOrCreateTags_names (names : list str) (c : option TagCategory) :
  forall db, exists tags db',
    TagService.getOrCreateTags names c db = Ok (tags, db')
    /\ map name tags
       = filter Similarity.nonempty (map (fun n => trim (toLowerCase n)) names)
    /\ (exists extra, tag_rows db' = tag_rows db ++ extra)
    /\ forall c' db2,
         (exists more, tag_rows db2 = tag_rows db' ++ more) ->
         TagService.getOrCreateTags names c' db2 = Ok (tags, db2).
Proof.
  induction names as [|n names IH]; intros db.
  - exists [], db. split; [reflexivity|]. split; [reflexivity|].
    split; [exists []; now rewrite app_nil_r|]. reflexivity.
  - cbn [TagService.getOrCreateTags map filter]. unfold Similarity.nonempty at 1.
    destruct (List.length (trim (toLowerCase n)) =? 0) eqn:El; cbn [negb].
    + destruct (IH db) as (tags & db' & E & Hnames & Hext & Hagain).
      exists tags, db'. split; [exact E|]. split; [exact Hnames|]. split; [exact Hext|].
      intros c' db2 H2. now apply Hagain.
    + destruct (tag_for_name c db (normal_name n))
        as (tag & db1 & E1 & Hname & [ex1 Hex1] & Hfind).
      rewrite E1. cbn [bind fst snd].
      destruct (IH db1) as (tags & db' & E & Hnames & [ex Hex] & Hagain).
      rewrite E. cbn [bind fst snd].
      exists (tag :: tags), db'. split; [reflexivity|].
      split; [cbn [map]; now rewrite Hname, Hnames|].
      split; [exists (ex1 ++ ex); now rewrite Hex, Hex1, app_assoc|].
      intros c' db2 [more H2].
      assert (Hf2 : TagService.getTagByName db2 (trim (toLowerCase n)) = Some tag).
      { unfold TagService.getTagByName. rewrite normal_name.
        unfold tag_by_name in *. rewrite H2, Hex, <- app_assoc.
        now apply find_app_first. }
      rewrite Hf2. cbn [bind fst snd].
      rewrite (Hagain c' db2) by eauto. reflexivity.
Qed.

End TagProofs.

(** X14: [createTag] throws exactly when [getTagByName] already finds a tag
    for the name, and names that differ only in letter case or outer white
    space are the same name.  When it returns, the tag it returns has the
    normalised name and the given category, [getTagByName] finds it under
    every spelling of the name, and in a sound database [getTagById] finds it
    under its id while every tag found before is still found. *)
Theorem X14_createTag_then_lookup
        (name : Js.str) (category : option Types.TagCategory) (db : Types.Db) :
  (is_ok (TagService.createTag name category db) = false
   <-> TagService.getTagByName db name <> None)
  /\ forall tag db',
       TagService.createTag name category db = Ok (tag, db') ->
       Types.name tag = Js.trim (Js.toLowerCase name)
       /\ Types.category tag = category
       /\ (forall spelling,
             Js.trim (Js.toLowerCase spelling) = Js.trim (Js.toLowerCase name) ->
             TagService.getTagByName db' spelling = Some tag)
       /\ (Session.sound db ->
           TagAdmin.getTagById db' (Types.tag_id tag) = Some tag
           /\ forall t old, TagAdmin.getTagById db t = Some old ->
                            TagAdmin.getTagById db' t = Some old).
Proof.
  destruct (TagProofs.createTag_cases name category db) as [[Hn E] | [Hn E]];
    cbv zeta in *; rewrite E.
  - split.
    + cbn. split; [intros _; exact Hn | reflexivity].
    + intros tag db' H. discriminate.
  - split.
    + cbn. split; [discriminate|]. intros H. exfalso. apply H. exact Hn.
    + intros tag db' H. injection H as <- <-. cbn [Types.name Types.category Types.tag_id].
      split; [reflexivity|]. split; [reflexivity|]. split.
      * intros spelling Hsp.
        unfold TagService.getTagByName, Sql.tag_by_name. rewrite Hsp.
        cbn [Sql.with_tags Types.tag_rows].
        apply TagProofs.find_app_last; [exact Hn|]. cbn. apply StoreFacts.eqb_refl.
      * intros Hs. destruct (Session.s_tags Hs) as [T1 _ _ _]. split.
        -- unfold TagAdmin.getTagById. cbn [Sql.with_tags Types.tag_rows].
           apply TagProofs.find_app_last; [|cbn; apply Nat.eqb_refl].
           destruct (find _ (Types.tag_rows db)) as [row|] eqn:Ef; [|reflexivity].
           apply find_some in Ef as [Hin Hid]. apply Nat.eqb_eq in Hid.
           rewrite Forall_forall in T1. specialize (T1 row Hin). lia.
        -- intros t old Hold. unfold TagAdmin.getTagById in *.
           cbn [Sql.with_tags Types.tag_rows]. now apply TagProofs.find_app_first.
Qed.

Lemma X14_createTag_then_lookup_witness :
  exists tag db',
    TagService.createTag (Js.of_string "  React ") (Some Types.cat_framework) Types.empty_db
    = Ok (tag, db')
    /\ TagService.getTagByName db' (Js.of_string "REACT") = Some tag
    /\ is_ok (TagService.createTag (Js.of_string "react") None db') = false.
Proof.
  destruct (X14_createTag_then_lookup (Js.of_string "  React ") (Some Types.cat_framework)
              Types.empty_db) as [_ H].
  eexists _, _. split; [reflexivity|].
  specialize (H _ _ eq_refl). destruct H as (_ & _ & Hfind & _).
  split; [apply Hfind; reflexivity|].
  apply X14_createTag_then_lookup. rewrite (Hfind (Js.of_string "react")) by reflexivity.
  discriminate.
Defined.

(** X15: [getOrCreateTags] never throws.  It returns one tag for every name
    that is not blank, in order and under its normalised name, and only adds
    rows to the tag table; called again with the same names, with any
    category, it returns the very same tags and leaves the tables as they
    are. *)
Theorem X15_getOrCreateTags_is_idempotent
        (names : list Js.str) (category again : option Types.TagCategory) (db : Types.Db) :
  exists tags db',
    TagService.getOrCreateTags names category db = Ok (tags, db')
    /\ map Types.name tags
       = filter Similarity.nonempty (map (fun n => Js.trim (Js.toLowerCase n)) names)
    /\ (exists extra, Types.tag_rows db' = Types.tag_rows db ++ extra)
    /\ TagService.getOrCreateTags names again db' = Ok (tags, db').
Proof.
  destruct (TagProofs.getOrCreateTags_names names category db)
    as (tags & db' & E & Hnames & Hext & Hagain).
  exists tags, db'. split; [exact E|]. split; [exact Hnames|]. split; [exact Hext|].
  apply Hagain. exists []. now rewrite app_nil_r.
Qed.

(* ================================================================= *)
(** ** Replacing the tags of an error *)

Module LinkProofs.
Import Js Types Sql Statements History StoreFacts HistoryProofs Session SessionProofs.

(** The loop of [addTagsToError] on an error that exists: it stops at the
    first id that is no tag. *)
Lemma add_links_all (e : nat) (ids : list nat) :
  forall db,
    has_error db e -> Forall (has_tag db) ids ->
    exists links rowids rowid,
      TagAdmin.addTagsToError e ids db = (with_links db links rowids rowid, None)
      /\ forall l, In l links <-> In l (error_tags db) \/ (fst l = e /\ In (snd l) ids).
Proof.
  induction ids as [|t ids IH]; intros db He Hids; cbn [TagAdmin.addTagsToError].
  - exists (error_tags db), (error_tag_rowids db), (lastInsertRowid db).
    split; [destruct db; reflexivity|]. intros l. cbn. tauto.
  - inversion Hids as [|? ? Ht Hrest]; subst.
    destruct (insert_link_cases e t db) as [[Hin E] | [(Hn & _ & _ & E) | (_ & Hbad & _)]];
      [| |tauto]; rewrite E.
    + destruct (IH db He Hrest) as (links & rowids & rowid & E' & Hl).
      exists links, rowids, rowid. split; [exact E'|].
      intros [e' t']. rewrite Hl. cbn [fst snd In]. split; [tauto|].
      intros [H | [-> [<- | H]]]; tauto.
    + destruct (IH (add_link db e t)) as (links & rowids & rowid & E' & Hl);
        [exact He | exact Hrest|].
      exists links, rowids, rowid. split; [rewrite E'; reflexivity|].
      intros [e' t']. rewrite Hl. fields. rewrite in_app_iff. cbn [In fst snd].
      split.
      * intros [[H | [H | []]] | [-> H]]; [tauto | injection H as <- <-; tauto | tauto].
      * intros [H | [-> [<- | H]]]; tauto.
Qed.

Lemma add_links_stop (e bad : nat) (rest pre : list nat) :
  forall db,
    has_error db e -> Forall (has_tag db) pre -> ~ has_tag db bad ->
    ~ In (e, bad) (error_tags db) ->
    exists links rowids rowid,
      TagAdmin.addTagsToError e (pre ++ bad :: rest) db
      = (with_links db links rowids rowid, Some SqliteConstraint)
      /\ forall l, In l links <-> In l (error_tags db) \/ (fst l = e /\ In (snd l) pre).
Proof.
  induction pre as [|t pre IH]; intros db He Hpre Hbad Hnone;
    cbn [app TagAdmin.addTagsToError].
  - destruct (insert_link_cases e bad db) as [[Hin _] | [(_ & _ & Ht & _) | (_ & _ & E)]];
      [contradiction | contradiction |].
    rewrite E. exists (error_tags db), (error_tag_rowids db), (lastInsertRowid db).
    split; [destruct db; reflexivity|].
    intros l. cbn. tauto.
  - inversion Hpre as [|? ? Ht Hrest]; subst.
    destruct (insert_link_cases e t db) as [[Hin E] | [(Hn & _ & _ & E) | (_ & Hno & _)]];
      [| |tauto]; rewrite E.
    + destruct (IH db He Hrest Hbad Hnone) as (links & rowids & rowid & E' & Hl).
      exists links, rowids, rowid. split; [exact E'|].
      intros [e' t']. rewrite Hl. cbn [fst snd In]. split; [tauto|].
      intros [H | [-> [<- | H]]]; tauto.
    + destruct (IH (add_link db e t)) as (links & rowids & rowid & E' & Hl);
        [exact He | exact Hrest | exact Hbad | |].
      { fields. rewrite in_app_iff. intros [H | [H | []]]; [contradiction|].
        injection H as ->. contradiction. }
      exists links, rowids, rowid. split; [rewrite E'; reflexivity|].
      intros [e' t']. rewrite Hl. fields. rewrite in_app_iff. cbn [In fst snd].
      split.
      * intros [[H | [H | []]] | [-> H]]; [tauto | injection H as <- <-; tauto | tauto].
      * intros [H | [-> [<- | H]]]; tauto.
Qed.

(** The tags [getTagsByErrorId] returns: the rows of the tag table that are
    linked to the error. *)
Lemma tags_of_error_In (db : Db) (e : nat) (tag : TagRow) :
  In tag (TagService.getTagsByErrorId db e)
  <-> In tag (tag_rows db) /\ In (e, tag_id tag) (error_tags db).
Proof.
  unfold TagService.getTagsByErrorId, tags_of_error.
  now rewrite SortFacts.sort_In, filter_In, has_link_In.
Qed.

(** They depend on the links of that error only. *)
Lemma tags_of_error_same (db db' : Db) (e : nat) :
  tag_rows db' = tag_rows db ->
  (forall t, In (e, t) (error_tags db') <-> In (e, t) (error_tags db)) ->
  TagService.getTagsByErrorId db' e = TagService.getTagsByErrorId db e.
Proof.
  intros Et Hl. unfold TagService.getTagsByErrorId, tags_of_error. rewrite Et. f_equal.
  apply filter_ext. intros tag.
  destruct (has_link db e (tag_id tag)) eqn:E.
  - apply has_link_In. apply Hl. now apply has_link_In.
  - destruct (has_link db' e (tag_id tag)) eqn:E'; [|reflexivity].
    apply has_link_In in E'. apply Hl in E'. apply has_link_In in E'. congruence.
Qed.

End LinkProofs.

(** X16: [setErrorTags] on an error that exists.  When every id is the id of
    a tag, it returns and the error has exactly the given tags, while the tags
    of every other error stay.  When some id is not, it throws at the first
    such id, and the error is left with the tags in front of it only: the
    tags it had before are gone. *)
Theorem X16_setErrorTags_replaces (errorId : nat) (tagIds : list nat) (db : Types.Db) :
  Session.has_error db errorId ->
  (Forall (History.has_tag db) tagIds ->
   exists db',
     TagAdmin.setErrorTags errorId tagIds db = (db', None)
     /\ (forall tag, In tag (TagService.getTagsByErrorId db' errorId)
                     <-> In tag (Types.tag_rows db) /\ In (Types.tag_id tag) tagIds)
     /\ (forall other, other <> errorId ->
           TagService.getTagsByErrorId db' other = TagService.getTagsByErrorId db other))
  /\ (forall pre bad rest,
        tagIds = pre ++ bad :: rest ->
        Forall (History.has_tag db) pre -> ~ History.has_tag db bad ->
        exists db',
          TagAdmin.setErrorTags errorId tagIds db = (db', Some SqliteConstraint)
          /\ (forall tag, In tag (TagService.getTagsByErrorId db' errorId)
                          <-> In tag (Types.tag_rows db) /\ In (Types.tag_id tag) pre)).
Proof.
  intros He.
  set (db0 := Statements.delete_links_of errorId db).
  assert (H0 : forall l, In l (Types.error_tags db0)
                         <-> In l (Types.error_tags db) /\ fst l <> errorId).
  { intros l. unfold db0, Statements.delete_links_of.
    cbn [Sql.with_error_tags Sql.with_links Types.error_tags]. rewrite filter_In.
    destruct (Nat.eqb_spec (fst l) errorId); cbn [negb]; intuition congruence. }
  split.
  - intros Hids.
    assert (Hshape : exists links rowids rowid,
               TagAdmin.setErrorTags errorId tagIds db
               = (Sql.with_links db0 links rowids rowid, None)
               /\ forall l, In l links
                            <-> In l (Types.error_tags db0)
                                \/ (fst l = errorId /\ In (snd l) tagIds)).
    { unfold TagAdmin.setErrorTags. fold db0.
      destruct (0 <? List.length tagIds) eqn:El.
      - apply LinkProofs.add_links_all; [exact He | exact Hids].
      - exists (Types.error_tags db0), (Types.error_tag_rowids db0),
          (Types.lastInsertRowid db0).
        split; [unfold db0; destruct db; reflexivity|].
        destruct tagIds; [|discriminate]. intros l. cbn. tauto. }
    destruct Hshape as (links & rowids & rowid & E & Hl).
    rewrite E. eexists. split; [reflexivity|]. split.
    + intros tag. rewrite LinkProofs.tags_of_error_In.
      cbn [Sql.with_links Types.tag_rows Types.error_tags].
      rewrite Hl, H0. cbn [fst snd]. unfold db0. cbn. tauto.
    + intros other Hne. apply LinkProofs.tags_of_error_same; [reflexivity|].
      intros t. cbn [Sql.with_links Types.error_tags].
      rewrite Hl, H0. cbn [fst snd]. tauto.
  - intros pre bad rest -> Hpre Hbad.
    assert (Hshape : exists links rowids rowid,
               TagAdmin.setErrorTags errorId (pre ++ bad :: rest) db
               = (Sql.with_links db0 links rowids rowid, Some SqliteConstraint)
               /\ forall l, In l links
                            <-> In l (Types.error_tags db0)
                                \/ (fst l = errorId /\ In (snd l) pre)).
    { unfold TagAdmin.setErrorTags. fold db0.
      replace (0 <? List.length (pre ++ bad :: rest)) with true
        by (symmetry; apply Nat.ltb_lt; rewrite length_app; cbn; lia).
      apply LinkProofs.add_links_stop; [exact He | exact Hpre | exact Hbad |].
      rewrite H0. cbn [fst]. tauto. }
    destruct Hshape as (links & rowids & rowid & E & Hl).
    rewrite E. eexists. split; [reflexivity|].
    intros tag. rewrite LinkProofs.tags_of_error_In.
    cbn [Sql.with_links Types.tag_rows Types.error_tags].
    rewrite Hl, H0. cbn [fst snd]. unfold db0. cbn. tauto.
Qed.

Lemma X16_setErrorTags_replaces_witness :
  exists db',
    TagAdmin.setErrorTags 1 [5] Samples.one_error = (db', Some SqliteConstraint)
    /\ (forall tag, In tag (TagService.getTagsByErrorId db' 1)
                    <-> In tag (Types.tag_rows Samples.one_error) /\ In (Types.tag_id tag) []).
Proof.
  assert (He : Session.has_error Samples.one_error 1).
  { exists (History.new_error 1 Samples.duplicate_error Types.empty_db).
    split; [vm_compute; left; reflexivity | reflexivity]. }
  destruct (X16_setErrorTags_replaces [5] He) as [_ H].
  apply (H [] 5 []); [reflexivity | constructor |].
  intros [row [Hin Hid]]. vm_compute in Hin.
  destruct Hin as [<- | []]. discriminate Hid.
Defined.

(* ================================================================= *)
(** ** Deleting an error *)

Module DeleteProofs.
Import Js Types Sql Statements History StoreFacts HistoryProofs Session SessionProofs.

(** Looking for rows that a delete was bound to keep. *)
Lemma find_kept {A} (p keep : A -> bool) (l : list A) :
  (forall x, p x = true -> keep x = true) -> find p (filter keep l) = find p l.
Proof.
  intros H. induction l as [|x l IH]; [reflexivity|].
  cbn [filter find]. destruct (keep x) eqn:Ek; cbn [find].
  - now rewrite IH.
  - destruct (p x) eqn:Ep; [|exact IH]. rewrite (H x Ep) in Ek. discriminate.
Qed.

Lemma filter_kept {A} (p keep : A -> bool) (l : list A) :
  (forall x, p x = true -> keep x = true) -> filter p (filter keep l) = filter p l.
Proof.
  intros H. induction l as [|x l IH]; [reflexivity|].
  cbn [filter]. destruct (keep x) eqn:Ek; cbn [filter].
  - now rewrite IH.
  - destruct (p x) eqn:Ep; [|exact IH]. rewrite (H x Ep) in Ek. discriminate.
Qed.

Lemma filter_nothing {A} (p : A -> bool) (l : list A) :
  (forall x, In x l -> p x = false) -> filter p l = [].
Proof.
  induction l as [|x l IH]; intros H; [reflexivity|].
  cbn [filter]. rewrite (H x) by now left. apply IH. intros y Hy. apply H. now right.
Qed.

Lemma find_nothing {A} (p : A -> bool) (l : list A) :
  (forall x, In x l -> p x = false) -> find p l = None.
Proof.
  induction l as [|x l IH]; intros H; [reflexivity|].
  cbn [find]. rewrite (H x) by now left. apply IH. intros y Hy. apply H. now right.
Qed.

(** An error that no link names has no tags. *)
Lemma no_links_no_tags (db : Db) (e : nat) :
  (forall t, ~ In (e, t) (error_tags db)) -> TagService.getTagsByErrorId db e = [].
Proof.
  intros H. unfold TagService.getTagsByErrorId, tags_of_error.
  rewrite filter_nothing; [reflexivity|].
  intros tag _. destruct (has_link db e (tag_id tag)) eqn:E; [|reflexivity].
  apply has_link_In in E. exfalso. exact (H _ E).
Qed.

Lemma error_exists (db : Db) (i : nat) :
  existsb (fun r => id r =? i) (errors db) = true <-> has_error db i.
Proof.
  rewrite existsb_exists. unfold has_error. split; intros [r [Hin H]]; exists r.
  - split; [assumption | now apply Nat.eqb_eq].
  - split; [assumption | now apply Nat.eqb_eq].
Qed.

(** What is left of an error after [deleteError]. *)
Lemma deleted_is_gone (i : nat) (db : Db) :
  sound db ->
  let db' := snd (ErrorAdmin.deleteError i db) in
  error_by_id db' i = None
  /\ filter (fun r => sol_error_id r =? i) (solutions db') = []
  /\ find (fun r => emb_error_id r =? i) (embeddings db') = None
  /\ (forall t, ~ In (i, t) (error_tags db')).
Proof.
  intros Hs. cbv zeta. unfold ErrorAdmin.deleteError, delete_error.
  destruct (existsb (fun r => id r =? i) (errors db)) eqn:Ex; cbn [snd].
  - unfold error_by_id. fields. repeat split.
    + apply find_nothing. intros x Hx. apply filter_In in Hx as [_ Hx].
      now apply negb_true_iff.
    + apply filter_nothing. intros x Hx. apply filter_In in Hx as [_ Hx].
      now apply negb_true_iff.
    + apply find_nothing. intros x Hx. apply filter_In in Hx as [_ Hx].
      now apply negb_true_iff.
    + intros t Hin. apply filter_In in Hin as [_ Hin]. cbn [fst] in Hin.
      rewrite Nat.eqb_refl in Hin. discriminate.
  - assert (Hno : ~ has_error db i).
    { intros H. apply error_exists in H. congruence. }
    destruct (s_refs Hs) as [_ R2 R3 R4]. rewrite Forall_forall in R2, R3, R4.
    repeat split.
    + destruct (error_by_id db i) eqn:E; [|reflexivity].
      exfalso. apply Hno. apply has_error_find. congruence.
    + apply filter_nothing. intros x Hx. destruct (Nat.eqb_spec (sol_error_id x) i) as [E|];
        [|reflexivity].
      exfalso. apply Hno. rewrite <- E. now apply R3.
    + apply find_nothing. intros x Hx. destruct (Nat.eqb_spec (emb_error_id x) i) as [E|];
        [|reflexivity].
      exfalso. apply Hno. rewrite <- E. now apply R4.
    + intros t Hin. apply Hno. exact (proj1 (R2 _ Hin)).
Qed.

(** What [deleteError] leaves as it was. *)
Lemma others_stay (i j : nat) (db : Db) :
  j <> i ->
  let db' := snd (ErrorAdmin.deleteError i db) in
  error_by_id db' j = error_by_id db j
  /\ filter (fun r => sol_error_id r =? j) (solutions db')
     = filter (fun r => sol_error_id r =? j) (solutions db)
  /\ find (fun r => emb_error_id r =? j) (embeddings db')
     = find (fun r => emb_error_id r =? j) (embeddings db)
  /\ (forall t, In (j, t) (error_tags db') <-> In (j, t) (error_tags db))
  /\ tag_rows db' = tag_rows db.
Proof.
  intros Hne. cbv zeta. unfold ErrorAdmin.deleteError, delete_error.
  destruct (existsb (fun r => id r =? i) (errors db)); cbn [snd];
    [|repeat split; tauto].
  unfold error_by_id. fields.
  assert (Hk : forall x : nat, (x =? j) = true -> negb (x =? i) = true).
  { intros x Hx. apply Nat.eqb_eq in Hx. subst x. apply negb_true_iff.
    now apply Nat.eqb_neq. }
  repeat split.
  - apply find_kept. intros x. apply Hk.
  - apply filter_kept. intros x. apply Hk.
  - apply find_kept. intros x. apply Hk.
  - intros H. now apply filter_In in H.
  - intros H. apply filter_In. split; [assumption|]. cbn [fst]. apply Hk, Nat.eqb_refl.
Qed.

End DeleteProofs.

(** X17: [deleteError] in a database reached by a session.  It answers
    whether the error was there.  Afterwards the error is not found, it has
    no solutions, no embedding and no tags (the delete cascades), while every
    other error keeps its record, its tags, its solutions and its embedding,
    and the tag table is as it was. *)
Theorem X17_deleteError_cascades (calls : list Session.Call) (errorId : nat) :
  let db := Session.run calls Types.empty_db in
  let deleted := fst (ErrorAdmin.deleteError errorId db) in
  let db' := snd (ErrorAdmin.deleteError errorId db) in
  (deleted = true <-> ErrorService.getErrorById db errorId <> None)
  /\ ErrorService.getErrorById db' errorId = None
  /\ SolutionService.getSolutionsForError db' errorId = []
  /\ EmbeddingAdmin.getEmbeddingByErrorId db' errorId = None
  /\ TagService.getTagsByErrorId db' errorId = []
  /\ (forall other, other <> errorId ->
        ErrorService.getErrorById db' other = ErrorService.getErrorById db other
        /\ SolutionService.getSolutionsForError db' other
           = SolutionService.getSolutionsForError db other
        /\ EmbeddingAdmin.getEmbeddingByErrorId db' other
           = EmbeddingAdmin.getEmbeddingByErrorId db other)
  /\ Types.tag_rows db' = Types.tag_rows db.
Proof.
  cbv zeta. pose proof (SessionProofs.reachable_sound calls) as Hs.
  set (db := Session.run calls Types.empty_db) in *.
  destruct (DeleteProofs.deleted_is_gone errorId Hs) as (G1 & G2 & G3 & G4).
  cbv zeta in *. set (db' := snd (ErrorAdmin.deleteError errorId db)) in *.
  split.
  { unfold ErrorAdmin.deleteError, Statements.delete_error, ErrorService.getErrorById.
    destruct (existsb (fun r => Types.id r =? errorId) (Types.errors db)) eqn:Ex; cbn [fst].
    - apply DeleteProofs.error_exists in Ex. pose proof Ex as Ex'.
      apply SessionProofs.has_error_find in Ex'.
      split.
      + intros _. destruct (Sql.error_by_id db errorId); [discriminate | congruence].
      + intros _. apply Nat.ltb_lt.
        destruct Ex as [row [Hin Hid]].
        assert (Hf : In row (filter (fun r => Types.id r =? errorId) (Types.errors db))).
        { apply filter_In. split; [assumption | now apply Nat.eqb_eq]. }
        cbn [fst].
        destruct (filter (fun r => Types.id r =? errorId) (Types.errors db));
          [contradiction | cbn; lia].
    - split; [discriminate|]. intros H. exfalso. apply H.
      destruct (Sql.error_by_id db errorId) eqn:E; [|reflexivity].
      assert (Hh : Session.has_error db errorId)
        by (apply SessionProofs.has_error_find; congruence).
      apply DeleteProofs.error_exists in Hh. congruence. }
  split; [unfold ErrorService.getErrorById; now rewrite G1|].
  split.
  { unfold SolutionService.getSolutionsForError, Sql.solutions_of_error. now rewrite G2. }
  split; [exact G3|].
  split; [now apply DeleteProofs.no_links_no_tags|].
  split.
  - intros other Hne.
    destruct (DeleteProofs.others_stay db Hne) as (K1 & K2 & K3 & K4 & K5).
    cbv zeta in *. fold db' in K1, K2, K3, K4, K5.
    split; [|split].
    + unfold ErrorService.getErrorById. rewrite K1.
      destruct (Sql.error_by_id db other) as [row|] eqn:E; [|reflexivity].
      cbn [option_map]. f_equal. unfold ErrorService.with_tags_of. f_equal. f_equal.
      unfold Sql.error_by_id in E. apply find_some in E as [_ E].
      apply Nat.eqb_eq in E. rewrite E.
      now apply LinkProofs.tags_of_error_same.
    + unfold SolutionService.getSolutionsForError, Sql.solutions_of_error. now rewrite K2.
    + exact K3.
  - destruct (Nat.eq_dec (S errorId) errorId) as [E|Hne]; [lia|].
    exact (proj2 (proj2 (proj2 (proj2 (DeleteProofs.others_stay db Hne))))).
Qed.

(* ================================================================= *)
(** ** Recording an error, and finding it again *)

Module ReportProofs.
Import Js Types Sql Statements History StoreFacts HistoryProofs Session SessionProofs.

Lemma getOrCreateTags_rows (names : list str) (c : option TagCategory) :
  forall db tags db',
    TagService.getOrCreateTags names c db = Ok (tags, db') ->
    Forall (fun t => In t (tag_rows db')) tags.
Proof.
  induction names as [|n names IH]; intros db tags db' H;
    cbn [TagService.getOrCreateTags] in H.
  - injection H as <- <-. constructor.
  - destruct (List.length (trim (toLowerCase n)) =? 0); [exact (IH _ _ _ H)|].
    destruct (TagProofs.tag_for_name c db (normal_name n))
      as (tag & db1 & E1 & _ & _ & Hfind).
    rewrite E1 in H. cbn [bind fst snd] in H.
    destruct (getOrCreateTags_ok names c db1) as (rest & db2 & E2 & _ & _ & [ex Hex] & _).
    rewrite E2 in H. cbn [bind fst snd] in H. injection H as <- <-.
    constructor; [|exact (IH _ _ _ E2)].
    rewrite Hex. apply in_or_app. left.
    unfold tag_by_name in Hfind. now apply find_some in Hfind.
Qed.

(** The three steps of [recordError] on a fingerprint it has not seen: the
    insert, the tags, the links. *)
Lemma recordError_steps (now : nat) (input : ErrorInput) (db : Db) :
  error_by_hash db (ErrorService.fingerprint input) = None ->
  let i := S (errors_seq db) in
  let db1 := with_errors db (errors db ++ [new_error now input db]) i i in
  let allTags :=
    Similarity.mkSet
      (Similarity.default (in_tags input) []
       ++ ErrorHash.extractTags (in_message input)
            (str_or (in_errorType input)
               (ErrorHash.extractErrorType (in_message input) ErrorHash.unknown))) in
  exists tags db2 db3,
    ErrorService.recordError now input db = Ok (i, db3)
    /\ TagService.getOrCreateTags allTags None db1 = Ok (tags, db2)
    /\ TagService.addTagsToError i (map tag_id tags) db2 = Ok db3.
Proof.
  intros E. cbv zeta. unfold ErrorService.recordError.
  change (ErrorHash.generateErrorHash _ _) with (ErrorService.fingerprint input).
  rewrite E. unfold insert_error. rewrite E. cbn [bind fst snd].
  fold (new_error now input db).
  set (db1 := with_errors db (errors db ++ [new_error now input db])
                (S (errors_seq db)) (S (errors_seq db))).
  set (allTags := Similarity.mkSet _).
  destruct (getOrCreateTags_ok allTags None db1)
    as (tags & db2 & Et & Hf2 & _ & _ & Htags).
  assert (He2 : error_by_id db2 (S (errors_seq db)) <> None).
  { unfold error_by_id. rewrite (fr_errors Hf2). unfold db1. fields.
    intros Hnone.
    assert (Hin : In (new_error now input db) (errors db ++ [new_error now input db]))
      by (apply in_or_app; right; now left).
    apply (find_none _ _ Hnone) in Hin. cbn in Hin.
    rewrite Nat.eqb_refl in Hin. discriminate. }
  destruct (@addTagsToError_ok (S (errors_seq db)) (map tag_id tags) db2 He2)
    as (db3 & Ea & _ & _); [apply Forall_map; exact Htags|].
  destruct (0 <? List.length allTags) eqn:El.
  - exists tags, db2, db3. rewrite Et. cbn [bind fst snd]. rewrite Ea. cbn [bind].
    repeat split; assumption.
  - destruct allTags; [|discriminate El].
    cbn [TagService.getOrCreateTags] in Et. injection Et as <- <-.
    cbn [map TagService.addTagsToError] in Ea. injection Ea as <-.
    exists [], db1, db1. repeat split; reflexivity.
Qed.


Lemma find_app_miss {A} (p : A -> bool) (l : list A) (x : A) :
  p x = false -> find p (l ++ [x]) = find p l.
Proof.
  intros Hx. induction l as [|y l IH]; cbn [find app].
  - now rewrite Hx.
  - destruct (p y); [reflexivity | exact IH].
Qed.

Lemma same_key {A K} (key : A -> K) (l : list A) (x y : A) :
  NoDup (map key l) -> In x l -> In y l -> key x = key y -> x = y.
Proof.
  intros Hnd Hx Hy E. induction l as [|z l IH]; [contradiction|].
  cbn [map] in Hnd. inversion Hnd as [|? ? Hz Hnd']; subst.
  destruct Hx as [-> | Hx], Hy as [-> | Hy]; [reflexivity | | | now apply IH].
  - exfalso. apply Hz. rewrite E. now apply in_map.
  - exfalso. apply Hz. rewrite <- E. now apply in_map.
Qed.

(** The tags of an error do not change when tags are added to the table and
    links to other errors. *)
Lemma tags_of_error_grow (db db' : Db) (e : nat) (extra : list TagRow) :
  tag_rows db' = tag_rows db ++ extra ->
  NoDup (map tag_id (tag_rows db')) ->
  (forall t, In (e, t) (error_tags db') <-> In (e, t) (error_tags db)) ->
  (forall t, In (e, t) (error_tags db) -> has_tag db t) ->
  TagService.getTagsByErrorId db' e = TagService.getTagsByErrorId db e.
Proof.
  intros Et Hnd Hl Hold. unfold TagService.getTagsByErrorId, tags_of_error.
  rewrite Et, filter_app. rewrite (@DeleteProofs.filter_nothing _ _ extra).
  - rewrite app_nil_r. f_equal. apply filter_ext. intros tag.
    destruct (has_link db e (tag_id tag)) eqn:E.
    + apply has_link_In. apply Hl. now apply has_link_In.
    + destruct (has_link db' e (tag_id tag)) eqn:E'; [|reflexivity].
      apply has_link_In in E'. apply Hl in E'. apply has_link_In in E'. congruence.
  - intros tag Hin. destruct (has_link db' e (tag_id tag)) eqn:E; [|reflexivity].
    exfalso. apply has_link_In in E. apply Hl in E. apply Hold in E.
    destruct E as [row [Hrow Hid]].
    assert (Hsame : row = tag).
    { apply (@same_key _ _ tag_id (tag_rows db')); [assumption | | | assumption];
        rewrite Et; apply in_or_app; [now left | now right]. }
    subst row. rewrite Et, map_app in Hnd. clear - Hnd Hrow Hin.
    induction (tag_rows db) as [|x l IH]; [contradiction|].
    cbn [map app] in Hnd. inversion Hnd as [|? ? Hx Hnd']; subst.
    destruct Hrow as [-> | Hrow]; [|now apply IH].
    apply Hx. rewrite in_app_iff. right. now apply in_map.
Qed.

(** What [recordError] leaves behind for a fingerprint it has not seen. *)
Lemma recordError_fresh (now : nat) (input : ErrorInput) (db : Db) :
  sound db ->
  error_by_hash db (ErrorService.fingerprint input) = None ->
  exists db',
    ErrorService.recordError now input db = Ok (S (errors_seq db), db')
    /\ sound db'
    /\ errors db' = errors db ++ [new_error now input db]
    /\ (exists extra, tag_rows db' = tag_rows db ++ extra)
    /\ (forall l, In l (error_tags db')
                  <-> In l (error_tags db)
                      \/ (fst l = S (errors_seq db)
                          /\ exists tag, In tag (tag_rows db') /\ tag_id tag = snd l
                                         /\ In (name tag) (Counting.wanted_tags input)))
    /\ (forall n, In n (Counting.wanted_tags input) ->
                  exists tag, In tag (tag_rows db') /\ name tag = n).
Proof.
  intros Hs E.
  destruct (recordError_steps now input db E) as (tags & db2 & db3 & Er & Et & Ea).
  cbv zeta in *.
  set (i := S (errors_seq db)) in *.
  set (db1 := with_errors db (errors db ++ [new_error now input db]) i i) in *.
  set (allTags := Similarity.mkSet _) in *.
  pose proof (@recordError_sound now input db _ Hs Er) as Hs3. cbn [snd] in Hs3.
  destruct (recordError_new now input db E) as (db3' & Er' & Ee & _).
  rewrite Er in Er'. injection Er' as <-.
  destruct (TagProofs.getOrCreateTags_names allTags None db1)
    as (tags' & db2' & Et' & Hnames & [extra Hex] & _).
  rewrite Et in Et'. injection Et' as <- <-.
  pose proof (getOrCreateTags_rows _ _ _ Et) as Hrows.
  destruct (getOrCreateTags_ok allTags None db1) as (tags' & db2' & Et' & Hf2 & Hl2 & _ & Htags).
  rewrite Et in Et'. injection Et' as <- <-.
  assert (He2 : has_error db2 i).
  { exists (new_error now input db). split; [|reflexivity].
    rewrite (fr_errors Hf2). unfold db1. fields. apply in_or_app. right. now left. }
  destruct (@LinkProofs.add_links_all i (map tag_id tags) db2 He2)
    as (links & rowids & rowid & Eadd & Hlinks);
    [apply Forall_map; exact Htags|].
  apply addTagsToError_agree in Ea. rewrite Ea in Eadd. injection Eadd as ->.
  exists (with_links db2 links rowids rowid). split; [exact Er|]. split; [exact Hs3|].
  split; [exact Ee|]. split; [exists extra; exact Hex|].
  split.
  2:{ intros n Hn. unfold Counting.wanted_tags in Hn. fold allTags in Hn.
      rewrite <- Hnames in Hn. apply in_map_iff in Hn as [tag [Hn Hin]].
      exists tag. rewrite Forall_forall in Hrows. split; [now apply Hrows | exact Hn]. }
  intros l. rewrite Hlinks. fields. rewrite Hl2. unfold db1 at 1. fields.
  split; (intros [H | [Hi H]]; [now left | right; split; [exact Hi|]]).
  - apply in_map_iff in H as [tag [Hid Hin]]. exists tag.
    rewrite Forall_forall in Hrows. split; [now apply Hrows|]. split; [exact Hid|].
    unfold Counting.wanted_tags. fold allTags. rewrite <- Hnames. now apply in_map.
  - destruct H as (tag & Hin & Hid & Hname).
    unfold Counting.wanted_tags in Hname. fold allTags in Hname. rewrite <- Hnames in Hname.
    apply in_map_iff in Hname as [tag' [Hn Hin']].
    rewrite Forall_forall in Hrows. pose proof (Hrows _ Hin') as Hrow'.
    assert (tag' = tag).
    { pose proof (ts_names_nodup (s_tags Hs3)) as Hnd. fields.
      exact (@same_key _ _ name _ _ _ Hnd Hrow' Hin Hn). }
    subst tag'. rewrite <- Hid. now apply in_map.
Qed.


Lemma fresh_id (db : Db) : wf db -> error_by_id db (S (errors_seq db)) = None.
Proof.
  intros W. apply DeleteProofs.find_nothing. intros r Hin.
  pose proof (wf_error_ids W) as Hids. rewrite Forall_forall in Hids.
  specialize (Hids r Hin). apply Nat.eqb_neq. lia.
Qed.

End ReportProofs.

(** X18: [recordError] on a fingerprint the store does not hold, in a
    database reached by a session.  It returns an id that was not in use.
    [getErrorById] on that id and [getErrorByHash] on the fingerprint then
    return the row built from the input, with count 1 and both time stamps
    set to now, and as its tags exactly the trimmed lower-case spellings of
    the given and the extracted tags that are not empty.  Every other error
    reads as before. *)
Theorem X18_recordError_stores_a_new_error
        (calls : list Session.Call) (now : nat) (input : Types.ErrorInput) :
  let db := Session.run calls Types.empty_db in
  let i := S (Types.errors_seq db) in
  ErrorService.getErrorByHash db (ErrorService.fingerprint input) = None ->
  exists db' tags,
    ErrorService.recordError now input db = Ok (i, db')
    /\ ErrorService.getErrorById db i = None
    /\ ErrorService.getErrorById db' i
       = Some {| Types.error := History.new_error now input db; Types.tags := tags |}
    /\ ErrorService.getErrorByHash db' (ErrorService.fingerprint input)
       = ErrorService.getErrorById db' i
    /\ (forall n, In n tags <-> In n (Counting.wanted_tags input))
    /\ (forall other, other <> i ->
          ErrorService.getErrorById db' other = ErrorService.getErrorById db other).
Proof.
  cbv zeta. pose proof (SessionProofs.reachable_sound calls) as Hs.
  set (db := Session.run calls Types.empty_db) in *. intros Hnone.
  assert (E : Sql.error_by_hash db (ErrorService.fingerprint input) = None).
  { unfold ErrorService.getErrorByHash in Hnone.
    destruct (Sql.error_by_hash db _); [discriminate | reflexivity]. }
  destruct (ReportProofs.recordError_fresh now input Hs E)
    as (db' & Er & Hs' & Ee & [extra Hex] & Hlinks & Hwanted).
  pose proof (ReportProofs.fresh_id (Session.s_wf Hs)) as Hfresh.
  assert (Eid : Sql.error_by_id db' (S (Types.errors_seq db))
                = Some (History.new_error now input db)).
  { unfold Sql.error_by_id in *. rewrite Ee.
    apply TagProofs.find_app_last; [exact Hfresh | cbn; apply Nat.eqb_refl]. }
  assert (Eh : Sql.error_by_hash db' (ErrorService.fingerprint input)
               = Some (History.new_error now input db)).
  { unfold Sql.error_by_hash in *. rewrite Ee.
    apply TagProofs.find_app_last; [exact E | cbn; apply StoreFacts.eqb_refl]. }
  exists db', (map Types.name (TagService.getTagsByErrorId db' (S (Types.errors_seq db)))).
  split; [exact Er|].
  split; [unfold ErrorService.getErrorById; now rewrite Hfresh|].
  split; [unfold ErrorService.getErrorById; now rewrite Eid|].
  split; [unfold ErrorService.getErrorByHash, ErrorService.getErrorById; now rewrite Eid, Eh|].
  assert (Hold : forall e t, In (e, t) (Types.error_tags db) ->
                             e <> S (Types.errors_seq db) /\ History.has_tag db t).
  { intros e t Hin. pose proof (Session.rs_links (Session.s_refs Hs)) as Hl.
    rewrite Forall_forall in Hl. destruct (Hl _ Hin) as [He Ht]. cbn [fst snd] in *.
    split; [|exact Ht]. intros ->. apply SessionProofs.has_error_find in He.
    now apply He. }
  split.
  - intros n. rewrite in_map_iff. split.
    + intros [tag [<- Hin]]. apply LinkProofs.tags_of_error_In in Hin as [Hrow Hl].
      apply Hlinks in Hl as [Hl | [_ (tag' & Hrow' & Hid & Hw)]].
      * apply Hold in Hl as [Hl _]. now contradiction Hl.
      * cbn [snd] in Hid.
        assert (tag' = tag).
        { exact (@ReportProofs.same_key _ _ Types.tag_id _ _ _
                   (Session.ts_ids_nodup (Session.s_tags Hs')) Hrow' Hrow Hid). }
        now subst tag'.
    + intros Hn. destruct (Hwanted n Hn) as [tag [Hrow Hname]].
      exists tag. split; [exact Hname|]. apply LinkProofs.tags_of_error_In.
      split; [exact Hrow|]. apply Hlinks. right. split; [reflexivity|]. cbn [snd].
      exists tag. subst n. repeat split; assumption.
  - intros other Hother. unfold ErrorService.getErrorById.
    assert (Eo : Sql.error_by_id db' other = Sql.error_by_id db other).
    { unfold Sql.error_by_id. rewrite Ee. apply ReportProofs.find_app_miss.
      cbn [History.new_error Types.id]. apply Nat.eqb_neq. congruence. }
    rewrite Eo. destruct (Sql.error_by_id db other) as [row|] eqn:Erow; [|reflexivity].
    cbn [option_map]. unfold ErrorService.with_tags_of. do 2 f_equal.
    apply find_some in Erow as [_ Hid]. apply Nat.eqb_eq in Hid. rewrite Hid.
    f_equal. apply (@ReportProofs.tags_of_error_grow db db' other extra Hex).
    + exact (Session.ts_ids_nodup (Session.s_tags Hs')).
    + intros t. rewrite Hlinks. cbn [fst]. split; [|tauto].
      intros [H | [H _]]; [exact H | congruence].
    + intros t Hin. now apply Hold in Hin.
Qed.

(** X18 on the empty store. *)
Lemma X18_recordError_stores_a_new_error_witness :
  ErrorService.getErrorByHash (Session.run [] Types.empty_db)
    (ErrorService.fingerprint Samples.duplicate_error) = None
  /\ exists db' tags,
       ErrorService.recordError 1 Samples.duplicate_error (Session.run [] Types.empty_db)
       = Ok (1, db')
       /\ ErrorService.getErrorById (Session.run [] Types.empty_db) 1 = None
       /\ ErrorService.getErrorById db' 1
          = Some {| Types.error
                    := History.new_error 1 Samples.duplicate_error
                         (Session.run [] Types.empty_db);
                    Types.tags := tags |}
       /\ ErrorService.getErrorByHash db' (ErrorService.fingerprint Samples.duplicate_error)
          = ErrorService.getErrorById db' 1
       /\ (forall n, In n tags <-> In n (Counting.wanted_tags Samples.duplicate_error))
       /\ (forall other, other <> 1 ->
             ErrorService.getErrorById db' other
             = ErrorService.getErrorById (Session.run [] Types.empty_db) other).
Proof.
  split; [reflexivity|].
  exact (X18_recordError_stores_a_new_error [] 1 Samples.duplicate_error eq_refl).
Defined.

(** X19: [recordError] on a fingerprint the store holds, in a database
    reached by a session.  It returns the id of the stored error and changes
    that row only: its count goes up by one and its last sighting becomes
    now, while its message, type, severity, stack trace, path, project and
    first sighting stay those of the first report, whatever the new input
    carries.  No tag is created or linked, and the solutions and embeddings
    stay. *)
Theorem X19_recordError_repeat_keeps_first_report
        (calls : list Session.Call) (now : nat) (input : Types.ErrorInput)
        (existing : Types.ErrorWithTags) :
  let db := Session.run calls Types.empty_db in
  let i := Types.id (Types.error existing) in
  ErrorService.getErrorByHash db (ErrorService.fingerprint input) = Some existing ->
  exists db',
    ErrorService.recordError now input db = Ok (i, db')
    /\ ErrorService.getErrorById db' i
       = Some {| Types.error := Sql.seen_again now (Types.error existing);
                 Types.tags := Types.tags existing |}
    /\ ErrorService.getErrorByHash db' (ErrorService.fingerprint input)
       = ErrorService.getErrorById db' i
    /\ (forall other, other <> i ->
          ErrorService.getErrorById db' other = ErrorService.getErrorById db other)
    /\ Types.tag_rows db' = Types.tag_rows db
    /\ Types.error_tags db' = Types.error_tags db
    /\ Types.solutions db' = Types.solutions db
    /\ Types.embeddings db' = Types.embeddings db.
Proof.
  cbv zeta. pose proof (SessionProofs.reachable_sound calls) as Hs.
  set (db := Session.run calls Types.empty_db) in *. intros Hsome.
  unfold ErrorService.getErrorByHash in Hsome.
  destruct (Sql.error_by_hash db (ErrorService.fingerprint input)) as [row|] eqn:E;
    [|discriminate].
  cbn [option_map] in Hsome. injection Hsome as <-.
  cbn [ErrorService.with_tags_of Types.error Types.tags].
  exists (Sql.update_error_seen now (Types.id row) db).
  split; [exact (HistoryProofs.recordError_seen now input db E)|].
  assert (Eid : ErrorService.getErrorById (Sql.update_error_seen now (Types.id row) db)
                  (Types.id row)
                = Some {| Types.error := Sql.seen_again now row;
                          Types.tags
                          := map Types.name (TagService.getTagsByErrorId db (Types.id row)) |}).
  { unfold ErrorService.getErrorById. rewrite RecordErrorProofs.by_id_after_update.
    rewrite (@RecordErrorProofs.by_hash_id _ _ _ (Session.s_wf Hs) E).
    cbn [option_map]. rewrite Nat.eqb_refl. reflexivity. }
  split; [exact Eid|].
  split.
  { rewrite Eid. unfold ErrorService.getErrorByHash.
    rewrite RecordErrorProofs.by_hash_after_update, E. cbn [option_map].
    rewrite Nat.eqb_refl. reflexivity. }
  split; [|repeat split; reflexivity].
  intros other Hother. unfold ErrorService.getErrorById.
  rewrite RecordErrorProofs.by_id_after_update.
  destruct (Sql.error_by_id db other) as [r|] eqn:Er; [|reflexivity].
  cbn [option_map]. apply find_some in Er as [_ Hid]. apply Nat.eqb_eq in Hid.
  destruct (Nat.eqb_spec (Types.id r) (Types.id row)) as [Heq|_]; [congruence|].
  reflexivity.
Qed.

(** X19 on the store that holds one report, at a second report of it. *)
Lemma X19_recordError_repeat_keeps_first_report_witness :
  let db := Session.run [Session.Service (History.RecordError 1 Samples.duplicate_error)]
              Types.empty_db in
  let existing := ErrorService.with_tags_of db
                    (History.new_error 1 Samples.duplicate_error Types.empty_db) in
  ErrorService.getErrorByHash db (ErrorService.fingerprint Samples.duplicate_error)
  = Some existing
  /\ exists db',
       ErrorService.recordError 2 Samples.duplicate_error db = Ok (1, db')
       /\ ErrorService.getErrorById db' 1
          = Some {| Types.error := Sql.seen_again 2 (Types.error existing);
                    Types.tags := Types.tags existing |}
       /\ ErrorService.getErrorByHash db' (ErrorService.fingerprint Samples.duplicate_error)
          = ErrorService.getErrorById db' 1
       /\ (forall other, other <> 1 ->
             ErrorService.getErrorById db' other = ErrorService.getErrorById db other)
       /\ Types.tag_rows db' = Types.tag_rows db
       /\ Types.error_tags db' = Types.error_tags db
       /\ Types.solutions db' = Types.solutions db
       /\ Types.embeddings db' = Types.embeddings db.
Proof.
  cbv zeta.
  assert (H : ErrorService.getErrorByHash
                (Session.run [Session.Service (History.RecordError 1 Samples.duplicate_error)]
                   Types.empty_db)
                (ErrorService.fingerprint Samples.duplicate_error)
              = Some (ErrorService.with_tags_of
                        (Session.run
                           [Session.Service (History.RecordError 1 Samples.duplicate_error)]
                           Types.empty_db)
                        (History.new_error 1 Samples.duplicate_error Types.empty_db)))
    by (vm_compute; reflexivity).
  split; [exact H|].
  exact (X19_recordError_repeat_keeps_first_report
           [Session.Service (History.RecordError 1 Samples.duplicate_error)] 2
           Samples.duplicate_error H).
Defined.

(* ================================================================= *)
(** ** Counting reports *)

Module CountProofs.
Import Js Types Sql History StoreFacts HistoryProofs Counting.

(** The three other calls do not write to [errors]. *)
Lemma step_keeps_errors (db : Db) (op : Op) :
  match op with RecordError _ _ => True | _ => errors (step db op) = errors db end.
Proof.
  destruct op as [now input|now input|i success|heap e v m]; [exact I| | |]; cbn [step].
  - unfold SolutionService.recordSolution, insert_solution.
    destruct (error_by_id db (si_errorId input)); reflexivity.
  - unfold SolutionService.recordSolutionOutcome, update_solution_count.
    destruct (_ =? 0); reflexivity.
  - unfold EmbeddingService.storeEmbedding.
    destruct (error_by_id db e) eqn:E; [|reflexivity].
    destruct (Similarity.floatArrayToBuffer heap v) as [buf|x]; [|reflexivity].
    cbn [bind]. unfold upsert_embedding. rewrite E.
    destruct (existsb _ _); reflexivity.
Qed.

Lemma total_app (l l' : list ErrorRow) :
  fold_right Nat.add 0 (map occurrence_count (l ++ l'))
  = fold_right Nat.add 0 (map occurrence_count l)
    + fold_right Nat.add 0 (map occurrence_count l').
Proof. induction l as [|x l IH]; cbn [app map fold_right]; [reflexivity | lia]. Qed.

(** The update of [recordError] adds one to the sum of the counts. *)
Lemma total_bump (now : nat) (l : list ErrorRow) (r : ErrorRow) :
  NoDup (map id l) -> In r l ->
  fold_right Nat.add 0
    (map occurrence_count (map (fun x => if id x =? id r then seen_again now x else x) l))
  = S (fold_right Nat.add 0 (map occurrence_count l)).
Proof.
  induction l as [|x l IH]; intros Hnd Hin; [contradiction|].
  cbn [map] in Hnd. inversion Hnd as [|? ? Hx Hnd']; subst.
  cbn [map fold_right]. destruct Hin as [-> | Hin].
  - rewrite Nat.eqb_refl. cbn [seen_again occurrence_count].
    rewrite (map_ext_in _ (fun x => x)), map_id; [lia|].
    intros y Hy. destruct (Nat.eqb_spec (id y) (id r)) as [E|_]; [|reflexivity].
    exfalso. apply Hx. rewrite <- E. now apply in_map.
  - destruct (Nat.eqb_spec (id x) (id r)) as [E|_].
    + exfalso. apply Hx. rewrite E. now apply in_map.
    + rewrite (IH Hnd' Hin). lia.
Qed.

Lemma has_hash (db : Db) (h : str) :
  existsb (Js.eqb h) (map hash (errors db)) = true <-> error_by_hash db h <> None.
Proof.
  unfold error_by_hash. rewrite existsb_exists. split.
  - intros [x [Hin Hx]]. apply in_map_iff in Hin as [r [<- Hin]].
    apply eqb_eq in Hx. subst h. intros Hnone.
    apply (find_none _ _ Hnone) in Hin. now rewrite eqb_refl in Hin.
  - intros H. destruct (find _ (errors db)) as [r|] eqn:E; [|contradiction].
    apply find_some in E as [Hin Hh]. apply eqb_eq in Hh.
    exists h. split; [rewrite <- Hh; now apply in_map | apply eqb_refl].
Qed.

(** What one [recordError] does to the fingerprints, the counts and their sum. *)
Lemma record_counts (now : nat) (input : ErrorInput) (db : Db) :
  wf db ->
  let fp := ErrorService.fingerprint input in
  let db' := step db (RecordError now input) in
  map hash (errors db')
  = (if existsb (Js.eqb fp) (map hash (errors db))
     then map hash (errors db) else map hash (errors db) ++ [fp])
  /\ (forall h, ErrorService.sightings db' h
                = ErrorService.sightings db h + if Js.eqb fp h then 1 else 0)
  /\ total_occurrences db' = S (total_occurrences db).
Proof.
  intros W. cbv zeta. cbn [step]. unfold total_occurrences, ErrorService.sightings.
  destruct (error_by_hash db (ErrorService.fingerprint input)) as [existing|] eqn:E.
  - rewrite (recordError_seen now input db E). cbn [snd].
    assert (Hx : existsb (Js.eqb (ErrorService.fingerprint input)) (map hash (errors db)) = true)
      by (apply has_hash; congruence).
    rewrite Hx. pose proof (find_some _ _ E) as [Hin Hh]. apply eqb_eq in Hh.
    split; [|split].
    + unfold update_error_seen. cbn [errors with_errors].
      apply map_update_key. intros r. destruct (id r =? id existing); reflexivity.
    + intros h. rewrite RecordErrorProofs.by_hash_after_update.
      destruct (error_by_hash db h) as [r|] eqn:Er; cbn [option_map].
      * pose proof (find_some _ _ Er) as [Hr Hrh]. apply eqb_eq in Hrh.
        destruct (Nat.eqb_spec (id r) (id existing)) as [Eid|Nid].
        -- assert (r = existing)
             by exact (@ReportProofs.same_key _ _ id _ _ _ (wf_error_ids_nodup W) Hr Hin Eid).
           subst r. rewrite <- Hh, Hrh, eqb_refl. reflexivity.
        -- destruct (Js.eqb (ErrorService.fingerprint input) h) eqn:Eh; [|lia].
           apply eqb_eq in Eh. rewrite Eh in E. congruence.
      * destruct (Js.eqb (ErrorService.fingerprint input) h) eqn:Eh; [|reflexivity].
        apply eqb_eq in Eh. rewrite Eh in E. congruence.
    + unfold update_error_seen. cbn [errors with_errors].
      exact (@total_bump now _ _ (wf_error_ids_nodup W) Hin).
  - destruct (recordError_new now input db E) as (db' & -> & Ee & _). cbn [snd].
    assert (Hx : existsb (Js.eqb (ErrorService.fingerprint input)) (map hash (errors db))
                 = false).
    { destruct (existsb _ _) eqn:Ex; [|reflexivity]. apply has_hash in Ex. contradiction. }
    rewrite Hx, Ee. split; [|split].
    + rewrite map_app. reflexivity.
    + intros h. unfold error_by_hash in *. rewrite Ee.
      destruct (find (fun r => Js.eqb (hash r) h) (errors db)) as [r|] eqn:Er.
      * rewrite (TagProofs.find_app_first _ _ [new_error now input db] Er).
        destruct (Js.eqb (ErrorService.fingerprint input) h) eqn:Eh; [|lia].
        apply eqb_eq in Eh. rewrite Eh in E. congruence.
      * rewrite (RecordErrorProofs.find_app_none _ _ [new_error now input db] Er).
        cbn [find new_error hash].
        destruct (Js.eqb (ErrorService.fingerprint input) h); reflexivity.
    + rewrite total_app. cbn. lia.
Qed.

Lemma has_rev (x : str) (l : list str) :
  existsb (Js.eqb x) (rev l) = existsb (Js.eqb x) l.
Proof.
  destruct (existsb (Js.eqb x) l) eqn:E.
  - apply existsb_exists in E as [y [Hin Hy]]. apply existsb_exists.
    exists y. split; [now apply in_rev in Hin | exact Hy].
  - destruct (existsb (Js.eqb x) (rev l)) eqn:E'; [|reflexivity].
    apply existsb_exists in E' as [y [Hin Hy]]. apply in_rev in Hin.
    assert (existsb (Js.eqb x) l = true) by (apply existsb_exists; eauto).
    congruence.
Qed.

(** Adding a member to a [Set] that was built from a list. *)
Lemma mkSet_snoc (xs : list str) (x : str) :
  Similarity.mkSet (xs ++ [x])
  = if existsb (Js.eqb x) (Similarity.mkSet xs)
    then Similarity.mkSet xs else Similarity.mkSet xs ++ [x].
Proof.
  unfold Similarity.mkSet. rewrite rev_unit. cbn [Similarity.dedup].
  rewrite has_rev. destruct (existsb _ _); reflexivity.
Qed.

Lemma counts (ops : list Op) :
  let db := run ops empty_db in
  map hash (errors db) = Similarity.mkSet (map ErrorService.fingerprint (reports ops))
  /\ (forall h, ErrorService.sightings db h = reported ops h)
  /\ total_occurrences db = List.length (reports ops).
Proof.
  cbv zeta. induction ops as [|op ops IH] using rev_ind.
  - repeat split.
  - destruct IH as (IH1 & IH2 & IH3).
    assert (Hrun : run (ops ++ [op]) empty_db = step (run ops empty_db) op)
      by (unfold run; now rewrite fold_left_app).
    assert (Hrep : reports (ops ++ [op]) = reports ops ++ reports [op])
      by (unfold reports; now rewrite flat_map_app).
    unfold reported in *. rewrite Hrun, Hrep. clear Hrun Hrep.
    pose proof (reachable_wf ops) as W.
    destruct op as [now input|now input|i success|heap e v m].
    2-4: match goal with
         | |- context [step ?db ?op] =>
             pose proof (step_keeps_errors db op) as Hk; cbv beta iota in Hk
         end;
         match goal with
         | |- context [reports [?op]] => change (reports [op]) with (@nil ErrorInput)
         end; rewrite !app_nil_r;
         unfold total_occurrences, ErrorService.sightings, error_by_hash in *;
         rewrite Hk; repeat split; assumption.
    destruct (record_counts now input W) as (R1 & R2 & R3). cbv zeta in *.
    change (reports [RecordError now input]) with [input]. split; [|split].
    + rewrite R1, map_app. cbn [map]. rewrite mkSet_snoc, IH1. reflexivity.
    + intros h. rewrite R2, IH2, filter_app, length_app. cbn [filter].
      destruct (Js.eqb _ h); reflexivity.
    + rewrite R3, IH3, length_app. cbn. lia.
Qed.

End CountProofs.

(* ================================================================= *)
(** ** Counting reports among the other calls *)

Module SessionCountProofs.
Import Js Types Sql Statements History StoreFacts HistoryProofs Session SessionProofs Counting.

Lemma insert_link_errors (e t : nat) (db db' : Db) :
  insert_link e t db = Ok db' -> errors db' = errors db.
Proof.
  intros H.
  destruct (insert_link_cases e t db) as [[_ E] | [(_ & _ & _ & E) | (_ & _ & E)]];
    rewrite E in H; [injection H as <- | injection H as <- | discriminate]; reflexivity.
Qed.

Lemma addTagsToError_errors (e : nat) (ids : list nat) :
  forall db, errors (fst (TagAdmin.addTagsToError e ids db)) = errors db.
Proof.
  induction ids as [|t ids IH]; intros db; cbn [TagAdmin.addTagsToError]; [reflexivity|].
  destruct (insert_link e t db) as [db1|x] eqn:E; [|reflexivity].
  rewrite IH. exact (insert_link_errors _ _ _ E).
Qed.

Lemma removeTagsFromError_errors (e : nat) (ids : list nat) :
  forall db, errors (TagAdmin.removeTagsFromError e ids db) = errors db.
Proof.
  unfold TagAdmin.removeTagsFromError.
  induction ids as [|t ids IH]; intros db; cbn [fold_left]; [reflexivity|].
  rewrite IH. reflexivity.
Qed.

Lemma batchInsert_errors (heap : nat -> Z) (items : list (nat * list float)) (m : str) :
  forall db db', EmbeddingAdmin.batchInsert heap items m db = Ok db' -> errors db' = errors db.
Proof.
  induction items as [|[e v] items IH]; intros db db' H; cbn [EmbeddingAdmin.batchInsert] in H.
  - injection H as <-. reflexivity.
  - destruct (Similarity.floatArrayToBuffer heap v) as [buf|x]; [|discriminate].
    cbn [bind] in H.
    destruct (upsert_embedding e buf m (List.length v) db) as [db1|x] eqn:Eu; [|discriminate].
    cbn [bind] in H. rewrite (IH _ _ H).
    unfold upsert_embedding in Eu. destruct (error_by_id db e); [|discriminate].
    destruct (existsb _ _); injection Eu as <-; reflexivity.
Qed.

(** A call other than [recordError] and [deleteError] leaves [errors] alone. *)
Lemma call_keeps_errors (db : Db) (call : Call) :
  keeps_errors call = true ->
  match call with
  | Service (RecordError _ _) => True
  | _ => errors (Session.step db call) = errors db
  end.
Proof.
  intros Hk.
  destruct call as [op | n c | names c | e ids | e ids | e ids | t c | t | e names | e
                   | i newContent newSnippet | i | e | e | heap items model];
    cbn [Session.step]; try discriminate Hk.
  - pose proof (CountProofs.step_keeps_errors db op) as H. destruct op; [exact I | | |]; exact H.
  - unfold TagService.createTag.
    destruct (insert_tag (trim (toLowerCase n)) c db) as [[i db']|x] eqn:E; [|reflexivity].
    unfold insert_tag in E. destruct (tag_by_name db _); [discriminate|].
    injection E as _ <-. reflexivity.
  - destruct (getOrCreateTags_ok names c db) as (tags & db' & -> & Hf & _). cbn [snd].
    exact (fr_errors Hf).
  - apply addTagsToError_errors.
  - apply removeTagsFromError_errors.
  - unfold TagAdmin.setErrorTags. destruct (0 <? List.length ids); [|reflexivity].
    rewrite addTagsToError_errors. reflexivity.
  - reflexivity.
  - unfold TagAdmin.deleteTag, delete_tag. destruct (existsb _ _); reflexivity.
  - unfold MemoryFacade.tagError.
    destruct (getOrCreateTags_ok names None db) as (tags & db' & -> & Hf & _).
    rewrite addTagsToError_errors. exact (fr_errors Hf).
  - unfold SolutionAdmin.updateSolution. destruct newContent, newSnippet; reflexivity.
  - reflexivity.
  - reflexivity.
  - reflexivity.
  - unfold EmbeddingAdmin.batchStoreEmbeddings.
    destruct (EmbeddingAdmin.batchInsert heap items model db) as [db'|x] eqn:E; [|reflexivity].
    exact (batchInsert_errors _ _ _ _ E).
Qed.

Lemma session_counts (calls : list Call) :
  forallb keeps_errors calls = true ->
  let db := Session.run calls empty_db in
  map hash (errors db)
  = Similarity.mkSet (map ErrorService.fingerprint (session_reports calls))
  /\ (forall h, ErrorService.sightings db h = session_reported calls h)
  /\ total_occurrences db = List.length (session_reports calls).
Proof.
  cbv zeta. induction calls as [|call calls IH] using rev_ind; intros Hk.
  - repeat split.
  - rewrite forallb_app in Hk. apply andb_prop in Hk as [Hk Hc].
    cbn [forallb] in Hc. rewrite andb_true_r in Hc.
    destruct (IH Hk) as (IH1 & IH2 & IH3).
    assert (Hrun : Session.run (calls ++ [call]) empty_db
                   = Session.step (Session.run calls empty_db) call)
      by (unfold Session.run; now rewrite fold_left_app).
    assert (Hrep : session_reports (calls ++ [call])
                   = session_reports calls ++ session_reports [call])
      by (unfold session_reports; now rewrite flat_map_app).
    unfold session_reported in *. rewrite Hrun, Hrep. clear Hrun Hrep.
    pose proof (s_wf (reachable_sound calls)) as W.
    pose proof (@call_keeps_errors (Session.run calls empty_db) call Hc) as Hstay.
    assert (Hrec : (exists now input, call = Service (RecordError now input))
                   \/ (session_reports [call] = []
                       /\ errors (Session.step (Session.run calls empty_db) call)
                          = errors (Session.run calls empty_db))).
    { destruct call as [[now input| | |]| | | | | | | | | | | | | |];
        solve [left; eauto | right; split; [reflexivity | exact Hstay]]. }
    destruct Hrec as [(now & input & ->) | [Hnone Hsame]].
    + cbn [Session.step].
      destruct (@CountProofs.record_counts now input _ W) as (R1 & R2 & R3). cbv zeta in *.
      change (session_reports [Service (RecordError now input)]) with [input].
      split; [|split].
      * rewrite R1, map_app. cbn [map]. rewrite CountProofs.mkSet_snoc, IH1. reflexivity.
      * intros h. rewrite R2, IH2, filter_app, length_app. cbn [filter].
        destruct (Js.eqb _ h); reflexivity.
      * rewrite R3, IH3, length_app. cbn. lia.
    + rewrite Hnone, !app_nil_r.
      unfold total_occurrences, ErrorService.sightings, error_by_hash in *.
      rewrite Hsame. repeat split; assumption.
Qed.

End SessionCountProofs.

(** X20: after any sequence of writing calls none of which is [deleteError]
    (the calls to the tag, solution and embedding functions included, whether
    they return or throw), the table of errors holds one row for every
    distinct fingerprint that was reported, in the order of the first
    reports; the count of a fingerprint is the number of reports that had it
    (0 when there was none); and the counts add up to the number of
    [recordError] calls. *)
Theorem X20_counts_are_the_reports (calls : list Session.Call) :
  forallb Counting.keeps_errors calls = true ->
  let db := Session.run calls Types.empty_db in
  map Types.hash (Types.errors db)
  = Similarity.mkSet (map ErrorService.fingerprint (Counting.session_reports calls))
  /\ (forall h, ErrorService.sightings db h = Counting.session_reported calls h)
  /\ Counting.total_occurrences db = List.length (Counting.session_reports calls).
Proof. exact (SessionCountProofs.session_counts calls). Qed.

Lemma X20_counts_are_the_reports_witness :
  let calls := [ Session.Service (History.RecordError 1 Samples.duplicate_error);
                 Session.TagError 1 [Js.of_string "flaky"];
                 Session.DeleteTag 1;
                 Session.Service (History.RecordError 2 Samples.duplicate_error) ] in
  forallb Counting.keeps_errors calls = true
  /\ Counting.total_occurrences (Session.run calls Types.empty_db) = 2.
Proof.
  cbv zeta. split; [reflexivity|].
  apply (X20_counts_are_the_reports
           [ Session.Service (History.RecordError 1 Samples.duplicate_error);
             Session.TagError 1 [Js.of_string "flaky"];
             Session.DeleteTag 1;
             Session.Service (History.RecordError 2 Samples.duplicate_error) ]).
  reflexivity.
Defined.

(* ================================================================= *)
(** ** Listing errors *)

Module ListingProofs.
Import Js Types Sql Sorting.

(** [ORDER BY key DESC LIMIT n] over rows with a numeric key. *)
Section Top.
Context {A : Type} (key : A -> nat).

Lemma sort_length (after : A -> A -> bool) (rows : list A) :
  List.length (sort after rows) = List.length rows.
Proof.
  induction rows as [|x rows IH]; [reflexivity|].
  cbn [sort fold_right]. fold (sort after rows). cbn [List.length]. rewrite <- IH.
  generalize (sort after rows). intros l. induction l as [|y l IHl]; [reflexivity|].
  cbn [insert]. destruct (after x y); cbn [List.length]; [now rewrite IHl | reflexivity].
Qed.

Lemma top_In (n : Z) (rows : list A) (x : A) :
  In x (sql_limit n (sort (fun x y => key x <? key y) rows)) -> In x rows.
Proof.
  unfold sql_limit. intros H. apply (SortFacts.sort_In (fun x y => key x <? key y)).
  destruct (n <? 0)%Z; [exact H | exact (SortFacts.firstn_In _ _ _ H)].
Qed.

Lemma top_length (n : Z) (rows : list A) :
  (0 <= n)%Z ->
  List.length (sql_limit n (sort (fun x y => key x <? key y) rows)) <= Z.to_nat n.
Proof.
  intros Hn. unfold sql_limit. destruct (Z.ltb_spec n 0); [lia|]. apply firstn_le_length.
Qed.

Lemma sort_falling (rows : list A) :
  Sorted.Sorted (fun x y => key y <= key x) (sort (fun x y => key x <? key y) rows).
Proof.
  apply RankFacts.sort_sorted; intros x y H.
  - apply Nat.ltb_ge in H. exact H.
  - apply Nat.ltb_lt in H. lia.
Qed.

Lemma top_sorted (n : Z) (rows : list A) :
  Sorted.Sorted (fun x y => key y <= key x) (sql_limit n (sort (fun x y => key x <? key y) rows)).
Proof.
  unfold sql_limit. destruct (n <? 0)%Z; [|apply RankFacts.firstn_sorted]; apply sort_falling.
Qed.

(** A row the limit cuts off has a key no larger than any row kept. *)
Lemma top_best (n : Z) (rows : list A) (x y : A) :
  In x rows ->
  ~ In x (sql_limit n (sort (fun x y => key x <? key y) rows)) ->
  In y (sql_limit n (sort (fun x y => key x <? key y) rows)) ->
  key x <= key y.
Proof.
  unfold sql_limit. intros Hx Hout Hy.
  apply (SortFacts.sort_In (fun x y => key x <? key y)) in Hx.
  destruct (n <? 0)%Z; [contradiction|].
  rewrite <- (firstn_skipn (Z.to_nat n)) in Hx. apply in_app_or in Hx as [Hx | Hx];
    [contradiction|].
  assert (Htr : forall a b c : A, key b <= key a -> key c <= key b -> key c <= key a)
    by (intros; lia).
  exact (@MostSimilarProofs.firstn_before_rest _ (fun x y => key y <= key x) _ Htr
           (sort_falling rows) (Z.to_nat n) y x Hy Hx).
Qed.

(** A limit that is negative, or not below the number of rows, cuts nothing. *)
Lemma top_all (n : Z) (rows : list A) (x : A) :
  (n < 0 \/ Z.of_nat (List.length rows) <= n)%Z ->
  In x rows -> In x (sql_limit n (sort (fun x y => key x <? key y) rows)).
Proof.
  intros Hn Hx. apply (SortFacts.sort_In (fun x y => key x <? key y)) in Hx.
  unfold sql_limit. destruct (Z.ltb_spec n 0); [exact Hx|].
  rewrite firstn_all2; [exact Hx|].
  rewrite sort_length. lia.
Qed.

End Top.

Lemma filter_all {A} (l : list A) : filter (fun _ => true) l = l.
Proof. induction l as [|x l IH]; cbn; [reflexivity | now rewrite IH]. Qed.


Lemma map_sorted {A B} (f : A -> B) (R : B -> B -> Prop) (l : list A) :
  Sorted.Sorted (fun a b => R (f a) (f b)) l -> Sorted.Sorted R (map f l).
Proof.
  induction 1 as [|x l Hs IH Hhd]; cbn [map]; constructor; [exact IH|].
  destruct Hhd; cbn [map]; constructor. assumption.
Qed.

(** The rows [searchErrors] selects from. *)
Lemma candidates (db : Db) (options : SearchOptions) (row : ErrorRow) :
  In row (filter (ErrorService.matches options)
            match opt_tags options with
            | Some (t :: ts) => filter (ErrorService.tagged db (t :: ts)) (errors db)
            | _ => errors db
            end)
  <-> In row (errors db)
      /\ ErrorService.matches options row = true
      /\ match opt_tags options with
         | Some (t :: ts) => ErrorService.tagged db (t :: ts) row = true
         | _ => True
         end.
Proof.
  rewrite filter_In. destruct (opt_tags options) as [[|t ts]|]; [tauto| |tauto].
  rewrite filter_In. tauto.
Qed.

End ListingProofs.

(** X21: [searchErrors] returns stored errors, each with its tags, that pass
    every filter given; the newest sighting comes first; a limit that is not
    negative (20 when none is given) bounds the number of results; and a
    stored error that passes the filters and is left out was not seen later
    than any error returned.  [getRecentErrors] is the search without
    filters. *)
Theorem X21_searchErrors_newest_first (db : Types.Db) (options : Types.SearchOptions) :
  let results := ErrorService.searchErrors db options in
  let n := Similarity.default (Types.limit options) 20%Z in
  let wanted row :=
    ErrorService.matches options row = true
    /\ match Types.opt_tags options with
       | Some (t :: ts) => ErrorService.tagged db (t :: ts) row = true
       | _ => True
       end in
  (forall r, In r results ->
     exists row, In row (Types.errors db) /\ wanted row
                 /\ r = ErrorService.with_tags_of db row)
  /\ Sorted.Sorted (fun a b => Types.last_seen_at (Types.error b)
                               <= Types.last_seen_at (Types.error a)) results
  /\ ((0 <= n)%Z -> List.length results <= Z.to_nat n)
  /\ (forall row r,
        In row (Types.errors db) -> wanted row ->
        ~ In (ErrorService.with_tags_of db row) results ->
        In r results ->
        Types.last_seen_at row <= Types.last_seen_at (Types.error r))
  /\ ErrorAdmin.getRecentErrors db (Types.limit options)
     = ErrorService.searchErrors db
         {| Types.limit := Types.limit options; Types.minSimilarity := None;
            Types.opt_tags := None; Types.projectName := None; Types.errorType := None;
            Types.opt_severity := None; Types.includeEmbeddings := None |}.
Proof.
  cbv zeta. unfold ErrorService.searchErrors, ErrorService.most_recent.
  set (rows := filter (ErrorService.matches options) _).
  set (n := Similarity.default (Types.limit options) 20%Z).
  split; [|split; [|split; [|split]]].
  - intros r Hr. apply in_map_iff in Hr as [row [<- Hin]].
    apply ListingProofs.top_In in Hin. apply ListingProofs.candidates in Hin.
    exists row. tauto.
  - apply ListingProofs.map_sorted. cbn [ErrorService.with_tags_of Types.error].
    apply (ListingProofs.top_sorted Types.last_seen_at).
  - intros Hn. rewrite length_map. now apply ListingProofs.top_length.
  - intros row r Hrow Hw Hout Hr. apply in_map_iff in Hr as [row' [<- Hin]].
    cbn [ErrorService.with_tags_of Types.error].
    apply (@ListingProofs.top_best _ Types.last_seen_at n rows); [| |exact Hin].
    + apply ListingProofs.candidates. tauto.
    + intros H. apply Hout. now apply in_map.
  - unfold ErrorAdmin.getRecentErrors, ErrorService.most_recent. cbn [Types.limit Types.opt_tags].
    rewrite (filter_ext _ (fun _ => true)), ListingProofs.filter_all; [reflexivity|].
    intros row. reflexivity.
Qed.

(** X22: [getFrequentErrors] returns stored errors with their tags, the one
    seen most often first, at most as many as a limit that is not negative
    (20 when none is given); an error that is left out was seen no more often
    than any error returned; and with a negative limit, or one that is not
    below the number of errors, every stored error is returned. *)
Theorem X22_getFrequentErrors_most_seen_first (db : Types.Db) (limit : option Z) :
  let results := ErrorAdmin.getFrequentErrors db limit in
  let n := Similarity.default limit 20%Z in
  (forall r, In r results ->
     exists row, In row (Types.errors db) /\ r = ErrorService.with_tags_of db row)
  /\ Sorted.Sorted (fun a b => Types.occurrence_count (Types.error b)
                               <= Types.occurrence_count (Types.error a)) results
  /\ ((0 <= n)%Z -> List.length results <= Z.to_nat n)
  /\ (forall row r,
        In row (Types.errors db) ->
        ~ In (ErrorService.with_tags_of db row) results ->
        In r results ->
        Types.occurrence_count row <= Types.occurrence_count (Types.error r))
  /\ ((n < 0 \/ Z.of_nat (ErrorAdmin.getErrorCount db) <= n)%Z ->
      forall row, In row (Types.errors db) ->
                  In (ErrorService.with_tags_of db row) results).
Proof.
  cbv zeta. unfold ErrorAdmin.getFrequentErrors, ErrorAdmin.most_frequent,
    ErrorAdmin.getErrorCount.
  set (n := Similarity.default limit 20%Z).
  split; [|split; [|split; [|split]]].
  - intros r Hr. apply in_map_iff in Hr as [row [<- Hin]].
    apply ListingProofs.top_In in Hin. eauto.
  - apply ListingProofs.map_sorted. cbn [ErrorService.with_tags_of Types.error].
    apply (ListingProofs.top_sorted Types.occurrence_count).
  - intros Hn. rewrite length_map. now apply ListingProofs.top_length.
  - intros row r Hrow Hout Hr. apply in_map_iff in Hr as [row' [<- Hin]].
    cbn [ErrorService.with_tags_of Types.error].
    apply (@ListingProofs.top_best _ Types.occurrence_count n (Types.errors db));
      [exact Hrow | | exact Hin].
    intros H. apply Hout. now apply in_map.
  - intros Hn row Hrow. apply in_map. now apply ListingProofs.top_all.
Qed.

(* ================================================================= *)
(** ** Solutions and their outcomes *)

Module OutcomeProofs.
Import Js Types Sql History StoreFacts HistoryProofs Session SessionProofs.





Lemma solutions_of_error_In (db : Db) (e : nat) (s : SolutionRow) :
  In s (SolutionService.getSolutionsForError db e)
  <-> In s (solutions db) /\ sol_error_id s = e.
Proof.
  unfold SolutionService.getSolutionsForError, solutions_of_error.
  rewrite SortFacts.sort_In, filter_In, Nat.eqb_eq. reflexivity.
Qed.

Lemma fresh_solution_id (db : Db) :
  wf db -> SolutionService.getSolutionById db (S (solutions_seq db)) = None.
Proof.
  intros W. apply DeleteProofs.find_nothing. intros r Hin.
  pose proof (wf_solution_ids W) as Hids. rewrite Forall_forall in Hids.
  specialize (Hids r Hin). apply Nat.eqb_neq. lia.
Qed.

(** The order of [ORDER BY success_rate DESC, success_count DESC]. *)
Lemma by_rate_sorted (rows : list SolutionRow) :
  Sorted.Sorted
    (fun x y => (success_rate y < success_rate x)%Q
                \/ ((success_rate x == success_rate y)%Q
                    /\ success_count y <= success_count x))
    (Sorting.sort solution_after rows).
Proof.
  apply RankFacts.sort_sorted; intros x y; unfold solution_after;
    destruct (success_rate x ?= success_rate y)%Q eqn:E; try discriminate; intros H.
  - right. split; [now apply Qeq_alt | now apply Nat.ltb_ge in H].
  - left. now apply Qgt_alt.
  - right. apply Nat.ltb_lt in H. split; [symmetry; now apply Qeq_alt | lia].
  - left. now apply Qlt_alt.
Qed.

End OutcomeProofs.

(** X23: [recordSolution] in a database reached by a session.  For an error
    that is not stored it throws [ErrorNotFound].  Otherwise it returns an id
    that was not in use; [getSolutionById] then finds the row built from the
    input, with no success, no failure and rate 0; the solutions of the error
    are the old ones and the new one; and every other solution and every other
    error's solutions read as before. *)
Theorem X23_recordSolution_attaches
        (calls : list Session.Call) (now : nat) (input : Types.SolutionInput) :
  let db := Session.run calls Types.empty_db in
  let e := Types.si_errorId input in
  let i := S (Types.solutions_seq db) in
  match ErrorService.getErrorById db e with
  | None => SolutionService.recordSolution now input db = Throw (ErrorNotFound e)
  | Some _ =>
      exists db',
        SolutionService.recordSolution now input db = Ok (i, db')
        /\ SolutionService.getSolutionById db i = None
        /\ SolutionService.getSolutionById db' i = Some (History.new_solution now input db)
        /\ (forall s, In s (SolutionService.getSolutionsForError db' e)
                      <-> s = History.new_solution now input db
                          \/ In s (SolutionService.getSolutionsForError db e))
        /\ (forall other, other <> e ->
              SolutionService.getSolutionsForError db' other
              = SolutionService.getSolutionsForError db other)
        /\ (forall j, j <> i ->
              SolutionService.getSolutionById db' j = SolutionService.getSolutionById db j)
  end.
Proof.
  cbv zeta. pose proof (SessionProofs.reachable_sound calls) as Hs.
  set (db := Session.run calls Types.empty_db) in *.
  unfold ErrorService.getErrorById.
  destruct (Sql.error_by_id db (Types.si_errorId input)) as [row|] eqn:E; cbn [option_map].
  2:{ now apply HistoryProofs.recordSolution_throws. }
  eexists. split; [apply HistoryProofs.recordSolution_ok; congruence|].
  pose proof (OutcomeProofs.fresh_solution_id (Session.s_wf Hs)) as Hfresh.
  split; [exact Hfresh|].
  split.
  { unfold SolutionService.getSolutionById in *. cbn [Sql.with_solutions Types.solutions].
    apply TagProofs.find_app_last; [exact Hfresh | cbn; apply Nat.eqb_refl]. }
  split.
  { intros s. rewrite !OutcomeProofs.solutions_of_error_In.
    cbn [Sql.with_solutions Types.solutions]. rewrite in_app_iff. cbn [In]. split.
    - intros [[H | [<- | []]] He]; [right; tauto | left; reflexivity].
    - intros [-> | [H He]]; [|tauto]. split; [right; now left | reflexivity]. }
  split.
  { intros other Hother.
    unfold SolutionService.getSolutionsForError, Sql.solutions_of_error.
    cbn [Sql.with_solutions Types.solutions]. rewrite filter_app. cbn [filter].
    replace (Types.sol_error_id (History.new_solution now input db) =? other) with false.
    - now rewrite app_nil_r.
    - symmetry. apply Nat.eqb_neq. cbn. congruence. }
  intros j Hj. unfold SolutionService.getSolutionById.
  cbn [Sql.with_solutions Types.solutions]. apply ReportProofs.find_app_miss.
  apply Nat.eqb_neq. cbn [History.new_solution Types.stored Types.sol_id]. congruence.
Qed.


(** X25: [getSolutionsForError] returns exactly the stored solutions of the
    error, the higher rate first and, at equal rates, the higher number of
    successes first.  [getBestSolutionForError] returns nothing exactly when
    the error has no solution, and otherwise a solution of the error whose
    rate no other solution of the error exceeds. *)
Theorem X25_best_solution_has_the_top_rate (db : Types.Db) (errorId : nat) :
  (forall s, In s (SolutionService.getSolutionsForError db errorId)
             <-> In s (Types.solutions db) /\ Types.sol_error_id s = errorId)
  /\ Sorted.Sorted
       (fun x y => (Types.success_rate y < Types.success_rate x)%Q
                   \/ ((Types.success_rate x == Types.success_rate y)%Q
                       /\ Types.success_count y <= Types.success_count x))
       (SolutionService.getSolutionsForError db errorId)
  /\ (SolutionAdmin.getBestSolutionForError db errorId = None
      <-> forall s, In s (Types.solutions db) -> Types.sol_error_id s <> errorId)
  /\ (forall best,
        SolutionAdmin.getBestSolutionForError db errorId = Some best ->
        In best (Types.solutions db) /\ Types.sol_error_id best = errorId
        /\ forall s, In s (Types.solutions db) -> Types.sol_error_id s = errorId ->
                     (Types.success_rate s <= Types.success_rate best)%Q).
Proof.
  split; [intros s; apply OutcomeProofs.solutions_of_error_In|].
  split; [apply OutcomeProofs.by_rate_sorted|].
  pose proof (OutcomeProofs.by_rate_sorted
                (filter (fun r => Types.sol_error_id r =? errorId) (Types.solutions db)))
    as Hsorted.
  pose proof (fun s => OutcomeProofs.solutions_of_error_In db errorId s) as Hmem.
  unfold SolutionAdmin.getBestSolutionForError.
  unfold SolutionService.getSolutionsForError in Hmem. unfold Sql.solutions_of_error in *.
  destruct (Sorting.sort Sql.solution_after _) as [|first rest].
  - split.
    + split; [|reflexivity]. intros _ s Hin He. apply (proj2 (Hmem s)). tauto.
    + intros best H. discriminate.
  - split.
    + split; [discriminate|]. intros H. exfalso.
      destruct (proj1 (Hmem first)) as [Hin He]; [now left|]. exact (H first Hin He).
    + intros best H. injection H as <-.
      destruct (proj1 (Hmem first)) as [Hin He]; [now left|].
      split; [exact Hin|]. split; [exact He|].
      intros s Hs Hse.
      assert (Hs' : In s (first :: rest)) by (apply Hmem; tauto).
      destruct Hs' as [<- | Hs']; [apply Qle_refl|].
      apply Sorted_StronglySorted in Hsorted.
      * inversion Hsorted as [|? ? _ Hall]; subst. rewrite Forall_forall in Hall.
        destruct (Hall s Hs') as [Hlt | [Heq _]]; [now apply Qlt_le_weak|].
        rewrite Heq. apply Qle_refl.
      * intros x y z [Hxy | [Exy Cxy]] [Hyz | [Eyz Cyz]].
        -- left. now apply Qlt_trans with (Types.success_rate y).
        -- left. now rewrite <- Eyz.
        -- left. now rewrite Exy.
        -- right. split; [now rewrite Exy | lia].
Qed.

(* ================================================================= *)
(** ** Storing an embedding, and reading it back *)

Module RoundTripProofs.
Import Js Types Sql Similarity.

(** What the upsert of [storeEmbedding] leaves in [embeddings]. *)
Lemma upsert_lookup (e : nat) (buf : Buffer) (m : str) (dims : nat) (db db' : Db) :
  upsert_embedding e buf m dims db = Ok db' ->
  (exists row,
      EmbeddingAdmin.getEmbeddingByErrorId db' e = Some row
      /\ embedding row = buf /\ model row = m /\ dimensions row = dims
      /\ emb_error_id row = e)
  /\ (forall other, other <> e ->
        EmbeddingAdmin.getEmbeddingByErrorId db' other
        = EmbeddingAdmin.getEmbeddingByErrorId db other)
  /\ List.length (embeddings db')
     = List.length (embeddings db) + (if EmbeddingAdmin.hasEmbedding db e then 0 else 1)
  /\ errors db' = errors db /\ solutions db' = solutions db.
Proof.
  unfold upsert_embedding, EmbeddingAdmin.getEmbeddingByErrorId, EmbeddingAdmin.hasEmbedding.
  destruct (error_by_id db e); [|discriminate].
  destruct (existsb (fun r => emb_error_id r =? e) (embeddings db)) eqn:Ex;
    intros H; injection H as <-; cbn [with_embeddings embeddings errors solutions].
  - split; [|split; [|split; [|split; reflexivity]]].
    + rewrite RecordErrorProofs.find_map.
      * apply existsb_exists in Ex as [r [Hin Hr]].
        destruct (find (fun r => emb_error_id r =? e) (embeddings db)) as [row|] eqn:Ef.
        -- apply find_some in Ef as [_ Hrow]. cbn [option_map]. rewrite Hrow.
           eexists. split; [reflexivity|]. repeat split.
        -- apply (find_none _ _ Ef) in Hin. congruence.
      * intros r. destruct (emb_error_id r =? e) eqn:Er; [|exact Er].
        cbn [emb_error_id]. apply Nat.eqb_refl.
    + intros other Hother. rewrite RecordErrorProofs.find_map.
      * destruct (find (fun r => emb_error_id r =? other) (embeddings db)) as [row|] eqn:Ef;
          [|reflexivity].
        cbn [option_map]. apply find_some in Ef as [_ Hrow]. apply Nat.eqb_eq in Hrow.
        destruct (Nat.eqb_spec (emb_error_id row) e); [congruence | reflexivity].
      * intros r. destruct (Nat.eqb_spec (emb_error_id r) e) as [Er|Er]; [|reflexivity].
        cbn [emb_error_id]. now rewrite Er.
    + rewrite length_map. lia.
  - assert (Hnone : find (fun r => emb_error_id r =? e) (embeddings db) = None).
    { apply DeleteProofs.find_nothing. intros r Hin.
      destruct (emb_error_id r =? e) eqn:Er; [|reflexivity].
      assert (existsb (fun r => emb_error_id r =? e) (embeddings db) = true)
        by (apply existsb_exists; eauto).
      congruence. }
    split; [|split; [|split; [|split; reflexivity]]].
    + eexists. split; [apply TagProofs.find_app_last; [exact Hnone | cbn; apply Nat.eqb_refl]|].
      repeat split.
    + intros other Hother. apply ReportProofs.find_app_miss.
      cbn [emb_error_id]. apply Nat.eqb_neq. congruence.
    + rewrite length_app. reflexivity.
Qed.

(** The keys the upsert draws and the rowid it leaves. *)
Lemma upsert_keys (e : nat) (buf : Buffer) (m : str) (dims : nat) (db db' : Db) :
  upsert_embedding e buf m dims db = Ok db' ->
  lastInsertRowid db'
  = match EmbeddingAdmin.getEmbeddingByErrorId db e with
    | Some _ => lastInsertRowid db
    | None => S (embeddings_seq db)
    end
  /\ embeddings_seq db' = S (embeddings_seq db)
  /\ (forall row,
        EmbeddingAdmin.getEmbeddingByErrorId db' e = Some row ->
        emb_id row = match EmbeddingAdmin.getEmbeddingByErrorId db e with
                     | Some old => emb_id old
                     | None => S (embeddings_seq db)
                     end).
Proof.
  unfold upsert_embedding, EmbeddingAdmin.getEmbeddingByErrorId.
  destruct (error_by_id db e); [|discriminate].
  destruct (existsb (fun r => emb_error_id r =? e) (embeddings db)) eqn:Ex;
    intros H; injection H as <-;
    cbn [with_embeddings embeddings embeddings_seq lastInsertRowid].
  - apply existsb_exists in Ex as [r [Hin Hr]].
    destruct (find (fun r => emb_error_id r =? e) (embeddings db)) as [old|] eqn:Ef.
    2:{ apply (find_none _ _ Ef) in Hin. congruence. }
    split; [reflexivity|]. split; [reflexivity|]. intros row.
    rewrite RecordErrorProofs.find_map.
    + rewrite Ef. cbn [option_map]. apply find_some in Ef as [_ Hold]. rewrite Hold.
      intros H. injection H as <-. reflexivity.
    + intros r'. destruct (emb_error_id r' =? e) eqn:Er; [|exact Er].
      cbn [emb_error_id]. apply Nat.eqb_refl.
  - assert (Hnone : find (fun r => emb_error_id r =? e) (embeddings db) = None).
    { apply DeleteProofs.find_nothing. intros r Hin.
      destruct (emb_error_id r =? e) eqn:Er; [|reflexivity].
      assert (existsb (fun r => emb_error_id r =? e) (embeddings db) = true)
        by (apply existsb_exists; eauto).
      congruence. }
    rewrite Hnone. split; [reflexivity|]. split; [reflexivity|]. intros row.
    rewrite TagProofs.find_app_last; [|exact Hnone | cbn; apply Nat.eqb_refl].
    intros H. injection H as <-. reflexivity.
Qed.

End RoundTripProofs.

(** X26: [storeEmbedding] throws [ErrorNotFound] for an error that is not
    stored.  Otherwise it returns, and afterwards the error has an embedding:
    [getEmbeddingVector] gives the stored vector with each number rounded to
    the nearest single (ties to even, as IEEE 754 has it), the row holds the
    given model and the length of the vector, the embeddings of other errors
    are as before, and the number of embeddings has grown by one exactly when
    the error had none (a second store replaces the first, in the row and
    under the id of the first).  Either way a key is drawn from the sequence
    of the table.  The number returned is the rowid of the last insert of the
    connection: the id of the new row when the error had no embedding, and
    what it was before the call when the error had one. *)
Theorem X26_storeEmbedding_round_trip
        (db : Types.Db) (heap : nat -> Z) (errorId : nat) (embedding : list float)
        (model : Js.str) :
  match ErrorService.getErrorById db errorId with
  | None =>
      EmbeddingService.storeEmbedding heap errorId embedding model db
      = Throw (ErrorNotFound errorId)
  | Some _ =>
      exists db' row unpacked,
        EmbeddingService.storeEmbedding heap errorId embedding model db
        = Ok (match EmbeddingAdmin.getEmbeddingByErrorId db errorId with
              | Some _ => Types.lastInsertRowid db
              | None => S (Types.embeddings_seq db)
              end, db')
        /\ EmbeddingAdmin.getEmbeddingVector db' errorId = Ok (Some unpacked)
        /\ Forall2 Single.rounds_to embedding unpacked
        /\ unpacked = map Float32.fround embedding
        /\ EmbeddingAdmin.hasEmbedding db' errorId = true
        /\ EmbeddingAdmin.getEmbeddingByErrorId db' errorId = Some row
        /\ Types.model row = model
        /\ Types.dimensions row = List.length embedding
        /\ Types.emb_id row
           = match EmbeddingAdmin.getEmbeddingByErrorId db errorId with
             | Some old => Types.emb_id old
             | None => S (Types.embeddings_seq db)
             end
        /\ Types.embeddings_seq db' = S (Types.embeddings_seq db)
        /\ (forall other, other <> errorId ->
              EmbeddingAdmin.getEmbeddingByErrorId db' other
              = EmbeddingAdmin.getEmbeddingByErrorId db other)
        /\ EmbeddingAdmin.getEmbeddingCount db'
           = EmbeddingAdmin.getEmbeddingCount db
             + (if EmbeddingAdmin.hasEmbedding db errorId then 0 else 1)
  end.
Proof.
  unfold ErrorService.getErrorById, EmbeddingService.storeEmbedding.
  destruct (Sql.error_by_id db errorId) as [found|] eqn:E; cbn [option_map]; [|reflexivity].
  rewrite BufferProofs.pack_loop. cbn [bind].
  destruct (Sql.upsert_embedding errorId (flat_map Packing.enc embedding) model
              (List.length embedding) db) as [db'|x] eqn:Eu.
  2:{ unfold Sql.upsert_embedding in Eu. rewrite E in Eu.
      destruct (existsb _ _); discriminate. }
  cbn [bind].
  destruct (RoundTripProofs.upsert_lookup _ _ _ _ _ Eu)
    as ((row & Hrow & Hbuf & Hm & Hd & He) & Hother & Hlen & _).
  destruct (RoundTripProofs.upsert_keys _ _ _ _ _ Eu) as (Hlast & Hseq & Hid).
  exists db', row, (map Float32.fround embedding).
  split; [rewrite Hlast; reflexivity|].
  split.
  { unfold EmbeddingAdmin.getEmbeddingVector. rewrite Hrow, Hbuf.
    now rewrite BufferProofs.unpack_loop. }
  split.
  { clear. induction embedding as [|x v IH]; constructor;
      [apply RoundFacts.fround_rounds | exact IH]. }
  split; [reflexivity|].
  split.
  { unfold EmbeddingAdmin.hasEmbedding. apply existsb_exists.
    unfold EmbeddingAdmin.getEmbeddingByErrorId in Hrow. apply find_some in Hrow.
    exists row. exact Hrow. }
  split; [exact Hrow|]. split; [exact Hm|]. split; [exact Hd|].
  split; [exact (Hid row Hrow)|]. split; [exact Hseq|].
  split; [exact Hother | exact Hlen].
Qed.

(* ================================================================= *)
(** ** What the semantic search returns *)

Module SemanticProofs.
Import Js Types Sql History StoreFacts HistoryProofs Similarity EmbeddingService Semantic.

Lemma compare_row_scores (target : list float) (minSim : float)
      (results : list (nat * float)) (row : EmbeddingRow) :
  (exists v, embedding row = flat_map Packing.enc v /\ dimensions row = List.length v) ->
  exists extra,
    compare_row target minSim results row = Ok (results ++ extra)
    /\ (extra = [] \/ exists r, extra = [r] /\ scored target minSim row r).
Proof.
  intros [v [Hv _]]. unfold compare_row, scored.
  rewrite Hv, BufferProofs.unpack_loop. cbn [bind].
  rewrite length_map.
  destruct (Nat.eqb_spec (List.length v) (List.length target)) as [Hlen|Hne]; cbn [negb].
  - destruct (@CosineProofs.cosine_total target (map Float32.fround v)) as [s Es].
    { now rewrite length_map. }
    rewrite Es. cbn [bind]. destruct (minSim <=? s)%float eqn:Ef.
    + exists [(emb_error_id row, s)]. split; [reflexivity|]. right.
      eexists. split; [reflexivity|]. split; [reflexivity|].
      exists (map Float32.fround v). rewrite length_map. repeat split; assumption.
    + exists []. split; [now rewrite app_nil_r | now left].
  - exists []. split; [now rewrite app_nil_r | now left].
Qed.

Lemma scan_scores (target : list float) (minSim : float) (rows : list EmbeddingRow) :
  Forall (fun r => exists v, embedding r = flat_map Packing.enc v
                             /\ dimensions r = List.length v) rows ->
  NoDup (map emb_error_id rows) ->
  forall results,
  exists extra,
    fold_left (fun acc row => rs <- acc ;; compare_row target minSim rs row) rows (Ok results)
    = Ok (results ++ extra)
    /\ (forall r, In r extra -> exists row, In row rows /\ scored target minSim row r)
    /\ NoDup (map fst extra).
Proof.
  induction rows as [|row rows IH]; intros Hrows Hnd results.
  - exists []. split; [cbn; now rewrite app_nil_r|]. split; [intros r [] | constructor].
  - inversion Hrows as [|? ? Hrow Hrest]; subst.
    cbn [map] in Hnd. inversion Hnd as [|? ? Hfresh Hnd']; subst.
    cbn [fold_left bind].
    destruct (@compare_row_scores target minSim results row Hrow) as [e1 [-> H1]].
    destruct (IH Hrest Hnd' (results ++ e1)) as [e2 [-> [H2 N2]]].
    exists (e1 ++ e2). split; [now rewrite app_assoc|]. split.
    + intros r Hr. apply in_app_or in Hr as [Hr | Hr].
      * destruct H1 as [-> | [r1 [-> Hs]]]; [contradiction|].
        destruct Hr as [<- | []]. exists row. split; [now left | exact Hs].
      * destruct (H2 r Hr) as [row' [Hin H']]. exists row'. split; [now right | exact H'].
    + destruct H1 as [-> | [r1 [-> Hs]]]; [exact N2|].
      cbn [app map]. constructor; [|exact N2].
      intros Hin. apply in_map_iff in Hin as [r2 [Ek Hin]].
      destruct (H2 r2 Hin) as [row' [Hin' [Hk _]]].
      apply Hfresh. destruct Hs as [Hk1 _]. rewrite <- Hk1, <- Ek, Hk. now apply in_map.
Qed.

(** A stable sort and a slice keep keys distinct. *)
Lemma insert_NoDup {A B} (f : A -> B) (after : A -> A -> bool) (x : A) (l : list A) :
  ~ In (f x) (map f l) -> NoDup (map f l) -> NoDup (map f (Sorting.insert after x l)).
Proof.
  induction l as [|y l IH]; intros Hx Hnd; cbn [Sorting.insert].
  - cbn. constructor; [intros [] | constructor].
  - cbn [map] in *. inversion Hnd as [|? ? Hy Hnd']; subst.
    destruct (after x y); cbn [map].
    + constructor.
      * intros Hin. apply in_map_iff in Hin as [z [Ez Hz]].
        apply SortFacts.insert_In in Hz as [-> | Hz].
        -- apply Hx. left. now symmetry.
        -- apply Hy. rewrite <- Ez. now apply in_map.
      * apply IH; [|exact Hnd']. intros H. apply Hx. now right.
    + constructor; [exact Hx | now constructor].
Qed.

Lemma sort_NoDup {A B} (f : A -> B) (after : A -> A -> bool) (l : list A) :
  NoDup (map f l) -> NoDup (map f (Sorting.sort after l)).
Proof.
  induction l as [|x l IH]; intros Hnd; [constructor|].
  cbn [map] in Hnd. inversion Hnd as [|? ? Hx Hnd']; subst.
  cbn [Sorting.sort fold_right]. fold (Sorting.sort after l).
  apply insert_NoDup; [|now apply IH].
  intros Hin. apply Hx. apply in_map_iff in Hin as [z [Ez Hz]].
  apply SortFacts.sort_In in Hz. rewrite <- Ez. now apply in_map.
Qed.

Lemma firstn_NoDup {A B} (f : A -> B) (n : nat) (l : list A) :
  NoDup (map f l) -> NoDup (map f (firstn n l)).
Proof.
  intros Hnd. rewrite <- (firstn_skipn n l), map_app in Hnd.
  exact (NoDup_app_remove_r _ _ Hnd).
Qed.

Lemma slice_NoDup {A B} (f : A -> B) (n : Z) (l : list A) :
  NoDup (map f l) -> NoDup (map f (Sorting.slice n l)).
Proof. unfold Sorting.slice. destruct (n <? 0)%Z; apply firstn_NoDup. Qed.

(** The records [findSimilarByEmbedding] fetches for the ids it kept. *)
Lemma fetch_found (db : Db) (sorted : list (nat * float)) (e : ErrorWithTags) (s : float) :
  In (e, s) (fetch db sorted) ->
  In (id (error e), s) sorted /\ ErrorService.getErrorById db (id (error e)) = Some e.
Proof.
  unfold fetch. rewrite in_flat_map. intros [[i s'] [Hin Hr]]. cbn [fst snd] in Hr.
  destruct (ErrorService.getErrorById db i) as [found|] eqn:E; [|contradiction].
  destruct Hr as [Hr | []]. injection Hr as <- <-.
  assert (Hid : id (error found) = i).
  { unfold ErrorService.getErrorById, error_by_id in E.
    destruct (find _ _) as [row|] eqn:Ef; [|discriminate].
    cbn [option_map] in E. injection E as <-.
    apply find_some in Ef as [_ Hid]. now apply Nat.eqb_eq in Hid. }
  rewrite Hid. split; assumption.
Qed.

Lemma fetch_length (db : Db) (sorted : list (nat * float)) :
  List.length (fetch db sorted) <= List.length sorted.
Proof.
  induction sorted as [|r sorted IH]; [apply Nat.le_refl|].
  unfold fetch in *. cbn [flat_map]. rewrite length_app. cbn [List.length].
  destruct (ErrorService.getErrorById db (fst r)); cbn [List.length]; lia.
Qed.

Lemma fetch_NoDup (db : Db) (sorted : list (nat * float)) :
  NoDup (map fst sorted) ->
  NoDup (map (fun r => id (error (fst r))) (fetch db sorted)).
Proof.
  induction sorted as [|r sorted IH]; intros Hnd; [constructor|].
  cbn [map] in Hnd. inversion Hnd as [|? ? Hr Hnd']; subst.
  change (fetch db (r :: sorted))
    with (match ErrorService.getErrorById db (fst r) with
          | Some error => [(error, snd r)]
          | None => []
          end ++ fetch db sorted).
  destruct (ErrorService.getErrorById db (fst r)) as [found|] eqn:E; cbn [app map];
    [|now apply IH].
  constructor; [|now apply IH].
  intros Hin. apply in_map_iff in Hin as [[e s] [Ek Hin]]. cbn [fst] in Ek.
  apply fetch_found in Hin as [Hin _]. apply Hr.
  assert (Hid : id (error found) = fst r).
  { unfold ErrorService.getErrorById, error_by_id in E.
    destruct (find _ _) as [row|] eqn:Ef; [|discriminate].
    cbn [option_map] in E. injection E as <-.
    apply find_some in Ef as [_ Hid]. now apply Nat.eqb_eq in Hid. }
  rewrite <- Hid, <- Ek. change (id (error e)) with (fst (id (error e), s)).
  now apply in_map.
Qed.

End SemanticProofs.

(** X27: in a database reached by a session [findSimilarByEmbedding] always
    returns.  Every result is a stored error, as [getErrorById] gives it,
    that has an embedding as long as the query; its similarity is the cosine
    of the query and that embedding and is at or above the floor (0.7 when
    none is given), so it is never NaN.  No error is returned twice, and a
    limit that is not negative (10 when none is given) bounds the number of
    results. *)
Theorem X27_findSimilarByEmbedding_results
        (calls : list Session.Call) (target : list float)
        (limit : option Z) (minSimilarity : option float) :
  let db := Session.run calls Types.empty_db in
  let n := Similarity.default limit 10%Z in
  let floor := Similarity.default minSimilarity EmbeddingService.floor_default in
  exists results,
    EmbeddingService.findSimilarByEmbedding db target limit minSimilarity = Ok results
    /\ ((0 <= n)%Z -> List.length results <= Z.to_nat n)
    /\ (forall e s,
          In (e, s) results ->
          ErrorService.getErrorById db (Types.id (Types.error e)) = Some e
          /\ exists row,
               EmbeddingAdmin.getEmbeddingByErrorId db (Types.id (Types.error e)) = Some row
               /\ Semantic.scored target floor row (Types.id (Types.error e), s))
    /\ NoDup (map (fun r => Types.id (Types.error (fst r))) results).
Proof.
  cbv zeta. pose proof (SessionProofs.reachable_sound calls) as Hs.
  set (db := Session.run calls Types.empty_db) in *.
  pose proof (Session.s_wf Hs) as W.
  unfold EmbeddingService.findSimilarByEmbedding.
  destruct (@SemanticProofs.scan_scores target
              (Similarity.default minSimilarity EmbeddingService.floor_default)
              (Types.embeddings db) (History.wf_embedding_buffers W)
              (History.wf_embedding_keys W) []) as [found [-> [Hfound Hnd]]].
  cbn [bind app]. eexists. split; [reflexivity|]. split; [|split].
  - intros Hn. eapply Nat.le_trans; [apply SemanticProofs.fetch_length|].
    now apply SortFacts.slice_length.
  - intros e s Hin. apply SemanticProofs.fetch_found in Hin as [Hin He].
    split; [exact He|].
    apply SortFacts.slice_In, SortFacts.sort_In in Hin.
    destruct (Hfound _ Hin) as [row [Hrow Hsc]]. exists row. split; [|exact Hsc].
    destruct Hsc as [Hk _]. cbn [fst] in Hk. rewrite Hk.
    unfold EmbeddingAdmin.getEmbeddingByErrorId.
    exact (StoreFacts.find_unique Types.emb_error_id (Types.embeddings db) row
             (History.wf_embedding_keys W) Hrow).
  - apply SemanticProofs.fetch_NoDup, SemanticProofs.slice_NoDup, SemanticProofs.sort_NoDup.
    exact Hnd.
Qed.

(* ================================================================= *)
(** ** Searching by tag *)

Module TagSearchProofs.
Import Js Types Sql History Session.

Lemma lower_not_upper (c : ascii) : is_upper (lower_char c) = false.
Proof.
  apply negb_true_iff.
  apply (TrimFacts.for_all_ascii (fun c => negb (is_upper (lower_char c)))).
  vm_compute. reflexivity.
Qed.

Lemma sql_lower_id (s : str) :
  (forall c, In c s -> is_upper c = false) -> ErrorService.sql_lower s = s.
Proof.
  intros H. unfold ErrorService.sql_lower. induction s as [|c s IH]; [reflexivity|].
  cbn [map]. rewrite (H c) by now left. f_equal. apply IH. intros d Hd. apply H. now right.
Qed.

(** SQL's [LOWER] changes no name that [createTag] has normalised. *)
Lemma sql_lower_name (db : Db) (t : TagRow) :
  tags_sound db -> In t (tag_rows db) -> ErrorService.sql_lower (name t) = name t.
Proof.
  intros Hs Hin. pose proof (ts_names Hs) as Hn. rewrite Forall_forall in Hn.
  specialize (Hn t Hin). apply sql_lower_id. intros c Hc. rewrite <- Hn in Hc.
  destruct (SpacingProofs.trim_infix (toLowerCase (name t))) as [l [r E]].
  assert (Hc' : In c (toLowerCase (name t))).
  { rewrite E. apply in_or_app. right. apply in_or_app. now left. }
  unfold toLowerCase in Hc'. apply in_map_iff in Hc' as [d [<- _]].
  apply lower_not_upper.
Qed.

(** An error that passes the tag filter carries one of the wanted tags. *)
Lemma tagged_has_tag (db : Db) (wanted : list str) (row : ErrorRow) :
  tags_sound db ->
  ErrorService.tagged db wanted row = true ->
  exists w, In w wanted /\ In (toLowerCase w) (tags (ErrorService.with_tags_of db row)).
Proof.
  intros Hs H. unfold ErrorService.tagged in H.
  apply existsb_exists in H as [t [Hin H]]. apply andb_prop in H as [Hl Hw].
  apply existsb_exists in Hw as [lw [Hlw Heq]]. apply StoreFacts.eqb_eq in Heq.
  apply in_map_iff in Hlw as [w [<- Hw]].
  rewrite (@sql_lower_name db t Hs Hin) in Heq.
  exists w. split; [exact Hw|]. cbn [ErrorService.with_tags_of tags].
  rewrite <- Heq. apply in_map. apply LinkProofs.tags_of_error_In.
  split; [exact Hin | now apply SessionProofs.has_link_In].
Qed.

End TagSearchProofs.

(** X28: [findByTags] in a database reached by a session.  Every result is
    a stored error as [getErrorById] gives it, with its solutions, match type
    [tag] and no similarity; when tags are given, each result carries the
    lower-case spelling of one of them.  No error comes twice and there are at
    most 20 results.  With an empty list of tags the results are the errors
    [getRecentErrors] returns, whatever their tags. *)
Theorem X28_findByTags_results (calls : list Session.Call) (tags : list Js.str) :
  let db := Session.run calls Types.empty_db in
  let results := MemoryService.findByTags db tags in
  (forall r, In r results ->
     ErrorService.getErrorById db (Ranking.id_of r) = Some (Types.res_error r)
     /\ Types.res_solutions r = SolutionService.getSolutionsForError db (Ranking.id_of r)
     /\ Types.matchType r = Types.by_tag
     /\ Types.similarity r = None
     /\ (tags <> [] ->
         exists w, In w tags
                   /\ In (Js.toLowerCase w) (Types.tags (Types.res_error r))))
  /\ NoDup (map Ranking.id_of results)
  /\ List.length results <= 20
  /\ map Types.res_error (MemoryService.findByTags db [])
     = ErrorAdmin.getRecentErrors db None.
Proof.
  cbv zeta. pose proof (SessionProofs.reachable_sound calls) as Hs.
  set (db := Session.run calls Types.empty_db) in *.
  unfold MemoryService.findByTags, ErrorService.searchErrors, ErrorService.most_recent.
  cbn [Types.limit Types.opt_tags Similarity.default].
  set (options := {| Types.limit := None; Types.minSimilarity := None;
                     Types.opt_tags := Some tags; Types.projectName := None;
                     Types.errorType := None; Types.opt_severity := None;
                     Types.includeEmbeddings := None |}).
  set (rows := filter (ErrorService.matches options) _).
  assert (Hrows : forall row, In row rows ->
            In row (Types.errors db)
            /\ (tags <> [] -> ErrorService.tagged db tags row = true)).
  { intros row Hin. unfold rows in Hin. apply filter_In in Hin as [Hin _].
    destruct tags as [|t ts]; [split; [exact Hin | congruence]|].
    apply filter_In in Hin. tauto. }
  assert (Hnd : NoDup (map Types.id rows)).
  { unfold rows. apply SessionProofs.NoDup_map_filter.
    pose proof (History.wf_error_ids_nodup (Session.s_wf Hs)) as H.
    destruct tags as [|t ts]; [exact H | now apply SessionProofs.NoDup_map_filter]. }
  split; [|split; [|split]].
  - intros r Hr. apply in_map_iff in Hr as [e [<- He]].
    apply in_map_iff in He as [row [<- Hrow]].
    apply ListingProofs.top_In in Hrow. apply Hrows in Hrow as [Hin Htag].
    unfold Ranking.id_of.
    cbn [Types.res_error Types.res_solutions Types.matchType Types.similarity
         ErrorService.with_tags_of Types.error].
    split.
    { unfold ErrorService.getErrorById, Sql.error_by_id.
      rewrite (StoreFacts.find_unique Types.id (Types.errors db) row
                 (History.wf_error_ids_nodup (Session.s_wf Hs)) Hin).
      reflexivity. }
    repeat (split; [reflexivity|]).
    intros Hne. exact (@TagSearchProofs.tagged_has_tag db tags row (Session.s_tags Hs) (Htag Hne)).
  - rewrite !map_map. unfold Ranking.id_of.
    cbn [Types.res_error ErrorService.with_tags_of Types.error].
    unfold Sorting.sql_limit. cbn [Z.ltb Z.compare].
    apply SemanticProofs.firstn_NoDup, SemanticProofs.sort_NoDup. exact Hnd.
  - rewrite !length_map.
    apply (@ListingProofs.top_length _ Types.last_seen_at 20%Z rows). lia.
  - rewrite map_map. cbn [Types.res_error]. rewrite map_id.
    unfold ErrorAdmin.getRecentErrors, ErrorService.most_recent. cbn [Similarity.default].
    rewrite (filter_ext _ (fun _ => true)), ListingProofs.filter_all; [reflexivity|].
    intros row. reflexivity.
Qed.

(* ================================================================= *)
(** ** The memories for a task *)

Module MemoryProofs.
Import Js Types Sql Ranking MemoryService.

(** The loop that adds the results of one search to those of the searches
    before it. *)
Lemma add_unseen_spec (found : list ErrorSearchResult) :
  forall results,
    NoDup (map id_of results) ->
    exists extra,
      add_unseen results found = results ++ extra
      /\ NoDup (map id_of (results ++ extra))
      /\ (forall r, In r extra -> In r found).
Proof.
  unfold add_unseen. induction found as [|f found IH]; intros results Hnd.
  - exists []. rewrite app_nil_r. split; [reflexivity|]. split; [exact Hnd | intros r []].
  - cbn [fold_left]. fold (id_of f).
    destruct (seen results (id_of f)) eqn:Es.
    + destruct (IH results Hnd) as (extra & E & N & Hin).
      exists extra. split; [exact E|]. split; [exact N|]. intros r Hr. right. now apply Hin.
    + assert (Hnd' : NoDup (map id_of (results ++ [f]))).
      { rewrite map_app. cbn [map]. apply NoDup_app; [exact Hnd | repeat constructor; intros [] |].
        intros x Hx [<- | []]. apply FusionProofs.seen_In in Hx. congruence. }
      destruct (IH (results ++ [f]) Hnd') as (extra & E & N & Hin).
      exists (f :: extra). rewrite E, <- app_assoc. cbn [app].
      split; [reflexivity|]. split; [now rewrite <- app_assoc in N|].
      intros r [<- | Hr]; [now left | right; now apply Hin].
Qed.

End MemoryProofs.

(** X29: [getRelevantMemories] returns at most five results and its
    [totalMatches] is the number of results it returns.  No error comes
    twice.  Every result was found by the search on the error message (five
    at most, similarity 0.5 or more), or is one of the first three results of
    the search by the given tags, or one of the first three of the search by
    the first five keywords of the context. *)
Theorem X29_getRelevantMemories_results
        (config : MemoryService.Config) (db : Types.Db)
        (context : ContextBuilder.TaskContext) :
  let memory := MemoryService.getRelevantMemories config db context in
  let results := MemoryService.relevantErrors memory in
  MemoryService.totalMatches memory = List.length results
  /\ List.length results <= 5
  /\ NoDup (map Ranking.id_of results)
  /\ (forall r, In r results ->
        (exists errorMessage,
            Types.or_null (ContextBuilder.errorMessage context) = Some errorMessage
            /\ In r (MemoryService.findSimilar config db errorMessage
                       {| Types.limit := Some 5%Z; Types.minSimilarity := Some (5 # 10)%Q;
                          Types.opt_tags := None; Types.projectName := None;
                          Types.errorType := None; Types.opt_severity := None;
                          Types.includeEmbeddings := None |}))
        \/ (exists t ts,
               ContextBuilder.ctx_tags context = Some (t :: ts)
               /\ In r (Sorting.slice 3 (MemoryService.findByTags db (t :: ts))))
        \/ In r (Sorting.slice 3
                   (MemoryService.findByTags db
                      (Sorting.slice 5 (ContextBuilder.extractContextKeywords context))))).
Proof.
  cbv zeta. unfold MemoryService.getRelevantMemories.
  cbn [MemoryService.buildMemoryContext MemoryService.relevantErrors
       MemoryService.totalMatches].
  set (options := {| Types.limit := Some 5%Z; Types.minSimilarity := Some (5 # 10)%Q;
                     Types.opt_tags := None; Types.projectName := None;
                     Types.errorType := None; Types.opt_severity := None;
                     Types.includeEmbeddings := None |}).
  set (P1 := fun r => exists errorMessage,
                 Types.or_null (ContextBuilder.errorMessage context) = Some errorMessage
                 /\ In r (MemoryService.findSimilar config db errorMessage options)).
  set (P2 := fun r => exists t ts,
                 ContextBuilder.ctx_tags context = Some (t :: ts)
                 /\ In r (Sorting.slice 3 (MemoryService.findByTags db (t :: ts)))).
  set (P3 := fun r => In r (Sorting.slice 3
                              (MemoryService.findByTags db
                                 (Sorting.slice 5
                                    (ContextBuilder.extractContextKeywords context))))).
  set (r1 := match Types.or_null (ContextBuilder.errorMessage context) with
             | Some errorMessage => _
             | None => []
             end).
  assert (H1 : NoDup (map Ranking.id_of r1) /\ forall r, In r r1 -> P1 r).
  { unfold r1, P1. destruct (Types.or_null (ContextBuilder.errorMessage context)) as [m|].
    - destruct (@MemoryProofs.add_unseen_spec (MemoryService.findSimilar config db m options) [])
        as (extra & -> & N & Hin); [constructor|].
      split; [exact N|]. intros r Hr. exists m. split; [reflexivity | now apply Hin].
    - split; [constructor | intros r []]. }
  destruct H1 as [N1 H1].
  set (r2 := match ContextBuilder.ctx_tags context with
             | Some (t :: ts) => _
             | _ => r1
             end).
  assert (H2 : NoDup (map Ranking.id_of r2) /\ forall r, In r r2 -> P1 r \/ P2 r).
  { unfold r2, P2. destruct (ContextBuilder.ctx_tags context) as [[|t ts]|];
      [split; [exact N1 | intros r Hr; left; now apply H1] |
      | split; [exact N1 | intros r Hr; left; now apply H1]].
    destruct (@MemoryProofs.add_unseen_spec
                (Sorting.slice 3 (MemoryService.findByTags db (t :: ts))) r1 N1)
      as (extra & -> & N & Hin).
    split; [exact N|]. intros r Hr. apply in_app_or in Hr as [Hr | Hr].
    - left. now apply H1.
    - right. exists t, ts. split; [reflexivity | now apply Hin]. }
  destruct H2 as [N2 H2].
  set (r3 := if 0 <? List.length (ContextBuilder.extractContextKeywords context)
             then _ else r2).
  assert (H3 : NoDup (map Ranking.id_of r3) /\ forall r, In r r3 -> P1 r \/ P2 r \/ P3 r).
  { unfold r3, P3. destruct (0 <? List.length (ContextBuilder.extractContextKeywords context)).
    - destruct (@MemoryProofs.add_unseen_spec
                  (Sorting.slice 3
                     (MemoryService.findByTags db
                        (Sorting.slice 5 (ContextBuilder.extractContextKeywords context))))
                  r2 N2) as (extra & -> & N & Hin).
      split; [exact N|]. intros r Hr. apply in_app_or in Hr as [Hr | Hr].
      + destruct (H2 r Hr); tauto.
      + right. right. now apply Hin.
    - split; [exact N2|]. intros r Hr. destruct (H2 r Hr); tauto. }
  destruct H3 as [N3 H3].
  split; [reflexivity|].
  split; [apply (@SortFacts.slice_length _ 5%Z); lia|].
  split.
  - apply SemanticProofs.slice_NoDup, SemanticProofs.sort_NoDup. exact N3.
  - intros r Hr. apply SortFacts.slice_In, SortFacts.sort_In in Hr. exact (H3 r Hr).
Qed.

(* ================================================================= *)
(** ** Capturing an error with its solution *)

Module CaptureProofs.
Import Js Types Sql History StoreFacts HistoryProofs Session SessionProofs MemoryFacade.

(** [recordError] returns the id of the row that then has the fingerprint. *)
Lemma recordError_stored (now : nat) (input : ErrorInput) (db : Db) :
  sound db ->
  exists i db1 row,
    ErrorService.recordError now input db = Ok (i, db1)
    /\ sound db1
    /\ error_by_id db1 i = Some row
    /\ error_by_hash db1 (ErrorService.fingerprint input) = Some row
    /\ id row = i.
Proof.
  intros Hs.
  destruct (error_by_hash db (ErrorService.fingerprint input)) as [existing|] eqn:E.
  - pose proof (recordError_seen now input db E) as Er.
    exists (id existing), (update_error_seen now (id existing) db), (seen_again now existing).
    split; [exact Er|]. split; [exact (@recordError_sound now input db _ Hs Er)|].
    rewrite RecordErrorProofs.by_id_after_update, RecordErrorProofs.by_hash_after_update, E.
    rewrite (@RecordErrorProofs.by_hash_id _ _ _ (s_wf Hs) E). cbn [option_map].
    rewrite Nat.eqb_refl. repeat split.
  - destruct (recordError_new now input db E) as (db1 & Er & Ee & _).
    exists (S (errors_seq db)), db1, (new_error now input db).
    split; [exact Er|]. split; [exact (@recordError_sound now input db _ Hs Er)|].
    unfold error_by_id, error_by_hash in *. rewrite Ee. split; [|split; [|reflexivity]].
    + apply TagProofs.find_app_last; [|cbn; apply Nat.eqb_refl].
      exact (ReportProofs.fresh_id (s_wf Hs)).
    + apply TagProofs.find_app_last; [exact E | cbn; apply eqb_refl].
Qed.

Lemma storeEmbedding_ok (heap : nat -> Z) (e : nat) (v : list float) (m : str) (db : Db) :
  error_by_id db e <> None ->
  exists db',
    EmbeddingService.storeEmbedding heap e v m db = Ok (lastInsertRowid db', db')
    /\ upsert_embedding e (flat_map Packing.enc v) m (List.length v) db = Ok db'.
Proof.
  intros He. unfold EmbeddingService.storeEmbedding.
  destruct (error_by_id db e) eqn:E; [|contradiction].
  rewrite BufferProofs.pack_loop. cbn [bind].
  destruct (upsert_embedding e (flat_map Packing.enc v) m (List.length v) db)
    as [db'|x] eqn:Eu.
  - exists db'. split; reflexivity.
  - unfold upsert_embedding in Eu. rewrite E in Eu. destruct (existsb _ _); discriminate.
Qed.

End CaptureProofs.

(** X30: in a database reached by a session [captureError] and
    [recordErrorWithSolution] always return, whatever the embedding provider
    does.  [captureError] returns the id [recordError] gives and leaves the
    errors as [recordError] does; when embeddings are enabled and the provider
    answers, the error then has that vector (in single precision) as its
    embedding, and otherwise the embeddings are untouched.
    [recordErrorWithSolution] returns that id and the id of a new solution,
    which is attached to the captured error whatever error id its input
    carried. *)
Theorem X30_recordErrorWithSolution_attaches
        (calls : list Session.Call) (config : MemoryFacade.Settings) (heap : nat -> Z)
        (now : nat) (error : Types.ErrorInput) (solution : Types.SolutionInput) :
  let db := Session.run calls Types.empty_db in
  exists errorId solutionId db0 db1 db' found,
    ErrorService.recordError now error db = Ok (errorId, db0)
    /\ MemoryFacade.captureError config heap now error db = Ok (errorId, db1)
    /\ MemoryFacade.recordErrorWithSolution config heap now error solution db
       = Ok ((errorId, solutionId), db')
    /\ Types.errors db1 = Types.errors db0
    /\ match MemoryFacade.enableEmbeddings config, MemoryFacade.embeddingGenerator config with
       | true, Some generator =>
           match MemoryFacade.generate generator (Types.in_message error) with
           | Ok embedding =>
               EmbeddingAdmin.getEmbeddingVector db1 errorId
               = Ok (Some (map Float32.fround embedding))
           | Throw _ => Types.embeddings db1 = Types.embeddings db0
           end
       | _, _ => Types.embeddings db1 = Types.embeddings db0
       end
    /\ ErrorService.getErrorByHash db' (ErrorService.fingerprint error) = Some found
    /\ Types.id (Types.error found) = errorId
    /\ SolutionService.getSolutionById db' solutionId
       = Some (History.new_solution now (MemoryFacade.with_errorId solution errorId) db1)
    /\ In (History.new_solution now (MemoryFacade.with_errorId solution errorId) db1)
          (SolutionService.getSolutionsForError db' errorId).
Proof.
  cbv zeta. pose proof (SessionProofs.reachable_sound calls) as Hs.
  set (db := Session.run calls Types.empty_db) in *.
  destruct (CaptureProofs.recordError_stored now error Hs)
    as (i & db0 & row & Er & Hs0 & Eid & Eh & Hid).
  assert (Hc : exists db1,
             MemoryFacade.captureError config heap now error db = Ok (i, db1)
             /\ Session.sound db1
             /\ Types.errors db1 = Types.errors db0
             /\ match MemoryFacade.enableEmbeddings config,
                      MemoryFacade.embeddingGenerator config with
                | true, Some generator =>
                    match MemoryFacade.generate generator (Types.in_message error) with
                    | Ok embedding =>
                        EmbeddingAdmin.getEmbeddingVector db1 i
                        = Ok (Some (map Float32.fround embedding))
                    | Throw _ => Types.embeddings db1 = Types.embeddings db0
                    end
                | _, _ => Types.embeddings db1 = Types.embeddings db0
                end).
  { unfold MemoryFacade.captureError. rewrite Er. cbn [bind fst snd].
    destruct (MemoryFacade.enableEmbeddings config);
      [|exists db0; split; [reflexivity|]; split; [exact Hs0|]; split; reflexivity].
    destruct (MemoryFacade.embeddingGenerator config) as [g|];
      [|exists db0; split; [reflexivity|]; split; [exact Hs0|]; split; reflexivity].
    destruct (MemoryFacade.generate g (Types.in_message error)) as [v|x];
      [|exists db0; split; [reflexivity|]; split; [exact Hs0|]; split; reflexivity].
    destruct (@CaptureProofs.storeEmbedding_ok heap i v (MemoryFacade.generator_model g) db0)
      as (db1 & Es & Eu); [congruence|].
    rewrite Es. cbn [snd]. exists db1. split; [reflexivity|].
    split; [exact (@SessionProofs.upsert_embedding_sound _ _ _ _ _ Hs0 Eu)|].
    destruct (RoundTripProofs.upsert_lookup _ _ _ _ _ Eu)
      as ((erow & Hrow & Hbuf & _) & _ & _ & Ee & _).
    split; [exact Ee|].
    unfold EmbeddingAdmin.getEmbeddingVector. rewrite Hrow, Hbuf.
    now rewrite BufferProofs.unpack_loop. }
  destruct Hc as (db1 & Ec & Hs1 & Ee & Hemb).
  assert (Eid1 : Sql.error_by_id db1 i = Some row)
    by (unfold Sql.error_by_id in *; now rewrite Ee).
  assert (Eh1 : Sql.error_by_hash db1 (ErrorService.fingerprint error) = Some row)
    by (unfold Sql.error_by_hash in *; now rewrite Ee).
  set (input := MemoryFacade.with_errorId solution i).
  pose proof (@HistoryProofs.recordSolution_ok now input db1) as Eso.
  cbn [input MemoryFacade.with_errorId Types.si_errorId] in Eso. fold input in Eso.
  specialize (Eso ltac:(congruence)).
  set (db' := Sql.with_solutions db1 (Types.solutions db1 ++ [History.new_solution now input db1])
                (S (Types.solutions_seq db1)) (S (Types.solutions_seq db1))) in *.
  exists i, (S (Types.solutions_seq db1)), db0, db1, db', (ErrorService.with_tags_of db' row).
  split; [exact Er|]. split; [exact Ec|].
  split.
  { unfold MemoryFacade.recordErrorWithSolution, MemoryFacade.captureSolution.
    rewrite Ec. cbn [bind fst snd]. fold input. rewrite Eso. reflexivity. }
  split; [exact Ee|]. split; [exact Hemb|].
  split.
  { unfold ErrorService.getErrorByHash.
    change (Sql.error_by_hash db' (ErrorService.fingerprint error))
      with (Sql.error_by_hash db1 (ErrorService.fingerprint error)).
    now rewrite Eh1. }
  split; [exact Hid|].
  split.
  { unfold SolutionService.getSolutionById, db'. cbn [Sql.with_solutions Types.solutions].
    apply TagProofs.find_app_last; [|cbn; apply Nat.eqb_refl].
    exact (OutcomeProofs.fresh_solution_id (Session.s_wf Hs1)). }
  apply OutcomeProofs.solutions_of_error_In. unfold db'.
  cbn [Sql.with_solutions Types.solutions]. split; [|reflexivity].
  apply in_or_app. right. now left.
Qed.
